(* ===== verification/_CoqProject ===== *)
-Q . S2P
Prelude.v
GoStrings.v
Flags.v
Logging.v
Message.v
SqlTime.v
Queue.v
StoreLogic.v
TableFacts.v
QueueSpec.v
QueueClaim.v
QueueMark.v
Reference.v
QueueProps.v
Metrics.v
Sender.v
Backoff.v
SenderProps.v
Dispatch.v
DispatchLogic.v
Workers.v
DispatchProps.v
Loops.v
Readiness.v
Drain.v
Delivery.v
WorkersProps.v
Expiry.v
Config.v
ConfigProps.v
Smtp.v
Connections.v
SmtpProps.v
SmtpServer.v
Domains.v
Mime.v
MimeProps.v
Dlq.v
DlqProps.v
Httpops.v
Cli.v
System.v
Serve.v
ServeProps.v
