(* ===== verification/Prelude.v ===== *)
(** * smtp-mailersend-relay: a verification development

    The relay accepts mail over SMTP, turns each message into one API message
    per recipient, stores them as jobs in SQLite, and dispatches the jobs in
    batches to the MailerSend bulk API, with retries, leases and a dead-letter
    queue. The development models the Go implementation under src/ and proves
    what makes it correct: a message answered with 250 is durably queued for
    every recipient and never lost, only authorised senders get that far, a
    job is handed out once at a time and ends where the API's answer puts it,
    and the API accepts it once unless a failure hides its answer.

    ** The program and its model

    - [Prelude], [GoStrings], [SqlTime], [Flags]: Go's results, 64-bit integers, the
      parts of strings, strconv and flag the code calls, timestamps.
    - [Logging] (internal/logging): the configuration of the logger.
    - [Message]: the API's message types ([mailersend-go]); their JSON encoding is
      the class [JSONCodec].
    - [Queue] (internal/queue/types.go, sqlite_store.go): the table [jobs] is a
      finite map from keys to rows; an SQL statement is a function on it, a
      method of SQLiteStore a computation in a monad over the database in
      which every driver call takes its outcome from a list of faults.
      Transactions restore the table when their body or commit fails.
      [StoreLogic] has the program logic ([ensures] for every fault, [runs] without
      faults, [fails]), [TableFacts] the statements as map operations, [QueueSpec]
      the abstract queue, the row invariant and the refinement, [QueueClaim] and
      [QueueMark] the exact behaviour of the methods, [QueueProps] the properties.
    - [Metrics] (internal/metrics): the instruments as values, their descriptors
      and their registration.
    - [Sender], [SenderProps] (internal/dispatch/sender.go): the API client over a
      class [HTTPLib] for the network, URLs and JSON. [Do] is the redirect loop
      of [http.Client]: the client has no policy of its own, so redirects are
      followed, 301, 302 and 303 as a GET without the payload.
    - [Backoff] (dispatcher.go, jitteredBackoff): binary64 arithmetic on integers.
    - [Dispatch], [DispatchLogic], [DispatchProps] (dispatcher.go, limiter.go): the loops
      of the workers, of the lease recovery and of the depth gauge. What an
      iteration meets (context, limiter, clock, draw, API answer) is a record,
      so that a theorem over all lists of records covers all executions.
    - [Loops]: all the ticks of the lease recovery and of the depth gauge.
    - [Readiness] (dispatcher.go, Ready; limiter.go): the heartbeat of a worker against the
      grants it waits for.
    - [Drain]: a measure on the table, the attempts its jobs have left, that every
      API call lowers.
    - [Delivery]: a batch whose POST is redirected, from the client to the table.
    - [Workers], [WorkersProps] (dispatcher.go, Start and workerLoop): any number of
      workers of any number of processes as a step relation. An iteration is
      cut where the code leaves the process (claim, API call, each mark), and
      every other operation of the queue may come in between. [batch_marks]
      specifies the marks of a batch, [processBatch] is proved to make exactly
      these, and [workerLoop] is an execution of the relation. [Expiry]: the
      execution in which a lease expires while its batch waits for the API.
    - [Config], [ConfigProps] (internal/config/config.go): loading and validation.
    - [Smtp], [SmtpProps] (internal/smtpserver/server.go): the session handlers as
      functions on session, backend, store and metrics; a connection is a list
      of commands in any order. [Connections]: acquire and release as atomic
      steps that the goroutines of all connections interleave; the map of rate
      limiters only grows. [SmtpServer]: the settings, the construction and the
      shutdown of the server. [Domains]: plain addresses (two dot-atoms, which
      RFC 5322 parsing leaves as they are) and their domain under case folding.
    - [Mime], [MimeProps] (internal/mimeparse/transformer.go): the transformation;
      the standard library's parsers are the class [MimeLib].
    - [Dlq], [DlqProps] (internal/dlq/dlq.go): export and replay, with the buffered
      writer and the line scanner they use.
    - [Httpops] (internal/httpops/server.go): the routes and the probes.
    - [Cli] (cmd/relay/main.go): the commands from their parsed flags on.
    - [System]: the composition: accepted messages through the queue's life, the
      senders they carry, and the replay command.
    - [Serve], [ServeProps] (cmd/relay/main.go, OpenSQLite, Dispatcher.New and Start): the program
      from its arguments to its exit status: flags, opening the database,
      deferred calls, the error channel and the select of [runServe], as a log of
      what leaves the process.
    - [Reference]: concrete instances of the classes, which witness that the laws
      assumed of the parameters can hold and which the witnesses evaluate.

    Components meet through classes ([JSONCodec], [SqlEngine], [TimeDriver], [HTTPLib],
    [NetLib], [RateLimiter], [Transformer], [MimeLib], [RecordCodec],
    [DurationParser], [ZapLib], [PromRegistry]) and through the queue's
    specification: the clients' theorems use [ensures_claimJobs], [ensures_mark],
    [ensures_EnqueueTx] and [op_step], never the bodies of the methods.

    ** What is shown

    - Safety end to end: an accepted message keeps its rows for ever; no open
      relay; no ASCII sender of a foreign domain when the envelope sender is a
      plain address; replies tell the truth about the queue ([System],
      [SmtpProps]).
    - The queue: refinement of the abstract queue by every method under every
      fault, atomic enqueue, exact claims and marks, disjoint claims, the row
      invariant in every reachable table, progress, first come first served.
    - The dispatcher: the exact effect of a batch, delivery in one iteration,
      one API call per grant and batches within the limits, an end to every
      backlog whatever the API answers, what the two periodic loops do over all
      their ticks, bounds of the retry delay.
    - The workers together: exclusive leases in every interleaving that keeps
      the lease time, at most one acceptance per job, and the loop refines the
      step system ([WorkersProps]).
    - The process: start and stop in order, nothing started after an error;
      what each operator command does and leaves alone, from its arguments on
      ([ServeProps]).
    - Transformation: termination, one message per recipient from an unforged
      sender, nothing lost from multiparts, exact headers, base 64 round trip.
    - Configuration bounds, connection accounting under interleaving, export and
      replay round trip (ASCII identifiers, records below the line limit), the
      API client's results through redirects.
    - Flaws the model exhibits: a poisoned payload blocks claims; an iteration
      error leases rows without returning them; a zero requeue interval
      panics; the largest size limit refuses every message; readiness of a relay
      with one worker flaps at the default rate; export hides a failed write and replay cannot read
      long records; content without a name can vanish; a lease that expires in
      flight delivers twice; a redirected POST loses its batch; per-address rate
      limiters are never freed; a failed listener ends with exit status 0.

    ** Bounds and fuel

    [parseContent] recurses on fuel, one unit per level of nesting; [Transform] gives
    it one more than the length of the body, and [transform_total] shows that
    this is enough when parts are shorter than the body they were cut from.
    [follow] makes at most ten requests, as net/http does: its fuel is that limit
    and running out of it is the error the code gets. [write_loop] has fuel 3: after at most two rounds the data fits. Every other
    recursion is structural. Integers are mathematical with the wrap-around
    written out ([wrap64]) where the code can reach it.

    ** What is not modelled

    The wire protocols and servers (go-smtp, net/http, TLS), SQLite below the
    statements, the text of /metrics, log lines, the usage text of flag, the
    delivery of signals (a signal is one of the things the select may see),
    and the parsers and codecs of the standard library, which are parameters
    with their documented laws as hypotheses. What the sessions and goroutines
    do while [runServe] runs is a function there; the other files say what it
    can be. *)

From Stdlib Require Export ZArith Ascii String Lia.
From stdpp Require Export base gmap strings list sorting pretty.
Abbreviation length := List.length.

Declare Scope relay_scope.
Delimit Scope relay_scope with relay.
Global Open Scope Z_scope.
Global Open Scope relay_scope.

(** ** Go's [(T, error)] results *)

(** The text of a Go [error], as [err.Error()] returns it. *)
Definition error := string.

(** A call that returns [(value, nil)] or [(zero, err)]. *)
Inductive result (E A : Type) : Type :=
| Ok (a : A)
| Err (e : E).
Arguments Ok {E A} a.
Arguments Err {E A} e.

#[export] Instance result_eq_dec {E A} `{EqDecision E, EqDecision A} : EqDecision (result E A).
Proof. solve_decision. Defined.

#[export] Instance result_ret {E} : MRet (result E) := λ A a, Ok a.
#[export] Instance result_bind {E} : MBind (result E) :=
  λ A B f m, match m with Ok a => f a | Err e => Err e end.

(** [fmt.Errorf("prefix: %w", err)] leaves a value untouched and prefixes an error. *)
Definition wrapf {A} (prefix : string) (m : result error A) : result error A :=
  match m with Ok a => Ok a | Err e => Err (prefix +:+ ": " +:+ e) end.

Definition is_ok {E A} (m : result E A) : bool :=
  match m with Ok _ => true | Err _ => false end.

(** ** Stateful, fallible code: a state monad over a world [W] whose
    computations return a Go result; an error keeps the state reached so far. *)

Definition M (W A : Type) : Type := W → result error A * W.

#[export] Instance M_ret {W} : MRet (M W) := λ A a w, (Ok a, w).
#[export] Instance M_bind {W} : MBind (M W) :=
  λ A B f m w, match m w with
               | (Ok a, w') => f a w'
               | (Err e, w') => (Err e, w')
               end.

Definition throw {W A} (e : error) : M W A := λ w, (Err e, w).
(** A step given by its function on the world. *)
Definition step {W A} (f : W → result error A * W) : M W A := f.
Definition lift {W A} (r : result error A) : M W A := λ w, (r, w).

(** [if err != nil { return fmt.Errorf("prefix: %w", err) }] after a call. *)
Definition wrapM {W A} (prefix : string) (m : M W A) : M W A :=
  λ w, let '(r, w') := m w in (wrapf prefix r, w').

(** ** Go's [int] and [int64]: 64-bit two's complement *)

Definition two63 : Z := 9223372036854775808.
Definition two64 : Z := 18446744073709551616.
Definition max_int64 : Z := 9223372036854775807.
Definition min_int64 : Z := -9223372036854775808.

(** The value an int64 operation leaves when its exact result is [z]. *)
Definition wrap64 (z : Z) : Z := (z + two63) mod two64 - two63.

Definition in_int64 (z : Z) : Prop := min_int64 ≤ z ≤ max_int64.

#[export] Instance in_int64_dec z : Decision (in_int64 z).
Proof. unfold in_int64; apply _. Defined.

(** ** Lengths as Go's [len], in [Z] *)

Definition zlen {A} (l : list A) : Z := Z.of_nat (List.length l).
Definition slen (s : string) : Z := Z.of_nat (String.length s).

Fixpoint sumZ {A} (f : A → Z) (l : list A) : Z :=
  match l with
  | [] => 0
  | x :: l' => f x + sumZ f l'
  end.

(** The longest prefix whose elements all satisfy [p]. *)
Fixpoint take_while {A} (p : A → bool) (l : list A) : list A :=
  match l with
  | [] => []
  | x :: l' => if p x then x :: take_while p l' else []
  end.

(** ** Tactics *)

(** Case analysis on every [match]/[if] scrutinee of a hypothesis. *)
Ltac case_in H :=
  repeat match type of H with
         | context [match ?x with _ => _ end] =>
             let E := fresh "E" in destruct x eqn:E; simplify_eq/=
         end.

Ltac case_goal :=
  repeat match goal with
         | |- context [match ?x with _ => _ end] =>
             let E := fresh "E" in destruct x eqn:E; simplify_eq/=
         end.

(** Boolean tests of the code as propositions. *)
Ltac bool_to_prop :=
  repeat match goal with
         | H : _ && _ = true |- _ => apply andb_prop in H as [? ?]
         | H : _ && _ = false |- _ => apply andb_false_iff in H
         | H : _ || _ = true |- _ => apply orb_prop in H
         | H : _ || _ = false |- _ => apply orb_false_elim in H as [? ?]
         | H : negb _ = true |- _ => apply negb_true_iff in H
         | H : negb _ = false |- _ => apply negb_false_iff in H
         | H : (_ <=? _)%Z = true |- _ => apply Z.leb_le in H
         | H : (_ <=? _)%Z = false |- _ => apply Z.leb_gt in H
         | H : (_ <? _)%Z = true |- _ => apply Z.ltb_lt in H
         | H : (_ <? _)%Z = false |- _ => apply Z.ltb_ge in H
         | H : (_ >? _)%Z = true |- _ => rewrite Z.gtb_ltb in H
         | H : (_ >? _)%Z = false |- _ => rewrite Z.gtb_ltb in H
         | H : (_ >=? _)%Z = true |- _ => rewrite Z.geb_leb in H
         | H : (_ >=? _)%Z = false |- _ => rewrite Z.geb_leb in H
         | H : (_ =? _)%Z = true |- _ => apply Z.eqb_eq in H
         | H : (_ =? _)%Z = false |- _ => apply Z.eqb_neq in H
         | H : (_ =? _)%string = true |- _ => apply String.eqb_eq in H
         | H : (_ =? _)%string = false |- _ => apply String.eqb_neq in H
         | H : bool_decide _ = true |- _ => apply bool_decide_eq_true in H
         | H : bool_decide _ = false |- _ => apply bool_decide_eq_false in H
         end.

Create HintDb relay.
Create Rewrite HintDb zlen.

(** ** Lemmas on results and the monad *)

Lemma bind_ok {E A B} (m : result E A) (f : A → result E B) b :
  m ≫= f = Ok b ↔ ∃ a, m = Ok a ∧ f a = Ok b.
Proof. destruct m; cbn; naive_solver. Qed.

Lemma M_bind_ok {W A B} (m : M W A) (f : A → M W B) w b w' :
  (m ≫= f) w = (Ok b, w') ↔ ∃ a w1, m w = (Ok a, w1) ∧ f a w1 = (Ok b, w').
Proof. unfold mbind, M_bind. destruct (m w) as [[a|e] w1]; naive_solver. Qed.

Lemma wrapf_ok {A} p (m : result error A) a : wrapf p m = Ok a ↔ m = Ok a.
Proof. destruct m; naive_solver. Qed.

Lemma wrapM_ok {W A} p (m : M W A) w a w' :
  wrapM p m w = (Ok a, w') ↔ m w = (Ok a, w').
Proof. unfold wrapM. destruct (m w) as [r w1]; destruct r; cbn; naive_solver. Qed.

(** ** Lemmas on 64-bit integers *)

Lemma wrap64_id z : in_int64 z → wrap64 z = z.
Proof.
  unfold in_int64, wrap64, min_int64, max_int64, two63, two64. intros H.
  rewrite Z.mod_small; lia.
Qed.

Lemma wrap64_range z : in_int64 (wrap64 z).
Proof.
  unfold in_int64, wrap64, min_int64, max_int64, two63, two64.
  pose proof (Z.mod_pos_bound (z + 9223372036854775808) 18446744073709551616). lia.
Qed.
#[export] Hint Resolve wrap64_range : relay.

(** ** Lemmas on lists *)

Lemma zlen_nonneg {A} (l : list A) : 0 ≤ zlen l.
Proof. unfold zlen; lia. Qed.
Lemma slen_nonneg s : 0 ≤ slen s.
Proof. unfold slen; lia. Qed.
#[export] Hint Resolve zlen_nonneg slen_nonneg : relay.

Lemma zlen_nil {A} : zlen (@nil A) = 0.
Proof. reflexivity. Qed.
Lemma zlen_cons {A} (x : A) l : zlen (x :: l) = 1 + zlen l.
Proof. unfold zlen; cbn [List.length]; lia. Qed.
Lemma zlen_app {A} (l k : list A) : zlen (l ++ k) = zlen l + zlen k.
Proof. unfold zlen; rewrite length_app; lia. Qed.
#[export] Hint Rewrite @zlen_nil @zlen_cons @zlen_app : zlen.

Lemma zlen_zero {A} (l : list A) : zlen l = 0 → l = [].
Proof. destruct l; [done|]. rewrite zlen_cons. pose proof (zlen_nonneg l). lia. Qed.

Lemma sumZ_app {A} (f : A → Z) l k : sumZ f (l ++ k) = sumZ f l + sumZ f k.
Proof. induction l; cbn; lia. Qed.

Lemma sumZ_nonneg {A} (f : A → Z) l : (∀ x, 0 ≤ f x) → 0 ≤ sumZ f l.
Proof. intros H. induction l as [|x l IH]; cbn; [lia|]. specialize (H x). lia. Qed.

Lemma sumZ_permutation {A} (f : A → Z) l k : l ≡ₚ k → sumZ f l = sumZ f k.
Proof. induction 1; cbn; lia. Qed.

Lemma take_while_prefix {A} (p : A → bool) l : take_while p l `prefix_of` l.
Proof.
  induction l as [|x l IH]; cbn; [by exists []|].
  destruct (p x); [by apply prefix_cons|by exists (x :: l)].
Qed.

Lemma StronglySorted_app_1 {A} (R : A → A → Prop) (l k : list A) :
  StronglySorted R (l ++ k) → StronglySorted R l.
Proof.
  induction l as [|x l IH]; cbn; [constructor|].
  intros [Hs Hf]%StronglySorted_inv. constructor; [by apply IH|].
  by apply Forall_app in Hf as [? _].
Qed.

Lemma StronglySorted_app_cross {A} (R : A → A → Prop) (l k : list A) x y :
  StronglySorted R (l ++ k) → x ∈ l → y ∈ k → R x y.
Proof.
  induction l as [|z l IH]; cbn; [intros _ H; by apply elem_of_nil in H|].
  intros [Hs Hf]%StronglySorted_inv [->|Hx]%elem_of_cons Hy; [|by apply IH].
  apply Forall_app in Hf as [_ Hf]. by eapply Forall_forall in Hf.
Qed.

Lemma StronglySorted_fmap_fst {A B} (R : A * B → A * B → Prop) (S : A → A → Prop) l :
  (∀ x y, x ∈ l → y ∈ l → R x y → S x.1 y.1) → StronglySorted R l → StronglySorted S l.*1.
Proof.
  induction l as [|x l IH]; intros HRS; cbn; [constructor|].
  intros [Hs Hf]%StronglySorted_inv. constructor.
  - apply IH; [|done]. intros y z Hy Hz. apply HRS; by right.
  - rewrite Forall_fmap. apply Forall_forall. intros y Hy. rewrite Forall_forall in Hf.
    apply HRS; [by left|by right|by apply Hf].
Qed.
