(* ===== verification/GoStrings.v ===== *)
(** * The parts of Go's [strings] and [strconv] packages the relay calls.

    Go strings are byte sequences: [String.string] is a list of 8-bit [ascii].
    [TrimSpace] and [Fields] work on UTF-8 white space, as Go's do; case
    mapping is written out for ASCII strings, and for a string with a byte
    above 127 it is a parameter (the Unicode tables, class [UnicodeCase]). *)

From S2P Require Import Prelude.

Definition empty : string := EmptyString.

Definition is_empty (s : string) : bool :=
  match s with EmptyString => true | String _ _ => false end.

(** ** Bytes *)

Definition chars (s : string) : list ascii := list_ascii_of_string s.
Definition of_chars (l : list ascii) : string := string_of_list_ascii l.

Definition byte_val (c : ascii) : Z := Z.of_nat (nat_of_ascii c).
Definition byte_of (z : Z) : ascii := ascii_of_nat (Z.to_nat z).
Definition byte_in (lo hi : Z) (c : ascii) : bool :=
  (lo <=? byte_val c) && (byte_val c <=? hi).

Definition ascii_char (c : ascii) : bool := byte_val c <? 128.
Definition ascii_only (s : string) : bool := forallb ascii_char (chars s).

(** ** White space: [unicode.IsSpace] on UTF-8 text *)

(** One-byte white space: tab, LF, VT, FF, CR and the blank. *)
Definition space1 (c : ascii) : bool := byte_in 9 13 c || (byte_val c =? 32).

(** U+0085 and U+00A0. *)
Definition space2 (c d : ascii) : bool :=
  (byte_val c =? 194) && ((byte_val d =? 133) || (byte_val d =? 160)).

(** U+1680, U+2000..U+200A, U+2028, U+2029, U+202F, U+205F and U+3000. *)
Definition space3 (c d e : ascii) : bool :=
  ((byte_val c =? 225) && (byte_val d =? 154) && (byte_val e =? 128))
  || ((byte_val c =? 226) && (byte_val d =? 128)
      && (byte_in 128 138 e || byte_in 168 169 e || (byte_val e =? 175)))
  || ((byte_val c =? 226) && (byte_val d =? 129) && (byte_val e =? 159))
  || ((byte_val c =? 227) && (byte_val d =? 128) && (byte_val e =? 128)).

Section skip.
Context (p2 : ascii → ascii → bool) (p3 : ascii → ascii → ascii → bool).

(** Does the text start with a white-space rune? *)
Definition starts_space (l : list ascii) : bool :=
  match l with
  | [] => false
  | c :: l1 =>
      space1 c ||
      match l1 with
      | [] => false
      | d :: l2 =>
          p2 c d || match l2 with [] => false | e :: _ => p3 c d e end
      end
  end.

(** Drop the leading white-space runes. *)
Fixpoint skip_space (l : list ascii) : list ascii :=
  match l with
  | [] => []
  | c :: l1 =>
      if space1 c then skip_space l1 else
      match l1 with
      | [] => l
      | d :: l2 =>
          if p2 c d then skip_space l2 else
          match l2 with
          | [] => l
          | e :: l3 => if p3 c d e then skip_space l3 else l
          end
      end
  end.
End skip.

(** From the right the bytes of a rune are met in the opposite order. *)
Definition space2_rev (d c : ascii) : bool := space2 c d.
Definition space3_rev (e d c : ascii) : bool := space3 c d e.

Definition trim_left (l : list ascii) : list ascii := skip_space space2 space3 l.
Definition trim_right (l : list ascii) : list ascii :=
  rev (skip_space space2_rev space3_rev (rev l)).

(** [strings.TrimSpace] *)
Definition TrimSpace (s : string) : string :=
  of_chars (trim_right (trim_left (chars s))).

(** The maximal runs of non-space text, [acc] being the current run reversed. *)
Fixpoint fields_from (acc : list ascii) (l : list ascii) : list (list ascii) :=
  let emit rest := match acc with [] => rest | _ => rev acc :: rest end in
  match l with
  | [] => emit []
  | c :: l1 =>
      if space1 c then emit (fields_from [] l1) else
      match l1 with
      | [] => fields_from (c :: acc) l1
      | d :: l2 =>
          if space2 c d then emit (fields_from [] l2) else
          match l2 with
          | [] => fields_from (c :: acc) l1
          | e :: l3 => if space3 c d e then emit (fields_from [] l3)
                       else fields_from (c :: acc) l1
          end
      end
  end.

(** [strings.Fields] *)
Definition Fields (s : string) : list string :=
  of_chars <$> fields_from [] (chars s).

(** ** Case *)

(** The case mappings, and the quoting, of strings that hold a byte above 127:
    Go's Unicode tables. *)
Class UnicodeCase := {
  lower_utf8 : string → string;
  upper_utf8 : string → string;
  fold_utf8 : string → string → bool;
  quote_utf8 : string → string
}.

Definition lower_char (c : ascii) : ascii :=
  if byte_in 65 90 c then byte_of (byte_val c + 32) else c.
Definition upper_char (c : ascii) : ascii :=
  if byte_in 97 122 c then byte_of (byte_val c - 32) else c.

Definition map_chars (f : ascii → ascii) (s : string) : string :=
  of_chars (f <$> chars s).

Section case.
Context `{UnicodeCase}.

(** [strings.ToLower], [strings.ToUpper] and [strings.EqualFold] *)
Definition ToLower (s : string) : string :=
  if ascii_only s then map_chars lower_char s else lower_utf8 s.
Definition ToUpper (s : string) : string :=
  if ascii_only s then map_chars upper_char s else upper_utf8 s.
Definition EqualFold (s t : string) : bool :=
  if ascii_only s && ascii_only t
  then String.eqb (map_chars lower_char s) (map_chars lower_char t)
  else fold_utf8 s t.

Definition dquote : ascii := byte_of 34.
Definition backslash : ascii := byte_of 92.

Definition hex_digit (z : Z) : ascii := byte_of (if z <? 10 then 48 + z else 87 + z).

Definition quote_char (c : ascii) : list ascii :=
  let v := byte_val c in
  if (v =? 34) || (v =? 92) then [backslash; c]
  else if v =? 7 then [backslash; "a"%char]
  else if v =? 8 then [backslash; "b"%char]
  else if v =? 9 then [backslash; "t"%char]
  else if v =? 10 then [backslash; "n"%char]
  else if v =? 11 then [backslash; "v"%char]
  else if v =? 12 then [backslash; "f"%char]
  else if v =? 13 then [backslash; "r"%char]
  else if (v <? 32) || (v =? 127) then [backslash; "x"%char; hex_digit (v / 16); hex_digit (v mod 16)]
  else [c].

(** The verb [%q] of package fmt ([strconv.Quote]). *)
Definition Quote (s : string) : string :=
  if ascii_only s then of_chars (dquote :: concat (quote_char <$> chars s) ++ [dquote])
  else quote_utf8 s.
End case.

(** ** Searching and cutting *)

(** [strings.Split(s, sep)] for a one-byte separator. *)
Fixpoint split_chars (sep : ascii) (acc : list ascii) (l : list ascii) : list (list ascii) :=
  match l with
  | [] => [rev acc]
  | c :: l' => if Ascii.eqb c sep then rev acc :: split_chars sep [] l'
               else split_chars sep (c :: acc) l'
  end.
Definition Split (s : string) (sep : ascii) : list string :=
  of_chars <$> split_chars sep [] (chars s).

(** [s[i+1:]] for [i := strings.LastIndex(s, sep)], [None] when [i < 0]. *)
Fixpoint after_last (sep : ascii) (s : string) : option string :=
  match s with
  | EmptyString => None
  | String c s' =>
      match after_last sep s' with
      | Some r => Some r
      | None => if Ascii.eqb c sep then Some s' else None
      end
  end.

Definition HasPrefix (s p : string) : bool := String.prefix p s.

(** [s[n:]] and [s[:n]] for [0 ≤ n ≤ len(s)]. *)
Fixpoint drop (n : nat) (s : string) : string :=
  match n, s with
  | O, _ => s
  | S n', String _ s' => drop n' s'
  | S _, EmptyString => EmptyString
  end.
Definition cut (n : nat) (s : string) : string := String.substring 0 n s.

Definition TrimPrefix (s p : string) : string :=
  if HasPrefix s p then drop (String.length p) s else s.

Definition string_rev (s : string) : string := of_chars (rev (chars s)).
Definition HasSuffix (s p : string) : bool := HasPrefix (string_rev s) (string_rev p).
Definition TrimSuffix (s p : string) : string :=
  if HasSuffix s p then cut (String.length s - String.length p) s else s.

(** [strings.TrimRight(s, c)] for a one-character cutset. *)
Fixpoint drop_while (p : ascii → bool) (l : list ascii) : list ascii :=
  match l with
  | [] => []
  | c :: l' => if p c then drop_while p l' else l
  end.
Definition TrimRight1 (s : string) (c : ascii) : string :=
  of_chars (rev (drop_while (Ascii.eqb c) (rev (chars s)))).

(** [io.ReadAll(io.LimitReader(r, n))] for a reader that delivers [content] and
    then ends, or fails with [err]: a limit that is not positive reads nothing. *)
Definition ReadAllLimited (n : Z) (content : string) (err : option error) : result error string :=
  if slen content <? n then
    match err with Some e => Err e | None => Ok content end
  else Ok (cut (Z.to_nat n) content).

(** ** [strconv] *)

Definition digit (c : ascii) : option Z :=
  if byte_in 48 57 c then Some (byte_val c - 48) else None.

(** The value of a run of decimal digits, [None] on any other byte. *)
Fixpoint digits_value (acc : Z) (l : list ascii) : option Z :=
  match l with
  | [] => Some acc
  | c :: l' => match digit c with Some d => digits_value (10 * acc + d) l' | None => None end
  end.

Definition parse_digits (l : list ascii) : option Z :=
  match l with [] => None | _ => digits_value 0 l end.

(** [strconv.ParseInt(s, 10, 64)], and [strconv.Atoi] on a 64-bit platform:
    an optional sign, at least one digit, and a value that fits an int64. *)
Definition ParseInt64 (s : string) : option Z :=
  let check v := if decide (in_int64 v) then Some v else None in
  match chars s with
  | [] => None
  | c :: l =>
      if Ascii.eqb c "-"%char then parse_digits l ≫= λ v, check (- v)
      else if Ascii.eqb c "+"%char then parse_digits l ≫= check
      else parse_digits (c :: l) ≫= check
  end.
Definition Atoi (s : string) : option Z := ParseInt64 s.

(** [strconv.Itoa] *)
Definition Itoa (z : Z) : string := pretty z.

(** [strconv.ParseBool] *)
Definition ParseBool (s : string) : option bool :=
  if bool_decide (s ∈ ["1"; "t"; "T"; "TRUE"; "true"; "True"]%string) then Some true
  else if bool_decide (s ∈ ["0"; "f"; "F"; "FALSE"; "false"; "False"]%string) then Some false
  else None.

(** ** Lemmas: conversions *)

Lemma of_chars_chars s : of_chars (chars s) = s.
Proof. apply string_of_list_ascii_of_string. Qed.
Lemma chars_of_chars l : chars (of_chars l) = l.
Proof. apply list_ascii_of_string_of_list_ascii. Qed.
Create Rewrite HintDb relay_str.
#[export] Hint Rewrite of_chars_chars chars_of_chars : relay_str.

Lemma chars_app (a b : string) : chars (a +:+ b) = chars a ++ chars b.
Proof.
  induction a as [|x a IH]; [done|].
  change (x :: chars (a +:+ b) = x :: (chars a ++ chars b)). by rewrite IH.
Qed.

Lemma of_chars_inj l k : of_chars l = of_chars k → l = k.
Proof. intros H%(f_equal chars). by rewrite !chars_of_chars in H. Qed.

Lemma is_empty_true s : is_empty s = true ↔ s = empty.
Proof. by destruct s. Qed.
Lemma is_empty_false s : is_empty s = false ↔ s ≠ empty.
Proof. by destruct s. Qed.

Lemma byte_val_range c : 0 ≤ byte_val c < 256.
Proof. unfold byte_val. pose proof (nat_ascii_bounded c). lia. Qed.

Lemma byte_val_byte_of z : 0 ≤ z < 256 → byte_val (byte_of z) = z.
Proof. intros Hz. unfold byte_val, byte_of. rewrite nat_ascii_embedding; lia. Qed.

(** ** Lemmas: trimming *)

Section skip_lemmas.
Context (p2 : ascii → ascii → bool) (p3 : ascii → ascii → ascii → bool).

Lemma skip_space_id l : starts_space p2 p3 l = false → skip_space p2 p3 l = l.
Proof.
  destruct l as [|c [|d [|e l]]]; cbn; intros H; bool_to_prop; try done.
  all: repeat match goal with E : _ = false |- _ => rewrite E; clear E end; done.
Qed.

Lemma skip_space_starts l : starts_space p2 p3 (skip_space p2 p3 l) = false.
Proof.
  remember (length l) as n eqn:Hn. revert l Hn.
  induction n as [n IH] using lt_wf_ind; intros [|c l1] ->; [done|].
  cbn. destruct (space1 c) eqn:H1; [apply (IH (length l1)); cbn; lia|].
  destruct l1 as [|d l2]; cbn -[skip_space]; [by rewrite H1|].
  destruct (p2 c d) eqn:H2; [apply (IH (length l2)); cbn; lia|].
  destruct l2 as [|e l3]; cbn -[skip_space]; [by rewrite H1, H2|].
  destruct (p3 c d e) eqn:H3; [apply (IH (length l3)); cbn; lia|].
  cbn. by rewrite H1, H2, H3.
Qed.

Lemma skip_space_suffix l : ∃ k, l = k ++ skip_space p2 p3 l.
Proof.
  remember (length l) as n eqn:Hn. revert l Hn.
  induction n as [n IH] using lt_wf_ind; intros [|c l1] ->; [by exists []|].
  cbn. destruct (space1 c).
  { destruct (IH (length l1)) with (l := l1) as [k Hk]; [cbn; lia|done|].
    exists (c :: k). cbn. congruence. }
  destruct l1 as [|d l2]; [by exists []|]. destruct (p2 c d).
  { destruct (IH (length l2)) with (l := l2) as [k Hk]; [cbn; lia|done|].
    exists (c :: d :: k). cbn. congruence. }
  destruct l2 as [|e l3]; [by exists []|]. destruct (p3 c d e); [|by exists []].
  destruct (IH (length l3)) with (l := l3) as [k Hk]; [cbn; lia|done|].
  exists (c :: d :: e :: k). cbn. congruence.
Qed.

(** A byte that is part of no white-space rune is never skipped. *)
Definition never_space (c : ascii) : Prop :=
  space1 c = false ∧ (∀ x, p2 c x = false ∧ p2 x c = false)
  ∧ ∀ x y, p3 c x y = false ∧ p3 x c y = false ∧ p3 x y c = false.

Lemma skip_space_keeps c l : never_space c → c ∈ l → c ∈ skip_space p2 p3 l.
Proof.
  intros (N1 & N2 & N3). remember (length l) as n eqn:Hn. revert l Hn.
  induction n as [n IH] using lt_wf_ind; intros [|a l1] -> Hin; [done|]. cbn.
  destruct (space1 a) eqn:E1.
  { apply (IH (length l1)); [cbn; lia|done|]. apply elem_of_cons in Hin as [->|]; congruence. }
  destruct l1 as [|b l2]; [done|]. destruct (p2 a b) eqn:E2.
  { apply (IH (length l2)); [cbn; lia|done|]. rewrite !elem_of_cons in Hin.
    destruct Hin as [->|[->|]]; [|..|done]; destruct (N2 a), (N2 b); congruence. }
  destruct l2 as [|e l3]; [done|]. destruct (p3 a b e) eqn:E3; [|done].
  apply (IH (length l3)); [cbn; lia|done|]. rewrite !elem_of_cons in Hin.
  destruct Hin as [->|[->|[->|]]]; [| | |done].
  - destruct (N3 b e); congruence.
  - destruct (N3 a e) as (? & ? & ?); congruence.
  - destruct (N3 a b) as (? & ? & ?); congruence.
Qed.

Lemma starts_space_app l k :
  starts_space p2 p3 (l ++ k) = false → starts_space p2 p3 l = false.
Proof.
  destruct l as [|c [|d [|e l]]]; cbn; intros H; bool_to_prop; try done.
  - by repeat match goal with E : _ = false |- _ => rewrite E; clear E end.
  - by repeat match goal with E : _ = false |- _ => rewrite E; clear E end.
  - by repeat match goal with E : _ = false |- _ => rewrite E; clear E end.
Qed.
End skip_lemmas.

(** A text without white space at either end. *)
Definition trimmed (s : string) : Prop :=
  starts_space space2 space3 (chars s) = false
  ∧ starts_space space2_rev space3_rev (rev (chars s)) = false.

Lemma TrimSpace_id s : trimmed s → TrimSpace s = s.
Proof.
  intros [Hl Hr]. unfold TrimSpace, trim_left, trim_right.
  rewrite (skip_space_id _ _ (chars s)) by done.
  rewrite skip_space_id by done. by rewrite rev_involutive, of_chars_chars.
Qed.

Lemma TrimSpace_trimmed s : trimmed (TrimSpace s).
Proof.
  unfold trimmed, TrimSpace, trim_left, trim_right. rewrite chars_of_chars.
  set (l := skip_space space2 space3 (chars s)).
  destruct (skip_space_suffix space2_rev space3_rev (rev l)) as [k Hk].
  split; [|rewrite rev_involutive; apply skip_space_starts].
  apply (starts_space_app _ _ _ (rev k)).
  rewrite <- rev_app_distr, <- Hk, rev_involutive. apply skip_space_starts.
Qed.

Lemma TrimSpace_idemp s : TrimSpace (TrimSpace s) = TrimSpace s.
Proof. apply TrimSpace_id, TrimSpace_trimmed. Qed.

(** A plain ASCII byte that is not white space survives trimming. *)
Lemma never_space_plain c :
  byte_val c < 128 → space1 c = false →
  never_space space2 space3 c ∧ never_space space2_rev space3_rev c.
Proof.
  intros Hc H1. unfold never_space, space2_rev, space3_rev.
  assert (∀ k, 128 ≤ k → (byte_val c =? k) = false) as E by (intros; apply Z.eqb_neq; lia).
  assert (∀ k k', 128 ≤ k → byte_in k k' c = false) as E'.
  { intros k k' Hk. unfold byte_in. by rewrite (proj2 (Z.leb_gt _ _)) by lia. }
  unfold space2, space3. repeat split; try done; intros;
    repeat (rewrite ?E, ?E' by lia; cbn; rewrite ?andb_false_r, ?orb_false_r); try done.
Qed.

Lemma TrimSpace_nonempty c s :
  c ∈ chars s → byte_val c < 128 → space1 c = false → TrimSpace s ≠ empty.
Proof.
  intros Hin Hc H1. destruct (never_space_plain c Hc H1) as [Hn Hr].
  pose proof (skip_space_keeps _ _ c (chars s) Hn Hin) as Hl.
  assert (c ∈ rev (trim_left (chars s))) as Hl' by by rewrite list_elem_of_In, <- in_rev, <- list_elem_of_In.
  pose proof (skip_space_keeps _ _ c _ Hr Hl') as Hf.
  unfold TrimSpace, trim_right. intros He%(f_equal chars). rewrite chars_of_chars in He.
  apply (f_equal (@rev ascii)) in He. rewrite rev_involutive in He. rewrite He in Hf.
  by apply elem_of_nil in Hf.
Qed.
