(* ===== verification/Flags.v ===== *)
(** * Go's [flag] package, as far as [cmd/relay/main.go] uses it: flag sets
    with [ContinueOnError], string and int flags, no boolean ones.

    Parsing consumes one or two arguments per flag and stops at the first
    argument that is not a flag; what is left is ignored by every command. *)

From S2P Require Import Prelude GoStrings.

(** ** [strconv.ParseInt(s, 0, 64)]: a prefix chooses the base, underscores
    may separate digits *)

(** The value of a digit in bases up to 16. *)
Definition digit_of (c : ascii) : option Z :=
  if byte_in 48 57 c then Some (byte_val c - 48)
  else if byte_in 97 102 c then Some (byte_val c - 87)
  else if byte_in 65 70 c then Some (byte_val c - 55)
  else None.

(** What [intValue.Set] makes of the two errors of [strconv]. *)
Definition err_syntax : error := "parse error".
Definition err_range : error := "value out of range".

(** The digits in a base, underscores skipped, as an unsigned 64-bit integer. *)
Fixpoint base_value (base acc : Z) (l : list ascii) : result error Z :=
  match l with
  | [] => Ok acc
  | c :: rest =>
      if Ascii.eqb c "_" then base_value base acc rest
      else match digit_of c with
           | Some d =>
               if base <=? d then Err err_syntax
               else if two64 <=? acc * base + d then Err err_range
               else base_value base (acc * base + d) rest
           | None => Err err_syntax
           end
  end.

(** The base a prefix chooses and the digits after it. *)
Definition base_prefix (l : list ascii) : Z * list ascii :=
  match l with
  | z :: b :: d :: rest =>
      if Ascii.eqb z "0" then
        if Ascii.eqb b "x" || Ascii.eqb b "X" then (16, d :: rest)
        else if Ascii.eqb b "b" || Ascii.eqb b "B" then (2, d :: rest)
        else if Ascii.eqb b "o" || Ascii.eqb b "O" then (8, d :: rest)
        else (8, b :: d :: rest)
      else (10, l)
  | z :: b :: rest => if Ascii.eqb z "0" then (8, b :: rest) else (10, l)
  | _ => (10, l)
  end.

(** [underscoreOK]: an underscore stands between digits, or between the base
    prefix and a digit. [prev] tells whether an underscore may come next. *)
Fixpoint underscores_between (prev : bool) (l : list ascii) : bool :=
  match l with
  | [] => true
  | c :: rest =>
      if Ascii.eqb c "_" then
        prev && match rest with d :: _ => negb (Ascii.eqb d "_") | [] => false end
        && underscores_between false rest
      else underscores_between true rest
  end.

(** [strconv.ParseUint(s, 0, 64)] *)
Definition ParseUint (l : list ascii) : result error Z :=
  let '(base, ds) := base_prefix l in
  if bool_decide (l = []) then Err err_syntax else
  v ← base_value base 0 ds;
  if underscores_between (match l with c :: _ => Ascii.eqb c "0" | [] => false end) ds
  then Ok v else Err err_syntax.

Definition ParseIntFlag (s : string) : result error Z :=
  let '(neg, l) := match chars s with
                   | c :: rest => if Ascii.eqb c "-" then (true, rest)
                                  else if Ascii.eqb c "+" then (false, rest)
                                  else (false, c :: rest)
                   | [] => (false, [])
                   end in
  v ← ParseUint l;
  let v := if neg : bool then - v else v in
  if decide (in_int64 v) then Ok v else Err err_range.

(** ** Flag sets *)

Inductive flag_value :=
| FString (v : string)
| FInt (v : Z).

#[export] Instance flag_value_eq_dec : EqDecision flag_value.
Proof. solve_decision. Defined.

Abbreviation FlagSet := (gmap string flag_value).

(** [flag.Value.Set] *)
Definition set_flag (old : flag_value) (value : string) : result error flag_value :=
  match old with
  | FString _ => Ok (FString value)
  | FInt _ => n ← ParseIntFlag value; Ok (FInt n)
  end.

(** The name and the value that follows its first [=], which is never the first byte. *)
Fixpoint split_equals (acc : list ascii) (l : list ascii) : list ascii * option (list ascii) :=
  match l with
  | [] => (rev acc, None)
  | c :: rest => if Ascii.eqb c "=" then (rev acc, Some rest) else split_equals (c :: acc) rest
  end.

(** What [parseOne] makes of an argument before it looks at the flag's value. *)
Inductive flag_token :=
| NotAFlag                                          (* parsing stops here *)
| Terminator                                        (* [--] *)
| BadSyntax
| FlagToken (name : string) (value : option string).

Definition name_token (name : list ascii) : flag_token :=
  match name with
  | [] => BadSyntax
  | c :: tl =>
      if Ascii.eqb c "-" || Ascii.eqb c "=" then BadSyntax
      else let '(n, v) := split_equals [c] tl in FlagToken (of_chars n) (of_chars <$> v)
  end.

Definition flag_token_of (s : string) : flag_token :=
  match chars s with
  | "-"%char :: rest =>
      match rest with
      | [] => NotAFlag
      | c :: rest' =>
          if Ascii.eqb c "-"
          then if bool_decide (rest' = []) then Terminator else name_token rest'
          else name_token rest
      end
  | _ => NotAFlag
  end.

(** [failf("invalid value %q for flag -%s: %v", ...)] *)
Definition set_named `{UnicodeCase} (name value : string) (old : flag_value) (fs : FlagSet) : result error FlagSet :=
  match set_flag old value with
  | Ok v => Ok (<[name := v]> fs)
  | Err e => Err ("invalid value " +:+ Quote value +:+ " for flag -" +:+ name +:+ ": " +:+ e)
  end.

Definition undefined_flag (name : string) : error :=
  if (name =? "help")%string || (name =? "h")%string then "flag: help requested"%string
  else "flag provided but not defined: -" +:+ name.

(** [FlagSet.Parse] *)
Fixpoint ParseFlags `{UnicodeCase} (args : list string) (fs : FlagSet) : result error FlagSet :=
  match args with
  | [] => Ok fs
  | s :: rest =>
      match flag_token_of s with
      | NotAFlag | Terminator => Ok fs
      | BadSyntax => Err ("bad flag syntax: " +:+ s)
      | FlagToken name value =>
          match fs !! name with
          | None => Err (undefined_flag name)
          | Some old =>
              match value, rest with
              | Some v, _ => fs' ← set_named name v old fs; ParseFlags rest fs'
              | None, v :: rest' => fs' ← set_named name v old fs; ParseFlags rest' fs'
              | None, [] => Err ("flag needs an argument: -" +:+ name)
              end
          end
      end
  end.

(** Reading a flag after parsing. *)
Definition string_flag (name : string) (fs : FlagSet) : string :=
  match fs !! name with Some (FString v) => v | _ => empty end.
Definition int_flag (name : string) (fs : FlagSet) : Z :=
  match fs !! name with Some (FInt v) => v | _ => 0 end.

(** ** Lemmas *)

(** A name a flag may have: not empty, no [=], and neither [-] nor [=] first. *)
Definition flag_name (n : string) : bool :=
  match chars n with
  | [] => false
  | c :: rest => negb (Ascii.eqb c "-") && forallb (λ c, negb (Ascii.eqb c "=")) (c :: rest)
  end.

Lemma split_equals_none l : ∀ acc,
  forallb (λ c, negb (Ascii.eqb c "=")) l = true → split_equals acc l = (rev acc ++ l, None).
Proof.
  induction l as [|c l IH]; intros acc; cbn; [by rewrite app_nil_r|].
  intros [Hc%negb_true_iff Hl]%andb_prop. rewrite Hc, IH by done. cbn. by rewrite <- app_assoc.
Qed.

Lemma split_equals_some l v : ∀ acc,
  forallb (λ c, negb (Ascii.eqb c "=")) l = true →
  split_equals acc (l ++ "="%char :: v) = (rev acc ++ l, Some v).
Proof.
  induction l as [|c l IH]; intros acc; cbn; [by rewrite app_nil_r|].
  intros [Hc%negb_true_iff Hl]%andb_prop. rewrite Hc, IH by done. cbn. by rewrite <- app_assoc.
Qed.

(** The two ways to mark a flag. *)
Definition dashes (d : string) : Prop := d = "-"%string ∨ d = "--"%string.

(** What follows a well-formed name on the command line. *)
Lemma name_token_flag n (v : option string) :
  flag_name n = true →
  name_token (chars n ++ match v with Some v => "="%char :: chars v | None => [] end)
  = FlagToken n v.
Proof.
  unfold flag_name. pose proof (of_chars_chars n) as Hn. destruct (chars n) as [|c l]; [done|].
  cbn. intros [Hc [He Hl]%andb_prop]%andb_prop. bool_to_prop. rewrite Hc, He. cbn.
  destruct v as [v|].
  - rewrite split_equals_some by done. cbn [rev app fmap option_fmap option_map].
    by rewrite Hn, of_chars_chars.
  - rewrite app_nil_r, split_equals_none by done. cbn [rev app fmap option_fmap option_map].
    by rewrite Hn.
Qed.

Lemma flag_token_of_name d n v :
  dashes d → flag_name n = true →
  flag_token_of (d +:+ n) = FlagToken n None
  ∧ flag_token_of (d +:+ n +:+ "=" +:+ v) = FlagToken n (Some v).
Proof.
  intros Hd Hn.
  pose proof (name_token_flag n None Hn) as H0. rewrite app_nil_r in H0.
  pose proof (name_token_flag n (Some v) Hn) as H1.
  unfold flag_token_of. rewrite !chars_app.
  change (chars "=") with ["="%char]. cbn [app].
  unfold flag_name in Hn. destruct (chars n) as [|c l] eqn:El; [done|].
  apply andb_prop in Hn as [Hc%negb_true_iff _].
  destruct Hd as [-> | ->]; [change (chars "-") with ["-"%char]|
    change (chars "--") with ["-"%char; "-"%char]]; cbn -[name_token] in *; rewrite ?Hc; by split.
Qed.

(** A flag may be spelled with one dash or two, its value after [=] or as the
    next argument, and sets its variable before the rest is parsed. *)
Lemma ParseFlags_spelling `{UnicodeCase} d n v rest fs old :
  dashes d → flag_name n = true → fs !! n = Some old →
  let next := fs' ← set_named n v old fs; ParseFlags rest fs' in
  ParseFlags ((d +:+ n +:+ "=" +:+ v) :: rest) fs = next
  ∧ ParseFlags ((d +:+ n) :: v :: rest) fs = next.
Proof.
  intros Hd Hn Ho. destruct (flag_token_of_name d n v Hd Hn) as [H0 H1].
  split; cbn [ParseFlags]; [rewrite H1|rewrite H0]; by rewrite Ho.
Qed.
