(* ===== verification/Logging.v ===== *)
(** * The logger's configuration: [internal/logging/logging.go].

    zap is a library: the parsing of a level's name and the construction of a
    logger from a configuration are parameters. *)

From S2P Require Import Prelude GoStrings.

(** [zapcore.InfoLevel] *)
Definition InfoLevel : Z := 0.

(** The fields of [zap.Config] the code sets on [NewProductionConfig()]. *)
Record zap_config := mkZapConfig {
  Encoding : string;
  TimeKey : string;
  MessageKey : string;
  LevelKey : string;
  CallerKey : string;
  EncodeTime : string;
  Level : Z
}.

(** [Level.UnmarshalText], [None] an error; [Config.Build], [Some] its error. *)
Class ZapLib := {
  level_UnmarshalText : string → option Z;
  zap_Build : zap_config → option error
}.

Section logging.
Context `{UnicodeCase, ZapLib}.

(** The level a logger gets: an unknown name means [InfoLevel]. *)
Definition log_level (level : string) : Z :=
  match level_UnmarshalText (ToLower (TrimSpace level)) with
  | Some lvl => lvl
  | None => InfoLevel
  end.

Definition logger_config (level : string) : zap_config :=
  mkZapConfig "json" "ts" "msg" "level" "caller" "ISO8601" (log_level level).

Definition New (level : string) : result error zap_config :=
  match zap_Build (logger_config level) with
  | Some e => Err e
  | None => Ok (logger_config level)
  end.

(** Neither the case nor the surrounding space of a level matters. *)
Lemma log_level_spelling level level' :
  ToLower (TrimSpace level) = ToLower (TrimSpace level') → log_level level = log_level level'.
Proof. unfold log_level. by intros ->. Qed.
End logging.
