(* ===== verification/Message.v ===== *)
(** * Messages of the MailerSend bulk API, as the relay builds and stores them.

    The types belong to the [mailersend-go] package; each record holds the
    fields the relay reads or writes. The JSON encoding that the store and the
    sender apply to them ([encoding/json] over the package's struct tags) is a
    parameter, class [JSONCodec]. *)

From S2P Require Import Prelude GoStrings.

Record Contact := mkContact { Name : string; Email : string }.

Record Header := mkHeader { HName : string; HValue : string }.

Record Attachment := mkAttachment {
  Content : string;
  Filename : string;
  Disposition : string;
  AttachmentID : string
}.

(** [ReplyTo] is a struct, not a pointer: absent means both fields empty. *)
Record Message := mkMessage {
  From : Contact;
  Recipients : list Contact;
  Subject : string;
  Text : string;
  HTML : string;
  References : list string;
  Headers : list Header;
  ReplyTo : Contact;
  InReplyTo : string;
  Attachments : list Attachment
}.

Definition no_contact : Contact := mkContact empty empty.

#[export] Instance Contact_eq_dec : EqDecision Contact.
Proof. solve_decision. Defined.
#[export] Instance Header_eq_dec : EqDecision Header.
Proof. solve_decision. Defined.
#[export] Instance Attachment_eq_dec : EqDecision Attachment.
Proof. solve_decision. Defined.
#[export] Instance Message_eq_dec : EqDecision Message.
Proof. solve_decision. Defined.

(** [json.Marshal] and [json.Unmarshal] on a [Message]. *)
Class JSONCodec := {
  marshal : Message → result error string;
  unmarshal : string → result error Message
}.

(** What the store relies on: a payload it wrote decodes to the message it encoded. *)
Definition codec_roundtrip `{JSONCodec} (m : Message) : Prop :=
  ∀ p, marshal m = Ok p → unmarshal p = Ok m.
