(* ===== verification/SqlTime.v ===== *)
(** * Timestamps: instants, and the values the SQL driver hands back.

    An instant ([time.Time] in UTC) is its number of nanoseconds since the Unix
    epoch, and a [time.Duration] a number of nanoseconds. A DATETIME column
    comes back from the driver as a Go [any]; [decodeSQLTime] of
    [internal/queue/sqlite_store.go] turns it into an instant. *)

From S2P Require Import Prelude GoStrings.

Definition Second : Z := 1000000000.
Definition Millisecond : Z := 1000000.
Definition Minute : Z := 60 * Second.
Definition Hour : Z := 60 * Minute.

(** [time.Unix(sec, 0)] *)
Definition time_Unix (sec : Z) : Z := sec * Second.

(** The dynamic types [decodeSQLTime] tells apart; a [float64] is given by
    its conversion [int64(tv)], and [VOther] is any other dynamic type. *)
Inductive sqlval :=
| VNull
| VTime (t : Z)
| VString (s : string)
| VBytes (s : string)
| VInt (n : Z)
| VFloat (truncated : Z)
| VOther.

(** [time.Parse(layout, v)] of the standard library, and the driver's value of
    a DATETIME column that holds an instant. *)
Class TimeDriver := {
  time_Parse : string → string → option Z;
  column_time : Z → sqlval
}.

Section decode.
Context `{TimeDriver}.

Definition layouts : list string :=
  ["2006-01-02T15:04:05.999999999Z07:00";
   "2006-01-02T15:04:05Z07:00";
   "2006-01-02 15:04:05.999999999-07:00";
   "2006-01-02 15:04:05.999999999";
   "2006-01-02 15:04:05"]%string.

(** The first layout that parses. *)
Fixpoint first_layout (ls : list string) (v : string) : option Z :=
  match ls with
  | [] => None
  | l :: ls' => match time_Parse l v with
                | Some t => Some t
                | None => first_layout ls' v
                end
  end.

(** [now] is the reading of [time.Now()] the fallbacks take. *)
Definition parseTimeOrNow (now : Z) (v : string) : Z :=
  let v := TrimSpace v in
  if is_empty v then now else
  match first_layout layouts v with
  | Some t => t
  | None => match ParseInt64 v with
            | Some n => time_Unix n
            | None => now
            end
  end.

Definition decodeSQLTime (now : Z) (v : sqlval) : Z :=
  match v with
  | VTime t => t
  | VString s => parseTimeOrNow now s
  | VBytes s => parseTimeOrNow now s
  | VInt n => time_Unix n
  | VFloat n => time_Unix n
  | VNull | VOther => now
  end.

Definition decodeOptionalSQLTime (now : Z) (v : sqlval) : option Z :=
  match v with
  | VNull => None
  | _ => Some (decodeSQLTime now v)
  end.

(** The driver returns DATETIME columns as [time.Time] values. *)
Definition native_times : Prop := ∀ t, column_time t = VTime t.
End decode.
