(* ===== verification/Queue.v ===== *)
(** * The durable queue: [internal/queue/types.go] and [sqlite_store.go].

    The table [jobs] is a finite map from the primary key to a row; each SQL
    statement of the store is a function on it, and each method of
    [SQLiteStore] the sequence of driver calls its body makes, in a monad over
    the database. Every driver call may fail: the [faults] list is the outcome
    of the calls to come. A reading of [time.Now()] and the ULIDs a call draws
    are arguments. *)

From S2P Require Import Prelude GoStrings Message SqlTime.

(** ** Rows and jobs *)

Inductive status := StatusQueued | StatusProcessing | StatusRetry | StatusSent | StatusDLQ.

#[export] Instance status_eq_dec : EqDecision status.
Proof. solve_decision. Defined.

(** The text of the [status] column. *)
Definition status_text (st : status) : string :=
  match st with
  | StatusQueued => "queued"
  | StatusProcessing => "processing"
  | StatusRetry => "retry"
  | StatusSent => "sent"
  | StatusDLQ => "dlq"
  end.

Definition all_status : list status :=
  [StatusQueued; StatusProcessing; StatusRetry; StatusSent; StatusDLQ].

(** The columns of [jobs] after the primary key; a nullable column is an option. *)
Record row := mkRow {
  r_status : status;
  r_payload : string;
  r_from : string;
  r_rcpt : string;
  r_attempts : Z;
  r_next : Z;
  r_error : option string;
  r_http : option Z;
  r_bulk : option string;
  r_worker : option string;
  r_started : option Z;
  r_created : Z;
  r_updated : Z
}.

#[export] Instance row_eq_dec : EqDecision row.
Proof. solve_decision. Defined.

Abbreviation table := (gmap string row).

Record Job := mkJob {
  ID : string;
  Status : status;
  EnvelopeFrom : string;
  RecipientEmail : string;
  PayloadJSON : string;
  JobMessage : option Message;
  AttemptCount : Z;
  NextAttemptAt : Z;
  LastError : string;
  LastHTTPStatus : Z;
  BulkEmailID : string;
  WorkerID : string;
  ProcessingStarted : option Z;
  CreatedAt : Z;
  UpdatedAt : Z
}.

(** ** SQL statements on the table *)

Definition update_where (P : string → row → bool) (f : row → row) (t : table) : table :=
  map_imap (λ id r, Some (if P id r then f r else r)) t.

(** The rows a WHERE clause selects, and their number (rows affected). *)
Definition rows_where (P : string → row → bool) (t : table) : list (string * row) :=
  List.filter (λ x, P x.1 x.2) (map_to_list t).
Definition count_where (P : string → row → bool) (t : table) : Z := zlen (rows_where P t).

(** The order in which the engine returns rows: ORDER BY leaves ties open, and
    a SELECT or GROUP BY without it any order at all. *)
Class SqlEngine := {
  order_by : (row → Z) → list (string * row) → list (string * row);
  any_order : list (string * row) → list (string * row);
  group_order : list (status * Z) → list (status * Z)
}.

Class SqlEngineLaws `{SqlEngine} : Prop := {
  order_by_perm : ∀ key l, order_by key l ≡ₚ l;
  order_by_sorted : ∀ key l,
    StronglySorted (λ x y, key x.2 ≤ key y.2) (order_by key l);
  any_order_perm : ∀ l, any_order l ≡ₚ l;
  group_order_perm : ∀ l, group_order l ≡ₚ l
}.

(** ** The database as the store's methods see it *)

Record store := mkStore {
  jobs : table;
  schema : bool;
  faults : list (option error)
}.

Definition set_jobs (t : table) (s : store) : store := mkStore t (schema s) (faults s).

(** One driver call: the next entry of [faults] is its outcome. *)
Definition call : M store unit := λ s,
  match faults s with
  | [] => (Ok tt, s)
  | None :: fs => (Ok tt, mkStore (jobs s) (schema s) fs)
  | Some e :: fs => (Err e, mkStore (jobs s) (schema s) fs)
  end.

(** A call that names the table [jobs]. *)
Definition sql_call : M store unit :=
  call;;
  step (λ s, if schema s then (Ok tt, s) else (Err "no such table: jobs", s)).

Definition query {A} (q : table → A) : M store A := sql_call;; step (λ s, (Ok (q (jobs s)), s)).

Definition exec {A} (f : table → result error (A * table)) : M store A :=
  sql_call;;
  step (λ s, match f (jobs s) with
        | Ok (a, t) => (Ok a, set_jobs t s)
        | Err e => (Err e, s)
        end).

(** [rows.Next()]: [None] when there is a row to scan, the iteration error otherwise. *)
Definition rows_next : M store (option error) := λ s,
  match call s with
  | (Ok _, s') => (Ok None, s')
  | (Err e, s') => (Ok (Some e), s')
  end.

(** [BeginTx], [defer tx.Rollback()], the body, [Commit]: a body or a commit
    that fails leaves the table as it was. [wb] and [wc] are the error
    wrappings of the two calls. *)
Definition in_tx {A} (wb wc : M store unit → M store unit) (body : M store A) : M store A :=
  λ s0,
  match wb call s0 with
  | (Err e, s1) => (Err e, s1)
  | (Ok _, s1) =>
      match body s1 with
      | (Err e, s2) => (Err e, set_jobs (jobs s1) s2)
      | (Ok a, s2) =>
          match wc call s2 with
          | (Err e, s3) => (Err e, set_jobs (jobs s1) s3)
          | (Ok _, s3) => (Ok a, s3)
          end
      end
  end.

(** ** [Migrate] and [PingContext] *)

Definition create_table : M store unit :=
  step (λ s, (Ok tt, mkStore (jobs s) true (faults s))).

(** The table and its three indexes: a statement that fails leaves those before it. *)
Definition Migrate : M store unit := call;; create_table;; call;; call;; call.

Definition PingContext : M store unit := call.

(** ** [EnqueueTx] *)

Definition new_row (payload envelopeFrom recipient : string) (now : Z) : row :=
  mkRow StatusQueued payload envelopeFrom recipient 0 now None None None None None now now.

Definition insert_row (id : string) (r : row) (t : table) : result error (unit * table) :=
  match t !! id with
  | Some _ => Err "UNIQUE constraint failed: jobs.id"%string
  | None => Ok (tt, <[id := r]> t)
  end.

Section store_ops.
Context `{UnicodeCase, JSONCodec, SqlEngine, TimeDriver}.

(** The row stored for a message. *)
Definition job_row (envelopeFrom : string) (now : Z) (rcpt : Contact) (payload : string) : row :=
  new_row payload (ToLower (TrimSpace envelopeFrom)) (ToLower (TrimSpace (Email rcpt))) now.

(** The loop over the messages; a [*Message] may be nil. [ulid i] is the
    [i]-th value of [ulid.Make()] in this call. *)
Fixpoint enqueue_loop (envelopeFrom : string) (now : Z) (ulid : nat → string) (i : nat)
    (messages : list (option Message)) : M store (list string) :=
  match messages with
  | [] => mret []
  | None :: _ => throw "message must have one recipient"
  | Some msg :: rest =>
      match Recipients msg with
      | [] => throw "message must have one recipient"
      | rcpt :: _ =>
          let id := ulid i in
          payload ← lift (wrapf "marshal payload" (marshal msg));
          wrapM "insert job"
            (exec (insert_row id (job_row envelopeFrom now rcpt payload)));;
          ids ← enqueue_loop envelopeFrom now ulid (S i) rest;
          mret (id :: ids)
      end
  end.

Definition EnqueueTx (now : Z) (ulid : nat → string) (envelopeFrom : string)
    (messages : list (option Message)) : M store (list string) :=
  if decide (messages = []) then mret [] else
  in_tx (wrapM "begin enqueue tx") (wrapM "commit enqueue tx")
    (wrapM "prepare enqueue" sql_call;;
     enqueue_loop envelopeFrom now ulid 0 messages).

(** ** [claimJobs], [ClaimBatch], [ClaimDispatchBatch] *)

Definition claimable (now : Z) (r : row) : bool :=
  (bool_decide (r_status r = StatusQueued) || bool_decide (r_status r = StatusRetry))
  && (r_next r <=? now).

(** [SELECT ... WHERE ... ORDER BY created_at ASC LIMIT ?] *)
Definition select_claimable (now limit : Z) (t : table) : list (string * row) :=
  take (Z.to_nat limit) (order_by r_created (rows_where (λ _ r, claimable now r) t)).

Definition job_bytes (payload : string) : Z := slen payload + 128.

(** The scan of the candidate rows; an iteration error ends it like the last row. *)
Fixpoint claim_scan (shouldStop : Z → Z → Z → bool) (rows : list (string * row))
    (ids : list string) (batchBytes : Z) : M store (list string) :=
  match rows with
  | [] => rows_next;; mret ids
  | (id, r) :: rest =>
      e ← rows_next;
      match e with
      | Some _ => mret ids
      | None =>
          call;;
          let nextJobBytes := job_bytes (r_payload r) in
          if shouldStop (zlen ids) batchBytes nextJobBytes then mret ids
          else claim_scan shouldStop rest (ids ++ [id]) (batchBytes + nextJobBytes)
      end
  end.

Definition claim_row (workerID : string) (now : Z) (r : row) : row :=
  mkRow StatusProcessing (r_payload r) (r_from r) (r_rcpt r) (r_attempts r) (r_next r)
    (r_error r) (r_http r) (r_bulk r) (Some workerID) (Some now) (r_created r) now.

(** [UPDATE jobs SET status=processing, ... WHERE ... AND id IN (...)] *)
Definition claim_update (workerID : string) (now : Z) (ids : list string) (t : table) : table :=
  update_where (λ id r, claimable now r && bool_decide (id ∈ ids)) (claim_row workerID now) t.

Definition select_claimed (workerID : string) (ids : list string) (t : table) : list (string * row) :=
  order_by r_created
    (rows_where (λ id r, bool_decide (r_status r = StatusProcessing)
                         && bool_decide (r_worker r = Some workerID)
                         && bool_decide (id ∈ ids)) t).

(** The job a row scans to; [clock] is the reading the time decoding may take. *)
Definition job_of_row (clock : Z) (id : string) (r : row) (msg : option Message) : Job :=
  mkJob id (r_status r) (r_from r) (r_rcpt r) (r_payload r) msg (r_attempts r)
    (decodeSQLTime clock (column_time (r_next r)))
    (default empty (r_error r)) (default 0 (r_http r)) (default empty (r_bulk r))
    (default empty (r_worker r))
    (decodeOptionalSQLTime clock
       (match r_started r with Some t => column_time t | None => VNull end))
    (decodeSQLTime clock (column_time (r_created r)))
    (decodeSQLTime clock (column_time (r_updated r))).

Fixpoint scan_claimed (clock : Z) (rows : list (string * row)) (out : list Job) : M store (list Job) :=
  match rows with
  | [] => rows_next;; mret out
  | (id, r) :: rest =>
      e ← rows_next;
      match e with
      | Some _ => mret out
      | None =>
          call;;
          msg ← wrapM ("unmarshal payload for job " +:+ id) (lift (unmarshal (r_payload r)));
          scan_claimed clock rest (out ++ [job_of_row clock id r (Some msg)])
      end
  end.

(** Both paths of the body end in [tx.Commit()]. *)
Definition claimJobs (workerID : string) (clock now limit : Z)
    (shouldStop : Z → Z → Z → bool) : M store (list Job) :=
  if limit <=? 0 then mret [] else
  in_tx id id
    (rows ← query (select_claimable now limit);
     ids ← claim_scan shouldStop rows [] 0;
     if decide (ids = []) then mret [] else
     exec (λ t, Ok (tt, claim_update workerID now ids t));;
     claimed ← query (select_claimed workerID ids);
     scan_claimed clock claimed []).

Definition ClaimBatch (workerID : string) (clock now limit : Z) : M store (list Job) :=
  claimJobs workerID clock now limit (λ _ _ _, false).

Definition default_max_count : Z := 500.
Definition default_max_bytes : Z := 5 * 1024 * 1024.

Definition batch_full (maxCount maxBytes batchCount batchBytes nextJobBytes : Z) : bool :=
  (0 <? batchCount)
  && ((maxCount <=? batchCount) || (maxBytes <? batchBytes + nextJobBytes)).

Definition ClaimDispatchBatch (workerID : string) (clock now limit maxCount maxBytes : Z)
    : M store (list Job) :=
  let maxCount := if maxCount <=? 0 then default_max_count else maxCount in
  let maxBytes := if maxBytes <=? 0 then default_max_bytes else maxBytes in
  claimJobs workerID clock now limit (batch_full maxCount maxBytes).

(** ** [MarkSent], [MarkRetry], [MarkDLQ] *)

Definition sent_row (bulkEmailID : string) (now : Z) (r : row) : row :=
  mkRow StatusSent (r_payload r) (r_from r) (r_rcpt r) (r_attempts r + 1) (r_next r)
    None None (Some bulkEmailID) None None (r_created r) now.

Definition retry_row (nextAttemptAt : Z) (errMsg : string) (httpStatus now : Z) (r : row) : row :=
  mkRow StatusRetry (r_payload r) (r_from r) (r_rcpt r) (r_attempts r + 1) nextAttemptAt
    (Some errMsg) (Some httpStatus) (r_bulk r) None None (r_created r) now.

Definition dlq_row (errMsg : string) (httpStatus now : Z) (r : row) : row :=
  mkRow StatusDLQ (r_payload r) (r_from r) (r_rcpt r) (r_attempts r + 1) (r_next r)
    (Some errMsg) (Some httpStatus) (r_bulk r) None None (r_created r) now.

(** [UPDATE ... WHERE id=? AND status='processing'] *)
Definition mark_one (f : row → row) (id : string) (t : table) : table :=
  update_where (λ id' r, bool_decide (id' = id)
                         && bool_decide (r_status r = StatusProcessing)) f t.

Fixpoint mark_loop (f : row → row) (js : list Job) : M store unit :=
  match js with
  | [] => mret tt
  | j :: rest => exec (λ t, Ok (tt, mark_one f (ID j) t));; mark_loop f rest
  end.

(** The three methods share their shape: no job, no transaction; otherwise
    one prepared UPDATE executed for each job. *)
Definition mark (f : row → row) (js : list Job) : M store unit :=
  if decide (js = []) then mret tt else
  in_tx id id (sql_call;; mark_loop f js).

Definition MarkSent (now : Z) (js : list Job) (bulkEmailID : string) : M store unit :=
  mark (sent_row bulkEmailID now) js.
Definition MarkRetry (now : Z) (js : list Job) (nextAttemptAt : Z) (errMsg : string)
    (httpStatus : Z) : M store unit :=
  mark (retry_row nextAttemptAt errMsg httpStatus now) js.
Definition MarkDLQ (now : Z) (js : list Job) (errMsg : string) (httpStatus : Z) : M store unit :=
  mark (dlq_row errMsg httpStatus now) js.

(** ** [RequeueStaleProcessing], [RequeueDLQIDs], [RetryNow]: one UPDATE each,
    the number of rows affected as the result *)

Definition update_counted (P : string → row → bool) (f : row → row) : M store Z :=
  exec (λ t, Ok (count_where P t, update_where P f t)).

Definition requeue_row (now : Z) (r : row) : row :=
  mkRow StatusRetry (r_payload r) (r_from r) (r_rcpt r) (r_attempts r) now
    (r_error r) (r_http r) (r_bulk r) None None (r_created r) now.

(** A NULL [processing_started_at] never compares. *)
Definition stale (cutoff : Z) (r : row) : bool :=
  bool_decide (r_status r = StatusProcessing)
  && match r_started r with Some t => t <? cutoff | None => false end.

Definition RequeueStaleProcessing (now leaseTimeout : Z) : M store Z :=
  let cutoff := now + wrap64 (- leaseTimeout) in
  update_counted (λ _ r, stale cutoff r) (requeue_row now).

Definition replay_row (now : Z) (r : row) : row :=
  mkRow StatusRetry (r_payload r) (r_from r) (r_rcpt r) (r_attempts r) now
    None None (r_bulk r) None None (r_created r) now.

Definition in_dlq (ids : list string) (id : string) (r : row) : bool :=
  bool_decide (r_status r = StatusDLQ) && bool_decide (id ∈ (TrimSpace <$> ids)).

Definition RequeueDLQIDs (ids : list string) (now : Z) : M store Z :=
  if decide (ids = []) then mret 0 else
  update_counted (in_dlq ids) (replay_row now).

Definition due_row (now : Z) (r : row) : row :=
  mkRow (r_status r) (r_payload r) (r_from r) (r_rcpt r) (r_attempts r) now
    (r_error r) (r_http r) (r_bulk r) (r_worker r) (r_started r) (r_created r) now.

Definition RetryNow (now : Z) : M store Z :=
  update_counted (λ _ r, bool_decide (r_status r = StatusRetry)) (due_row now).

(** ** [CountByStatus], [ListDLQ], [GetDLQByIDs] *)

Definition status_groups (t : table) : list (status * Z) :=
  List.filter (λ g, 0 <? g.2)
    ((λ st, (st, count_where (λ _ r, bool_decide (r_status r = st)) t)) <$> all_status).

Fixpoint scan_counts (groups : list (status * Z)) (out : gmap string Z) : M store (gmap string Z) :=
  match groups with
  | [] => rows_next;; mret out
  | (st, n) :: rest =>
      e ← rows_next;
      match e with
      | Some _ => mret out
      | None => call;; scan_counts rest (<[status_text st := n]> out)
      end
  end.

Definition zero_counts : gmap string Z :=
  list_to_map ((λ st, (status_text st, 0)) <$> all_status).

Definition CountByStatus : M store (gmap string Z) :=
  groups ← query (λ t, group_order (status_groups t));
  scan_counts groups zero_counts.

(** [scanJobs] keeps a job whose payload does not decode, and reports [rows.Err()]. *)
Fixpoint scanJobs (clock : Z) (rows : list (string * row)) (out : list Job) : M store (list Job) :=
  match rows with
  | [] =>
      e ← rows_next;
      match e with Some err => throw err | None => mret out end
  | (id, r) :: rest =>
      e ← rows_next;
      match e with
      | Some err => throw err
      | None =>
          call;;
          let msg := match unmarshal (r_payload r) with Ok m => Some m | Err _ => None end in
          scanJobs clock rest (out ++ [job_of_row clock id r msg])
      end
  end.

Definition select_dlq (limit : Z) (t : table) : list (string * row) :=
  take (Z.to_nat limit)
    (order_by (λ r, - r_updated r) (rows_where (λ _ r, bool_decide (r_status r = StatusDLQ)) t)).

Definition ListDLQ (clock limit : Z) : M store (list Job) :=
  let limit := if limit <=? 0 then 1000 else limit in
  rows ← query (select_dlq limit);
  scanJobs clock rows [].

Definition GetDLQByIDs (clock : Z) (ids : list string) : M store (list Job) :=
  if decide (ids = []) then mret [] else
  rows ← query (λ t, any_order (rows_where (in_dlq ids) t));
  scanJobs clock rows [].
End store_ops.

(** [placeholders(n)]: the text of the SQL parameter list. *)
Fixpoint placeholders_from (i : nat) (n : nat) : string :=
  match n with
  | O => empty
  | S n' => (match i with O => empty | S _ => ", "%string end) +:+ "?" +:+ placeholders_from (S i) n'
  end.
Definition placeholders (n : Z) : string :=
  if n <=? 0 then empty else placeholders_from 0 (Z.to_nat n).
