(* ===== verification/StoreLogic.v ===== *)
(** * A program logic for the store's methods.

    [ensures m Q t]: from a database whose table is [t], whatever the driver
    calls answer, [m] ends with a result and a table that satisfy [Q].
    [runs m t a t']: on a migrated database whose driver calls all succeed,
    [m] returns [a] and turns the table [t] into [t']. The first logic gives
    safety under every fault, the second that an operation does its work. *)

From S2P Require Import Prelude GoStrings Message SqlTime Queue.

Definition ensures {A} (m : M store A) (Q : result error A → table → Prop) (t : table) : Prop :=
  ∀ s, jobs s = t → Q (m s).1 (jobs (m s).2).

Definition runs {A} (m : M store A) (t : table) (a : A) (t' : table) : Prop :=
  ∀ s, jobs s = t → schema s = true → faults s = [] → m s = (Ok a, mkStore t' true []).

(** The error wrappings of [in_tx] change no state. *)
Class Wrapping (w : M store unit → M store unit) : Prop := {
  wrapping_state : ∀ m s, (w m s).2 = (m s).2;
  wrapping_ok : ∀ m s, (m s).1 = Ok tt → (w m s).1 = Ok tt
}.

#[export] Instance id_wrapping : Wrapping id.
Proof. by split. Qed.
#[export] Instance wrapM_wrapping p : Wrapping (wrapM p).
Proof.
  split; intros m s; unfold wrapM; destruct (m s) as [r s']; [done|].
  by cbn; intros ->.
Qed.

(** ** Rules of [ensures] *)

Lemma ensures_mono {A} (m : M store A) (Q Q' : result error A → table → Prop) t :
  ensures m Q t → (∀ r t', Q r t' → Q' r t') → ensures m Q' t.
Proof. intros H HQ s Hs. by apply HQ, H. Qed.

Lemma ensures_ret {A} (a : A) (Q : result error A → table → Prop) t :
  Q (Ok a) t → ensures (mret a) Q t.
Proof. by intros H s <-. Qed.

Lemma ensures_throw {A} e (Q : result error A → table → Prop) t :
  Q (Err e) t → ensures (throw e) Q t.
Proof. by intros H s <-. Qed.

Lemma ensures_lift {A} (x : result error A) (Q : result error A → table → Prop) t :
  Q x t → ensures (lift x) Q t.
Proof. by intros H s <-. Qed.

Lemma ensures_bind {A B} (m : M store A) (f : A → M store B) Q t :
  ensures m (λ r t', match r with
                     | Ok a => ensures (f a) Q t'
                     | Err e => Q (Err e) t'
                     end) t →
  ensures (m ≫= f) Q t.
Proof.
  intros H s Hs. specialize (H s Hs). unfold mbind, M_bind.
  destruct (m s) as [[a|e] s']; cbn in *; [by apply H|done].
Qed.

Lemma ensures_wrapM {A} p (m : M store A) Q t :
  ensures m (λ r t', Q (wrapf p r) t') t → ensures (wrapM p m) Q t.
Proof.
  intros H s Hs. specialize (H s Hs). unfold wrapM.
  by destruct (m s) as [r s'].
Qed.

Lemma call_jobs s : jobs (call s).2 = jobs s.
Proof. unfold call. by destruct (faults s) as [|[e|] fs]. Qed.

Lemma call_schema s : schema (call s).2 = schema s.
Proof. unfold call. by destruct (faults s) as [|[e|] fs]. Qed.

(** A migration keeps the jobs; when it succeeds there is a schema. *)
Lemma Migrate_spec s :
  jobs (Migrate s).2 = jobs s ∧ ((Migrate s).1 = Ok tt → schema (Migrate s).2 = true).
Proof.
  unfold Migrate, create_table, step, mbind, M_bind.
  pose proof (call_jobs s) as J1. destruct (call s) as [[[]|e] s1]; cbn in *; [|done].
  set (s2 := mkStore (jobs s1) true (faults s1)).
  pose proof (call_jobs s2) as J2. pose proof (call_schema s2) as S2'.
  destruct (call s2) as [[[]|e] s3]; cbn in *; [|by rewrite J2].
  pose proof (call_jobs s3) as J3. pose proof (call_schema s3) as S3.
  destruct (call s3) as [[[]|e] s4]; cbn in *; [|by rewrite J3, J2].
  pose proof (call_jobs s4) as J4. pose proof (call_schema s4) as S4.
  destruct (call s4) as [r s5]; cbn in *. by rewrite J4, S4, J3, S3, J2, S2'.
Qed.

Lemma ensures_call Q t :
  Q (Ok tt) t → (∀ e, Q (Err e) t) → ensures call Q t.
Proof.
  intros HOk HErr s <-. rewrite call_jobs. destruct (call s) as [[[]|e] s']; cbn; auto.
Qed.

Lemma ensures_sql_call Q t :
  Q (Ok tt) t → (∀ e, Q (Err e) t) → ensures sql_call Q t.
Proof.
  intros HOk HErr. apply ensures_bind, ensures_call; [|done].
  intros s <-. unfold step. destruct (schema s); cbn; auto.
Qed.

Lemma ensures_query {A} (q : table → A) Q t :
  Q (Ok (q t)) t → (∀ e, Q (Err e) t) → ensures (query q) Q t.
Proof.
  intros HOk HErr. apply ensures_bind, ensures_sql_call; [|done]. by intros s <-.
Qed.

Lemma ensures_exec {A} (f : table → result error (A * table)) Q t :
  (∀ a t', f t = Ok (a, t') → Q (Ok a) t') →
  (∀ e, Q (Err e) t) → ensures (exec f) Q t.
Proof.
  intros HOk HErr. apply ensures_bind, ensures_sql_call; [|done].
  intros s <-. unfold step. destruct (f (jobs s)) as [[a t']|e] eqn:E; cbn; auto.
Qed.

Lemma ensures_rows_next Q t :
  Q (Ok None) t → (∀ e, Q (Ok (Some e)) t) → ensures rows_next Q t.
Proof.
  intros HOk HErr s <-. unfold rows_next. pose proof (call_jobs s) as Hj.
  destruct (call s) as [[[]|e] s']; cbn in *; rewrite Hj; auto.
Qed.

(** A transaction either commits what its body did or leaves the table alone. *)
Lemma ensures_in_tx {A} wb wc `{!Wrapping wb, !Wrapping wc} (m : M store A) Q t :
  ensures m (λ r t', match r with Ok a => Q (Ok a) t' | Err _ => True end) t →
  (∀ e, Q (Err e) t) → ensures (in_tx wb wc m) Q t.
Proof.
  intros H HErr s <-. unfold in_tx.
  pose proof (wrapping_state (w := wb) call s) as Hb.
  destruct (wb call s) as [[[]|e] s1]; cbn in Hb; subst s1; cbn;
    [|rewrite call_jobs; auto].
  specialize (H (call s).2 (call_jobs s)).
  destruct (m (call s).2) as [[a|e] s2]; cbn in *;
    [|rewrite call_jobs; apply HErr].
  pose proof (wrapping_state (w := wc) call s2) as Hc.
  destruct (wc call s2) as [[[]|e] s3]; cbn in Hc; subst s3; cbn.
  - by rewrite call_jobs.
  - rewrite call_jobs. apply HErr.
Qed.

Create HintDb ensures.
#[export] Hint Resolve ensures_ret ensures_throw ensures_lift ensures_bind ensures_wrapM
  ensures_call ensures_sql_call ensures_query ensures_exec ensures_rows_next : ensures.

(** Walk through a method's body: one rule per construct. *)
Ltac ensures_step :=
  match goal with
  | |- ensures (mret _) _ _ => apply ensures_ret
  | |- ensures (throw _) _ _ => apply ensures_throw
  | |- ensures (lift _) _ _ => apply ensures_lift
  | |- ensures (mbind _ _) _ _ => apply ensures_bind
  | |- ensures (wrapM _ _) _ _ => apply ensures_wrapM
  | |- ensures call _ _ => apply ensures_call
  | |- ensures sql_call _ _ => apply ensures_sql_call
  | |- ensures (query _) _ _ => apply ensures_query
  | |- ensures (exec _) _ _ => apply ensures_exec
  | |- ensures rows_next _ _ => apply ensures_rows_next
  | |- ensures (in_tx _ _ _) _ _ => apply ensures_in_tx; [apply _|apply _|..]
  end.

(** ** Rules of [runs] *)

Lemma runs_ret {A} (a : A) t : runs (mret a) t a t.
Proof. intros [t0 sc fs]; cbn; intros -> -> ->. done. Qed.

Lemma runs_lift {A} (a : A) t : runs (lift (Ok a)) t a t.
Proof. intros [t0 sc fs]; cbn; intros -> -> ->. done. Qed.

Lemma runs_bind {A B} (m : M store A) (f : A → M store B) t a t1 b t2 :
  runs m t a t1 → runs (f a) t1 b t2 → runs (m ≫= f) t b t2.
Proof.
  intros Hm Hf s Hj Hsc Hfs. unfold mbind, M_bind. rewrite (Hm s) by done. by apply Hf.
Qed.

Lemma runs_wrapM {A} p (m : M store A) t a t' : runs m t a t' → runs (wrapM p m) t a t'.
Proof. intros H s Hj Hsc Hfs. unfold wrapM. by rewrite (H s). Qed.

Lemma runs_call t : runs call t tt t.
Proof. intros [t0 sc fs]; cbn; intros -> -> ->. done. Qed.

Lemma runs_sql_call t : runs sql_call t tt t.
Proof. intros [t0 sc fs]; cbn; intros -> -> ->. done. Qed.

Lemma runs_query {A} (q : table → A) t : runs (query q) t (q t) t.
Proof. intros [t0 sc fs]; cbn; intros -> -> ->. done. Qed.

Lemma runs_exec {A} (f : table → result error (A * table)) t a t' :
  f t = Ok (a, t') → runs (exec f) t a t'.
Proof.
  intros Hf [t0 sc fs]; cbn; intros -> -> ->.
  unfold exec, mbind, M_bind, sql_call, mbind, M_bind, step. cbn. by rewrite Hf.
Qed.

Lemma runs_rows_next t : runs rows_next t None t.
Proof. intros [t0 sc fs]; cbn; intros -> -> ->. done. Qed.

Lemma runs_in_tx {A} wb wc `{!Wrapping wb, !Wrapping wc} (m : M store A) t a t' :
  runs m t a t' → runs (in_tx wb wc m) t a t'.
Proof.
  intros H s Hj Hsc Hfs. unfold in_tx.
  assert (Hcall : ∀ w s, Wrapping w → faults s = [] → w call s = (Ok tt, s)).
  { clear. intros w [t sc fs] Hw; cbn; intros ->.
    pose proof (wrapping_state (w := w) call (mkStore t sc [])) as H1.
    pose proof (wrapping_ok (w := w) call (mkStore t sc []) eq_refl) as H2.
    destruct (w call _) as [r s']; cbn in *; congruence. }
  rewrite (Hcall wb) by done. rewrite (H s) by done. by rewrite (Hcall wc).
Qed.

(** What a fault-free run returns is what [ensures] speaks about. *)
Lemma runs_ensures {A} (m : M store A) Q t a t' : runs m t a t' → ensures m Q t → Q (Ok a) t'.
Proof.
  intros Hr He. specialize (He (mkStore t true []) eq_refl).
  rewrite (Hr (mkStore t true [])) in He by done. done.
Qed.

(** ** Runs that end in an error, the table unchanged *)

Definition fails {A} (m : M store A) (t : table) : Prop :=
  ∀ s, jobs s = t → schema s = true → faults s = [] →
       ∃ e s', m s = (Err e, s') ∧ jobs s' = t.

Lemma fails_bind {A B} (m : M store A) (f : A → M store B) t a t1 :
  runs m t a t1 → (∀ s, jobs s = t1 → schema s = true → faults s = [] → is_ok (f a s).1 = false) →
  ∀ s, jobs s = t → schema s = true → faults s = [] → is_ok ((m ≫= f) s).1 = false.
Proof. intros Hm Hf s Hj Hsc Hfs. unfold mbind, M_bind. rewrite (Hm s) by done. by apply Hf. Qed.

Lemma fails_in_tx {A} wb wc `{!Wrapping wb, !Wrapping wc} (m : M store A) t :
  (∀ s, jobs s = t → schema s = true → faults s = [] → is_ok (m s).1 = false) →
  fails (in_tx wb wc m) t.
Proof.
  intros Hm s Hj Hsc Hfs. unfold in_tx.
  pose proof (wrapping_state (w := wb) call s) as H1.
  assert (call s = (Ok tt, s)) as Hcall by (unfold call; by rewrite Hfs).
  pose proof (wrapping_ok (w := wb) call s) as H2. rewrite Hcall in *. cbn in *.
  specialize (H2 eq_refl). destruct (wb call s) as [r s1]. cbn in *. subst.
  specialize (Hm s eq_refl Hsc Hfs). destruct (m s) as [[a|e] s2]; [done|].
  by exists e, (set_jobs (jobs s) s2).
Qed.
