(* ===== verification/TableFacts.v ===== *)
(** * The SQL statements of the store as operations on finite maps: lookups,
    the rows a WHERE clause selects, counts, and relations between tables that
    statements and transactions preserve. *)

From S2P Require Import Prelude GoStrings Message SqlTime Queue StoreLogic.

(** Two tables with the same keys whose rows are related by [ρ]. *)
Definition same_rows (ρ : row → row → Prop) (t t' : table) : Prop :=
  ∀ id, option_Forall2 ρ (t !! id) (t' !! id).

(** [m] relates the table it starts from to the one it leaves, on every path. *)
Definition preserves {A} (R : table → table → Prop) (m : M store A) : Prop :=
  ∀ t, ensures m (λ _ t', R t t') t.

(** The total size of the estimated payloads of some rows. *)
Definition rows_bytes (l : list (string * row)) : Z := sumZ (λ x, job_bytes (r_payload x.2)) l.

(** ** Statements *)

Lemma lookup_update_where P f t id :
  update_where P f t !! id = (λ r, if P id r then f r else r) <$> t !! id.
Proof. unfold update_where. rewrite map_lookup_imap. by destruct (t !! id). Qed.

Lemma elem_of_rows_where P t id r :
  (id, r) ∈ rows_where P t ↔ t !! id = Some r ∧ P id r = true.
Proof.
  unfold rows_where. rewrite list_elem_of_In, filter_In, <- list_elem_of_In.
  by rewrite elem_of_map_to_list.
Qed.

Lemma NoDup_fst_filter {A} (p : string * A → bool) (l : list (string * A)) :
  NoDup l.*1 → NoDup (List.filter p l).*1.
Proof.
  induction l as [|[k a] l IH]; cbn; [done|]. intros [Hn Hd]%NoDup_cons.
  destruct (p (k, a)); cbn; [|by apply IH]. apply NoDup_cons; split; [|by apply IH].
  intros ([k' a'] & -> & Hin)%list_elem_of_fmap. apply Hn.
  rewrite list_elem_of_In, filter_In, <- list_elem_of_In in Hin. destruct Hin as [Hin _].
  apply list_elem_of_fmap. by exists (k', a').
Qed.

Lemma NoDup_rows_where P t : NoDup (rows_where P t).*1.
Proof. apply NoDup_fst_filter, NoDup_fst_map_to_list. Qed.

Lemma count_where_zero P t :
  count_where P t = 0 ↔ ∀ id r, t !! id = Some r → P id r = false.
Proof.
  unfold count_where. split.
  - intros H%zlen_zero id r Hr. apply not_true_iff_false. intros HP.
    assert ((id, r) ∈ rows_where P t) as Hin by by apply elem_of_rows_where.
    rewrite H in Hin. by apply elem_of_nil in Hin.
  - intros H. destruct (rows_where P t) as [|[id r] l] eqn:E; [done|].
    assert ((id, r) ∈ rows_where P t) as Hin by (rewrite E; left).
    apply elem_of_rows_where in Hin as [Hr HP]. by rewrite (H _ _ Hr) in HP.
Qed.

Lemma rows_where_ext P Q t :
  (∀ id r, t !! id = Some r → P id r = Q id r) → rows_where P t = rows_where Q t.
Proof.
  intros H. unfold rows_where.
  assert (∀ l, (∀ x, x ∈ l → P x.1 x.2 = Q x.1 x.2) →
    List.filter (λ x, P x.1 x.2) l = List.filter (λ x, Q x.1 x.2) l) as Hf.
  { induction l as [|x l IH]; cbn; intros Hl; [done|].
    rewrite (Hl x) by left. rewrite IH; [done|]. intros y Hy. apply Hl. by right. }
  apply Hf. intros [id r] Hx%elem_of_map_to_list. by apply H.
Qed.

Lemma update_where_id P f t :
  (∀ id r, t !! id = Some r → P id r = true → f r = r) → update_where P f t = t.
Proof.
  intros H. apply map_eq. intros id. rewrite lookup_update_where.
  destruct (t !! id) as [r|] eqn:E; [|done]. cbn. destruct (P id r) eqn:EP; [|done].
  f_equal. by eapply H.
Qed.

Lemma update_where_compose P Q f t :
  (∀ id r, P id r = true → Q id (f r) = false) →
  update_where Q f (update_where P f t) = update_where (λ id r, P id r || Q id r) f t.
Proof.
  intros H. apply map_eq. intros id. rewrite !lookup_update_where.
  destruct (t !! id) as [r|]; [|done]. cbn. f_equal.
  destruct (P id r) eqn:E; [by rewrite (H _ _ E)|done].
Qed.

(** ** Relations on tables *)

#[export] Instance same_rows_refl ρ `{!Reflexive ρ} : Reflexive (same_rows ρ).
Proof. intros t id. destruct (t !! id); constructor. reflexivity. Qed.

#[export] Instance same_rows_trans ρ `{!Transitive ρ} : Transitive (same_rows ρ).
Proof.
  intros t1 t2 t3 H12 H23 id. specialize (H12 id). specialize (H23 id).
  destruct H12; inversion H23; subst; constructor. by etransitivity.
Qed.

Lemma same_rows_update ρ `{!Reflexive ρ} P f t :
  (∀ id r, t !! id = Some r → P id r = true → ρ r (f r)) →
  same_rows ρ t (update_where P f t).
Proof.
  intros H id. rewrite lookup_update_where.
  destruct (t !! id) as [r|] eqn:E; cbn; constructor.
  destruct (P id r) eqn:EP; [by eapply H|reflexivity].
Qed.

Lemma same_rows_mono (ρ ρ' : row → row → Prop) t t' :
  (∀ r r', ρ r r' → ρ' r r') → same_rows ρ t t' → same_rows ρ' t t'.
Proof. intros H Hs id. destruct (Hs id); constructor; auto. Qed.

Lemma same_rows_lookup ρ t t' id r :
  same_rows ρ t t' → t !! id = Some r → ∃ r', t' !! id = Some r' ∧ ρ r r'.
Proof. intros H Hr. specialize (H id). rewrite Hr in H. inversion H; subst. eauto. Qed.

Lemma same_rows_lookup_inv ρ t t' id r' :
  same_rows ρ t t' → t' !! id = Some r' → ∃ r, t !! id = Some r ∧ ρ r r'.
Proof. intros H Hr. specialize (H id). rewrite Hr in H. inversion H; subst. eauto. Qed.

Lemma same_rows_dom ρ t t' : same_rows ρ t t' → dom t' = dom t.
Proof.
  intros H. apply set_eq. intros id. rewrite !elem_of_dom.
  destruct (H id); split; intros [? ?]; eauto; done.
Qed.

(** ** What operations preserve *)

Section preserves.
Context (R : table → table → Prop) `{!PreOrder R}.

Lemma preserves_ret {A} (a : A) : preserves R (mret a).
Proof. intros t. by apply ensures_ret. Qed.

Lemma preserves_throw {A} e : preserves R (throw e : M store A).
Proof. intros t. by apply ensures_throw. Qed.

Lemma preserves_lift {A} (x : result error A) : preserves R (lift x).
Proof. intros t. by apply ensures_lift. Qed.

Lemma preserves_bind {A B} (m : M store A) (f : A → M store B) :
  preserves R m → (∀ a, preserves R (f a)) → preserves R (m ≫= f).
Proof.
  intros Hm Hf t. apply ensures_bind. eapply ensures_mono; [apply Hm|].
  intros [a|e] t' Ht; [|done]. eapply ensures_mono; [apply Hf|].
  intros r t'' Ht'. by etransitivity.
Qed.

Lemma preserves_wrapM {A} p (m : M store A) : preserves R m → preserves R (wrapM p m).
Proof. intros Hm t. apply ensures_wrapM, Hm. Qed.

Lemma preserves_call : preserves R call.
Proof. intros t. by apply ensures_call. Qed.

Lemma preserves_sql_call : preserves R sql_call.
Proof. intros t. by apply ensures_sql_call. Qed.

Lemma preserves_query {A} (q : table → A) : preserves R (query q).
Proof. intros t. by apply ensures_query. Qed.

Lemma preserves_rows_next : preserves R rows_next.
Proof. intros t. by apply ensures_rows_next. Qed.

Lemma preserves_exec {A} (f : table → result error (A * table)) :
  (∀ t a t', f t = Ok (a, t') → R t t') → preserves R (exec f).
Proof. intros H t. apply ensures_exec; [|done]. eauto. Qed.

Lemma preserves_in_tx {A} wb wc `{!Wrapping wb, !Wrapping wc} (m : M store A) :
  preserves R m → preserves R (in_tx wb wc m).
Proof.
  intros Hm t. apply ensures_in_tx; [apply _..| |done].
  eapply ensures_mono; [apply Hm|]. by intros [a|e].
Qed.

Lemma preserves_decide {A P} `{Decision P} (m k : M store A) :
  preserves R m → preserves R k → preserves R (if decide P then m else k).
Proof. intros. by case_decide. Qed.

Lemma preserves_if {A} (b : bool) (m k : M store A) :
  preserves R m → preserves R k → preserves R (if b then m else k).
Proof. by destruct b. Qed.
End preserves.

Create HintDb preserves.
#[export] Hint Resolve preserves_ret preserves_throw preserves_lift preserves_bind
  preserves_wrapM preserves_call preserves_sql_call preserves_query preserves_rows_next
  preserves_in_tx preserves_decide preserves_if : preserves.
#[export] Hint Extern 1 (PreOrder _) => apply _ : preserves.
#[export] Hint Extern 1 (Wrapping _) => apply _ : preserves.

(** The loops that only read leave the table alone. *)
Section readers.
Context `{UnicodeCase, JSONCodec, SqlEngine, TimeDriver}.
Context (R : table → table → Prop) `{!PreOrder R}.

Lemma preserves_claim_scan stop rows : ∀ ids bytes, preserves R (claim_scan stop rows ids bytes).
Proof.
  induction rows as [|[id r] rest IH]; intros ids bytes; cbn; auto with preserves.
  apply preserves_bind; [apply _|auto with preserves|]. intros [e|]; auto with preserves.
Qed.

Lemma preserves_scan_claimed clock rows : ∀ out, preserves R (scan_claimed clock rows out).
Proof.
  induction rows as [|[id r] rest IH]; intros out; cbn; auto with preserves.
  apply preserves_bind; [apply _|auto with preserves|]. intros [e|]; auto with preserves.
Qed.

Lemma preserves_scan_counts groups : ∀ out, preserves R (scan_counts groups out).
Proof.
  induction groups as [|[st n] rest IH]; intros out; cbn; auto with preserves.
  apply preserves_bind; [apply _|auto with preserves|]. intros [e|]; auto with preserves.
Qed.

Lemma preserves_scanJobs clock rows : ∀ out, preserves R (scanJobs clock rows out).
Proof.
  induction rows as [|[id r] rest IH]; intros out; cbn;
    (apply preserves_bind; [apply _|auto with preserves|]);
    intros [e|]; auto with preserves.
Qed.

Lemma preserves_mark_loop f js :
  (∀ id t, R t (mark_one f id t)) → preserves R (mark_loop f js).
Proof.
  intros Hf. induction js as [|j js IH]; cbn; auto with preserves.
  apply preserves_bind; [apply _| |done]. apply preserves_exec; [apply _|].
  intros t a t' [= <- <-]. apply Hf.
Qed.

Lemma preserves_mark f js :
  (∀ id t, R t (mark_one f id t)) → preserves R (mark f js).
Proof. intros Hf. unfold mark. auto 10 using preserves_mark_loop with preserves. Qed.

Lemma preserves_update_counted P f :
  (∀ t, R t (update_where P f t)) → preserves R (update_counted P f).
Proof. intros Hf. apply preserves_exec; [apply _|]. intros t a t' [= <- <-]. apply Hf. Qed.

Lemma preserves_claimJobs w clock now limit stop :
  (∀ ids t, R t (claim_update w now ids t)) →
  preserves R (claimJobs w clock now limit stop).
Proof.
  intros Hu. unfold claimJobs. apply preserves_if; [auto with preserves|].
  apply preserves_in_tx; [apply _..|].
  apply preserves_bind; [apply _|auto with preserves|]. intros rows.
  apply preserves_bind; [apply _|apply preserves_claim_scan|]. intros ids.
  apply preserves_decide; [auto with preserves|].
  apply preserves_bind; [apply _| |].
  { apply preserves_exec; [apply _|]. intros t a t' [= <- <-]. apply Hu. }
  intros _. apply preserves_bind; [apply _|auto with preserves|].
  intros claimed. apply preserves_scan_claimed.
Qed.
End readers.
