(* ===== verification/QueueSpec.v ===== *)
(** * What the queue promises: the life of a job, the invariant of its rows,
    and the refinement of the abstract queue by the SQL methods.

    The abstract queue knows of a job only its status and payload; an
    operation may move a job along the arrows [op_moves] gives it, never
    touches a payload and never forgets a job. *)

From S2P Require Import Prelude GoStrings Message SqlTime Queue StoreLogic TableFacts.

(** ** The operations of the [QueueStore] interface that write *)

Inductive op :=
| OpEnqueue (now : Z) (ulid : nat → string) (envelopeFrom : string)
    (messages : list (option Message))
| OpClaim (workerID : string) (clock now limit : Z)
| OpClaimDispatch (workerID : string) (clock now limit maxCount maxBytes : Z)
| OpSent (now : Z) (js : list Job) (bulkEmailID : string)
| OpRetry (now : Z) (js : list Job) (nextAttemptAt : Z) (errMsg : string) (httpStatus : Z)
| OpDLQ (now : Z) (js : list Job) (errMsg : string) (httpStatus : Z)
| OpRequeueStale (now leaseTimeout : Z)
| OpRequeueDLQ (ids : list string) (now : Z)
| OpRetryNow (now : Z).

Section spec.
Context `{UnicodeCase, JSONCodec, SqlEngine, TimeDriver}.

Definition run_op (o : op) : M store unit :=
  match o with
  | OpEnqueue now ulid from msgs => EnqueueTx now ulid from msgs;; mret tt
  | OpClaim w clock now limit => ClaimBatch w clock now limit;; mret tt
  | OpClaimDispatch w clock now limit mc mb =>
      ClaimDispatchBatch w clock now limit mc mb;; mret tt
  | OpSent now js bulk => MarkSent now js bulk
  | OpRetry now js next msg st => MarkRetry now js next msg st
  | OpDLQ now js msg st => MarkDLQ now js msg st
  | OpRequeueStale now lease => RequeueStaleProcessing now lease;; mret tt
  | OpRequeueDLQ ids now => RequeueDLQIDs ids now;; mret tt
  | OpRetryNow now => RetryNow now;; mret tt
  end.

(** One operation on a table, under some outcome of its driver calls. *)
Definition op_step (o : op) (t t' : table) : Prop :=
  ∃ sc fs, t' = jobs (run_op o (mkStore t sc fs)).2.

Inductive reachable : table → Prop :=
| reachable_empty : reachable ∅
| reachable_step o t t' : reachable t → op_step o t t' → reachable t'.
End spec.

(** ** The abstract queue *)

Definition abstract (t : table) : gmap string (status * string) :=
  (λ r, (r_status r, r_payload r)) <$> t.

(** The arrows of the job life cycle each operation may take. *)
Definition op_moves (o : op) (st st' : status) : Prop :=
  match o with
  | OpEnqueue _ _ _ _ | OpRetryNow _ => False
  | OpClaim _ _ _ _ | OpClaimDispatch _ _ _ _ _ _ =>
      (st = StatusQueued ∨ st = StatusRetry) ∧ st' = StatusProcessing
  | OpSent _ _ _ => st = StatusProcessing ∧ st' = StatusSent
  | OpRetry _ _ _ _ _ | OpRequeueStale _ _ => st = StatusProcessing ∧ st' = StatusRetry
  | OpDLQ _ _ _ _ => st = StatusProcessing ∧ st' = StatusDLQ
  | OpRequeueDLQ _ _ => st = StatusDLQ ∧ st' = StatusRetry
  end.

(** A step of the abstract queue: an enqueue adds fresh queued jobs and leaves
    the others; any other operation moves jobs along its arrows. *)
Definition abstract_step (o : op) (m m' : gmap string (status * string)) : Prop :=
  match o with
  | OpEnqueue _ _ _ _ =>
      ∃ new, new ##ₘ m ∧ m' = new ∪ m ∧ map_Forall (λ _ x, x.1 = StatusQueued) new
  | _ =>
      ∀ id, option_Forall2
        (λ x x', x'.2 = x.2 ∧ (x'.1 = x.1 ∨ op_moves o x.1 x'.1)) (m !! id) (m' !! id)
  end.

(** ** The invariant of a row *)

Record row_wf (r : row) : Prop := {
  wf_owned : is_Some (r_worker r) ↔ r_status r = StatusProcessing;
  wf_leased : is_Some (r_started r) ↔ r_status r = StatusProcessing;
  wf_bulk : is_Some (r_bulk r) ↔ r_status r = StatusSent;
  wf_sent_clean : r_status r = StatusSent → r_error r = None ∧ r_http r = None;
  wf_dlq_error : r_status r = StatusDLQ → is_Some (r_error r) ∧ is_Some (r_http r);
  wf_queued : r_status r = StatusQueued → r_attempts r = 0;
  wf_done : r_status r = StatusSent ∨ r_status r = StatusDLQ → 0 < r_attempts r;
  wf_attempts : 0 ≤ r_attempts r
}.

Definition table_wf (t : table) : Prop := map_Forall (λ _, row_wf) t.

(** What an operation other than an enqueue may do to a row. *)
Definition row_moves (o : op) (r r' : row) : Prop :=
  r_payload r' = r_payload r ∧ r_from r' = r_from r ∧ r_rcpt r' = r_rcpt r
  ∧ r_created r' = r_created r ∧ r_attempts r ≤ r_attempts r'
  ∧ (r_status r' = r_status r ∨ op_moves o (r_status r) (r_status r')).

Definition keeps_wf (r r' : row) : Prop := row_wf r → row_wf r'.

(** The rows of a table survive, possibly among new ones, unchanged in what
    was accepted; a sent job stays sent. *)
Definition evolves (r r' : row) : Prop :=
  r_payload r' = r_payload r ∧ r_from r' = r_from r ∧ r_rcpt r' = r_rcpt r
  ∧ r_created r' = r_created r ∧ r_attempts r ≤ r_attempts r'
  ∧ (r_status r = StatusSent → r_status r' = StatusSent).

Definition grows (t t' : table) : Prop :=
  ∀ id r, t !! id = Some r → ∃ r', t' !! id = Some r' ∧ evolves r r'.

(** ** Lemmas on rows *)

#[export] Instance row_moves_refl o : Reflexive (row_moves o).
Proof. intros r. unfold row_moves. repeat split; auto; lia. Qed.

#[export] Instance row_moves_trans o : Transitive (row_moves o).
Proof.
  intros r1 r2 r3 (H1&H2&H3&H4&H5&H6) (K1&K2&K3&K4&K5&K6).
  unfold row_moves. split_and!; try congruence; [lia|].
  destruct H6 as [H6|H6], K6 as [K6|K6];
    [left; congruence|right; by rewrite <- H6|right; by rewrite K6|].
  destruct o; cbn in *; destruct_and?; destruct_or?; congruence.
Qed.

#[export] Instance row_moves_preorder o : PreOrder (row_moves o).
Proof. split; apply _. Qed.

#[export] Instance keeps_wf_preorder : PreOrder keeps_wf.
Proof. split; unfold keeps_wf; repeat intro; auto. Qed.

#[export] Instance same_rows_preorder ρ `{!PreOrder ρ} : PreOrder (same_rows ρ).
Proof. split; apply _. Qed.

#[export] Instance evolves_preorder : PreOrder evolves.
Proof.
  split; unfold evolves.
  - intros r. repeat split; auto; lia.
  - intros r1 r2 r3 (?&?&?&?&?&?) (?&?&?&?&?&?). split_and!; try congruence; auto; lia.
Qed.

#[export] Instance grows_preorder : PreOrder grows.
Proof.
  split; unfold grows.
  - intros t id r Hr. exists r. by split.
  - intros t1 t2 t3 H12 H23 id r Hr.
    destruct (H12 id r Hr) as (r2 & Hr2 & E12).
    destruct (H23 id r2 Hr2) as (r3 & Hr3 & E23). exists r3. split; [done|by etransitivity].
Qed.

Lemma row_moves_evolves o r r' : row_moves o r r' → evolves r r'.
Proof.
  intros (?&?&?&?&?&Hs). unfold evolves. split_and!; auto. intros Hsent.
  destruct Hs as [->|Hm]; [done|]. exfalso. rewrite Hsent in Hm.
  destruct o; cbn in Hm; naive_solver.
Qed.

(** ** The row functions of the UPDATE statements *)

Lemma bool_decide_status r st :
  bool_decide (r_status r = st) = true → r_status r = st.
Proof. apply bool_decide_eq_true. Qed.

Lemma claimable_status now r :
  claimable now r = true → r_status r = StatusQueued ∨ r_status r = StatusRetry.
Proof.
  unfold claimable. intros [E _]%andb_prop. apply orb_prop in E.
  by rewrite !bool_decide_eq_true in E.
Qed.

(** Solve the fields of [row_wf] for a row of known status. *)
Ltac wf_field :=
  match goal with
  | |- is_Some None ↔ _ => split; [by intros []|done]
  | |- is_Some (Some _) ↔ _ => split; [done|by eexists]
  | H : is_Some ?x ↔ _ |- is_Some ?x ↔ _ => rewrite H; split; congruence
  | |- _ => intros; first [done | lia | by split; eexists | destruct_or?; congruence | destruct_or?; lia]
  end.
Ltac wf_row E := intros [Ho Hl Hb Hs Hd Hq Hn Ha]; rewrite E in *; constructor; cbn in *; wf_field.

Lemma claim_row_wf w now r : claimable now r = true → keeps_wf r (claim_row w now r).
Proof. intros [E|E]%claimable_status; wf_row E. Qed.

Lemma sent_row_wf bulk now r :
  r_status r = StatusProcessing → keeps_wf r (sent_row bulk now r).
Proof. intros E. wf_row E. Qed.

Lemma retry_row_wf next msg st now r :
  r_status r = StatusProcessing → keeps_wf r (retry_row next msg st now r).
Proof. intros E. wf_row E. Qed.

Lemma dlq_row_wf msg st now r :
  r_status r = StatusProcessing → keeps_wf r (dlq_row msg st now r).
Proof. intros E. wf_row E. Qed.

Lemma requeue_row_wf now r :
  r_status r = StatusProcessing → keeps_wf r (requeue_row now r).
Proof. intros E. wf_row E. Qed.

Lemma replay_row_wf now r : r_status r = StatusDLQ → keeps_wf r (replay_row now r).
Proof. intros E. wf_row E. Qed.

Lemma due_row_wf now r : keeps_wf r (due_row now r).
Proof. intros []. constructor; cbn in *; done. Qed.

Lemma new_row_wf payload from rcpt now : row_wf (new_row payload from rcpt now).
Proof. constructor; cbn; wf_field. Qed.

(** ** Operations on the table *)

Definition step_row (o : op) (r r' : row) : Prop := row_moves o r r' ∧ keeps_wf r r'.

(** A table with fresh queued rows added. *)
Definition extends (t t' : table) : Prop :=
  ∃ new, new ##ₘ t ∧ t' = new ∪ t
         ∧ map_Forall (λ _ r, r_status r = StatusQueued ∧ row_wf r) new.

Definition is_enqueue (o : op) : bool :=
  match o with OpEnqueue _ _ _ _ => true | _ => false end.

#[export] Instance step_row_preorder o : PreOrder (step_row o).
Proof.
  split; unfold step_row.
  - intros r. by split.
  - intros r1 r2 r3 [] []. split; by etransitivity.
Qed.

#[export] Instance extends_preorder : PreOrder extends.
Proof.
  split.
  - intros t. exists ∅. split_and!; [apply map_disjoint_empty_l|by rewrite map_empty_union|].
    apply map_Forall_empty.
  - intros t1 t2 t3 (n1 & D1 & -> & F1) (n2 & D2 & -> & F2).
    apply map_disjoint_union_r in D2 as [D21 D2]. exists (n2 ∪ n1). split_and!.
    + by apply map_disjoint_union_l.
    + by rewrite map_union_assoc.
    + by apply map_Forall_union_2.
Qed.

Section op_lemmas.
Context `{UnicodeCase, JSONCodec, SqlEngine, TimeDriver}.

Lemma mark_rows o f :
  (∀ r, r_status r = StatusProcessing → step_row o r (f r)) →
  ∀ id t, same_rows (step_row o) t (mark_one f id t).
Proof.
  intros Hf id t. apply same_rows_update; [apply _|]. intros id' r _ HP.
  bool_to_prop. by apply Hf.
Qed.

Lemma claim_rows o w now ids t :
  (∀ r, claimable now r = true → step_row o r (claim_row w now r)) →
  same_rows (step_row o) t (claim_update w now ids t).
Proof.
  intros Hf. apply same_rows_update; [apply _|]. intros id r _ HP.
  bool_to_prop. by apply Hf.
Qed.

Lemma claim_step o w now r :
  (∀ st, st = StatusQueued ∨ st = StatusRetry → op_moves o st StatusProcessing) →
  claimable now r = true → step_row o r (claim_row w now r).
Proof.
  intros Hm Hc. split; [|by apply claim_row_wf]. unfold row_moves; cbn.
  repeat split; auto; [lia|]. right. by apply Hm, (claimable_status now).
Qed.

Lemma stale_step o now cutoff r :
  op_moves o StatusProcessing StatusRetry →
  stale cutoff r = true → step_row o r (requeue_row now r).
Proof.
  unfold stale. intros Hm [E _]%andb_prop. apply bool_decide_eq_true in E.
  split; [|by apply requeue_row_wf]. unfold row_moves; cbn. rewrite E.
  repeat split; auto; lia.
Qed.

(** Every operation but an enqueue keeps the keys and steps the rows. *)
Lemma run_op_rows o : is_enqueue o = false → preserves (same_rows (step_row o)) (run_op o).
Proof.
  destruct o; cbn; try done; intros _.
  - apply preserves_bind; [apply _| |auto with preserves].
    apply preserves_claimJobs; [apply _|]. intros ids t.
    apply claim_rows. intros r. by apply claim_step.
  - apply preserves_bind; [apply _| |auto with preserves].
    apply preserves_claimJobs; [apply _|]. intros ids t.
    apply claim_rows. intros r. by apply claim_step.
  - apply preserves_mark; [apply _|]. apply mark_rows. intros r E.
    split; [|by apply sent_row_wf]. unfold row_moves; cbn. rewrite E. repeat split; auto; lia.
  - apply preserves_mark; [apply _|]. apply mark_rows. intros r E.
    split; [|by apply retry_row_wf]. unfold row_moves; cbn. rewrite E. repeat split; auto; lia.
  - apply preserves_mark; [apply _|]. apply mark_rows. intros r E.
    split; [|by apply dlq_row_wf]. unfold row_moves; cbn. rewrite E. repeat split; auto; lia.
  - apply preserves_bind; [apply _| |auto with preserves].
    apply preserves_update_counted; [apply _|]. intros t.
    apply same_rows_update; [apply _|]. intros id r _. by apply stale_step.
  - apply preserves_bind; [apply _| |auto with preserves]. unfold RequeueDLQIDs.
    apply preserves_decide; [auto with preserves|].
    apply preserves_update_counted; [apply _|]. intros t.
    apply same_rows_update; [apply _|]. intros id r _ HP. apply andb_prop in HP as [HP _].
    apply bool_decide_eq_true in HP. split; [|by apply replay_row_wf]. unfold row_moves; cbn. rewrite HP. repeat split; auto; lia.
  - apply preserves_bind; [apply _| |auto with preserves].
    apply preserves_update_counted; [apply _|]. intros t.
    apply same_rows_update; [apply _|]. intros id r _ _.
    split; [|by apply due_row_wf]. unfold row_moves; cbn. repeat split; auto; lia.
Qed.

Lemma insert_row_extends id from now rcpt payload t a t' :
  insert_row id (job_row from now rcpt payload) t = Ok (a, t') → extends t t'.
Proof.
  unfold insert_row. destruct (t !! id) eqn:E; [done|]. intros [= <- <-].
  exists {[ id := job_row from now rcpt payload ]}. split_and!.
  - by apply map_disjoint_singleton_l.
  - by rewrite insert_union_singleton_l.
  - apply map_Forall_singleton. split; [done|apply new_row_wf].
Qed.

Lemma enqueue_extends now ulid from msgs : preserves extends (EnqueueTx now ulid from msgs).
Proof.
  unfold EnqueueTx. apply preserves_decide; [auto with preserves|].
  apply preserves_in_tx; [apply _..|].
  apply preserves_bind; [apply _|auto with preserves|]. intros _. generalize 0%nat.
  induction msgs as [|[m|] msgs IH]; intros i; cbn; auto with preserves.
  destruct (Recipients m) as [|c cs]; [auto with preserves|].
  apply preserves_bind; [apply _|auto with preserves|]. intros p.
  apply preserves_bind; [apply _| |].
  { apply preserves_wrapM, preserves_exec; [apply _|]. intros t a t'. apply insert_row_extends. }
  intros _. apply preserves_bind; [apply _|apply IH|auto with preserves].
Qed.

Lemma run_op_enqueue o : is_enqueue o = true → preserves extends (run_op o).
Proof.
  destruct o; try done. intros _. cbn.
  apply preserves_bind; [apply _|apply enqueue_extends|auto with preserves].
Qed.

Lemma op_step_cases o t t' :
  op_step o t t' →
  (is_enqueue o = true ∧ extends t t') ∨ (is_enqueue o = false ∧ same_rows (step_row o) t t').
Proof.
  intros (sc & fs & ->). destruct (is_enqueue o) eqn:E; [left|right]; (split; [done|]).
  - by apply (run_op_enqueue o E t).
  - by apply (run_op_rows o E t).
Qed.

Lemma op_step_wf o t t' : op_step o t t' → table_wf t → table_wf t'.
Proof.
  intros [(_ & new & Hd & -> & Hf)|(_ & Hr)]%op_step_cases Hwf.
  - apply map_Forall_union_2; [|done]. eapply map_Forall_impl; [exact Hf|]. by intros id r [_ ?].
  - intros id r' Hr'. destruct (same_rows_lookup_inv _ _ _ _ _ Hr Hr') as (r & Hr0 & _ & Hk).
    by eapply Hk, Hwf.
Qed.

Lemma op_step_grows o t t' : op_step o t t' → grows t t'.
Proof.
  intros [(_ & new & Hd & -> & Hf)|(_ & Hr)]%op_step_cases id r Hid.
  - exists r. split; [|by split_and!]. by apply lookup_union_Some_r.
  - destruct (same_rows_lookup _ _ _ _ _ Hr Hid) as (r' & Hr' & Hm & _).
    exists r'. split; [done|by eapply row_moves_evolves].
Qed.
End op_lemmas.
