(* ===== verification/QueueClaim.v ===== *)
(** * What [EnqueueTx] stores and what [claimJobs] hands out: the exact
    functional behaviour under every fault, and without faults. *)

From S2P Require Import Prelude GoStrings Message SqlTime Queue StoreLogic TableFacts.

(** ** Specification *)

(** The prefix of the candidates a claim takes when no iteration fails:
    [n] rows of [bytes] bytes have been taken already. *)
Fixpoint claim_prefix (shouldStop : Z → Z → Z → bool) (rows : list (string * row)) (n bytes : Z)
    : list (string * row) :=
  match rows with
  | [] => []
  | x :: rest =>
      let b := job_bytes (r_payload x.2) in
      if shouldStop n bytes b then [] else x :: claim_prefix shouldStop rest (n + 1) (bytes + b)
  end.

Section spec.
Context `{UnicodeCase, JSONCodec, SqlEngine, TimeDriver}.

(** The row [x] stores the message [om]. *)
Definition stored_as (from : string) (now : Z) (om : option Message) (x : string * row) : Prop :=
  ∃ m c cs p, om = Some m ∧ Recipients m = c :: cs ∧ marshal m = Ok p
              ∧ x.2 = job_row from now c p.

(** What a successful enqueue of [msgs] did to the table. *)
Definition enqueued (from : string) (now : Z) (ulid : nat → string) (i : nat)
    (msgs : list (option Message)) (ids : list string) (t t' : table) : Prop :=
  ∃ rows, Forall2 (stored_as from now) msgs rows
          ∧ ids = rows.*1 ∧ ids = ulid <$> seq i (length msgs)
          ∧ NoDup ids ∧ (∀ id, id ∈ ids → t !! id = None)
          ∧ t' = list_to_map rows ∪ t.

(** What a claim that returned [js] did: it took the rows [sel], a prefix of
    what the limits allow, and each job is the claimed state of one of them. *)
Definition claimed (workerID : string) (clock now limit : Z) (stop : Z → Z → Z → bool)
    (t : table) (js : list Job) (t' : table) : Prop :=
  ∃ sel, sel `prefix_of` claim_prefix stop (select_claimable now limit t) 0 0
         ∧ t' = claim_update workerID now sel.*1 t
         ∧ NoDup (ID <$> js)
         ∧ ∀ j, j ∈ js → ∃ r m, (ID j, r) ∈ sel ∧ unmarshal (r_payload r) = Ok m
               ∧ j = job_of_row clock (ID j) (claim_row workerID now r) (Some m).
End spec.

(** ** Enqueue *)

Section enqueue.
Context `{UnicodeCase, JSONCodec, SqlEngine, TimeDriver}.

Lemma ensures_enqueue_loop from now ulid msgs : ∀ i t,
  ensures (enqueue_loop from now ulid i msgs)
    (λ r t', match r with
             | Ok ids => enqueued from now ulid i msgs ids t t'
             | Err _ => True
             end) t.
Proof.
  induction msgs as [|[m|] msgs IH]; intros i t; cbn [enqueue_loop].
  - ensures_step. exists []. split_and!; try done; [constructor| |].
    + by intros id ?%elem_of_nil.
    + by rewrite list_to_map_nil, map_empty_union.
  - destruct (Recipients m) as [|c cs] eqn:Em; [by ensures_step|].
    do 2 ensures_step. destruct (marshal m) as [p|] eqn:Ep; cbn; [|done].
    do 3 ensures_step; [|done]. intros a t1 Hins. cbn.
    unfold insert_row in Hins. destruct (t !! ulid i) eqn:Hfresh; [done|].
    injection Hins as <- <-. ensures_step. eapply ensures_mono; [apply IH|].
    intros [ids|e] t2; [|done]. intros (rows & Hst & Hids & Hul & Hnd & Hfr & ->).
    ensures_step. exists ((ulid i, job_row from now c p) :: rows). split_and!.
    + constructor; [|done]. by exists m, c, cs, p.
    + cbn. by f_equal.
    + cbn. by f_equal.
    + apply NoDup_cons. split; [|done]. intros Hin. specialize (Hfr _ Hin).
      by rewrite lookup_insert_eq in Hfr.
    + intros id [->|Hin]%elem_of_cons; [done|]. specialize (Hfr _ Hin).
      rewrite lookup_insert_ne in Hfr; [done|]. intros <-.
      by rewrite lookup_insert_eq in Hfr.
    + cbn. rewrite <- insert_union_l, insert_union_r; [done|].
      apply not_elem_of_list_to_map_1. rewrite <- Hids. intros Hin.
      specialize (Hfr _ Hin). by rewrite lookup_insert_eq in Hfr.
  - by ensures_step.
Qed.

Lemma ensures_EnqueueTx now ulid from msgs t :
  ensures (EnqueueTx now ulid from msgs)
    (λ r t', match r with
             | Ok ids => enqueued from now ulid 0 msgs ids t t'
             | Err _ => t' = t
             end) t.
Proof.
  unfold EnqueueTx. case_decide as Hm.
  - subst. ensures_step. exists []. split_and!; try done; [constructor| |].
    + by intros id ?%elem_of_nil.
    + by rewrite list_to_map_nil, map_empty_union.
  - ensures_step; [|done]. do 3 ensures_step; [|done].
    eapply ensures_mono; [apply ensures_enqueue_loop|]. by intros [ids|e].
Qed.

(** Enough for an enqueue to succeed: every message has a recipient and
    encodes, and the fresh identifiers are fresh. *)
Definition enqueueable (ulid : nat → string) (msgs : list (option Message)) (t : table) : Prop :=
  Forall (λ om, ∃ m p, om = Some m ∧ Recipients m ≠ [] ∧ marshal m = Ok p) msgs
  ∧ NoDup (ulid <$> seq 0 (length msgs))
  ∧ ∀ i, (i < length msgs)%nat → t !! ulid i = None.

Lemma runs_enqueue_loop from now ulid msgs : ∀ i t,
  Forall (λ om, ∃ m p, om = Some m ∧ Recipients m ≠ [] ∧ marshal m = Ok p) msgs →
  NoDup (ulid <$> seq i (length msgs)) →
  (∀ k, (i ≤ k < i + length msgs)%nat → t !! ulid k = None) →
  ∃ t', runs (enqueue_loop from now ulid i msgs) t (ulid <$> seq i (length msgs)) t'.
Proof.
  induction msgs as [|om msgs IH]; intros i t Hf Hnd Hfr; cbn in *.
  { exists t. apply runs_ret. }
  apply Forall_cons in Hf as [(m & p & -> & Hr & Hp) Hf].
  destruct (Recipients m) as [|c cs]; [done|].
  apply NoDup_cons in Hnd as [Hni Hnd].
  destruct (IH (S i) (<[ulid i := job_row from now c p]> t)) as [t' Ht']; [done..| |].
  { intros k Hk. rewrite lookup_insert_ne; [apply Hfr; lia|]. intros Heq. apply Hni.
    rewrite Heq. apply list_elem_of_fmap. exists k. split; [done|]. apply elem_of_seq. lia. }
  exists t'. rewrite Hp. eapply runs_bind; [apply runs_lift|].
  eapply runs_bind.
  { apply runs_wrapM, runs_exec. unfold insert_row. rewrite Hfr by lia. done. }
  eapply runs_bind; [exact Ht'|]. apply runs_ret.
Qed.

Lemma runs_EnqueueTx now ulid from msgs t :
  enqueueable ulid msgs t →
  ∃ t', runs (EnqueueTx now ulid from msgs) t (ulid <$> seq 0 (length msgs)) t'
        ∧ enqueued from now ulid 0 msgs (ulid <$> seq 0 (length msgs)) t t'.
Proof.
  intros (Hf & Hnd & Hfr).
  assert (∃ t', runs (EnqueueTx now ulid from msgs) t (ulid <$> seq 0 (length msgs)) t')
    as [t' Ht'].
  { unfold EnqueueTx. case_decide as Hm; [subst; exists t; apply runs_ret|].
    destruct (runs_enqueue_loop from now ulid msgs 0 t) as [t' Ht']; [done..| |].
    { intros k Hk. apply Hfr. lia. }
    exists t'. apply runs_in_tx; [apply _..|].
    eapply runs_bind; [apply runs_wrapM, runs_sql_call|done]. }
  exists t'. split; [done|].
  exact (runs_ensures _ _ _ _ _ Ht' (ensures_EnqueueTx now ulid from msgs t)).
Qed.
End enqueue.

(** ** Claim: the selection *)

Lemma claim_prefix_prefix stop rows : ∀ n b, claim_prefix stop rows n b `prefix_of` rows.
Proof.
  induction rows as [|x rows IH]; intros n b; cbn; [done|].
  case_match; [by exists (x :: rows)|]. apply prefix_cons, IH.
Qed.

Lemma claim_prefix_all rows : ∀ n b, claim_prefix (λ _ _ _, false) rows n b = rows.
Proof. induction rows as [|x rows IH]; intros n b; cbn; [done|]. by rewrite IH. Qed.

Lemma job_bytes_pos p : 128 ≤ job_bytes p.
Proof. unfold job_bytes. pose proof (slen_nonneg p). lia. Qed.

Lemma rows_bytes_nonneg l : 0 ≤ rows_bytes l.
Proof. apply sumZ_nonneg. intros x. pose proof (job_bytes_pos (r_payload x.2)). lia. Qed.

(** Once a row has been taken the limits bound the batch. *)
Lemma claim_prefix_bounds mc mb rows : ∀ n b,
  1 ≤ n →
  let sel := claim_prefix (batch_full mc mb) rows n b in
  sel = [] ∨ (n + zlen sel ≤ mc ∧ b + rows_bytes sel ≤ mb).
Proof.
  induction rows as [|x rows IH]; intros n b Hn sel; subst sel; cbn; [by left|].
  destruct (batch_full mc mb n b (job_bytes (r_payload x.2))) eqn:E; [by left|right].
  unfold batch_full in E. rewrite (proj2 (Z.ltb_lt 0 n)) in E by lia. cbn in E. bool_to_prop.
  destruct (IH (n + 1) (b + job_bytes (r_payload x.2)) ltac:(lia)) as [->|[Hc Hb]].
  - rewrite zlen_cons, zlen_nil. unfold rows_bytes. cbn. lia.
  - rewrite zlen_cons. unfold rows_bytes in *. cbn. lia.
Qed.

(** The bounds a dispatch claim keeps: [mc] jobs, and [mb] bytes unless it is a single job. *)
Lemma claim_prefix_limits mc mb rows sel :
  1 ≤ mc → sel `prefix_of` claim_prefix (batch_full mc mb) rows 0 0 →
  zlen sel ≤ mc ∧ (rows_bytes sel ≤ mb ∨ zlen sel ≤ 1).
Proof.
  intros Hmc [k Hk]. destruct rows as [|x rows]; cbn in Hk.
  { destruct sel; [|done]. rewrite zlen_nil. lia. }
  destruct sel as [|y sel]; [rewrite zlen_nil; lia|]. injection Hk as <- Hk.
  pose proof (claim_prefix_bounds mc mb rows 1 (job_bytes (r_payload x.2)) ltac:(lia)) as Hb.
  cbn zeta in Hb. rewrite !Z.add_0_l in Hk. rewrite Hk in Hb. rewrite zlen_cons.
  destruct Hb as [Hb|[Hc Hb]].
  - destruct sel; [rewrite zlen_nil; lia|done].
  - rewrite zlen_app in Hc. pose proof (zlen_nonneg k).
    unfold rows_bytes in *. rewrite sumZ_app in Hb. cbn.
    pose proof (rows_bytes_nonneg k). unfold rows_bytes in *. lia.
Qed.

Section claim.
Context `{UnicodeCase, JSONCodec, SqlEngine, TimeDriver, !SqlEngineLaws}.

Lemma elem_of_select_claimable now limit t id r :
  (id, r) ∈ select_claimable now limit t → t !! id = Some r ∧ claimable now r = true.
Proof.
  unfold select_claimable. intros Hin.
  eapply elem_of_prefix in Hin; [|apply prefix_take]. rewrite order_by_perm in Hin. by apply elem_of_rows_where in Hin.
Qed.

Lemma NoDup_select_claimable now limit t : NoDup (select_claimable now limit t).*1.
Proof.
  unfold select_claimable. rewrite fmap_take. eapply sublist_NoDup; [|apply sublist_take].
  rewrite order_by_perm. apply NoDup_rows_where.
Qed.

Lemma select_claimable_limit now limit t :
  0 ≤ limit → zlen (select_claimable now limit t) ≤ limit.
Proof.
  intros Hl. unfold select_claimable, zlen. rewrite length_take. lia.
Qed.

(** The rows re-read after the update are the selected ones in their claimed state. *)
Lemma elem_of_select_claimed w now t (sel : list (string * row)) id r' :
  (∀ x, x ∈ sel → t !! x.1 = Some x.2 ∧ claimable now x.2 = true) →
  (id, r') ∈ select_claimed w sel.*1 (claim_update w now sel.*1 t) ↔
  ∃ r, (id, r) ∈ sel ∧ r' = claim_row w now r.
Proof.
  intros Hsel. unfold select_claimed. rewrite order_by_perm, elem_of_rows_where.
  unfold claim_update. rewrite lookup_update_where. split.
  - intros [Hl [_ HP]%andb_prop]. apply bool_decide_eq_true in HP.
    destruct (t !! id) as [r|] eqn:E; [|done].
    apply list_elem_of_fmap in HP as ([id' r0] & -> & Hin). cbn in *.
    destruct (Hsel _ Hin) as [Hr Hc]. cbn in *. simplify_eq.
    exists r. split; [done|]. rewrite Hc, bool_decide_eq_true_2; [done|].
    apply list_elem_of_fmap. by exists (id', r).
  - intros (r & Hin & ->). destruct (Hsel _ Hin) as [Hr Hc]. cbn in *.
    assert (id ∈ sel.*1) as Hid by (apply list_elem_of_fmap; by exists (id, r)).
    rewrite Hr. cbn. rewrite Hc, (bool_decide_eq_true_2 _ Hid). cbn.
    by rewrite !bool_decide_eq_true_2.
Qed.

Lemma ensures_claim_scan stop rows : ∀ ids b t,
  ensures (claim_scan stop rows ids b)
    (λ r t', t' = t ∧ ∀ out, r = Ok out →
       ∃ sel, sel `prefix_of` claim_prefix stop rows (zlen ids) b ∧ out = ids ++ sel.*1) t.
Proof.
  assert (Hstop : ∀ (ids : list string) l, ∃ sel : list (string * row),
    sel `prefix_of` l ∧ ids = ids ++ sel.*1).
  { intros ids l. exists []. split; [by exists l|]. by rewrite app_nil_r. }
  induction rows as [|[id r] rows IH]; intros ids b t; cbn [claim_scan].
  - do 2 ensures_step; [|intros e]; ensures_step; (split; [done|]); intros out [= <-]; apply Hstop.
  - do 2 ensures_step; [|intros e; ensures_step; split; [done|]; intros out [= <-]; apply Hstop].
    do 2 ensures_step; [|by intros e]. cbn.
    destruct (stop (zlen ids) b (job_bytes (r_payload r))) eqn:E.
    { ensures_step. split; [done|]. intros out [= <-]. apply Hstop. }
    eapply ensures_mono; [apply IH|]. intros res t' [-> Ho]. split; [done|].
    intros out Hout. destruct (Ho out Hout) as (sel & Hp & ->). exists ((id, r) :: sel).
    rewrite zlen_app in Hp. split; [by apply prefix_cons|]. by rewrite <- app_assoc.
Qed.

Definition scanned (clock : Z) (j : Job) (x : string * row) : Prop :=
  ∃ m, unmarshal (r_payload x.2) = Ok m ∧ j = job_of_row clock x.1 x.2 (Some m).

Lemma ensures_scan_claimed clock rows : ∀ out t,
  ensures (scan_claimed clock rows out)
    (λ r t', t' = t ∧ ∀ js, r = Ok js →
       ∃ new got, js = out ++ new ∧ got `prefix_of` rows ∧ Forall2 (scanned clock) new got) t.
Proof.
  assert (Hstop : ∀ (out : list Job) (l : list (string * row)), ∃ new got,
    out = out ++ new ∧ got `prefix_of` l ∧ Forall2 (scanned clock) new got).
  { intros out l. exists [], []. rewrite app_nil_r. repeat split; [by exists l|constructor]. }
  induction rows as [|[id r] rows IH]; intros out t; cbn [scan_claimed].
  - do 2 ensures_step; [|intros e]; ensures_step; (split; [done|]); intros js [= <-]; apply Hstop.
  - do 2 ensures_step; [|intros e; ensures_step; split; [done|]; intros js [= <-]; apply Hstop].
    do 2 ensures_step; [|by intros e].
    do 3 ensures_step. destruct (unmarshal (r_payload r)) as [m|e] eqn:Em; cbn; [|done].
    eapply ensures_mono; [apply IH|]. intros res t' [-> Ho]. split; [done|].
    intros js Hjs. destruct (Ho js Hjs) as (new & got & -> & Hp & Hf).
    exists (job_of_row clock id r (Some m) :: new), ((id, r) :: got).
    rewrite <- app_assoc. split_and!; [done|by apply prefix_cons|].
    constructor; [by exists m|done].
Qed.
End claim.

Section claim_jobs.
Context `{UnicodeCase, JSONCodec, SqlEngine, TimeDriver, !SqlEngineLaws}.

Lemma claim_update_nil w now t : claim_update w now [] t = t.
Proof.
  apply update_where_id. intros id r _ [_ Hin]%andb_prop.
  by apply bool_decide_eq_true, elem_of_nil in Hin.
Qed.

Lemma claimed_nothing w clock now limit stop t : claimed w clock now limit stop t [] t.
Proof.
  exists []. rewrite claim_update_nil. split_and!; [by eexists|done|constructor|].
  by intros j ?%elem_of_nil.
Qed.

(** The rows a selection may hold. *)
Lemma elem_of_selection stop now limit t sel x :
  sel `prefix_of` claim_prefix stop (select_claimable now limit t) 0 0 → x ∈ sel →
  t !! x.1 = Some x.2 ∧ claimable now x.2 = true.
Proof.
  intros Hp Hx. destruct x as [id r]. apply (elem_of_select_claimable now limit).
  eapply elem_of_prefix; [exact Hx|]. etransitivity; [exact Hp|]. apply claim_prefix_prefix.
Qed.

Lemma NoDup_selection stop now limit t sel :
  sel `prefix_of` claim_prefix stop (select_claimable now limit t) 0 0 → NoDup sel.*1.
Proof.
  intros Hp. assert (sel `prefix_of` select_claimable now limit t) as [k Hk].
  { etransitivity; [exact Hp|]. apply claim_prefix_prefix. }
  pose proof (NoDup_select_claimable now limit t) as Hnd.
  rewrite Hk, fmap_app in Hnd. by apply NoDup_app in Hnd as [? _].
Qed.

Lemma NoDup_select_claimed w ids t : NoDup (select_claimed w ids t).*1.
Proof. unfold select_claimed. rewrite order_by_perm. apply NoDup_rows_where. Qed.

Lemma scanned_ids clock new got : Forall2 (scanned clock) new got → ID <$> new = got.*1.
Proof. induction 1 as [|j x new got (m & _ & ->)]; cbn; [done|]. by f_equal. Qed.

Lemma ensures_claimJobs w clock now limit stop t :
  ensures (claimJobs w clock now limit stop)
    (λ r t', match r with
             | Ok js => claimed w clock now limit stop t js t'
             | Err _ => t' = t
             end) t.
Proof.
  unfold claimJobs. destruct (limit <=? 0); [ensures_step; apply claimed_nothing|].
  ensures_step; [|done]. do 2 ensures_step; [|done]. ensures_step.
  eapply ensures_mono; [apply ensures_claim_scan|].
  intros [ids|e] t1 [-> Hids]; [|done].
  destruct (Hids ids eq_refl) as (sel & Hp & ->). clear Hids.
  rewrite zlen_nil in Hp. change ([] ++ sel.*1) with sel.*1. case_decide as Hsel.
  { ensures_step. apply claimed_nothing. }
  do 2 ensures_step; [|done]. intros a t1 [= _ <-]. do 2 ensures_step; [|done].
  eapply ensures_mono; [apply ensures_scan_claimed|].
  intros [js|e] t2 [-> Hjs]; [|done]. destruct (Hjs js eq_refl) as (new & got & -> & Hg & Hf).
  exists sel. split_and!; [done|done| |].
  - cbn. rewrite (scanned_ids _ _ _ Hf). destruct Hg as [k Hk].
    pose proof (NoDup_select_claimed w sel.*1 (claim_update w now sel.*1 t)) as Hnd.
    rewrite Hk, fmap_app in Hnd. by apply NoDup_app in Hnd as [? _].
  - intros j Hj. apply list_elem_of_lookup in Hj as [i Hi].
    destruct (Forall2_lookup_l _ _ _ _ _ Hf Hi) as ([id r'] & Hg' & m & Hm & ->).
    apply list_elem_of_lookup_2 in Hg'. eapply elem_of_prefix in Hg'; [|exact Hg].
    apply elem_of_select_claimed in Hg' as (r & Hin & ->);
      [|by intros x Hx; eapply elem_of_selection].
    by exists r, m.
Qed.

(** Without faults, and when the stored payloads decode, the whole selection is handed out. *)
Lemma runs_claim_scan stop rows : ∀ ids b t,
  runs (claim_scan stop rows ids b) t
    (ids ++ (claim_prefix stop rows (zlen ids) b).*1) t.
Proof.
  induction rows as [|[id r] rows IH]; intros ids b t; cbn [claim_scan claim_prefix].
  - rewrite app_nil_r. eapply runs_bind; [apply runs_rows_next|apply runs_ret].
  - eapply runs_bind; [apply runs_rows_next|]. eapply runs_bind; [apply runs_call|].
    cbn [snd]. destruct (stop (zlen ids) b (job_bytes (r_payload r))).
    { rewrite app_nil_r. apply runs_ret. }
    specialize (IH (ids ++ [id]) (b + job_bytes (r_payload r)) t).
    rewrite zlen_app, <- app_assoc in IH. exact IH.
Qed.

Lemma runs_scan_claimed clock rows : ∀ out t,
  (∀ x, x ∈ rows → ∃ m, unmarshal (r_payload x.2) = Ok m) →
  ∃ new, runs (scan_claimed clock rows out) t (out ++ new) t ∧ Forall2 (scanned clock) new rows.
Proof.
  induction rows as [|[id r] rows IH]; intros out t Hm; cbn [scan_claimed].
  - exists []. rewrite app_nil_r. split; [|constructor].
    eapply runs_bind; [apply runs_rows_next|apply runs_ret].
  - destruct (Hm (id, r)) as [m Em]; [left|]. cbn in Em.
    destruct (IH (out ++ [job_of_row clock id r (Some m)]) t) as (new & Hr & Hf).
    { intros x Hx. apply Hm. by right. }
    exists (job_of_row clock id r (Some m) :: new). rewrite <- app_assoc in Hr. split.
    + eapply runs_bind; [apply runs_rows_next|]. eapply runs_bind; [apply runs_call|].
      rewrite Em. eapply runs_bind; [apply runs_wrapM, runs_lift|exact Hr].
    + constructor; [by exists m|done].
Qed.

Definition decodable (now : Z) (t : table) : Prop :=
  ∀ id r, t !! id = Some r → claimable now r = true → ∃ m, unmarshal (r_payload r) = Ok m.

Lemma runs_claimJobs w clock now limit stop t :
  0 < limit → decodable now t →
  let sel := claim_prefix stop (select_claimable now limit t) 0 0 in
  ∃ js, runs (claimJobs w clock now limit stop) t js (claim_update w now sel.*1 t)
        ∧ (ID <$> js) ≡ₚ sel.*1.
Proof.
  intros Hl Hdec sel. unfold claimJobs. rewrite (proj2 (Z.leb_gt limit 0)) by lia.
  pose proof (runs_claim_scan stop (select_claimable now limit t) [] 0 t) as Hscan.
  change ([] ++ _) with sel.*1 in Hscan.
  destruct (decide (sel.*1 = [])) as [Hs|Hs].
  - exists []. rewrite Hs in Hscan |- *. rewrite claim_update_nil. split; [|done].
    apply runs_in_tx; [apply _..|]. eapply runs_bind; [apply runs_query|].
    eapply runs_bind; [exact Hscan|]. rewrite decide_True by done. apply runs_ret.
  - assert (Hin : ∀ x, x ∈ sel → t !! x.1 = Some x.2 ∧ claimable now x.2 = true).
    { intros x Hx. by eapply elem_of_selection. }
    destruct (runs_scan_claimed clock
      (select_claimed w sel.*1 (claim_update w now sel.*1 t)) []
      (claim_update w now sel.*1 t)) as (js & Hr & Hf).
    { intros [id r'] Hx. apply elem_of_select_claimed in Hx as (r & Hx & ->); [|done].
      destruct (Hin _ Hx) as [Hlk Hc]. exact (Hdec id r Hlk Hc). }
    exists js. split.
    + apply runs_in_tx; [apply _..|]. eapply runs_bind; [apply runs_query|].
      eapply runs_bind; [exact Hscan|]. rewrite decide_False by done.
      eapply runs_bind; [apply runs_exec; reflexivity|]. eapply runs_bind; [apply runs_query|exact Hr].
    + rewrite (scanned_ids _ _ _ Hf). apply NoDup_Permutation.
      * apply NoDup_select_claimed.
      * eapply (NoDup_selection stop now limit t). reflexivity.
      * intros id. rewrite !list_elem_of_fmap. split.
        -- intros ([id' r'] & -> & Hx). apply elem_of_select_claimed in Hx as (r & Hx & _); [|done].
           by exists (id', r).
        -- intros ([id' r] & -> & Hx). exists (id', claim_row w now r). split; [done|].
           apply elem_of_select_claimed; [done|]. by exists r.
Qed.

(** A selected row whose payload does not decode makes the whole claim fail. *)
Lemma scan_claimed_fails clock rows : ∀ out,
  (∃ x e, x ∈ rows ∧ unmarshal (r_payload x.2) = Err e) →
  ∀ t s, jobs s = t → schema s = true → faults s = [] →
  is_ok (scan_claimed clock rows out s).1 = false.
Proof.
  induction rows as [|[id r] rows IH]; intros out (x & e & Hin & He) t;
    [by apply elem_of_nil in Hin|]. cbn [scan_claimed].
  eapply fails_bind; [apply runs_rows_next|].
  eapply fails_bind; [apply runs_call|]. intros s Hj Hsc Hfs.
  destruct (unmarshal (r_payload r)) as [m|e'] eqn:Em.
  - refine (fails_bind _ _ _ _ _ (runs_wrapM _ _ _ _ _ (runs_lift _ _)) _ s Hj Hsc Hfs).
    apply (IH _). exists x, e. split; [|done].
    apply elem_of_cons in Hin as [->|]; [cbn in He; congruence|done].
  - done.
Qed.

Lemma claimJobs_fails w clock now limit stop t id r e :
  0 < limit →
  (id, r) ∈ claim_prefix stop (select_claimable now limit t) 0 0 →
  unmarshal (r_payload r) = Err e →
  fails (claimJobs w clock now limit stop) t.
Proof.
  intros Hl Hin He. unfold claimJobs. rewrite (proj2 (Z.leb_gt limit 0)) by lia.
  set (sel := claim_prefix stop (select_claimable now limit t) 0 0) in *.
  assert (Hsel : ∀ x, x ∈ sel → t !! x.1 = Some x.2 ∧ claimable now x.2 = true).
  { intros x Hx. by eapply elem_of_selection. }
  apply fails_in_tx; [apply _..|]. eapply fails_bind; [apply runs_query|].
  eapply fails_bind; [apply runs_claim_scan|]. rewrite zlen_nil. cbn [app]. fold sel.
  rewrite decide_False by (intros Hnil; destruct sel; [by apply elem_of_nil in Hin|done]).
  eapply fails_bind; [apply runs_exec; reflexivity|]. eapply fails_bind; [apply runs_query|].
  apply (scan_claimed_fails clock _ []). exists (id, claim_row w now r), e. split; [|done].
  apply elem_of_select_claimed; [done|]. by exists r.
Qed.
End claim_jobs.
