(* ===== verification/QueueMark.v ===== *)
(** * The marking, requeueing and counting methods of the store: exact effect
    on the table and exact results. *)

From S2P Require Import Prelude GoStrings Message SqlTime Queue StoreLogic TableFacts QueueSpec QueueClaim.

(** ** Specification *)

(** The table after [f] is applied to the jobs of [js] that are still being processed. *)
Definition marked (f : row → row) (js : list Job) (t : table) : table :=
  update_where (λ id r, bool_decide (id ∈ ID <$> js)
                        && bool_decide (r_status r = StatusProcessing)) f t.

Definition status_count (t : table) (st : status) : Z :=
  count_where (λ _ r, bool_decide (r_status r = st)) t.

(** ** Marking *)

Lemma ensures_mark_loop f js : (∀ r, r_status (f r) ≠ StatusProcessing) → ∀ t,
  ensures (mark_loop f js)
    (λ r t', match r with Ok _ => t' = marked f js t | Err _ => True end) t.
Proof.
  intros Hf. induction js as [|j js IH]; intros t; cbn [mark_loop].
  - ensures_step. symmetry. apply update_where_id. intros id r _ [Hin _]%andb_prop.
    by apply bool_decide_eq_true, elem_of_nil in Hin.
  - do 2 ensures_step; [|done]. intros a t1 [= _ <-]. eapply ensures_mono; [apply IH|].
    intros [x|e] t2; [|done]. intros ->. unfold marked, mark_one.
    rewrite update_where_compose.
    + apply map_eq. intros id. rewrite !lookup_update_where.
      destruct (t !! id) as [r|]; [|done]. cbn. f_equal.
      rewrite !bool_decide_decide. repeat case_decide; set_solver.
    + intros id r _. rewrite (bool_decide_eq_false_2 (r_status (f r) = _)) by done.
      by rewrite andb_false_r.
Qed.

Lemma ensures_mark f js : (∀ r, r_status (f r) ≠ StatusProcessing) → ∀ t,
  ensures (mark f js)
    (λ r t', match r with Ok _ => t' = marked f js t | Err _ => t' = t end) t.
Proof.
  intros Hf t. unfold mark. case_decide as Hjs.
  - ensures_step. subst. symmetry. apply update_where_id. intros id r _ [Hin _]%andb_prop.
    by apply bool_decide_eq_true, elem_of_nil in Hin.
  - ensures_step; [|done]. do 2 ensures_step; [|done].
    eapply ensures_mono; [by apply ensures_mark_loop|]. by intros [x|e].
Qed.

Lemma runs_mark_loop f js : ∀ t, ∃ t', runs (mark_loop f js) t tt t'.
Proof.
  induction js as [|j js IH]; intros t; cbn [mark_loop]; [eexists; apply runs_ret|].
  destruct (IH (mark_one f (ID j) t)) as [t' Ht']. exists t'.
  eapply runs_bind; [apply runs_exec; reflexivity|exact Ht'].
Qed.

Lemma runs_mark f js t : (∀ r, r_status (f r) ≠ StatusProcessing) →
  runs (mark f js) t tt (marked f js t).
Proof.
  intros Hf. assert (∃ t', runs (mark f js) t tt t') as [t' Ht'].
  { unfold mark. case_decide; [eexists; apply runs_ret|].
    destruct (runs_mark_loop f js t) as [t' Ht']. exists t'.
    apply runs_in_tx; [apply _..|]. eapply runs_bind; [apply runs_sql_call|exact Ht']. }
  pose proof (runs_ensures _ _ _ _ _ Ht' (ensures_mark f js Hf t)) as Heq. cbn in Heq.
  by rewrite Heq in Ht'.
Qed.

Lemma lookup_marked f js t id r :
  t !! id = Some r →
  marked f js t !! id =
    Some (if bool_decide (id ∈ ID <$> js) && bool_decide (r_status r = StatusProcessing)
          then f r else r).
Proof. intros Hr. unfold marked. by rewrite lookup_update_where, Hr. Qed.

(** ** Single updates with a count *)

Lemma ensures_update_counted P f t :
  ensures (update_counted P f)
    (λ r t', match r with
             | Ok n => n = count_where P t ∧ t' = update_where P f t
             | Err _ => t' = t
             end) t.
Proof. unfold update_counted. ensures_step; [|done]. by intros a t' [= <- <-]. Qed.

Lemma runs_update_counted P f t :
  runs (update_counted P f) t (count_where P t) (update_where P f t).
Proof. by apply runs_exec. Qed.

(** A statement whose updated rows fall out of its WHERE clause leaves none behind. *)
Lemma update_where_exhausts P f t :
  (∀ id r, P id r = true → P id (f r) = false) → count_where P (update_where P f t) = 0.
Proof.
  intros Hf. apply count_where_zero. intros id r Hr.
  rewrite lookup_update_where in Hr. destruct (t !! id) as [r0|]; [|done].
  cbn in Hr. destruct (P id r0) eqn:E; simplify_eq; auto.
Qed.

(** The rows an [id IN (...)] clause can select are as many as its distinct keys. *)
Lemma count_where_keys P (ids : list string) t :
  (∀ id r, P id r = true → id ∈ ids) → count_where P t ≤ zlen (remove_dups ids).
Proof.
  intros HP. unfold count_where, zlen. rewrite <- (length_fmap fst).
  apply inj_le. apply submseteq_length. apply NoDup_submseteq; [apply NoDup_rows_where|].
  intros id ([id' r] & -> & Hin)%list_elem_of_fmap.
  apply elem_of_rows_where in Hin as [_ HPr]. apply elem_of_remove_dups. by eapply HP.
Qed.

(** ** Counting *)

Lemma status_text_inj st st' : status_text st = status_text st' → st = st'.
Proof. by destruct st, st'. Qed.

Lemma elem_of_all_status st : st ∈ all_status.
Proof. destruct st; unfold all_status; set_solver. Qed.

(** The statuses partition the table. *)
Lemma status_counts_sum t : sumZ (status_count t) all_status = Z.of_nat (size t).
Proof.
  unfold status_count, count_where, rows_where. rewrite <- length_map_to_list.
  generalize (map_to_list t). intros l. induction l as [|[id r] l IH]; [done|].
  cbn [List.filter snd fst]. cbn [all_status sumZ] in *.
  destruct (r_status r); repeat (case_bool_decide; try done); autorewrite with zlen in *;
    unfold zlen in *; cbn [List.length]; lia.
Qed.

Section counting.
Context `{UnicodeCase, JSONCodec, SqlEngine, TimeDriver, !SqlEngineLaws}.

Definition counts_of (t : table) : gmap string Z :=
  list_to_map ((λ st, (status_text st, status_count t st)) <$> all_status).

Lemma lookup_counts_of t st : counts_of t !! status_text st = Some (status_count t st).
Proof. unfold counts_of. by destruct st. Qed.

Lemma runs_scan_counts groups t : ∀ out,
  runs (scan_counts groups out) t
    (foldl (λ m g, <[status_text g.1 := g.2]> m) out groups) t.
Proof.
  induction groups as [|[st n] groups IH]; intros out; cbn [scan_counts foldl].
  - eapply runs_bind; [apply runs_rows_next|apply runs_ret].
  - eapply runs_bind; [apply runs_rows_next|]. eapply runs_bind; [apply runs_call|apply IH].
Qed.

Lemma lookup_fold_counts groups (out : gmap string Z) st :
  NoDup groups.*1 →
  foldl (λ m g, <[status_text g.1 := g.2]> m) out groups !! status_text st =
  match list_find (λ g, g.1 = st) groups with
  | Some (_, g) => Some g.2
  | None => out !! status_text st
  end.
Proof.
  revert out. induction groups as [|[st' n] groups IH]; intros out Hnd; cbn; [done|].
  apply NoDup_cons in Hnd as [Hni Hnd]. rewrite IH by done. case_decide as Hst; cbn in Hst.
  - subst st'. destruct (list_find _ groups) as [[i [st2 n2]]|] eqn:E; cbn.
    + apply list_find_Some in E as (E & Hst2 & _). cbn in Hst2. subst. exfalso. apply Hni.
      apply list_elem_of_fmap. exists (st, n2). split; [done|]. by eapply list_elem_of_lookup_2.
    + by rewrite lookup_insert_eq.
  - destruct (list_find _ groups) as [[i g]|]; cbn; [done|].
    rewrite lookup_insert_ne; [done|]. by intros ?%status_text_inj.
Qed.

Lemma elem_of_status_groups t st n :
  (st, n) ∈ status_groups t ↔ n = status_count t st ∧ 0 < n.
Proof.
  unfold status_groups. rewrite list_elem_of_In, filter_In, <- list_elem_of_In.
  cbn [snd]. rewrite Z.ltb_lt, list_elem_of_fmap. split.
  - intros [(st' & [= -> ->] & _) Hn]. by split.
  - intros [-> Hn]. split; [|done]. exists st. split; [done|]. apply elem_of_all_status.
Qed.

Lemma NoDup_status_groups t : NoDup (status_groups t).*1.
Proof.
  assert (∀ l : list (status * Z), NoDup l.*1 → NoDup (List.filter (λ g, 0 <? g.2) l).*1) as Hf.
  { induction l as [|[st n] l IH]; cbn; [done|]. intros [Hni Hnd]%NoDup_cons.
    destruct (0 <? n); cbn; [|by apply IH]. apply NoDup_cons. split; [|by apply IH].
    intros ([st' n'] & -> & Hin)%list_elem_of_fmap. apply Hni.
    rewrite list_elem_of_In, filter_In, <- list_elem_of_In in Hin. destruct Hin.
    apply list_elem_of_fmap. by exists (st', n'). }
  apply Hf. rewrite <- list_fmap_compose. apply (bool_decide_unpack _). by vm_compute.
Qed.

Lemma runs_CountByStatus t :
  ∃ m, runs CountByStatus t m t ∧ ∀ st, m !! status_text st = Some (status_count t st).
Proof.
  eexists. split.
  { eapply runs_bind; [apply runs_query|]. apply runs_scan_counts. }
  intros st. rewrite lookup_fold_counts.
  2: { rewrite (Permutation_map fst (group_order_perm _)). apply NoDup_status_groups. }
  destruct (list_find _ _) as [[i [st' n]]|] eqn:E.
  - apply list_find_Some in E as (E & Hst & _). cbn in *. subst st'.
    apply list_elem_of_lookup_2 in E. rewrite group_order_perm in E.
    by apply elem_of_status_groups in E as [-> _].
  - apply list_find_None in E. assert (status_count t st = 0) as ->.
    { destruct (decide (0 < status_count t st)) as [Hpos|Hpos].
      - exfalso. rewrite Forall_forall in E. apply (E (st, status_count t st)); [|done].
        rewrite group_order_perm. by apply elem_of_status_groups.
      - pose proof (zlen_nonneg (rows_where (λ _ r, bool_decide (r_status r = st)) t)).
        unfold status_count, count_where in *. lia. }
    unfold zero_counts. by destruct st.
Qed.

(** ** Listing *)

Definition listed (clock : Z) (j : Job) (x : string * row) : Prop :=
  j = job_of_row clock x.1 x.2
        (match unmarshal (r_payload x.2) with Ok m => Some m | Err _ => None end).

Lemma ensures_scanJobs clock rows : ∀ out t,
  ensures (scanJobs clock rows out)
    (λ r t', t' = t ∧ ∀ js, r = Ok js →
       ∃ new, js = out ++ new ∧ Forall2 (listed clock) new rows) t.
Proof.
  induction rows as [|[id r] rows IH]; intros out t; cbn [scanJobs].
  - do 2 ensures_step; [|intros e]; ensures_step; (split; [done|]); [|done].
    intros js [= <-]. exists []. rewrite app_nil_r. by split; [|constructor].
  - do 2 ensures_step; [|intros e; ensures_step; by split].
    do 2 ensures_step; [|by intros e].
    eapply ensures_mono; [apply IH|]. intros res t' [-> Ho]. split; [done|].
    intros js Hjs. destruct (Ho js Hjs) as (new & -> & Hf).
    eexists (_ :: new). rewrite <- app_assoc. split; [done|]. by constructor.
Qed.

Lemma ensures_ListDLQ clock limit t :
  ensures (ListDLQ clock limit)
    (λ r t', t' = t ∧ ∀ js, r = Ok js →
       Forall2 (listed clock) js (select_dlq (if limit <=? 0 then 1000 else limit) t)) t.
Proof.
  unfold ListDLQ. do 2 ensures_step; [|done].
  eapply ensures_mono; [apply ensures_scanJobs|]. intros r t' [-> Ho]. split; [done|].
  intros js Hjs. by destruct (Ho js Hjs) as (new & -> & Hf).
Qed.
End counting.
