(* ===== verification/Reference.v ===== *)
(** * Concrete instances of the development's parameters.

    They show that the parameters' laws can hold together, and are what the
    witnesses evaluate: ASCII-only case mapping, a stable sort for ORDER BY, a
    driver that returns native times, and a toy encoding of messages that
    keeps the subject. *)

From S2P Require Import Prelude GoStrings Message SqlTime Queue.

Definition ref_unicode : UnicodeCase := {|
  lower_utf8 := map_chars lower_char;
  upper_utf8 := map_chars upper_char;
  fold_utf8 := λ s t, String.eqb (map_chars lower_char s) (map_chars lower_char t);
  quote_utf8 := id
|}.

Definition ref_message (subject : string) : Message :=
  mkMessage (mkContact empty "sender@example.com") [mkContact empty "a@example.net"]
    subject "body" empty [] [] no_contact empty [].

Definition ref_codec : JSONCodec := {|
  marshal := λ m, Ok (Subject m);
  unmarshal := λ p, if (p =? "{")%string then Err "unexpected end of JSON input"%string
                    else Ok (ref_message p)
|}.

Definition key_le (key : row → Z) (x y : string * row) : Prop := key x.2 ≤ key y.2.

#[export] Instance key_le_dec key : RelDecision (key_le key).
Proof. intros x y. unfold key_le. apply _. Defined.

Definition ref_engine : SqlEngine := {|
  order_by := λ key l, merge_sort (key_le key) l;
  any_order := λ l, l;
  group_order := λ l, l
|}.

Definition ref_driver : TimeDriver := {|
  time_Parse := λ _ _, None;
  column_time := VTime
|}.

#[export] Instance ref_engine_laws : @SqlEngineLaws ref_engine.
Proof.
  split; cbn; [| |done|done].
  - intros key l. apply merge_sort_Permutation.
  - intros key l. assert (Total (key_le key)) by (intros x y; unfold key_le; lia).
    assert (Transitive (key_le key)) by (intros x y z; unfold key_le; lia).
    apply StronglySorted_merge_sort; apply _.
Qed.

Lemma ref_codec_roundtrip subject :
  subject ≠ "{"%string → @codec_roundtrip ref_codec (ref_message subject).
Proof.
  intros Hs p. unfold marshal, unmarshal, ref_codec. intros [= <-].
  by rewrite (proj2 (String.eqb_neq _ _) Hs).
Qed.
