(* ===== verification/QueueProps.v ===== *)
(** * The properties of the queue.

    Statements of the form [ensures m Q t] hold under every outcome of the
    driver calls [m] makes; [runs m t a t'] is the fault-free behaviour. *)

From S2P Require Import Prelude GoStrings Message SqlTime Queue StoreLogic TableFacts QueueSpec QueueClaim QueueMark Reference.

(** A table in which every row is one of the given rows: for the witnesses. *)
Definition demo_row (st : status) (created : Z) : row :=
  mkRow st "hello" "sender@example.com" "a@example.net" 0 0 None None None None None created created.

Definition demo_table : table :=
  <["j1" := demo_row StatusQueued 1]> (<["j2" := demo_row StatusRetry 2]> ∅).

(** One worker's lease on a row, as a claim leaves it. *)
Definition leased_table : table := <["j1" := claim_row "w" 10 (demo_row StatusQueued 1)]> ∅.

Section queue_properties.
Context {UC : UnicodeCase} {JC : JSONCodec} {SE : SqlEngine} {TD : TimeDriver}.

(** C11: an enqueue is all or nothing. Whatever the driver calls answer, it
    either fails and leaves the table as it was, or returns the fresh, distinct
    identifiers of one queued row per message, added to an otherwise
    unchanged table. *)
Theorem enqueue_atomic now ulid from msgs t :
  ensures (EnqueueTx now ulid from msgs)
    (λ r t', match r with
             | Ok ids => enqueued from now ulid 0 msgs ids t t'
             | Err _ => t' = t
             end) t.
Proof. apply ensures_EnqueueTx. Qed.

(** An enqueue whose driver calls succeed returns an identifier for each
    message, when every message has a recipient and encodes and the drawn
    ULIDs are distinct and unused. *)
Theorem enqueue_succeeds now ulid from msgs t :
  enqueueable ulid msgs t →
  ∃ t', runs (EnqueueTx now ulid from msgs) t (ulid <$> seq 0 (length msgs)) t'
        ∧ enqueued from now ulid 0 msgs (ulid <$> seq 0 (length msgs)) t t'.
Proof. apply runs_EnqueueTx. Qed.

(** C2: the methods of the store refine the abstract queue: under every
    outcome of its driver calls an operation makes one step of the abstract
    queue, which adds fresh queued jobs (enqueue) or moves existing jobs along
    the arrows of that operation, keeping every payload and every job. *)
Theorem queue_refines_abstract o t t' :
  op_step o t t' → abstract_step o (abstract t) (abstract t').
Proof.
  unfold abstract. intros [(He & new & Hd & -> & Hf)|(He & Hr)]%op_step_cases.
  - destruct o; try done. exists ((λ r, (r_status r, r_payload r)) <$> new). split_and!.
    + by apply map_disjoint_fmap.
    + by rewrite map_fmap_union.
    + apply map_Forall_fmap. eapply map_Forall_impl; [exact Hf|]. by intros id r [? _].
  - assert (∀ id, option_Forall2 (λ x x', x'.2 = x.2 ∧ (x'.1 = x.1 ∨ op_moves o x.1 x'.1))
      (((λ r, (r_status r, r_payload r)) <$> t) !! id)
      (((λ r, (r_status r, r_payload r)) <$> t') !! id)) as Hall.
    { intros id. rewrite !lookup_fmap. destruct (Hr id) as [r r' [Hm _]|]; constructor.
      destruct Hm as (?&?&?&?&?&?). by split. }
    by destruct o.
Qed.

(** C18: in every table reachable from the empty one by store operations, in
    any order and with any driver faults, a row is owned and leased exactly
    while it is being processed, a bulk id marks exactly the sent rows, a
    dead-letter row keeps its error, and finished jobs were attempted. *)
Theorem reachable_tables_wf t : reachable t → table_wf t.
Proof.
  induction 1 as [|o t t' _ IH Hs]; [apply map_Forall_empty|].
  by eapply op_step_wf.
Qed.

(** C17: no accepted job is lost. Along any sequence of store operations, with
    any faults, a stored job stays in the table with its payload, envelope,
    recipient and creation time, its attempt count never falls, and once it
    is sent it stays sent. *)
Theorem jobs_never_lost t t' :
  rtc (λ t1 t2, ∃ o, op_step o t1 t2) t t' → grows t t'.
Proof.
  induction 1 as [t|t1 t2 t3 [o Ho] _ IH]; [done|].
  etransitivity; [by eapply op_step_grows|done].
Qed.

(** C29: a marking method changes exactly the given jobs that are still being
    processed, each by its row function (status, attempt count, lease,
    error), or fails and changes nothing. *)
Theorem mark_exact now js bulk next msg st t :
  ensures (MarkSent now js bulk)
    (λ r t', t' = if is_ok r then marked (sent_row bulk now) js t else t) t
  ∧ ensures (MarkRetry now js next msg st)
      (λ r t', t' = if is_ok r then marked (retry_row next msg st now) js t else t) t
  ∧ ensures (MarkDLQ now js msg st)
      (λ r t', t' = if is_ok r then marked (dlq_row msg st now) js t else t) t.
Proof.
  split_and!; (eapply ensures_mono; [by apply ensures_mark|]); by intros [].
Qed.

(** C30: requeueing stale leases turns exactly the processing rows whose lease
    began before [now - leaseTimeout] into retry rows due at [now], reports
    how many, and leaves no stale lease behind; a failure changes nothing. *)
Theorem requeue_stale_exact now lease t :
  ensures (RequeueStaleProcessing now lease)
    (λ r t',
      let P := λ (_ : string) r, stale (now + wrap64 (- lease)) r in
      match r with
      | Ok n => n = count_where P t ∧ t' = update_where P (requeue_row now) t
                ∧ count_where P t' = 0
      | Err _ => t' = t
      end) t.
Proof.
  eapply ensures_mono; [apply ensures_update_counted|]. intros [n|e] t'; [|done].
  intros [-> ->]. split_and!; [done..|]. apply update_where_exhausts.
  intros id r _. done.
Qed.

(** Replaying dead letters turns exactly the dead-letter rows named by the
    (trimmed) identifiers into retry rows due now with their error cleared,
    and returns their number, which is at most the number of distinct
    identifiers. *)
Theorem requeue_dlq_exact ids now t :
  ensures (RequeueDLQIDs ids now)
    (λ r t', match r with
             | Ok n => n = count_where (in_dlq ids) t
                       ∧ t' = update_where (in_dlq ids) (replay_row now) t
                       ∧ n ≤ zlen (remove_dups (TrimSpace <$> ids))
             | Err _ => t' = t
             end) t.
Proof.
  assert (Hkeys : count_where (in_dlq ids) t ≤ zlen (remove_dups (TrimSpace <$> ids))).
  { apply count_where_keys. intros id r [_ Hin]%andb_prop. by apply bool_decide_eq_true in Hin. }
  unfold RequeueDLQIDs. case_decide as Hids.
  - ensures_step. subst. split_and!; [|symmetry; apply update_where_id|done].
    + symmetry. apply count_where_zero. intros id r _. unfold in_dlq.
      rewrite (bool_decide_eq_false_2 (id ∈ _)); [by rewrite andb_false_r|]. apply not_elem_of_nil.
    + intros id r _ [_ Hin]%andb_prop. by apply bool_decide_eq_true, elem_of_nil in Hin.
  - eapply ensures_mono; [apply ensures_update_counted|]. intros [n|e] t'; [|done].
    by intros [-> ->].
Qed.

(** After [RetryNow] at [now], every retry row is claimable at any later
    time, and every other row is untouched. *)
Theorem retry_now_makes_due now t :
  ensures (RetryNow now)
    (λ r t', match r with
             | Ok n => n = status_count t StatusRetry
                 ∧ (∀ id r', t' !! id = Some r' → r_status r' = StatusRetry →
                      ∀ later, now ≤ later → claimable later r' = true)
                 ∧ (∀ id r0, t !! id = Some r0 → r_status r0 ≠ StatusRetry → t' !! id = Some r0)
             | Err _ => t' = t
             end) t.
Proof.
  eapply ensures_mono; [apply ensures_update_counted|]. intros [n|e] t'; [|done].
  intros [-> ->]. split_and!; [done| |].
  - intros id r' Hr Hst later Hl. rewrite lookup_update_where in Hr.
    destruct (t !! id) as [r0|]; [|done]. cbn in Hr. injection Hr as <-.
    case_bool_decide as Hr0; [|done]. unfold claimable. cbn in *. rewrite Hr0. cbn.
    by apply Z.leb_le.
  - intros id r0 Hr Hst. rewrite lookup_update_where, Hr. cbn.
    by rewrite bool_decide_eq_false_2.
Qed.
End queue_properties.

(** [id1] was not updated before [id2]. *)
Definition later_updated (t : table) (id1 id2 : string) : Prop :=
  ∀ r1 r2, t !! id1 = Some r1 → t !! id2 = Some r2 → r_updated r2 ≤ r_updated r1.

Section claim_properties.
Context {UC : UnicodeCase} {JC : JSONCodec} {SE : SqlEngine} {TD : TimeDriver}
  {SL : SqlEngineLaws}.

Definition effective_max (default_max m : Z) : Z := if m <=? 0 then default_max else m.

(** C12: a dispatch claim fails without effect, or takes a selection of
    distinct due rows that keeps the row limit, the batch count and the batch
    bytes (a single oversized job excepted), leases exactly those rows to the
    worker, and returns claimed jobs of the selection with their decoded message. *)
Theorem claim_dispatch_spec w clock now limit maxCount maxBytes t :
  ensures (ClaimDispatchBatch w clock now limit maxCount maxBytes)
    (λ r t', match r with
      | Err _ => t' = t
      | Ok js => ∃ sel,
          t' = claim_update w now sel.*1 t ∧ NoDup sel.*1
          ∧ (∀ x, x ∈ sel → t !! x.1 = Some x.2 ∧ claimable now x.2 = true)
          ∧ zlen sel ≤ Z.max 0 limit
          ∧ zlen sel ≤ effective_max default_max_count maxCount
          ∧ (rows_bytes sel ≤ effective_max default_max_bytes maxBytes ∨ zlen sel ≤ 1)
          ∧ NoDup (ID <$> js)
          ∧ (∀ j, j ∈ js → ∃ r m, (ID j, r) ∈ sel ∧ unmarshal (r_payload r) = Ok m
               ∧ j = job_of_row clock (ID j) (claim_row w now r) (Some m))
      end) t.
Proof.
  eapply ensures_mono; [apply ensures_claimJobs|]. intros [js|e] t'; [|done].
  intros (sel & Hp & -> & Hnd & Hjs). exists sel.
  assert (1 ≤ effective_max default_max_count maxCount) as Hmc.
  { unfold effective_max, default_max_count. destruct (maxCount <=? 0) eqn:E; bool_to_prop; lia. }
  destruct (claim_prefix_limits _ _ _ _ Hmc Hp) as [Hc Hb].
  split_and!; try done; [by eapply NoDup_selection|by intros x Hx; eapply elem_of_selection|].
  assert (zlen (select_claimable now limit t) ≤ Z.max 0 limit) as Hl.
  { unfold select_claimable, zlen. rewrite length_take. lia. }
  assert (sel `prefix_of` select_claimable now limit t) as [k Hk].
  { etransitivity; [exact Hp|]. apply claim_prefix_prefix. }
  rewrite Hk, zlen_app in Hl. pose proof (zlen_nonneg k). lia.
Qed.

(** C26: claims are first come, first served: when a claim succeeds, no due job
    that it left as it was had been created before a job it returned. *)
Theorem claim_oldest_first w clock now limit maxCount maxBytes t :
  ensures (ClaimDispatchBatch w clock now limit maxCount maxBytes)
    (λ r t', match r with
      | Err _ => True
      | Ok js => ∀ j id r0 rc,
          j ∈ js → t !! ID j = Some rc → t !! id = Some r0 → claimable now r0 = true →
          t' !! id = Some r0 → r_created rc ≤ r_created r0
      end) t.
Proof.
  eapply ensures_mono; [apply ensures_claimJobs|]. intros [js|e] t'; [|done].
  intros (sel & Hp & -> & _ & Hjs) j id r0 rc Hj Hrc Hr0 Hcl Hun.
  destruct (Hjs j Hj) as (r & m & Hin & _ & _).
  destruct (elem_of_selection _ _ _ _ _ _ Hp Hin) as [Hr _]. cbn in Hr. simplify_eq.
  set (all := order_by r_created (rows_where (λ _ r, claimable now r) t)).
  assert (sel `prefix_of` all) as [k Hk].
  { etransitivity; [exact Hp|]. etransitivity; [apply claim_prefix_prefix|apply prefix_take]. }
  pose proof (order_by_sorted r_created (rows_where (λ _ r, claimable now r) t)) as Hs.
  fold all in Hs. rewrite Hk in Hs.
  assert ((id, r0) ∈ k) as Hidk; [|exact (StronglySorted_app_cross _ _ _ _ _ Hs Hin Hidk)].
  assert ((id, r0) ∈ all) as Hall.
  { unfold all. rewrite order_by_perm. by apply elem_of_rows_where. }
  rewrite Hk in Hall. apply elem_of_app in Hall as [Hsel|]; [exfalso|done].
  unfold claim_update in Hun. rewrite lookup_update_where, Hr0 in Hun. cbn in Hun.
  rewrite Hcl, bool_decide_eq_true_2 in Hun
    by (apply list_elem_of_fmap; by exists (id, r0)).
  cbn in Hun. injection Hun as Hun. rewrite <- Hun in Hcl. done.
Qed.

(** C15: two claims never hand out the same job: whatever two workers claim,
    one after the other and at any times, the job lists are disjoint. *)
Theorem claims_disjoint w1 w2 clock1 clock2 now1 now2 limit1 limit2 mc1 mc2 mb1 mb2 t :
  ensures
    (js1 ← ClaimDispatchBatch w1 clock1 now1 limit1 mc1 mb1;
     js2 ← ClaimDispatchBatch w2 clock2 now2 limit2 mc2 mb2;
     mret (js1, js2))
    (λ r _, match r with
            | Ok (js1, js2) => ∀ j1 j2, j1 ∈ js1 → j2 ∈ js2 → ID j1 ≠ ID j2
            | Err _ => True
            end) t.
Proof.
  ensures_step. eapply ensures_mono; [apply ensures_claimJobs|].
  intros [js1|e] t1; [|done]. intros (sel1 & Hp1 & -> & _ & Hjs1).
  ensures_step. eapply ensures_mono; [apply ensures_claimJobs|].
  intros [js2|e] t2; [|done]. intros (sel2 & Hp2 & _ & _ & Hjs2). ensures_step.
  intros j1 j2 Hj1 Hj2 Heq.
  destruct (Hjs1 j1 Hj1) as (r1 & m1 & Hin1 & _), (Hjs2 j2 Hj2) as (r2 & m2 & Hin2 & _).
  destruct (elem_of_selection _ _ _ _ _ _ Hp1 Hin1) as [Hr1 Hc1].
  destruct (elem_of_selection _ _ _ _ _ _ Hp2 Hin2) as [Hr2 Hc2]. cbn in *.
  unfold claim_update in Hr2. rewrite <- Heq, lookup_update_where, Hr1 in Hr2. cbn in Hr2.
  rewrite Hc1, bool_decide_eq_true_2 in Hr2
    by (apply list_elem_of_fmap; by exists (ID j1, r1)).
  cbn in Hr2. injection Hr2 as Hr2. by rewrite <- Hr2 in Hc2.
Qed.

(** C27: the dispatcher makes progress: if some job is due, every due payload
    decodes and the driver calls succeed, a dispatch claim returns at least one
    job, and returns exactly the jobs it leased. *)
Theorem claim_progress w clock now limit maxCount maxBytes t id r :
  0 < limit → decodable now t → t !! id = Some r → claimable now r = true →
  ∃ js sel, runs (ClaimDispatchBatch w clock now limit maxCount maxBytes) t js
              (claim_update w now sel t)
            ∧ (ID <$> js) ≡ₚ sel ∧ js ≠ [].
Proof.
  intros Hl Hdec Hr Hc.
  destruct (runs_claimJobs w clock now limit (batch_full
    (effective_max default_max_count maxCount) (effective_max default_max_bytes maxBytes)) t
    Hl Hdec) as (js & Hruns & Hperm).
  eexists js, _. split_and!; [exact Hruns|exact Hperm|]. intros ->. cbn in Hperm.
  apply Permutation_nil_l in Hperm.
  assert ((id, r) ∈ order_by r_created (rows_where (λ _ r, claimable now r) t)) as Hin.
  { rewrite order_by_perm. by apply elem_of_rows_where. }
  unfold select_claimable in Hperm.
  destruct (order_by _ _) as [|x rows]; [by apply elem_of_nil in Hin|].
  destruct (Z.to_nat limit) eqn:El; [lia|]. done.
Qed.

(** C28: a job claimed later carries the message that was enqueued, for every
    message whose encoding decodes to itself. *)
Theorem enqueue_claim_roundtrip now ulid from msgs w clock later limit maxCount maxBytes t i m :
  msgs !! i = Some (Some m) → codec_roundtrip m →
  ensures
    (ids ← EnqueueTx now ulid from msgs;
     js ← ClaimDispatchBatch w clock later limit maxCount maxBytes;
     mret (ids, js))
    (λ r _, match r with
            | Ok (ids, js) => ∀ id j, ids !! i = Some id → j ∈ js → ID j = id →
                                      JobMessage j = Some m ∧ AttemptCount j = 0
            | Err _ => True
            end) t.
Proof.
  intros Hi Hrt. ensures_step. eapply ensures_mono; [apply ensures_EnqueueTx|].
  intros [ids|e] t1; [|done]. intros (rows & Hst & -> & _ & Hnd & Hfr & ->).
  ensures_step. eapply ensures_mono; [apply ensures_claimJobs|].
  intros [js|e] t2; [|done]. intros (sel & Hp & _ & _ & Hjs). ensures_step.
  intros id j Hid Hj Hjid.
  destruct (Hjs j Hj) as (r & m' & Hin & Hm' & ->). cbn in *. subst id.
  destruct (elem_of_selection _ _ _ _ _ _ Hp Hin) as [Hr _]. cbn in Hr.
  destruct (Forall2_lookup_l _ _ _ _ _ Hst Hi) as (x & Hx & (m0 & c & cs & p & [= <-] & _ & Hp0 & Hrow)).
  rewrite list_lookup_fmap, Hx in Hid. cbn in Hid. injection Hid as Hid.
  assert ((list_to_map rows : table) !! x.1 = Some x.2) as Hlk.
  { apply elem_of_list_to_map_1; [done|]. destruct x. by eapply list_elem_of_lookup_2. }
  rewrite Hid in Hlk. rewrite (lookup_union_Some_l _ _ _ _ Hlk) in Hr. injection Hr as <-.
  rewrite Hrow in Hm' |- *. cbn in *. rewrite (Hrt p Hp0) in Hm'. by injection Hm' as <-.
Qed.

(** The status counts are exact: with successful driver calls
    [CountByStatus] maps each status text to the number of rows with that
    status, and the counts add up to the size of the table. *)
Theorem count_by_status_exact t :
  ∃ m, runs CountByStatus t m t
       ∧ (∀ st, m !! status_text st = Some (status_count t st))
       ∧ sumZ (status_count t) all_status = Z.of_nat (size t).
Proof.
  destruct (runs_CountByStatus t) as (m & Hr & Hm). exists m.
  split_and!; [done..|]. apply status_counts_sum.
Qed.

(** [ListDLQ] reads only, and returns dead-letter jobs alone, at most the
    limit (1000 for a limit that is not positive), the latest updated
    first: the returned identifiers followed by the ones left out list the
    dead letters by falling update time. *)
Theorem list_dlq_spec clock limit t :
  ensures (ListDLQ clock limit)
    (λ r t', t' = t ∧ ∀ js, r = Ok js →
       let n := if limit <=? 0 then 1000 else limit in
       zlen js ≤ n
       ∧ (∀ j, j ∈ js → ∃ r0, t !! ID j = Some r0 ∧ r_status r0 = StatusDLQ
               ∧ PayloadJSON j = r_payload r0 ∧ AttemptCount j = r_attempts r0)
       ∧ ∃ rest, (ID <$> js) ++ rest
                   ≡ₚ (rows_where (λ _ r0, bool_decide (r_status r0 = StatusDLQ)) t).*1
           ∧ StronglySorted (later_updated t) ((ID <$> js) ++ rest)) t.
Proof.
  eapply ensures_mono; [apply ensures_ListDLQ|]. intros r t' [-> Hjs]. split; [done|].
  intros js Hr. specialize (Hjs js Hr). cbn zeta.
  set (n := if limit <=? 0 then 1000 else limit) in *.
  assert (0 < n) as Hn by (subst n; destruct (limit <=? 0) eqn:E; bool_to_prop; lia).
  assert (ID <$> js = (select_dlq n t).*1) as Hids.
  { clear -Hjs. induction Hjs as [|j x l k Hj _ IH]; cbn; [done|]. rewrite IH. by rewrite Hj. }
  split_and!.
  - unfold zlen. rewrite <- (length_fmap ID), Hids, length_fmap. unfold select_dlq.
    rewrite length_take. lia.
  - intros j Hj. apply list_elem_of_lookup in Hj as [i Hi].
    destruct (Forall2_lookup_l _ _ _ _ _ Hjs Hi) as ([id r0] & Hx & Hj).
    apply list_elem_of_lookup_2 in Hx. eapply elem_of_prefix in Hx; [|apply prefix_take].
    rewrite order_by_perm in Hx. apply elem_of_rows_where in Hx as [Hlk Hst].
    cbn in Hst. apply bool_decide_eq_true in Hst. exists r0. by rewrite Hj.
  - rewrite Hids. unfold select_dlq.
    set (all := order_by _ _). exists (List.skipn (Z.to_nat n) all).*1.
    rewrite <- fmap_app, take_drop. split; [by apply fmap_Permutation, order_by_perm|].
    apply (StronglySorted_fmap_fst (λ x y, - r_updated x.2 ≤ - r_updated y.2));
      [|exact (order_by_sorted (λ r, - r_updated r) _)].
    intros [id1 r1] [id2 r2] H1 H2 Hle r1' r2' Hr1 Hr2. cbn in *. unfold all in *.
    rewrite order_by_perm in H1, H2.
    apply elem_of_rows_where in H1 as [H1 _], H2 as [H2 _]. simplify_eq. lia.
Qed.

(** C39: one stored payload that does not decode blocks the queue: with every
    driver call successful, a dispatch claim whose selection holds such a row
    fails and leases nothing, so the same selection is met again. *)
Theorem claim_undecodable_blocks w clock now limit maxCount maxBytes t id r e :
  0 < limit →
  (id, r) ∈ claim_prefix (batch_full (effective_max default_max_count maxCount)
              (effective_max default_max_bytes maxBytes)) (select_claimable now limit t) 0 0 →
  unmarshal (r_payload r) = Err e →
  fails (ClaimDispatchBatch w clock now limit maxCount maxBytes) t.
Proof. intros Hl Hin He. exact (claimJobs_fails _ _ _ _ _ _ _ _ _ Hl Hin He). Qed.
End claim_properties.

(** ** Concrete runs and witnesses, on the reference instances *)

#[local] Existing Instances ref_unicode ref_codec ref_engine ref_driver.

(** The claim's driver calls, the last of them an iteration error while the
    leased rows are read back. *)
Definition truncating_faults : list (option error) :=
  replicate 9 None ++ [Some "interrupted (9)"%string].

(** An iteration error while a claim reads its leased rows back is
    swallowed ([claimedRows.Err()] is never consulted): the claim commits,
    reports success and returns no job, and both rows stay leased. *)
Theorem claim_swallows_iteration_error :
  let '(r, s) := ClaimBatch "w" 0 10 10 (mkStore demo_table true truncating_faults) in
  r = Ok [] ∧ status_count (jobs s) StatusProcessing = 2.
Proof. by vm_compute. Qed.

Lemma enqueue_succeeds_witness :
  ∃ t', runs (EnqueueTx 7 (λ i, pretty i) "s@example.com" [Some (ref_message "hi")]) demo_table
          (pretty <$> seq 0 1) t'
        ∧ enqueued "s@example.com" 7 (λ i, pretty i) 0 [Some (ref_message "hi")]
            (pretty <$> seq 0 1) demo_table t'.
Proof.
  apply (enqueue_succeeds 7 (λ i, pretty i) "s@example.com" [Some (ref_message "hi")] demo_table).
  split_and!.
  - constructor; [|constructor]. by eexists _, _.
  - apply (bool_decide_unpack _). by vm_compute.
  - intros i Hi. cbn in Hi. assert (i = 0%nat) as -> by lia. by vm_compute.
Defined.

Lemma queue_refines_abstract_witness :
  let t' := jobs (run_op (OpRetryNow 5) (mkStore demo_table true [])).2 in
  abstract_step (OpRetryNow 5) (abstract demo_table) (abstract t').
Proof. apply queue_refines_abstract. by exists true, []. Defined.

Lemma reachable_tables_wf_witness :
  table_wf (jobs (run_op (OpEnqueue 7 (λ i, pretty i) "s@example.com" [Some (ref_message "hi")])
                    (mkStore ∅ true [])).2).
Proof.
  apply reachable_tables_wf. eapply reachable_step; [apply reachable_empty|]. by exists true, [].
Defined.

Lemma jobs_never_lost_witness :
  grows demo_table (jobs (run_op (OpClaim "w" 0 10 10) (mkStore demo_table true [])).2).
Proof. apply jobs_never_lost, rtc_once. exists (OpClaim "w" 0 10 10). by exists true, []. Defined.

Lemma claim_dispatch_spec_witness :
  ensures (ClaimDispatchBatch "w" 0 10 1 500 1024)
    (λ r t', is_ok r = false → t' = demo_table) demo_table.
Proof.
  eapply ensures_mono; [apply claim_dispatch_spec|]. by intros [js|e] t'.
Defined.

(** Two due jobs, the second key created first. *)
Definition late_table : table :=
  <["j1" := demo_row StatusQueued 5]> (<["j2" := demo_row StatusRetry 3]> ∅).

(** A claim of one job returns ["j2"] and leaves ["j1"], which is due but younger. *)
Lemma claim_oldest_first_witness :
  let '(r, s') := ClaimDispatchBatch "w" 0 10 1 500 1024 (mkStore late_table true []) in
  ∃ j, r = Ok [j] ∧ ID j = "j2"%string
    ∧ ∃ left, jobs s' !! "j1" = Some left ∧ claimable 10 left = true
        ∧ r_created (demo_row StatusRetry 3) ≤ r_created left.
Proof.
  pose proof (claim_oldest_first "w" 0 10 1 500 1024 late_table (mkStore late_table true []) eq_refl) as Hc.
  assert (jobs (ClaimDispatchBatch "w" 0 10 1 500 1024 (mkStore late_table true [])).2 !! "j1"
          = Some (demo_row StatusQueued 5)) as Hl by by vm_compute.
  destruct (ClaimDispatchBatch _ _ _ _ _ _ _) as [r s'] eqn:E. cbn [fst snd] in Hc, Hl.
  assert (∃ j, r = Ok [j] ∧ ID j = "j2"%string) as (j & -> & Hj).
  { apply (f_equal fst) in E. vm_compute in E. rewrite <- E. by eexists. }
  exists j. split_and!; [done..|]. exists (demo_row StatusQueued 5). split_and!; [done|done|].
  apply (Hc j "j1" (demo_row StatusQueued 5) (demo_row StatusRetry 3)); [by left|by rewrite Hj|done..].
Defined.

Lemma claims_disjoint_witness :
  ensures (js1 ← ClaimDispatchBatch "w1" 0 10 1 500 1024;
           js2 ← ClaimDispatchBatch "w2" 0 11 1 500 1024;
           mret (js1, js2))
    (λ r _, ∀ j, r ≠ Ok ([j], [j])) demo_table.
Proof.
  eapply ensures_mono; [apply claims_disjoint|]. intros r _ Hr j ->.
  apply (Hr j j); [by left|by left|done].
Defined.

Lemma claim_progress_witness :
  ∃ js sel, runs (ClaimDispatchBatch "w" 0 10 1 500 1024) demo_table js
              (claim_update "w" 10 sel demo_table)
            ∧ (ID <$> js) ≡ₚ sel ∧ js ≠ [].
Proof.
  apply (claim_progress "w" 0 10 1 500 1024 demo_table "j1" (demo_row StatusQueued 1)).
  - lia.
  - intros id r Hr _. exists (ref_message "hello").
    assert (r_payload r = "hello") as ->; [|done]. unfold demo_table in Hr.
    apply lookup_insert_Some in Hr as [[_ <-]|[_ Hr]]; [done|].
    by apply lookup_insert_Some in Hr as [[_ <-]|[_ Hr]].
  - done.
  - done.
Defined.

Lemma enqueue_claim_roundtrip_witness :
  ensures
    (ids ← EnqueueTx 7 (λ i, pretty i) "s@example.com" [Some (ref_message "hi")];
     js ← ClaimDispatchBatch "w" 0 10 1 500 1024;
     mret (ids, js))
    (λ r _, match r with
            | Ok (ids, js) => ∀ id j, ids !! 0%nat = Some id → j ∈ js → ID j = id →
                JobMessage j = Some (ref_message "hi") ∧ AttemptCount j = 0
            | Err _ => True
            end) demo_table.
Proof. apply enqueue_claim_roundtrip; [done|]. by apply ref_codec_roundtrip. Defined.

Lemma count_by_status_exact_witness :
  ∃ m, runs CountByStatus demo_table m demo_table
       ∧ (∀ st, m !! status_text st = Some (status_count demo_table st))
       ∧ sumZ (status_count demo_table) all_status = Z.of_nat (size demo_table).
Proof. apply count_by_status_exact. Defined.

Definition dead_table : table := <["d" := demo_row StatusDLQ 4]> demo_table.

Lemma list_dlq_spec_witness :
  ensures (ListDLQ 0 10) (λ r t', t' = dead_table) dead_table.
Proof. eapply ensures_mono; [apply list_dlq_spec|]. by intros r t' [? _]. Defined.

Definition poisoned_row : row :=
  mkRow StatusQueued "{" "sender@example.com" "a@example.net" 0 0 None None None None None 0 0.

Lemma claim_undecodable_blocks_witness :
  fails (ClaimDispatchBatch "w" 0 10 10 500 1024) (<["bad" := poisoned_row]> demo_table).
Proof.
  apply (claim_undecodable_blocks "w" 0 10 10 500 1024 _ "bad" poisoned_row
           "unexpected end of JSON input"); [lia| |done].
  apply (bool_decide_unpack _). by vm_compute.
Defined.
