(* ===== verification/Metrics.v ===== *)
(** * The Prometheus instruments of [internal/metrics/metrics.go].

    A counter or gauge is its value, a vector of them a finite map from label
    values, a histogram the observations it received, the latest first. *)

From S2P Require Import Prelude GoStrings.

Record Metrics := mkMetrics {
  SMTPAcceptedRecipients : Z;
  SMTPRejectedMessages : gmap string Z;
  SMTPAuthFailures : Z;
  QueueDepth : gmap string Z;
  DispatchBatchSize : list Z;
  DispatchLatency : list Z;
  DispatchAPICalls : gmap (string * string) Z;
  DispatchRetries : Z;
  DispatchDLQ : Z;
  DispatchThrottleWaits : Z;
  DispatchThrottleWait : list Z;
  RequeueStaleRecoveries : Z;
  DispatchLastSuccessUnix : Z
}.

(** [metrics.New()] *)
Definition NewMetrics : Metrics := mkMetrics 0 ∅ 0 ∅ [] [] ∅ 0 0 0 [] 0 0.

(** [vec.WithLabelValues(l).Inc()] *)
Definition inc_label {K} `{Countable K} (l : K) (m : gmap K Z) : gmap K Z :=
  <[l := default 0 (m !! l) + 1]> m.

Definition add_accepted (n : Z) (m : Metrics) : Metrics :=
  mkMetrics (SMTPAcceptedRecipients m + n) (SMTPRejectedMessages m) (SMTPAuthFailures m)
    (QueueDepth m) (DispatchBatchSize m) (DispatchLatency m) (DispatchAPICalls m)
    (DispatchRetries m) (DispatchDLQ m) (DispatchThrottleWaits m) (DispatchThrottleWait m)
    (RequeueStaleRecoveries m) (DispatchLastSuccessUnix m).

Definition inc_rejected (reason : string) (m : Metrics) : Metrics :=
  mkMetrics (SMTPAcceptedRecipients m) (inc_label reason (SMTPRejectedMessages m))
    (SMTPAuthFailures m) (QueueDepth m) (DispatchBatchSize m) (DispatchLatency m)
    (DispatchAPICalls m) (DispatchRetries m) (DispatchDLQ m) (DispatchThrottleWaits m)
    (DispatchThrottleWait m) (RequeueStaleRecoveries m) (DispatchLastSuccessUnix m).

Definition inc_auth_failures (m : Metrics) : Metrics :=
  mkMetrics (SMTPAcceptedRecipients m) (SMTPRejectedMessages m) (SMTPAuthFailures m + 1)
    (QueueDepth m) (DispatchBatchSize m) (DispatchLatency m) (DispatchAPICalls m)
    (DispatchRetries m) (DispatchDLQ m) (DispatchThrottleWaits m) (DispatchThrottleWait m)
    (RequeueStaleRecoveries m) (DispatchLastSuccessUnix m).

Definition set_depth (status : string) (n : Z) (m : Metrics) : Metrics :=
  mkMetrics (SMTPAcceptedRecipients m) (SMTPRejectedMessages m) (SMTPAuthFailures m)
    (<[status := n]> (QueueDepth m)) (DispatchBatchSize m) (DispatchLatency m)
    (DispatchAPICalls m) (DispatchRetries m) (DispatchDLQ m) (DispatchThrottleWaits m)
    (DispatchThrottleWait m) (RequeueStaleRecoveries m) (DispatchLastSuccessUnix m).

Definition observe_batch (size latency : Z) (m : Metrics) : Metrics :=
  mkMetrics (SMTPAcceptedRecipients m) (SMTPRejectedMessages m) (SMTPAuthFailures m)
    (QueueDepth m) (size :: DispatchBatchSize m) (latency :: DispatchLatency m)
    (DispatchAPICalls m) (DispatchRetries m) (DispatchDLQ m) (DispatchThrottleWaits m)
    (DispatchThrottleWait m) (RequeueStaleRecoveries m) (DispatchLastSuccessUnix m).

Definition inc_api_calls (class status : string) (m : Metrics) : Metrics :=
  mkMetrics (SMTPAcceptedRecipients m) (SMTPRejectedMessages m) (SMTPAuthFailures m)
    (QueueDepth m) (DispatchBatchSize m) (DispatchLatency m)
    (inc_label (class, status) (DispatchAPICalls m)) (DispatchRetries m) (DispatchDLQ m)
    (DispatchThrottleWaits m) (DispatchThrottleWait m) (RequeueStaleRecoveries m)
    (DispatchLastSuccessUnix m).

Definition add_retries (n : Z) (m : Metrics) : Metrics :=
  mkMetrics (SMTPAcceptedRecipients m) (SMTPRejectedMessages m) (SMTPAuthFailures m)
    (QueueDepth m) (DispatchBatchSize m) (DispatchLatency m) (DispatchAPICalls m)
    (DispatchRetries m + n) (DispatchDLQ m) (DispatchThrottleWaits m) (DispatchThrottleWait m)
    (RequeueStaleRecoveries m) (DispatchLastSuccessUnix m).

Definition add_dlq (n : Z) (m : Metrics) : Metrics :=
  mkMetrics (SMTPAcceptedRecipients m) (SMTPRejectedMessages m) (SMTPAuthFailures m)
    (QueueDepth m) (DispatchBatchSize m) (DispatchLatency m) (DispatchAPICalls m)
    (DispatchRetries m) (DispatchDLQ m + n) (DispatchThrottleWaits m) (DispatchThrottleWait m)
    (RequeueStaleRecoveries m) (DispatchLastSuccessUnix m).

Definition observe_throttle (waited : Z) (m : Metrics) : Metrics :=
  mkMetrics (SMTPAcceptedRecipients m) (SMTPRejectedMessages m) (SMTPAuthFailures m)
    (QueueDepth m) (DispatchBatchSize m) (DispatchLatency m) (DispatchAPICalls m)
    (DispatchRetries m) (DispatchDLQ m) (DispatchThrottleWaits m + 1)
    (waited :: DispatchThrottleWait m) (RequeueStaleRecoveries m) (DispatchLastSuccessUnix m).

Definition add_recoveries (n : Z) (m : Metrics) : Metrics :=
  mkMetrics (SMTPAcceptedRecipients m) (SMTPRejectedMessages m) (SMTPAuthFailures m)
    (QueueDepth m) (DispatchBatchSize m) (DispatchLatency m) (DispatchAPICalls m)
    (DispatchRetries m) (DispatchDLQ m) (DispatchThrottleWaits m) (DispatchThrottleWait m)
    (RequeueStaleRecoveries m + n) (DispatchLastSuccessUnix m).

Definition set_last_success (unix : Z) (m : Metrics) : Metrics :=
  mkMetrics (SMTPAcceptedRecipients m) (SMTPRejectedMessages m) (SMTPAuthFailures m)
    (QueueDepth m) (DispatchBatchSize m) (DispatchLatency m) (DispatchAPICalls m)
    (DispatchRetries m) (DispatchDLQ m) (DispatchThrottleWaits m) (DispatchThrottleWait m)
    (RequeueStaleRecoveries m) unix.

(** ** The descriptors [metrics.New] registers *)

Inductive metric_kind := Counter | Gauge | Histogram.

(** The options of an instrument; a bucket bound is in thousandths, as the
    client's default bounds have three decimals. *)
Record Desc := mkDesc {
  d_kind : metric_kind;
  d_name : string;
  d_help : string;
  d_labels : list string;
  d_buckets : list Z
}.

(** The Prometheus client: its default buckets, and [Register] of a descriptor
    beside the registered ones, [None] without an error. *)
Class PromRegistry := {
  prom_DefBuckets : list Z;
  prom_Register : list Desc → Desc → option error
}.

Definition descs `{PromRegistry} : list Desc := [
  mkDesc Counter "relay_smtp_accepted_recipients_total"
    "Total number of recipient messages accepted by SMTP and queued durably." [] [];
  mkDesc Counter "relay_smtp_rejected_messages_total"
    "Total number of rejected SMTP messages partitioned by reason." ["reason"%string] [];
  mkDesc Counter "relay_smtp_auth_failures_total" "Total SMTP authentication failures." [] [];
  mkDesc Gauge "relay_queue_depth" "Current queue depth by status." ["status"%string] [];
  mkDesc Histogram "relay_dispatch_batch_size" "Number of messages per outbound bulk API call." []
    [1000; 10000; 25000; 50000; 100000; 250000; 500000];
  mkDesc Histogram "relay_dispatch_latency_seconds" "Latency of MailerSend bulk API calls." []
    prom_DefBuckets;
  mkDesc Counter "relay_dispatch_api_calls_total"
    "Outbound API calls by result class and status code." ["result"; "status_code"]%string [];
  mkDesc Counter "relay_dispatch_retries_total" "Total retry transitions." [] [];
  mkDesc Counter "relay_dispatch_dlq_total" "Total DLQ transitions." [] [];
  mkDesc Counter "relay_dispatch_throttle_waits_total"
    "Total outbound dispatch waits caused by the local MailerSend rate limiter." [] [];
  mkDesc Histogram "relay_dispatch_throttle_wait_seconds"
    "Time spent waiting on the local MailerSend rate limiter before claiming a batch." []
    prom_DefBuckets;
  mkDesc Counter "relay_requeue_stale_recoveries_total"
    "Total stale processing recoveries on startup/runtime." [] []
].

(** ** Registration *)

(** [reg.MustRegister(...)]: [None] is its panic. *)
Fixpoint MustRegister `{PromRegistry} (reg : list Desc) (ds : list Desc) : option (list Desc) :=
  match ds with
  | [] => Some reg
  | d :: rest =>
      match prom_Register reg d with
      | None => MustRegister (reg ++ [d]) rest
      | Some _ => None
      end
  end.

(** [metrics.New]: the registry and the instruments at their initial values. *)
Definition New `{PromRegistry} : option (list Desc * Metrics) :=
  reg ← MustRegister [] descs; Some (reg, NewMetrics).

(** A metric name of the data model: [[a-zA-Z_:][a-zA-Z0-9_:]*]. *)
Definition name_start (c : ascii) : bool :=
  byte_in 97 122 c || byte_in 65 90 c || Ascii.eqb c "_" || Ascii.eqb c ":".
Definition valid_metric_name (s : string) : bool :=
  match chars s with
  | [] => false
  | c :: rest => name_start c && forallb (λ c, name_start c || byte_in 48 57 c) rest
  end.

(** A label name has no colon and no reserved prefix; a histogram owns [le]. *)
Definition valid_label (k : metric_kind) (s : string) : bool :=
  valid_metric_name s && forallb (λ c, negb (Ascii.eqb c ":")) (chars s)
  && negb (HasPrefix s "__")
  && negb (match k with Histogram => (s =? "le")%string | _ => false end).

Fixpoint increasing (l : list Z) : bool :=
  match l with
  | x :: (y :: _) as rest => (x <? y) && increasing rest
  | _ => true
  end.

Definition valid_desc (d : Desc) : bool :=
  valid_metric_name (d_name d) && forallb (valid_label (d_kind d)) (d_labels d)
  && bool_decide (NoDup (d_labels d)) && increasing (d_buckets d).

(** What the client documents: its default buckets increase, and a valid
    descriptor registers unless its name is taken. *)
Class PromRegistryLaws `{PromRegistry} : Prop := {
  default_increasing : increasing prom_DefBuckets = true;
  register_fresh : ∀ reg d,
    valid_desc d = true → d_name d ∉ d_name <$> reg → prom_Register reg d = None
}.

Lemma MustRegister_fresh `{PromRegistryLaws} ds : ∀ reg,
  forallb valid_desc ds = true → NoDup (d_name <$> reg ++ ds) →
  MustRegister reg ds = Some (reg ++ ds).
Proof.
  induction ds as [|d ds IH]; intros reg; cbn; [by rewrite app_nil_r|].
  intros [Hv Hvs]%andb_prop Hnd. rewrite register_fresh; [|done|].
  - rewrite IH, <- app_assoc; [done|done|]. by rewrite <- app_assoc.
  - rewrite fmap_app in Hnd. apply NoDup_app in Hnd as (_ & Hd & _).
    intros Hin. apply (Hd _ Hin). by left.
Qed.

(** [metrics.New] does not panic, and registers each instrument the relay updates. *)
Lemma New_registers `{PromRegistryLaws} : New = Some (descs, NewMetrics).
Proof.
  unfold New. rewrite (MustRegister_fresh descs []); [done| |].
  - unfold descs, valid_desc. cbn -[increasing valid_metric_name valid_label bool_decide].
    by rewrite default_increasing.
  - apply (bool_decide_unpack _). by vm_compute.
Qed.
