(* ===== verification/Sender.v ===== *)
(** * The bulk API client: [internal/dispatch/sender.go].

    The network, URLs and the two JSON codecs are parameters; what the client
    builds, how it rewrites a request and how it turns the outcome of the
    exchange into a result and an error is the code's. Between the two stands
    [http.Client.Do], which follows redirects: its loop is modelled as net/http
    documents it, every hop passing through the code's transport. *)

From S2P Require Import Prelude GoStrings Message.

Record SendResult := mkSendResult { BulkEmailID : string; HTTPStatus : Z }.

(** The errors a [BulkSender] may return: a [*SenderError], or any other. *)
Inductive send_error :=
| SenderError (StatusCode : Z) (cause : error)
| OtherError (cause : error).

(** [err.Error()] *)
Definition error_text (e : send_error) : error :=
  match e with
  | SenderError st cause =>
      if 0 <? st then "status=" +:+ Itoa st +:+ ": " +:+ cause else cause
  | OtherError cause => cause
  end.

(** The parts of a [url.URL] the code reads or writes. *)
Record URL := mkURL { Scheme : string; Host : string; Path : string }.

Record Request := mkRequest {
  Method : string;
  rURL : URL;
  rHeaders : list (string * string);
  rBody : string
}.

(** The outcome of an exchange: no response, or a status, the [Location] header
    ([empty] without one) and a body that is [content] followed by its end or
    by a read error. *)
Inductive Response :=
| NoResponse (e : error)
| HasResponse (StatusCode : Z) (StatusText Location content : string) (readErr : option error).

(** [json.Marshal] of the message list, the [bulk_email_id] field of a body
    ([empty] when it does not decode), [url.Parse], [URL.String], [URL.Parse] of a
    reference, the URL that an error shows (without its password), the headers
    that net/http keeps of a request when it follows a redirect after the URLs
    [via], and the network. *)
Class HTTPLib := {
  marshal_bulk : list (option Message) → result error string;
  bulk_email_id : string → string;
  url_Parse : string → result error URL;
  url_String : URL → string;
  url_Reference : URL → string → result error URL;
  url_Stripped : URL → string;
  redirect_headers : Request → list URL → URL → list (string * string);
  round_trip : Request → Response
}.

Section sender.
Context `{UnicodeCase, HTTPLib}.

Record MailerSendSender := mkSender {
  transportURL : URL;
  apiKey : string;
  baseURL : string
}.

Definition NewMailerSendSender (key base : string) : result error MailerSendSender :=
  parsed ← wrapf "parse MAILERSEND_BASE_URL" (url_Parse (TrimSpace base));
  Ok (mkSender parsed (TrimSpace key) (TrimRight1 (url_String parsed) "/"%char)).

(** [baseURLRewriteTransport.RoundTrip]: the request that is passed on. *)
Definition rewrite_request (base : URL) (req : Request) : Request :=
  let p := Path (rURL req) in
  let p' := if negb (is_empty (Path base)) && negb (HasPrefix p (Path base))
            then TrimSuffix (Path base) "/" +:+ "/" +:+ TrimPrefix p "/"
            else p in
  mkRequest (Method req) (mkURL (Scheme base) (Host base) p') (rHeaders req) (rBody req).

Definition RoundTrip (base : URL) (req : Request) : Response := round_trip (rewrite_request base req).

(** ** [http.Client.Do] *)

(** [redirectBehavior]: the method of the next request and whether it repeats the
    body, [None] when the status is no redirect. A body read from a
    [bytes.Reader] can be repeated. *)
Definition redirectBehavior (method : string) (st : Z) : option (string * bool) :=
  if bool_decide (st ∈ [301; 302; 303]) then
    Some (if (method =? "GET")%string || (method =? "HEAD")%string then method else "GET"%string, false)
  else if bool_decide (st ∈ [307; 308]) then Some (method, true)
  else None.

(** [*url.Error] of a request made with POST. *)
Definition url_error (url : string) (e : error) : error := "Post " +:+ Quote url +:+ ": " +:+ e.

(** The request to [u] that follows a redirect of the first request [ireq]. *)
Definition next_request (ireq : Request) (via : list URL) (u : URL) (method : string)
    (keepBody : bool) : Request :=
  mkRequest method u (redirect_headers ireq via u) (if keepBody then rBody ireq else empty).

(** The loop of [Do] from the request [req]; [hops] redirects may still be
    followed, and a body once dropped stays dropped. *)
Fixpoint follow (base : URL) (hops : nat) (ireq req : Request) (via : list URL) (body : bool)
    : Response :=
  match RoundTrip base req with
  | NoResponse e => NoResponse (url_error (url_Stripped (rURL req)) e)
  | HasResponse st _ loc _ _ as resp =>
      match redirectBehavior (Method req) st with
      | None => resp
      | Some (method, keep) =>
          if is_empty loc then resp else
          match url_Reference (rURL req) loc with
          | Err e => NoResponse (url_error (url_Stripped (rURL req))
                       ("failed to parse Location header " +:+ Quote loc +:+ ": " +:+ e))
          | Ok u =>
              match hops with
              | O => NoResponse (url_error loc "stopped after 10 redirects")
              | S hops' =>
                  follow base hops' ireq
                    (next_request ireq (via ++ [rURL req]) u method (body && keep))
                    (via ++ [rURL req]) (body && keep)
              end
          end
      end
  end.

(** The default policy makes at most ten requests. *)
Definition max_hops : nat := 9.

Definition Do (base : URL) (req : Request) : Response := follow base max_hops req req [] true.

(** ** [Send] *)

Definition bulk_request (s : MailerSendSender) (url : URL) (payload : string) : Request :=
  mkRequest "POST" url
    [("Content-Type", "application/json"); ("Accept", "application/json");
     ("Authorization", "Bearer " +:+ apiKey s)]%string payload.

Definition max_response_bytes : Z := 1048576.

(** What [Send] makes of the response. *)
Definition send_outcome (resp : Response) : SendResult * option send_error :=
  match resp with
  | NoResponse e => (mkSendResult empty 0, Some (SenderError 0 e))
  | HasResponse st text _ content readErr =>
      match ReadAllLimited max_response_bytes content readErr with
      | Err e => (mkSendResult empty st, Some (SenderError st ("read bulk response: " +:+ e)))
      | Ok body =>
          if (200 <=? st) && (st <=? 299) then
            (mkSendResult (if is_empty body then empty else bulk_email_id body) st, None)
          else
            let msg := TrimSpace body in
            let msg := if is_empty msg then text else msg in
            let msg := if 400 <? slen msg then cut 400 msg else msg in
            (mkSendResult empty st, Some (SenderError st ("mailersend bulk api error: " +:+ msg)))
      end
  end.

Definition Send (s : MailerSendSender) (messages : list (option Message))
    : SendResult * option send_error :=
  match marshal_bulk messages with
  | Err e => (mkSendResult empty 0, Some (SenderError 0 ("marshal bulk payload: " +:+ e)))
  | Ok payload =>
      match url_Parse (baseURL s +:+ "/bulk-email") with
      | Err e => (mkSendResult empty 0, Some (SenderError 0 ("create bulk request: " +:+ e)))
      | Ok url => send_outcome (Do (transportURL s) (bulk_request s url payload))
      end
  end.
End sender.
