(* ===== verification/Backoff.v ===== *)
(** * The retry schedule of [internal/dispatch/dispatcher.go]: [jitteredBackoff]
    in binary64 arithmetic.

    A non-negative binary64 value is an integer scaled by a power of two;
    [round53] rounds an integer to 53 significant bits, ties to even, so an
    operation is the exact integer operation followed by [round53] at the
    scale of its result. No value here is subnormal or overflows. *)

From S2P Require Import Prelude GoStrings SqlTime.

(** Round to nearest, ties to even, at the multiple [2^k]. *)
Definition round_at (k m : Z) : Z :=
  let u := 2 ^ k in
  let q := m / u in
  let r := m mod u in
  if 2 * r <? u then q * u
  else if u <? 2 * r then (q + 1) * u
  else if Z.even q then q * u else (q + 1) * u.

Definition round53 (m : Z) : Z :=
  let k := Z.log2 m - 52 in
  if k <=? 0 then m else round_at k m.

(** The binary64 constants 0.8 and 0.4 are this integer over 2^53 and 2^54. *)
Definition c08 : Z := 7205759403792794.

(** [rand.Float64()] for the 63-bit draw [draw], at the scale 2^-63; a draw that rounds
    to one is drawn again. *)
Definition rand_float (draw : Z) : Z := round53 draw.
Definition valid_draw (draw : Z) : Prop := 0 ≤ draw ∧ rand_float draw < 2 ^ 63.

Definition backoffSchedule : list Z :=
  [1 * Second; 5 * Second; 15 * Second; 1 * Minute; 5 * Minute; 15 * Minute; 1 * Hour; 6 * Hour].

Definition backoff_index (attemptNumber : Z) : nat :=
  let n := if attemptNumber <? 1 then 1 else attemptNumber in
  let idx := n - 1 in
  Z.to_nat (if zlen backoffSchedule <=? idx then zlen backoffSchedule - 1 else idx).

Definition backoff_base (attemptNumber : Z) : Z :=
  default 0 (backoffSchedule !! backoff_index attemptNumber).

(** [0.8 + rand.Float64()*0.4] at the scale 2^-117; [fma] tells whether the compiler
    fuses the multiplication with the addition, as Go allows. *)
Definition jitter (fma : bool) (draw : Z) : Z :=
  let product := rand_float draw * c08 in
  round53 (c08 * 2 ^ 64 + (if fma then product else round53 product)).

(** [time.Duration(float64(base) * jitter)] truncates. *)
Definition scale_base (base j : Z) : Z := round53 (base * j) / 2 ^ 117.

Definition jitteredBackoff (fma : bool) (draw : Z) (attemptNumber : Z) : Z :=
  scale_base (backoff_base attemptNumber) (jitter fma draw).

(** ** Rounding is monotone *)

Lemma round_at_bounds k m : 0 < k → 0 ≤ m →
  m / 2 ^ k * 2 ^ k ≤ round_at k m ≤ (m / 2 ^ k + 1) * 2 ^ k.
Proof.
  intros Hk Hm. pose proof (Z.pow_pos_nonneg 2 k). unfold round_at.
  repeat case_match; nia.
Qed.

Lemma round_at_mono k x y : 0 < k → 0 ≤ x ≤ y → round_at k x ≤ round_at k y.
Proof.
  intros Hk Hxy. pose proof (Z.pow_pos_nonneg 2 k ltac:(lia) ltac:(lia)) as Hu.
  pose proof (Z.div_le_mono x y (2 ^ k) Hu ltac:(lia)) as Hq.
  destruct (decide (x / 2 ^ k = y / 2 ^ k)) as [Heq|Hne].
  - pose proof (Z.div_mod x (2 ^ k) ltac:(lia)). pose proof (Z.div_mod y (2 ^ k) ltac:(lia)).
    assert (x mod 2 ^ k ≤ y mod 2 ^ k) by (rewrite Heq in *; lia).
    unfold round_at. rewrite Heq. repeat case_match; bool_to_prop; nia.
  - pose proof (round_at_bounds k x Hk ltac:(lia)). pose proof (round_at_bounds k y Hk ltac:(lia)).
    nia.
Qed.

Lemma log2_bounds m : 0 < m → 2 ^ Z.log2 m ≤ m < 2 ^ (Z.log2 m + 1).
Proof. intros Hm. pose proof (Z.log2_spec m Hm) as H. by rewrite Z.add_1_r. Qed.

Lemma round53_lower y : 0 < Z.log2 y - 52 → 2 ^ Z.log2 y ≤ round53 y.
Proof.
  intros Hk. unfold round53. rewrite (proj2 (Z.leb_gt (Z.log2 y - 52) 0)) by lia.
  assert (0 < y) as Hy by (destruct y; cbn in *; lia).
  pose proof (log2_bounds y Hy) as [Hlo _].
  pose proof (round_at_bounds (Z.log2 y - 52) y Hk ltac:(lia)) as [Hb _].
  etransitivity; [|exact Hb].
  replace (Z.log2 y) with (52 + (Z.log2 y - 52)) at 1 by lia.
  rewrite Z.pow_add_r by lia. apply Z.mul_le_mono_nonneg_r; [lia|].
  apply Z.div_le_lower_bound; [lia|]. rewrite <- Z.pow_add_r by lia.
  by replace (Z.log2 y - 52 + 52) with (Z.log2 y) by lia.
Qed.

Lemma round53_upper x : 0 < Z.log2 x - 52 → round53 x ≤ 2 ^ (Z.log2 x + 1).
Proof.
  intros Hk. unfold round53. rewrite (proj2 (Z.leb_gt (Z.log2 x - 52) 0)) by lia.
  assert (0 < x) as Hx by (destruct x; cbn in *; lia).
  pose proof (log2_bounds x Hx) as [_ Hhi].
  pose proof (round_at_bounds (Z.log2 x - 52) x Hk ltac:(lia)) as [_ Hb].
  etransitivity; [exact Hb|].
  replace (Z.log2 x + 1) with (53 + (Z.log2 x - 52)) by lia.
  rewrite Z.pow_add_r by lia. apply Z.mul_le_mono_nonneg_r; [lia|].
  cut (x / 2 ^ (Z.log2 x - 52) < 2 ^ 53); [lia|].
  apply Z.div_lt_upper_bound; [lia|]. rewrite <- Z.pow_add_r by lia.
  by replace (Z.log2 x - 52 + 53) with (Z.log2 x + 1) by lia.
Qed.

Lemma round53_mono x y : 0 ≤ x ≤ y → round53 x ≤ round53 y.
Proof.
  intros Hxy. pose proof (Z.log2_le_mono x y ltac:(lia)) as Hl.
  destruct (decide (Z.log2 x = Z.log2 y)) as [Heq|Hne].
  - unfold round53. rewrite Heq. case_match; bool_to_prop; [lia|]. apply round_at_mono; lia.
  - destruct (decide (0 < Z.log2 y - 52)) as [Hy|Hy].
    + etransitivity; [|by apply round53_lower].
      destruct (decide (0 < Z.log2 x - 52)) as [Hx|Hx].
      * etransitivity; [by apply round53_upper|]. apply Z.pow_le_mono_r; lia.
      * unfold round53. rewrite (proj2 (Z.leb_le (Z.log2 x - 52) 0)) by lia.
        destruct (decide (x = 0)) as [->|]; [apply Z.pow_nonneg; lia|].
        pose proof (log2_bounds x ltac:(lia)) as [_ Hb].
        pose proof (Z.pow_le_mono_r 2 (Z.log2 x + 1) (Z.log2 y) ltac:(lia) ltac:(lia)). lia.
    + unfold round53. rewrite !(proj2 (Z.leb_le _ 0)) by lia. lia.
Qed.

Lemma round53_nonneg x : 0 ≤ x → 0 ≤ round53 x.
Proof. intros Hx. change 0 with (round53 0) at 1. apply round53_mono. lia. Qed.

(** ** The jitter factor and the delay *)

Definition max_rand : Z := 2 ^ 63 - 2 ^ 10.
Definition float08 : Z := c08 * 2 ^ 64.
Definition float12 : Z := 5404319552844595 * 2 ^ 65.

Lemma rand_float_range draw : valid_draw draw → 0 ≤ rand_float draw ≤ max_rand.
Proof.
  intros [Hd Hlt]. unfold rand_float in *. split; [by apply round53_nonneg|].
  destruct (decide (draw < 2 ^ 63 - 2 ^ 9)) as [Hs|Hs].
  - replace max_rand with (round53 (2 ^ 63 - 2 ^ 9 - 1)) by by vm_compute.
    apply round53_mono. lia.
  - pose proof (round53_mono (2 ^ 63 - 2 ^ 9) draw ltac:(lia)) as Hm.
    replace (round53 (2 ^ 63 - 2 ^ 9)) with (2 ^ 63) in Hm by by vm_compute. lia.
Qed.

Lemma jitter_range fma draw : valid_draw draw → float08 ≤ jitter fma draw ≤ float12.
Proof.
  intros Hv. pose proof (rand_float_range draw Hv) as [H0 H1].
  assert (0 ≤ rand_float draw * c08 ≤ max_rand * c08) as Hp by (unfold c08; lia).
  pose proof (round53_nonneg (rand_float draw * c08) ltac:(lia)) as Hr0.
  pose proof (round53_mono (rand_float draw * c08) (max_rand * c08) ltac:(lia)) as Hr1.
  unfold jitter. replace float08 with (round53 (c08 * 2 ^ 64)) by by vm_compute.
  split; [apply round53_mono; destruct fma; unfold c08 in *; lia|].
  destruct fma.
  - replace float12 with (round53 (c08 * 2 ^ 64 + max_rand * c08)) by by vm_compute.
    apply round53_mono. unfold c08 in *. lia.
  - replace float12 with (round53 (c08 * 2 ^ 64 + round53 (max_rand * c08))) by by vm_compute.
    apply round53_mono. unfold c08 in *. lia.
Qed.

Lemma scale_base_mono b j j' : 0 ≤ b → 0 ≤ j ≤ j' → scale_base b j ≤ scale_base b j'.
Proof.
  intros Hb Hj. unfold scale_base. apply Z.div_le_mono; [lia|]. apply round53_mono. nia.
Qed.

Lemma elem_of_schedule n : backoff_base n ∈ backoffSchedule.
Proof.
  unfold backoff_base. destruct (backoffSchedule !! backoff_index n) eqn:E.
  - by apply list_elem_of_lookup_2 in E.
  - exfalso. apply lookup_ge_None in E. unfold backoff_index in E.
    change (zlen backoffSchedule) with 8 in E. change (length backoffSchedule) with 8%nat in E.
    repeat case_match; bool_to_prop; lia.
Qed.

(** A property of the delays at the two extremes of the jitter, checked on the schedule. *)
Lemma schedule_check (P : Z → bool) n :
  forallb P backoffSchedule = true → P (backoff_base n) = true.
Proof. intros H. eapply forallb_forall in H; [done|]. apply list_elem_of_In, elem_of_schedule. Qed.

Lemma backoff_base_pos n : 0 < backoff_base n.
Proof. apply Z.ltb_lt, (schedule_check (λ b, 0 <? b)). by vm_compute. Qed.

(** ** Properties *)

(** C24: a retry delay lies within twenty percent of the scheduled one. For every
    draw of the random generator, and whether or not the multiplication and the
    addition are fused, the delay is between the truncated products of the base
    delay with the binary64 constants 0.8 and 1.2, and so between 0.8 times the
    base less one nanosecond and 1.2 times the base. *)
Theorem jittered_backoff_range fma draw n :
  valid_draw draw →
  let base := backoff_base n in
  let d := jitteredBackoff fma draw n in
  scale_base base float08 ≤ d ≤ scale_base base float12
  ∧ 8 * base ≤ 10 * (d + 1) ∧ 10 * d ≤ 12 * base.
Proof.
  intros Hv base d. pose proof (jitter_range fma draw Hv) as [Hlo Hhi].
  pose proof (backoff_base_pos n) as Hb.
  assert (0 ≤ float08) as H08 by by vm_compute.
  assert (scale_base base float08 ≤ d ≤ scale_base base float12) as Hd.
  { subst d base. unfold jitteredBackoff. split; apply scale_base_mono; lia. }
  pose proof (schedule_check (λ b, 8 * b <=? 10 * (scale_base b float08 + 1)) n
                ltac:(by vm_compute)) as H1.
  pose proof (schedule_check (λ b, 10 * scale_base b float12 <=? 12 * b) n
                ltac:(by vm_compute)) as H2.
  cbn beta in H1, H2. bool_to_prop. fold base in H1, H2. lia.
Qed.

Lemma jittered_backoff_range_witness :
  8 * (5 * Second) ≤ 10 * (jitteredBackoff false 123456789 2 + 1)
  ∧ 10 * jitteredBackoff false 123456789 2 ≤ 12 * (5 * Second).
Proof. apply (jittered_backoff_range false 123456789 2). by vm_compute. Defined.

(** The scheduled delay never shrinks from one attempt to the next, starts
    at one second and is capped at six hours, for every attempt number. *)
Theorem backoff_base_monotone n m :
  n ≤ m → Second ≤ backoff_base n ≤ backoff_base m ∧ backoff_base m ≤ 6 * Hour.
Proof.
  intros Hnm. assert (backoff_base n ≤ backoff_base m) as Hle.
  { unfold backoff_base. assert (backoff_index n ≤ backoff_index m < 8)%nat as Hi.
    { unfold backoff_index. change (zlen backoffSchedule) with 8.
      repeat case_match; bool_to_prop; lia. }
    revert Hi. generalize (backoff_index n) (backoff_index m). intros i j Hij.
    do 8 (destruct j as [|j]; [do 8 (destruct i as [|i]; [first [lia | by apply Z.leb_le]|]); lia|]). lia. }
  pose proof (schedule_check (λ b, Second <=? b) n ltac:(by vm_compute)) as H1.
  pose proof (schedule_check (λ b, b <=? 6 * Hour) m ltac:(by vm_compute)) as H2.
  cbn beta in H1, H2. bool_to_prop. lia.
Qed.

Lemma backoff_base_monotone_witness :
  Second ≤ backoff_base 3 ≤ backoff_base 40 ∧ backoff_base 40 ≤ 6 * Hour.
Proof. apply backoff_base_monotone. lia. Defined.
