(* ===== verification/SenderProps.v ===== *)
(** * Properties of the bulk API client. *)

From S2P Require Import Prelude GoStrings Message Sender.

(** The HTTP exchange succeeded: a 2xx status and a body that could be read. *)
Definition accepted_response (resp : Response) : bool :=
  match resp with
  | NoResponse _ => false
  | HasResponse st _ _ content readErr =>
      (200 <=? st) && (st <=? 299) && is_ok (ReadAllLimited max_response_bytes content readErr)
  end.

Definition response_status (resp : Response) : Z :=
  match resp with NoResponse _ => 0 | HasResponse st _ _ _ _ => st end.

(** ** Strings *)

Lemma prefix_app p s : HasPrefix (p +:+ s) p = true.
Proof.
  unfold HasPrefix. induction p as [|c p IH]; [by destruct s|].
  change (String c p +:+ s) with (String c (p +:+ s)). cbn.
  destruct (ascii_dec c c); [done|congruence].
Qed.

Lemma HasPrefix_app_inv p s : HasPrefix s p = true → ∃ k, s = p +:+ k.
Proof.
  unfold HasPrefix. revert s. induction p as [|c p IH]; intros s; [by exists s|].
  destruct s as [|d s]; cbn; [done|]. destruct (ascii_dec c d) as [->|]; [|done].
  intros [k ->]%IH. by exists k.
Qed.

Lemma cut_length n s : slen (cut n s) ≤ Z.of_nat n.
Proof.
  unfold cut, slen. revert n. induction s as [|c s IH]; intros [|n]; cbn; try lia.
  specialize (IH n). lia.
Qed.

Lemma slen_app s k : slen (s +:+ k) = slen s + slen k.
Proof.
  unfold slen. induction s as [|c s IH]; [done|].
  change (String c s +:+ k) with (String c (s +:+ k)). cbn [String.length]. lia.
Qed.

Lemma string_app_assoc (a b c : string) : (a +:+ b) +:+ c = a +:+ (b +:+ c).
Proof.
  induction a as [|x a IH]; [done|].
  change (String x ((a +:+ b) +:+ c) = String x (a +:+ (b +:+ c))). by rewrite IH.
Qed.

Lemma of_chars_app (a b : list ascii) : of_chars (a ++ b) = of_chars a +:+ of_chars b.
Proof.
  rewrite <- (of_chars_chars (of_chars a +:+ _)), chars_app, !chars_of_chars. done.
Qed.

Lemma length_chars (s : string) : length (chars s) = String.length s.
Proof. unfold length. induction s; cbn; [done|]. f_equal. done. Qed.

Lemma cut_app (a b : string) : cut (String.length a) (a +:+ b) = a.
Proof.
  unfold cut. induction a as [|x a IH]; [by destruct b|].
  change (String x (String.substring 0 (String.length a) (a +:+ b)) = String x a). by rewrite IH.
Qed.

Lemma HasSuffix_app_inv s k : HasSuffix s k = true → ∃ p, s = p +:+ k.
Proof.
  intros [r Hr]%HasPrefix_app_inv. exists (string_rev r).
  apply (f_equal string_rev) in Hr. unfold string_rev in *.
  rewrite !chars_of_chars, rev_involutive, of_chars_chars in Hr. rewrite Hr.
  rewrite chars_app, !chars_of_chars, rev_app_distr, rev_involutive, of_chars_app.
  by rewrite of_chars_chars.
Qed.

Lemma TrimSuffix_app p k : TrimSuffix (p +:+ k) k = p.
Proof.
  unfold TrimSuffix. assert (HasSuffix (p +:+ k) k = true) as ->.
  { unfold HasSuffix, string_rev. rewrite chars_app, rev_app_distr.
    rewrite of_chars_app. apply prefix_app. }
  assert (String.length (p +:+ k) = String.length p + String.length k)%nat as ->.
  { rewrite <- !length_chars, chars_app. apply length_app. }
  replace (_ + _ - _)%nat with (String.length p) by lia. apply cut_app.
Qed.

(** A path rebuilt under a base path starts with it. *)
Lemma rebased_path_prefix base rest :
  HasPrefix (TrimSuffix base "/" +:+ "/" +:+ rest) base = true.
Proof.
  destruct (HasSuffix base "/") eqn:E.
  - apply HasSuffix_app_inv in E as [p ->]. rewrite TrimSuffix_app, <- string_app_assoc.
    apply prefix_app.
  - unfold TrimSuffix. rewrite E. apply prefix_app.
Qed.

Section sender_properties.
Context {UC : UnicodeCase} {HL : HTTPLib}.

(** ** The exchange behind [Do] *)

(** [n] requests were made from [req] on, all but the last answered by a
    redirect with a location, and the last by [resp]. *)
Inductive exchange (base : URL) (ireq : Request) :
    nat → Request → list URL → bool → Response → Prop :=
| exchange_last req via body st text loc content readErr :
    RoundTrip base req = HasResponse st text loc content readErr →
    redirectBehavior (Method req) st = None ∨ loc = empty →
    exchange base ireq 1 req via body (HasResponse st text loc content readErr)
| exchange_hop n req via body st text loc content readErr method keep u resp :
    RoundTrip base req = HasResponse st text loc content readErr →
    redirectBehavior (Method req) st = Some (method, keep) → loc ≠ empty →
    url_Reference (rURL req) loc = Ok u →
    exchange base ireq n (next_request ireq (via ++ [rURL req]) u method (body && keep))
      (via ++ [rURL req]) (body && keep) resp →
    exchange base ireq (S n) req via body resp.

Definition answered (resp : Response) : bool :=
  match resp with NoResponse _ => false | _ => true end.

Lemma follow_sound base ireq hops : ∀ req via body,
  answered (follow base hops ireq req via body) = true →
  ∃ n, (n ≤ S hops)%nat ∧ exchange base ireq n req via body (follow base hops ireq req via body).
Proof.
  induction hops as [|hops IH]; intros req via body; cbn [follow];
    destruct (RoundTrip base req) as [e|st text loc content readErr] eqn:ER; try done;
    destruct (redirectBehavior (Method req) st) as [[method keep]|] eqn:Eb;
    try (intros _; exists 1%nat; split; [lia|]; apply exchange_last; [done|by left]);
    destruct (is_empty loc) eqn:El;
    try (intros _; exists 1%nat; split; [lia|]; apply exchange_last; [done|right; by apply is_empty_true]);
    destruct (url_Reference (rURL req) loc) as [u|e] eqn:Eu; try done.
  intros (n & Hn & Hex)%IH. exists (S n). split; [lia|].
  eapply exchange_hop; [done|done|by apply is_empty_false|done|exact Hex].
Qed.

Lemma follow_complete base ireq n req via body resp :
  exchange base ireq n req via body resp →
  ∀ hops, (n ≤ S hops)%nat → follow base hops ireq req via body = resp.
Proof.
  induction 1 as [req via body st text loc content readErr ER Hlast
    |n req via body st text loc content readErr method keep u resp ER Eb Hloc Eu Hex IH];
    intros hops Hn.
  - destruct hops; cbn [follow]; rewrite ER; destruct Hlast as [->| ->]; try done;
      by destruct (redirectBehavior _ _) as [[]|].
  - destruct hops as [|hops]; [inversion Hex; lia|]. cbn [follow].
    rewrite ER, Eb, (proj2 (is_empty_false loc) Hloc), Eu. apply IH. lia.
Qed.

Lemma exchange_answered base ireq n req via body resp :
  exchange base ireq n req via body resp → answered resp = true.
Proof. by induction 1. Qed.

Lemma accepted_answered resp : accepted_response resp = true → answered resp = true.
Proof. by destruct resp. Qed.

(** What [Send] reports of a response. *)
Lemma send_outcome_accepted resp :
  let '(result, err) := send_outcome resp in
  HTTPStatus result = response_status resp
  ∧ (err = None ↔ accepted_response resp = true)
  ∧ (err = None → 200 ≤ HTTPStatus result ≤ 299)
  ∧ (∀ e, err = Some e → BulkEmailID result = empty ∧ ∃ cause, e = SenderError (HTTPStatus result) cause).
Proof.
  destruct resp as [e|st text loc content readErr]; cbn.
  { split_and!; [done|by split|done|]. intros ? [= <-]. split; [done|by eexists]. }
  destruct (ReadAllLimited _ _ _) as [body|e]; cbn.
  2: { split_and!; [done| |done|].
       - split; [done|]. by rewrite andb_false_r.
       - intros ? [= <-]. split; [done|by eexists]. }
  destruct ((200 <=? st) && (st <=? 299)) eqn:Es; cbn.
  - split_and!; [done|done| |done]. intros _. bool_to_prop. lia.
  - split_and!; [done|done|done|]. intros ? [= <-]. split; [done|by eexists].
Qed.

(** C25: [Send] reports success exactly when the payload encodes, the URL
    parses and the exchange that starts with the POST of the payload ends,
    after at most ten requests, with a 2xx status and a readable body; each
    request but the last was answered by a redirect that net/http follows. Any
    other outcome is a [*SenderError] that carries the result's HTTP status
    (zero when there was no final response), and then no bulk id. *)
Theorem send_succeeds_iff s msgs :
  let '(result, err) := Send s msgs in
  (err = None ↔ ∃ payload url n resp,
     marshal_bulk msgs = Ok payload ∧ url_Parse (baseURL s +:+ "/bulk-email") = Ok url
     ∧ exchange (transportURL s) (bulk_request s url payload) n (bulk_request s url payload) [] true resp
     ∧ (n ≤ 10)%nat ∧ accepted_response resp = true ∧ HTTPStatus result = response_status resp)
  ∧ (err = None → 200 ≤ HTTPStatus result ≤ 299)
  ∧ (∀ e, err = Some e → BulkEmailID result = empty
          ∧ ∃ cause, e = SenderError (HTTPStatus result) cause).
Proof.
  unfold Send. destruct (marshal_bulk msgs) as [p|e].
  2: { split_and!; [split; [done|naive_solver]|done|intros ? [= <-]; split; [done|by eexists]]. }
  destruct (url_Parse _) as [u|e].
  2: { split_and!; [split; [done|naive_solver]|done|intros ? [= <-]; split; [done|by eexists]]. }
  set (resp := Do _ _). pose proof (send_outcome_accepted resp) as Ho.
  destruct (send_outcome resp) as [result err]. destruct Ho as (Hst & Hacc & Hrange & Herr).
  split_and!; [|done|done]. split.
  - intros Hok. apply Hacc in Hok.
    destruct (follow_sound (transportURL s) (bulk_request s u p) max_hops (bulk_request s u p) [] true)
      as (n & Hn & Hex); [by apply accepted_answered|].
    exists p, u, n, resp. by split_and!.
  - intros (p' & u' & n & resp' & [= <-] & [= <-] & Hex & Hn & Hr & _). apply Hacc.
    assert (resp = resp') as ->; [|done]. exact (follow_complete _ _ _ _ _ _ _ Hex max_hops Hn).
Qed.

(** A POST answered with 301, 302 or 303 is repeated as a GET without the
    payload, and [Send] reports the answer to that. *)
Lemma send_redirected s msgs payload url st text loc content readErr u :
  let post := bulk_request s url payload in
  let get := mkRequest "GET" u (redirect_headers post [url] u) empty in
  marshal_bulk msgs = Ok payload → url_Parse (baseURL s +:+ "/bulk-email") = Ok url →
  RoundTrip (transportURL s) post = HasResponse st text loc content readErr →
  st ∈ [301; 302; 303] → loc ≠ empty → url_Reference url loc = Ok u →
  accepted_response (RoundTrip (transportURL s) get) = true →
  Send s msgs = send_outcome (RoundTrip (transportURL s) get).
Proof.
  intros post get Hm Hu Hpost Hst Hloc Hr Hacc. unfold Send. rewrite Hm, Hu. f_equal.
  eapply (follow_complete _ _ 2); [|unfold max_hops; lia].
  eapply (exchange_hop _ _ _ _ _ _ _ _ _ _ _ "GET" false); [exact Hpost| |done|exact Hr|].
  - unfold redirectBehavior. by rewrite bool_decide_eq_true_2.
  - change (next_request _ _ _ _ _) with get.
    destruct (RoundTrip (transportURL s) get) as [e|st2 text2 loc2 c2 e2] eqn:Eg; [done|].
    apply exchange_last; [done|]. left. cbn in Hacc. bool_to_prop. unfold redirectBehavior.
    rewrite !bool_decide_eq_false_2; [done|set_solver by lia|set_solver by lia].
Qed.

(** The transport sends every request to the configured scheme and host,
    under the configured base path, with method, headers and body untouched;
    a request already under the base path keeps its path, so rewriting twice
    is rewriting once. *)
Theorem rewrite_request_spec base req :
  let req' := rewrite_request base req in
  Scheme (rURL req') = Scheme base ∧ Host (rURL req') = Host base
  ∧ HasPrefix (Path (rURL req')) (Path base) = true
  ∧ Method req' = Method req ∧ rHeaders req' = rHeaders req ∧ rBody req' = rBody req
  ∧ (HasPrefix (Path (rURL req)) (Path base) = true → Path (rURL req') = Path (rURL req))
  ∧ rewrite_request base req' = req'.
Proof.
  intros req'. assert (Hp : HasPrefix (Path (rURL req')) (Path base) = true).
  { subst req'. unfold rewrite_request. cbn.
    destruct (is_empty (Path base)) eqn:Ee.
    { apply is_empty_true in Ee. rewrite Ee. cbn. by destruct (Path (rURL req)). }
    destruct (HasPrefix (Path (rURL req)) (Path base)) eqn:Eh; cbn; [done|].
    apply rebased_path_prefix. }
  split_and!; try done.
  - intros H. subst req'. unfold rewrite_request. cbn. by rewrite H, andb_false_r.
  - unfold rewrite_request at 1. rewrite Hp, andb_false_r. by subst req'.
Qed.
End sender_properties.
