(* ===== verification/Dispatch.v ===== *)
(** * The dispatcher: [internal/dispatch/dispatcher.go] and [limiter.go].

    A worker's loop runs in a monad over the store, the metrics, the heartbeat
    and the trace of its outward actions. What each iteration meets (the state
    of the context, the limiter's answer, clock readings, the random draw, the
    API's answer) is a record of that iteration, so that a theorem over all
    lists of records is one over all executions. *)

From S2P Require Import Prelude GoStrings Message SqlTime Queue StoreLogic Metrics Sender Backoff.

Record Config := mkConfig {
  Workers : Z;
  QueueClaimLimit : Z;
  QueueLeaseTimeout : Z;
  BatchMaxCount : Z;
  BatchMaxBytes : Z;
  BatchFlushInterval : Z;
  RetryMaxAttempts : Z;
  RequeueStaleEvery : Z;
  QueueDepthPollEvery : Z
}.

(** The outward actions of a worker, the latest first in a trace. *)
Inductive event :=
| EvGrant
| EvClaim
| EvSend (messages : list (option Message)).

Record world := mkWorld {
  wstore : store;
  wmetrics : Metrics;
  lastHeartbeat : Z;
  trace : list event
}.

Definition on_store {A} (m : M store A) : M world A := λ w,
  let '(r, s) := m (wstore w) in
  (r, mkWorld s (wmetrics w) (lastHeartbeat w) (trace w)).

Definition on_metrics (f : Metrics → Metrics) : M world unit := λ w,
  (Ok tt, mkWorld (wstore w) (f (wmetrics w)) (lastHeartbeat w) (trace w)).

Definition log_event (e : event) : M world unit := λ w,
  (Ok tt, mkWorld (wstore w) (wmetrics w) (lastHeartbeat w) (e :: trace w)).

Definition store_heartbeat (unix : Z) : M world unit := λ w,
  (Ok tt, mkWorld (wstore w) (wmetrics w) unix (trace w)).

(** [if err := m; err != nil { log it }]: the error becomes the value. *)
Definition try {A} (m : M world A) : M world (result error A) := λ w,
  let '(r, w') := m w in (Ok r, w').

(** ** [classifyFailure] and [safeErr] *)

Definition classifyFailure (statusCode : Z) (err : option send_error) : string :=
  match err with
  | None => "success"%string
  | Some _ =>
      if statusCode =? 0 then "retry"%string
      else if (statusCode =? 408) || (statusCode =? 425) || (statusCode =? 429)
              || (500 <=? statusCode) then "retry"%string
      else if bool_decide (statusCode ∈ [400; 401; 403; 404; 405; 409; 410; 413; 422])
           then "dlq"%string
      else if (400 <=? statusCode) && (statusCode <? 500) then "dlq"%string
      else "retry"%string
  end.

Definition safeErr (err : option send_error) : error :=
  match err with
  | None => empty
  | Some e => let msg := error_text e in
              if 1024 <? slen msg then cut 1024 msg else msg
  end.

(** ** [splitBatches] *)

Fixpoint split_loop (maxCount maxBytes : Z) (js cur : list Job) (curBytes : Z)
    (out : list (list Job)) : list (list Job) :=
  match js with
  | [] => if decide (cur = []) then out else out ++ [cur]
  | j :: rest =>
      let est := job_bytes (PayloadJSON j) in
      if batch_full maxCount maxBytes (zlen cur) curBytes est
      then split_loop maxCount maxBytes rest [j] est (out ++ [cur])
      else split_loop maxCount maxBytes rest (cur ++ [j]) (curBytes + est) out
  end.

Definition splitBatches (js : list Job) (maxCount maxBytes : Z) : list (list Job) :=
  if decide (js = []) then [] else
  let maxCount := if maxCount <=? 0 then 500 else maxCount in
  let maxBytes := if maxBytes <=? 0 then 5 * 1024 * 1024 else maxBytes in
  split_loop maxCount maxBytes js [] 0 [].

(** ** [processBatch] *)

(** The readings of [time.Now()] in one call. *)
Record readings := mkReadings {
  t_start : Z;
  t_end : Z;
  t_success : Z;
  t_next : Z;
  t_mark : Z;
  t_mark_dlq : Z
}.

Definition unix_of (t : Z) : Z := t / Second.

(** The status the failure is classified by. *)
Definition batch_status (result : SendResult) (err : option send_error) : Z :=
  if HTTPStatus result =? 0 then
    match err with Some (SenderError st _) => st | _ => 0 end
  else HTTPStatus result.

Definition status_label (statusCode : Z) : string :=
  if statusCode =? 0 then "network"%string else Itoa statusCode.

(** [j.AttemptCount+1 >= d.cfg.RetryMaxAttempts] *)
Definition exhausted (cfg : Config) (j : Job) : bool :=
  RetryMaxAttempts cfg <=? wrap64 (AttemptCount j + 1).

Definition retry_jobs (cfg : Config) (js : list Job) : list Job :=
  List.filter (λ j, negb (exhausted cfg j)) js.
Definition dlq_jobs (cfg : Config) (js : list Job) : list Job :=
  List.filter (exhausted cfg) js.

(** The next attempt of the whole batch follows its first retried job. *)
Definition next_attempt (fma : bool) (draw : Z) (rd : readings) (j : Job) : Z :=
  t_next rd + jitteredBackoff fma draw (wrap64 (AttemptCount j + 1)).

Definition process_retry (cfg : Config) (rd : readings) (fma : bool) (draw : Z)
    (js : list Job) (msg : error) (statusCode : Z) : M world unit :=
  match retry_jobs cfg js with
  | [] => mret tt
  | j0 :: _ =>
      wrapM "mark retry" (on_store (MarkRetry (t_mark rd) (retry_jobs cfg js)
        (next_attempt fma draw rd j0) msg statusCode));;
      on_metrics (add_retries (zlen (retry_jobs cfg js)))
  end;;
  match dlq_jobs cfg js with
  | [] => mret tt
  | _ =>
      wrapM "mark dlq" (on_store (MarkDLQ (t_mark_dlq rd) (dlq_jobs cfg js) msg statusCode));;
      on_metrics (add_dlq (zlen (dlq_jobs cfg js)))
  end.

Definition processBatch (cfg : Config) (rd : readings) (fma : bool) (draw : Z)
    (send : list (option Message) → SendResult * option send_error) (js : list Job) : M world unit :=
  if decide (js = []) then mret tt else
  let messages := JobMessage <$> js in
  log_event (EvSend messages);;
  let '(result, err) := send messages in
  on_metrics (observe_batch (zlen js) (t_end rd - t_start rd));;
  let statusCode := batch_status result err in
  let label := status_label statusCode in
  match err with
  | None =>
      on_metrics (inc_api_calls "success" label);;
      on_metrics (set_last_success (unix_of (t_success rd)));;
      on_store (MarkSent (t_mark rd) js (Sender.BulkEmailID result))
  | Some _ =>
      let class := classifyFailure statusCode err in
      on_metrics (inc_api_calls class label);;
      if (class =? "retry")%string then
        process_retry cfg rd fma draw js (safeErr err) statusCode
      else if (class =? "dlq")%string then
        wrapM "mark dlq" (on_store (MarkDLQ (t_mark_dlq rd) js (safeErr err) statusCode));;
        on_metrics (add_dlq (zlen js))
      else on_store (MarkDLQ (t_mark_dlq rd) js (safeErr err) statusCode)
  end.

(** ** [workerLoop] *)

(** What one iteration of a worker meets. *)
Record iteration := mkIteration {
  it_done : bool;                   (* the context is done at the top *)
  it_beat : Z;                      (* the heartbeat's clock reading *)
  it_wait : result error Z;         (* limiter.Wait: an error, or the time waited *)
  it_wait_done : bool;              (* the context is done after a failed wait *)
  it_now : Z;                       (* the claim's clock reading *)
  it_clock : Z;                     (* the time decoding's clock reading *)
  it_claim_done : bool;             (* the context ends the pause after a failed claim *)
  it_idle_done : bool;              (* the context ends the pause of an empty claim *)
  it_rd : readings;
  it_fma : bool;
  it_draw : Z;
  it_send : list (option Message) → SendResult * option send_error
}.

Section worker.
Context `{UnicodeCase, JSONCodec, SqlEngine, TimeDriver}.

(** One iteration: [true] to go on, [false] when the worker returns. *)
Definition worker_step (cfg : Config) (workerID : string) (it : iteration) : M world bool :=
  if it_done it then mret false else
  store_heartbeat (unix_of (it_beat it));;
  match it_wait it with
  | Err _ => mret (negb (it_wait_done it))
  | Ok waited =>
      log_event EvGrant;;
      (if 0 <? waited then on_metrics (observe_throttle waited) else mret tt);;
      log_event EvClaim;;
      r ← try (on_store (ClaimDispatchBatch workerID (it_clock it) (it_now it)
                 (QueueClaimLimit cfg) (BatchMaxCount cfg) (BatchMaxBytes cfg)));
      match r with
      | Err _ => mret (negb (it_claim_done it))
      | Ok [] => mret (negb (it_idle_done it))
      | Ok js =>
          try (processBatch cfg (it_rd it) (it_fma it) (it_draw it) (it_send it) js);;
          mret true
      end
  end.

(** The loop over the iterations it meets: [true] when it is still running. *)
Fixpoint workerLoop (cfg : Config) (workerID : string) (its : list iteration) : M world bool :=
  match its with
  | [] => mret true
  | it :: rest =>
      go ← worker_step cfg workerID it;
      if (go : bool) then workerLoop cfg workerID rest else mret false
  end.

(** ** The two periodic loops *)

(** [time.NewTicker] panics on an interval that is not positive. *)
Definition NewTicker (d : Z) : option Z := if d <=? 0 then None else Some d.

Definition requeue_tick (cfg : Config) (now : Z) : M world unit :=
  r ← try (on_store (RequeueStaleProcessing now (QueueLeaseTimeout cfg)));
  match r with
  | Err _ => mret tt
  | Ok n => if 0 <? n then on_metrics (add_recoveries n) else mret tt
  end.

Fixpoint run_ticks {A} (tick : A → M world unit) (ticks : list A) : M world unit :=
  match ticks with
  | [] => mret tt
  | a :: rest => tick a;; run_ticks tick rest
  end.

(** [None] is the panic; [nows] the clock readings of the ticks before the context ends. *)
Definition requeueStaleLoop (cfg : Config) (nows : list Z) : option (M world unit) :=
  match NewTicker (RequeueStaleEvery cfg) with
  | None => None
  | Some _ => Some (run_ticks (requeue_tick cfg) nows)
  end.

Definition depth_tick (_ : unit) : M world unit :=
  r ← try (on_store CountByStatus);
  match r with
  | Err _ => mret tt
  | Ok counts => on_metrics (λ m, map_fold set_depth m counts)
  end.

Definition queueDepthLoop (cfg : Config) (ticks : list unit) : option (M world unit) :=
  match NewTicker (QueueDepthPollEvery cfg) with
  | None => None
  | Some _ => Some (run_ticks depth_tick ticks)
  end.
End worker.

(** ** [Ready] *)

Definition ready_max_age (cfg : Config) : Z :=
  let maxAge := wrap64 (3 * BatchFlushInterval cfg) in
  if maxAge <? 5 * Second then 5 * Second else maxAge.

(** [last] is the stored heartbeat in Unix seconds, [now] the clock reading of [time.Since]. *)
Definition Ready (cfg : Config) (last now : Z) : bool :=
  if last =? 0 then false else now - time_Unix last <=? ready_max_age cfg.

(** ** [NewRequestLimiter] *)

(** The interval between two grants of the limiter (burst 1), [None] for no limit. *)
Definition NewRequestLimiter (requestsPerMin : Z) : option Z :=
  if requestsPerMin <=? 0 then None else Some (Z.quot Minute requestsPerMin).
