(* ===== verification/DispatchLogic.v ===== *)
(** * Reasoning about the dispatcher: rules for its monad, the table a batch
    leaves behind, and the chain of store operations a worker makes. *)

From S2P Require Import Prelude GoStrings Message SqlTime Queue StoreLogic TableFacts QueueSpec QueueClaim QueueMark Metrics Sender Backoff Dispatch.

Definition wjobs (w : world) : table := jobs (wstore w).

(** [m] started in [w] ends with a result and a world that satisfy [Q]. *)
Definition wensures {A} (m : M world A) (Q : result error A → world → Prop) (w : world) : Prop :=
  Q (m w).1 (m w).2.

(** ** Specification *)

(** The statuses after which a batch is sent again. *)
Definition retryable (st : Z) : bool :=
  negb ((400 <=? st) && (st <? 500)) || (st =? 408) || (st =? 425) || (st =? 429).

(** The instant at which the retried jobs of a batch are due. *)
Definition batch_next (cfg : Config) (rd : readings) (fma : bool) (draw : Z) (js : list Job) : Z :=
  match retry_jobs cfg js with
  | [] => 0
  | j0 :: _ => next_attempt fma draw rd j0
  end.

(** What becomes of the row of the job [j] of a batch with the given outcome. *)
Definition batch_row (cfg : Config) (rd : readings) (next : Z)
    (result : SendResult) (err : option send_error) (j : Job) (r : row) : row :=
  match err with
  | None => sent_row (Sender.BulkEmailID result) (t_mark rd) r
  | Some _ =>
      let st := batch_status result err in
      if retryable st && negb (exhausted cfg j)
      then retry_row next (safeErr err) st (t_mark rd) r
      else dlq_row (safeErr err) st (t_mark_dlq rd) r
  end.

(** One operation of the store, whatever its kind and the faults it meets. *)
Definition queue_step `{UnicodeCase, JSONCodec, SqlEngine, TimeDriver} (t t' : table) : Prop :=
  ∃ o, op_step o t t'.

(** ** Rules *)

Lemma wensures_mono {A} (m : M world A) (Q Q' : result error A → world → Prop) w :
  wensures m Q w → (∀ r w', Q r w' → Q' r w') → wensures m Q' w.
Proof. unfold wensures. auto. Qed.

Lemma wensures_ret {A} (a : A) (Q : result error A → world → Prop) w :
  Q (Ok a) w → wensures (mret a) Q w.
Proof. done. Qed.

Lemma wensures_bind {A B} (m : M world A) (f : A → M world B) Q w :
  wensures m (λ r w', match r with
                      | Ok a => wensures (f a) Q w'
                      | Err e => Q (Err e) w'
                      end) w →
  wensures (m ≫= f) Q w.
Proof. unfold wensures, mbind, M_bind. by destruct (m w) as [[a|e] w']. Qed.

Lemma wensures_wrapM {A} p (m : M world A) Q w :
  wensures m (λ r w', Q (wrapf p r) w') w → wensures (wrapM p m) Q w.
Proof. unfold wensures, wrapM. by destruct (m w). Qed.

Lemma wensures_try {A} (m : M world A) Q w :
  wensures m (λ r w', Q (Ok r) w') w → wensures (try m) Q w.
Proof. unfold wensures, try. by destruct (m w). Qed.

Lemma wensures_metrics f Q w :
  Q (Ok tt) (mkWorld (wstore w) (f (wmetrics w)) (lastHeartbeat w) (trace w)) →
  wensures (on_metrics f) Q w.
Proof. done. Qed.

Lemma wensures_log e Q w :
  Q (Ok tt) (mkWorld (wstore w) (wmetrics w) (lastHeartbeat w) (e :: trace w)) →
  wensures (log_event e) Q w.
Proof. done. Qed.

Lemma wensures_heartbeat u Q w :
  Q (Ok tt) (mkWorld (wstore w) (wmetrics w) u (trace w)) → wensures (store_heartbeat u) Q w.
Proof. done. Qed.

Lemma wensures_store {A} (m : M store A) Q w :
  ensures m (λ r t', ∀ s', jobs s' = t' →
    Q r (mkWorld s' (wmetrics w) (lastHeartbeat w) (trace w))) (wjobs w) →
  wensures (on_store m) Q w.
Proof.
  unfold wensures, on_store. intros H. specialize (H (wstore w) eq_refl).
  destruct (m (wstore w)) as [r s']. by apply H.
Qed.

Ltac wstep :=
  cbn beta iota delta [wrapf];
  match goal with
  | |- wensures (mret _) _ _ => apply wensures_ret
  | |- wensures (mbind _ _) _ _ => apply wensures_bind
  | |- wensures (wrapM _ _) _ _ => apply wensures_wrapM
  | |- wensures (try _) _ _ => apply wensures_try
  | |- wensures (on_metrics _) _ _ => apply wensures_metrics
  | |- wensures (log_event _) _ _ => apply wensures_log
  | |- wensures (store_heartbeat _) _ _ => apply wensures_heartbeat
  | |- wensures (on_store _) _ _ => apply wensures_store
  end.

(** ** Classification *)

Lemma classifyFailure_retryable st e :
  classifyFailure st (Some e) = (if retryable st then "retry" else "dlq")%string.
Proof.
  unfold classifyFailure, retryable.
  destruct (st =? 0) eqn:E0; bool_to_prop; [by subst|].
  destruct (st =? 408) eqn:E1; [by rewrite !orb_true_r|].
  destruct (st =? 425) eqn:E2; [by rewrite !orb_true_r|].
  destruct (st =? 429) eqn:E3; [by rewrite !orb_true_r|]. rewrite !orb_false_r. cbn.
  bool_to_prop.
  destruct (500 <=? st) eqn:E5; bool_to_prop.
  { rewrite (proj2 (Z.ltb_ge st 500)) by lia. by rewrite andb_false_r. }
  rewrite (proj2 (Z.ltb_lt st 500)) by lia. rewrite andb_true_r.
  destruct (400 <=? st) eqn:E4; bool_to_prop; cbn; [by case_bool_decide|].
  rewrite bool_decide_eq_false_2; [done|].
  rewrite list_elem_of_In. cbn. lia.
Qed.

(** ** Splitting a failed batch *)

Lemma elem_of_filter_b {A} (p : A → bool) (l : list A) x :
  x ∈ List.filter p l ↔ x ∈ l ∧ p x = true.
Proof. rewrite !list_elem_of_In. apply filter_In. Qed.

Lemma elem_of_retry_jobs cfg js j : j ∈ retry_jobs cfg js ↔ j ∈ js ∧ exhausted cfg j = false.
Proof. unfold retry_jobs. by rewrite elem_of_filter_b, negb_true_iff. Qed.

Lemma elem_of_dlq_jobs cfg js j : j ∈ dlq_jobs cfg js ↔ j ∈ js ∧ exhausted cfg j = true.
Proof. apply elem_of_filter_b. Qed.

Lemma marked_nil f t : marked f [] t = t.
Proof.
  apply update_where_id. intros id r _ [Hin _]%andb_prop.
  by apply bool_decide_eq_true, elem_of_nil in Hin.
Qed.

Lemma lookup_marked_other f js t id : id ∉ ID <$> js → marked f js t !! id = t !! id.
Proof.
  intros Hid. unfold marked. rewrite lookup_update_where.
  destruct (t !! id) as [r|]; [|done]. cbn. by rewrite bool_decide_eq_false_2.
Qed.

Lemma elem_of_ids (js : list Job) id : id ∈ ID <$> js ↔ ∃ j, j ∈ js ∧ id = ID j.
Proof. rewrite list_elem_of_fmap. naive_solver. Qed.

Lemma NoDup_ids_inj (js : list Job) j k :
  NoDup (ID <$> js) → j ∈ js → k ∈ js → ID j = ID k → j = k.
Proof.
  intros Hnd [i Hi]%list_elem_of_lookup [i' Hi']%list_elem_of_lookup Heq.
  assert (i = i') as ->; [|congruence].
  eapply (NoDup_lookup _ i i' (ID j)); [exact Hnd| |]; rewrite list_lookup_fmap; [by rewrite Hi|].
  rewrite Hi'. cbn. congruence.
Qed.

(** ** A batch *)

Lemma ensures_mark_next f js t (Q : result error unit → table → Prop) :
  (∀ r, r_status (f r) ≠ StatusProcessing) →
  Q (Ok tt) (marked f js t) → (∀ e, Q (Err e) t) → ensures (mark f js) Q t.
Proof.
  intros Hf HOk HErr. eapply ensures_mono; [by apply ensures_mark|].
  intros [[]|e] t' ->; auto.
Qed.

(** A failed call may only have done the retry half of the work. *)
Lemma wensures_process_retry cfg rd fma draw js msg st w :
  let tr := marked (retry_row (batch_next cfg rd fma draw js) msg st (t_mark rd))
              (retry_jobs cfg js) (wjobs w) in
  wensures (process_retry cfg rd fma draw js msg st)
    (λ r w', trace w' = trace w ∧ match r with
      | Ok _ => wjobs w' = marked (dlq_row msg st (t_mark_dlq rd)) (dlq_jobs cfg js) tr
      | Err _ => wjobs w' = wjobs w ∨ wjobs w' = tr
      end) w.
Proof.
  unfold process_retry, batch_next.
  assert (Hdlq : ∀ (tr : table) w1, wjobs w1 = tr → trace w1 = trace w →
    wensures (match dlq_jobs cfg js with
              | [] => mret tt
              | _ => wrapM "mark dlq" (on_store (MarkDLQ (t_mark_dlq rd) (dlq_jobs cfg js) msg st));;
                     on_metrics (add_dlq (zlen (dlq_jobs cfg js)))
              end)
      (λ r w', trace w' = trace w ∧ match r with
        | Ok _ => wjobs w' = marked (dlq_row msg st (t_mark_dlq rd)) (dlq_jobs cfg js) tr
        | Err _ => wjobs w' = wjobs w ∨ wjobs w' = tr
        end) w1).
  { intros tr w1 Hw1 Htr. destruct (dlq_jobs cfg js) as [|j l].
    - wstep. by rewrite marked_nil.
    - do 3 wstep. apply ensures_mark_next; [done| |].
      + intros s' Hs'. wstep. by rewrite <- Hw1.
      + intros e s' Hs'. cbn. split; [done|]. right. unfold wjobs in *. cbn. congruence. }
  destruct (retry_jobs cfg js) as [|j0 l] eqn:El.
  - do 2 wstep. rewrite marked_nil. by apply Hdlq.
  - wstep. do 3 wstep. apply ensures_mark_next; [done| |].
    + intros s' Hs'. wstep. by apply Hdlq.
    + intros e s' Hs'. cbn. split; [done|]. by left.
Qed.

Lemma wensures_processBatch cfg rd fma draw send js w :
  js ≠ [] →
  let '(result, err) := send (JobMessage <$> js) in
  let next := batch_next cfg rd fma draw js in
  let st := batch_status result err in
  let tr := marked (retry_row next (safeErr err) st (t_mark rd)) (retry_jobs cfg js) (wjobs w) in
  wensures (processBatch cfg rd fma draw send js)
    (λ r w', trace w' = EvSend (JobMessage <$> js) :: trace w ∧ match r with
      | Ok _ => wjobs w' =
          match err with
          | None => marked (sent_row (Sender.BulkEmailID result) (t_mark rd)) js (wjobs w)
          | Some _ =>
              if retryable st
              then marked (dlq_row (safeErr err) st (t_mark_dlq rd)) (dlq_jobs cfg js) tr
              else marked (dlq_row (safeErr err) st (t_mark_dlq rd)) js (wjobs w)
          end
      | Err _ => wjobs w' = wjobs w
                 ∨ (is_Some err ∧ retryable st = true ∧ wjobs w' = tr)
      end) w.
Proof.
  intros Hjs. destruct (send (JobMessage <$> js)) as [result err] eqn:Es. cbn zeta.
  unfold processBatch. rewrite decide_False by done. do 2 wstep. rewrite Es. do 2 wstep.
  destruct err as [e|]; do 2 wstep.
  - rewrite classifyFailure_retryable. destruct (retryable _) eqn:Er; cbn.
    + eapply wensures_mono; [apply wensures_process_retry|]. cbn.
      intros [[]|e'] w' [-> Hw']; (split; [done|]); [done|]. destruct Hw' as [Hw'|Hw']; [by left|].
      right. by split_and!.
    + do 3 wstep. apply ensures_mark_next; [done| |].
      * intros s' Hs'. by wstep.
      * intros e' s' Hs'. split; [done|]. by left.
  - do 2 wstep. wstep. apply ensures_mark_next; [done| |].
    + by intros s' Hs'.
    + intros e' s' Hs'. split; [done|]. by left.
Qed.

(** ** Fault-free runs *)

(** A migrated database whose driver calls all succeed. *)
Definition clean (w : world) : Prop := schema (wstore w) = true ∧ faults (wstore w) = [].

Definition completes {A} (m : M world A) (a : A) : Prop :=
  ∀ w, clean w → ∃ w', m w = (Ok a, w') ∧ clean w'.

Lemma completes_ret {A} (a : A) : completes (mret a) a.
Proof. intros w Hw. by exists w. Qed.

Lemma completes_bind {A B} (m : M world A) (f : A → M world B) a b :
  completes m a → completes (f a) b → completes (m ≫= f) b.
Proof.
  intros Hm Hf w Hw. destruct (Hm w Hw) as (w1 & E1 & H1). destruct (Hf w1 H1) as (w2 & E2 & H2).
  exists w2. unfold mbind, M_bind. by rewrite E1.
Qed.

Lemma completes_wrapM {A} p (m : M world A) a : completes m a → completes (wrapM p m) a.
Proof. intros Hm w Hw. destruct (Hm w Hw) as (w' & E & H'). exists w'. unfold wrapM. by rewrite E. Qed.

Lemma completes_metrics f : completes (on_metrics f) tt.
Proof. intros w Hw. by eexists. Qed.

Lemma completes_log e : completes (log_event e) tt.
Proof. intros w Hw. by eexists. Qed.

Lemma on_store_runs {A} (m : M store A) w a t' :
  clean w → runs m (wjobs w) a t' →
  on_store m w = (Ok a, mkWorld (mkStore t' true []) (wmetrics w) (lastHeartbeat w) (trace w)).
Proof. intros [Hs Hf] Hr. unfold on_store. by rewrite (Hr (wstore w)). Qed.

Lemma completes_mark f js :
  (∀ r, r_status (f r) ≠ StatusProcessing) → completes (on_store (mark f js)) tt.
Proof.
  intros Hf w Hw. eexists. split; [by apply on_store_runs, runs_mark|]. by split.
Qed.

Create HintDb completes.
#[export] Hint Resolve completes_ret completes_bind completes_wrapM completes_metrics
  completes_log completes_mark : completes.

Lemma completes_processBatch cfg rd fma draw send js :
  completes (processBatch cfg rd fma draw send js) tt.
Proof.
  unfold processBatch. case_decide; [apply completes_ret|].
  eapply completes_bind; [apply completes_log|]. destruct (send _) as [result [e|]];
    do 2 (eapply completes_bind; [apply completes_metrics|]).
  - rewrite classifyFailure_retryable. destruct (retryable _); cbn.
    + unfold process_retry. eapply (completes_bind _ _ tt).
      * destruct (retry_jobs cfg js); [apply completes_ret|].
        eapply completes_bind; [by apply completes_wrapM, completes_mark|apply completes_metrics].
      * destruct (dlq_jobs cfg js); [apply completes_ret|].
        eapply completes_bind; [by apply completes_wrapM, completes_mark|apply completes_metrics].
    + eapply completes_bind; [by apply completes_wrapM, completes_mark|apply completes_metrics].
  - eapply completes_bind; [apply completes_metrics|by apply completes_mark].
Qed.

(** ** The chain of store operations *)

Section chain.
Context {UC : UnicodeCase} {JC : JSONCodec} {SE : SqlEngine} {TD : TimeDriver}.

(** [m] takes the table through store operations only. *)
Definition operates {A} (m : M world A) : Prop :=
  ∀ w, rtc queue_step (wjobs w) (wjobs (m w).2).

Lemma operates_ret {A} (a : A) : operates (mret a).
Proof. intros w. apply rtc_refl. Qed.
Lemma operates_metrics f : operates (on_metrics f).
Proof. intros w. apply rtc_refl. Qed.
Lemma operates_log e : operates (log_event e).
Proof. intros w. apply rtc_refl. Qed.
Lemma operates_heartbeat u : operates (store_heartbeat u).
Proof. intros w. apply rtc_refl. Qed.

Lemma operates_bind {A B} (m : M world A) (f : A → M world B) :
  operates m → (∀ a, operates (f a)) → operates (m ≫= f).
Proof.
  intros Hm Hf w. specialize (Hm w). unfold mbind, M_bind.
  destruct (m w) as [[a|e] w']; [|done]. etransitivity; [exact Hm|apply Hf].
Qed.

Lemma operates_wrapM {A} p (m : M world A) : operates m → operates (wrapM p m).
Proof. intros Hm w. specialize (Hm w). unfold wrapM. by destruct (m w). Qed.

Lemma operates_try {A} (m : M world A) : operates m → operates (try m).
Proof. intros Hm w. specialize (Hm w). unfold try. by destruct (m w). Qed.

Lemma operates_store {A} (m : M store A) o :
  (∀ s, jobs (run_op o s).2 = jobs (m s).2) → operates (on_store m).
Proof.
  intros Ho w. apply rtc_once. exists o, (schema (wstore w)), (faults (wstore w)).
  unfold wjobs, on_store. destruct (wstore w) as [t sc fs]. cbn. rewrite Ho.
  by destruct (m _).
Qed.

Lemma jobs_bind_ret {A} (m : M store A) s : jobs ((m;; mret tt) s).2 = jobs (m s).2.
Proof. unfold mbind, M_bind. by destruct (m s) as [[a|e] s']. Qed.

Lemma operates_read {A} (m : M store A) :
  preserves eq m → operates (on_store m).
Proof.
  intros Hm w. specialize (Hm _ (wstore w) eq_refl). unfold wjobs, on_store in *.
  destruct (m (wstore w)) as [r s']. cbn in *. rewrite Hm. apply rtc_refl.
Qed.

Lemma operates_process_batch cfg rd fma draw send js :
  operates (processBatch cfg rd fma draw send js).
Proof.
  assert (Hsent : ∀ now l b, operates (on_store (MarkSent now l b))).
  { intros. by apply (operates_store _ (OpSent now l b)). }
  assert (Hretry : ∀ now l n msg st, operates (on_store (MarkRetry now l n msg st))).
  { intros. by apply (operates_store _ (OpRetry now l n msg st)). }
  assert (Hdlq : ∀ now l msg st, operates (on_store (MarkDLQ now l msg st))).
  { intros. by apply (operates_store _ (OpDLQ now l msg st)). }
  unfold processBatch, process_retry.
  repeat first [ case_decide | case_match | apply operates_ret | apply operates_metrics
               | apply operates_log | apply operates_wrapM | apply Hsent | apply Hretry
               | apply Hdlq | apply operates_bind; [|intros ?] ].
Qed.

Lemma operates_worker_step cfg wid it : operates (worker_step cfg wid it).
Proof.
  assert (Hclaim : ∀ c n l mc mb, operates (on_store (ClaimDispatchBatch wid c n l mc mb))).
  { intros. apply (operates_store _ (OpClaimDispatch wid c n l mc mb)). apply jobs_bind_ret. }
  unfold worker_step.
  repeat first [ case_match | apply operates_ret | apply operates_metrics | apply operates_log
               | apply operates_heartbeat | apply operates_try | apply operates_process_batch
               | apply Hclaim | apply operates_bind; [|intros ?] ].
Qed.

Lemma operates_worker cfg wid its : operates (workerLoop cfg wid its).
Proof.
  induction its as [|it its IH]; cbn; [apply operates_ret|].
  apply operates_bind; [apply operates_worker_step|]. intros []; [done|apply operates_ret].
Qed.

Lemma operates_ticks {A} (tick : A → M world unit) l :
  (∀ a, operates (tick a)) → operates (run_ticks tick l).
Proof.
  intros Ht. induction l as [|a l IH]; cbn; [apply operates_ret|].
  by apply operates_bind; [|intros _].
Qed.

Lemma operates_requeue_tick cfg now : operates (requeue_tick cfg now).
Proof.
  unfold requeue_tick. apply operates_bind.
  - apply operates_try, (operates_store _ (OpRequeueStale now (QueueLeaseTimeout cfg))).
    apply jobs_bind_ret.
  - intros [n|e]; [|apply operates_ret]. case_match; [apply operates_metrics|apply operates_ret].
Qed.

Lemma operates_depth_tick u : operates (depth_tick u).
Proof.
  unfold depth_tick. apply operates_bind; [|intros [c|e]; [apply operates_metrics|apply operates_ret]].
  apply operates_try, operates_read. unfold CountByStatus.
  apply preserves_bind; [apply _|apply preserves_query; apply _|].
  intros groups. apply preserves_scan_counts. apply _.
Qed.

(** Whatever the loops meet, they are store operations: what [System] says of
    any operations after an acceptance, and [Serve] of its [h_life] and [h_drain],
    covers them. *)
Lemma dispatcher_operates cfg wid its nows ticks :
  operates (workerLoop cfg wid its)
  ∧ operates (run_ticks (requeue_tick cfg) nows) ∧ operates (run_ticks depth_tick ticks).
Proof.
  split_and!; [apply operates_worker|apply operates_ticks, operates_requeue_tick|].
  apply operates_ticks, operates_depth_tick.
Qed.
End chain.

(** ** The rows of a failed batch *)

Lemma lookup_marked_in f js t j r :
  j ∈ js → t !! ID j = Some r →
  marked f js t !! ID j = Some (if bool_decide (r_status r = StatusProcessing) then f r else r).
Proof.
  intros Hj Hr. rewrite (lookup_marked _ _ _ _ _ Hr).
  rewrite bool_decide_eq_true_2; [done|]. apply elem_of_ids. by exists j.
Qed.

Lemma retry_ids cfg js j :
  NoDup (ID <$> js) → j ∈ js → exhausted cfg j = true → ID j ∉ ID <$> retry_jobs cfg js.
Proof.
  intros Hnd Hj He (k & [Hk Hke]%elem_of_retry_jobs & Heq)%elem_of_ids.
  rewrite (NoDup_ids_inj js j k) in He by done. congruence.
Qed.

Lemma dlq_ids cfg js j :
  NoDup (ID <$> js) → j ∈ js → exhausted cfg j = false → ID j ∉ ID <$> dlq_jobs cfg js.
Proof.
  intros Hnd Hj He (k & [Hk Hke]%elem_of_dlq_jobs & Heq)%elem_of_ids.
  rewrite (NoDup_ids_inj js j k) in He by done. congruence.
Qed.

(** The two halves of a retryable failure touch each job once. *)
Lemma lookup_split_marks cfg js f g t j r :
  NoDup (ID <$> js) → j ∈ js → t !! ID j = Some r →
  let tr := marked f (retry_jobs cfg js) t in
  let p := bool_decide (r_status r = StatusProcessing) in
  tr !! ID j = Some (if negb (exhausted cfg j) && p then f r else r)
  ∧ marked g (dlq_jobs cfg js) tr !! ID j
    = Some (if p then (if exhausted cfg j then g r else f r) else r).
Proof.
  intros Hnd Hj Hr. cbn zeta. destruct (exhausted cfg j) eqn:He; cbn [negb andb].
  - pose proof (lookup_marked_other f _ t _ (retry_ids cfg js j Hnd Hj He)) as Ho.
    split; [by rewrite Ho|]. apply lookup_marked_in; [by apply elem_of_dlq_jobs|by rewrite Ho].
  - rewrite (lookup_marked_other g) by (by apply dlq_ids).
    rewrite (lookup_marked_in f _ _ _ r); [done|by apply elem_of_retry_jobs|done].
Qed.

Lemma lookup_split_other cfg js f g t id :
  id ∉ ID <$> js →
  let tr := marked f (retry_jobs cfg js) t in
  tr !! id = t !! id ∧ marked g (dlq_jobs cfg js) tr !! id = t !! id.
Proof.
  intros Hid. assert (∀ p, id ∉ ID <$> List.filter p js) as Hp.
  { intros p Hin. apply Hid. apply elem_of_ids in Hin as (j & [Hj _]%elem_of_filter_b & ->).
    apply elem_of_ids. by exists j. }
  cbn zeta. rewrite (lookup_marked_other g), (lookup_marked_other f) by apply Hp. done.
Qed.
