(* ===== verification/Workers.v ===== *)
(** * The workers of a relay, interleaved: [Dispatcher.Start] runs [Workers]
    goroutines of [workerLoop] beside the lease recovery, over one database.

    An iteration is atomic in [Dispatch]; here it is cut where the code leaves
    the process: the claim, the API call, each marking transaction. Between
    two steps of a worker any other worker, a tick of the recovery, an
    accepted message, an operator's command or a restart may come. Workers may
    belong to several processes: each claim names its own worker ID. *)

From stdpp Require Import functions.
From S2P Require Import Prelude GoStrings Message SqlTime Queue StoreLogic TableFacts QueueSpec QueueClaim QueueMark Metrics Sender Backoff Dispatch DispatchLogic.

(** ** What a batch does to the store once the API has answered *)

(** The marking calls of a batch, in order: a specification of [processBatch],
    not a second model of it. [WorkersProps.sim_process_batch] proves that
    [processBatch] does to the store what these calls do. *)
Definition batch_marks (cfg : Config) (rd : readings) (fma : bool) (draw : Z)
    (answer : SendResult * option send_error) (js : list Job) : list op :=
  let '(result, err) := answer in
  let st := batch_status result err in
  match err with
  | None => [OpSent (t_mark rd) js (Sender.BulkEmailID result)]
  | Some _ =>
      if (classifyFailure st err =? "retry")%string then
        match retry_jobs cfg js with
        | [] => []
        | j0 :: _ => [OpRetry (t_mark rd) (retry_jobs cfg js) (next_attempt fma draw rd j0)
                        (safeErr err) st]
        end ++
        match dlq_jobs cfg js with
        | [] => []
        | _ => [OpDLQ (t_mark_dlq rd) (dlq_jobs cfg js) (safeErr err) st]
        end
      else [OpDLQ (t_mark_dlq rd) js (safeErr err) st]
  end.

(** The jobs an operation is given. *)
Definition op_jobs (o : op) : list Job :=
  match o with
  | OpSent _ js _ | OpRetry _ js _ _ _ | OpDLQ _ js _ _ => js
  | _ => []
  end.

(** ** The system *)

Inductive phase :=
| Idle
| Holding (since : Z) (js : list Job)       (* claimed at [since], the API not yet called *)
| Marking (since : Z) (marks : list op).    (* the API has answered, these calls remain *)

Record cluster := mkCluster {
  c_jobs : table;
  c_phase : nat → phase;
  c_accepted : list string                  (* the jobs of the calls that succeeded *)
}.

Definition phase_since (p : phase) : option Z :=
  match p with Idle => None | Holding t _ | Marking t _ => Some t end.

(** The jobs a worker has claimed and not yet marked. *)
Definition pending (p : phase) : list string :=
  match p with
  | Idle => []
  | Holding _ js => ID <$> js
  | Marking _ marks => concat ((λ o, ID <$> op_jobs o) <$> marks)
  end.

Inductive label :=
| LClaim (w : nat) (now : Z)
| LSend (w : nat) (accepted : bool)
| LMark (w : nat)
| LMarkFailed (w : nat)
| LFinish (w : nat)
| LRequeue (now : Z)
| LOutside (o : op)
| LRestart.

(** [m] may end on the table [t] with the result [r] and the table [t']. *)
Definition outcome {A} (m : M store A) (t : table) (r : result error A) (t' : table) : Prop :=
  ∃ s, jobs s = t ∧ (m s).1 = r ∧ jobs (m s).2 = t'.

(** The operations that come from the front end and the command line. *)
Definition outside (o : op) : bool :=
  match o with
  | OpEnqueue _ _ _ _ | OpRequeueDLQ _ _ | OpRetryNow _ => true
  | _ => false
  end.

Section system.
Context `{UnicodeCase, JSONCodec, SqlEngine, TimeDriver}.

Definition worker_claim (cfg : Config) (workerID : string) (clock now : Z) : M store (list Job) :=
  ClaimDispatchBatch workerID clock now (QueueClaimLimit cfg) (BatchMaxCount cfg)
    (BatchMaxBytes cfg).

(** One atomic step of the system. *)
Inductive cstep (cfg : Config) : cluster → label → cluster → Prop :=
| step_claim t ph acc w workerID clock now js t' :
    ph w = Idle → outcome (worker_claim cfg workerID clock now) t (Ok js) t' → js ≠ [] →
    cstep cfg (mkCluster t ph acc) (LClaim w now)
      (mkCluster t' (<[w := Holding now js]> ph) acc)
| step_claim_none t ph acc w workerID clock now r t' :
    ph w = Idle → outcome (worker_claim cfg workerID clock now) t r t' →
    (∀ js, r = Ok js → js = []) →
    cstep cfg (mkCluster t ph acc) (LClaim w now) (mkCluster t' ph acc)
| step_send t ph acc w since js rd fma draw answer :
    ph w = Holding since js →
    cstep cfg (mkCluster t ph acc) (LSend w (negb (bool_decide (is_Some answer.2))))
      (mkCluster t (<[w := Marking since (batch_marks cfg rd fma draw answer js)]> ph)
         (match answer.2 with None => (ID <$> js) ++ acc | Some _ => acc end))
| step_mark t ph acc w since o marks t' :
    ph w = Marking since (o :: marks) → outcome (run_op o) t (Ok tt) t' →
    cstep cfg (mkCluster t ph acc) (LMark w)
      (mkCluster t' (<[w := Marking since marks]> ph) acc)
| step_mark_failed t ph acc w since o marks e t' :
    ph w = Marking since (o :: marks) → outcome (run_op o) t (Err e) t' →
    cstep cfg (mkCluster t ph acc) (LMarkFailed w)
      (mkCluster t' (<[w := Idle]> ph) acc)
| step_finish t ph acc w since :
    ph w = Marking since [] →
    cstep cfg (mkCluster t ph acc) (LFinish w) (mkCluster t (<[w := Idle]> ph) acc)
| step_requeue t ph acc now r t' :
    outcome (RequeueStaleProcessing now (QueueLeaseTimeout cfg)) t r t' →
    cstep cfg (mkCluster t ph acc) (LRequeue now) (mkCluster t' ph acc)
| step_outside t ph acc o r t' :
    outside o = true → outcome (run_op o) t r t' →
    cstep cfg (mkCluster t ph acc) (LOutside o) (mkCluster t' ph acc)
| step_restart t ph acc :
    cstep cfg (mkCluster t ph acc) LRestart (mkCluster t (λ _, Idle) acc).

(** Steps whose label meets a condition on the state they start from. *)
Definition csteps (cfg : Config) (P : cluster → label → Prop)
    : cluster → cluster → Prop :=
  rtc (λ c c', ∃ l, P c l ∧ cstep cfg c l c').
End system.

(** ** Conditions on an execution *)

(** No lease expires while its batch is in flight. *)
Definition punctual (cfg : Config) (c : cluster) (l : label) : Prop :=
  match l with
  | LRequeue now => ∀ w since, phase_since (c_phase c w) = Some since →
                      now + wrap64 (- QueueLeaseTimeout cfg) ≤ since
  | _ => True
  end.

Definition sent_pending (p : phase) : bool :=
  match p with Marking _ (OpSent _ _ _ :: _) => true | _ => false end.

(** No acceptance of the API is lost before it is recorded. *)
Definition recorded (c : cluster) (l : label) : Prop :=
  match l with
  | LMarkFailed w => sent_pending (c_phase c w) = false
  | LRestart => ∀ w, sent_pending (c_phase c w) = false
  | _ => True
  end.

Definition smooth (cfg : Config) (c : cluster) (l : label) : Prop :=
  punctual cfg c l ∧ recorded c l.

(** The system at startup. *)
Definition started (c : cluster) : Prop :=
  (∀ w, c_phase c w = Idle) ∧ c_accepted c = [].

(** ** Invariants *)

(** A row is leased since [since]. *)
Definition leased (t : table) (since : Z) (id : string) : Prop :=
  ∃ r, t !! id = Some r ∧ r_status r = StatusProcessing ∧ r_started r = Some since.

Definition is_mark (o : op) : bool :=
  match o with OpSent _ _ _ | OpRetry _ _ _ _ _ | OpDLQ _ _ _ _ => true | _ => false end.

Definition phase_marks (p : phase) : list op :=
  match p with Marking _ marks => marks | _ => [] end.

(** Each worker's pending jobs are leased to it alone. *)
Record exclusive (c : cluster) : Prop := {
  ex_leased : ∀ w since id, phase_since (c_phase c w) = Some since →
    id ∈ pending (c_phase c w) → leased (c_jobs c) since id;
  ex_nodup : ∀ w, NoDup (pending (c_phase c w));
  ex_disjoint : ∀ w w' id,
    id ∈ pending (c_phase c w) → id ∈ pending (c_phase c w') → w = w';
  ex_marks : ∀ w, Forall is_mark (phase_marks (c_phase c w))
}.

Definition is_sent (t : table) (id : string) : Prop :=
  ∃ r, t !! id = Some r ∧ r_status r = StatusSent.

(** A worker is about to record the acceptance of [id]. *)
Definition recording (p : phase) (id : string) : Prop :=
  ∃ since now js bulk, p = Marking since [OpSent now js bulk] ∧ id ∈ ID <$> js.

(** Every accepted job is recorded or about to be, and was accepted once. *)
Record accounted (c : cluster) : Prop := {
  ac_nodup : NoDup (c_accepted c);
  ac_known : ∀ id, id ∈ c_accepted c →
    is_sent (c_jobs c) id ∨ ∃ w, recording (c_phase c w) id
}.

(** ** Steps of the store *)

(** Whatever keeps the columns of a lease keeps the lease. *)
Definition keeps_leases (keep : string → Z → Prop) (t t' : table) : Prop :=
  ∀ id since, keep id since → leased t since id → leased t' since id.

Section store_steps.
Context `{UnicodeCase, JSONCodec, SqlEngine, TimeDriver, !SqlEngineLaws}.

Lemma outcome_ensures {A} (m : M store A) Q t r t' :
  outcome m t r t' → ensures m Q t → Q r t'.
Proof. intros (s & Hs & <- & <-) He. by apply He. Qed.

Lemma outcome_leases {A} (m : M store A) keep t r t' :
  outcome m t r t' → ensures m (λ _ t1, keeps_leases keep t t1) t → keeps_leases keep t t'.
Proof. intros Ho He. exact (outcome_ensures _ _ _ _ _ Ho He). Qed.

Lemma outcome_op_step o t r t' : outcome (run_op o) t r t' → op_step o t t'.
Proof. intros ([t0 sc fs] & <- & _ & <-). by exists sc, fs. Qed.

Lemma keeps_leases_update keep P f t :
  (∀ id r since, keep id since → r_status r = StatusProcessing → r_started r = Some since →
     P id r = false) →
  keeps_leases keep t (update_where P f t).
Proof.
  intros HP id since Hk (r & Hr & Hst & Hsi). exists r. split_and!; [|done|done].
  rewrite lookup_update_where, Hr. cbn. by rewrite (HP id r since).
Qed.

Lemma claimable_not_processing now r : r_status r = StatusProcessing → claimable now r = false.
Proof. intros E. unfold claimable. by rewrite E. Qed.

Lemma claim_keeps_leases keep w now ids t : keeps_leases keep t (claim_update w now ids t).
Proof.
  apply keeps_leases_update. intros id r since _ E _. by rewrite claimable_not_processing.
Qed.

Lemma worker_claim_leases cfg workerID clock now t r t' :
  outcome (worker_claim cfg workerID clock now) t r t' →
  keeps_leases (λ _ _, True) t t'.
Proof.
  intros Ho. apply (outcome_leases _ _ _ _ _ Ho).
  eapply ensures_mono; [apply ensures_claimJobs|]. intros [js|e] t1.
  - intros (sel & _ & -> & _). apply claim_keeps_leases.
  - intros -> id since _ Hl. exact Hl.
Qed.

(** A claim leases the jobs it returns, which nobody held and none of which was sent. *)
Lemma worker_claim_fresh cfg workerID clock now t js t' :
  outcome (worker_claim cfg workerID clock now) t (Ok js) t' →
  NoDup (ID <$> js)
  ∧ ∀ id, id ∈ ID <$> js →
      leased t' now id ∧ (∀ since, ¬ leased t since id) ∧ ¬ is_sent t id.
Proof.
  intros Ho. pose proof (outcome_ensures _ _ _ _ _ Ho (ensures_claimJobs _ _ _ _ _ _))
    as (sel & Hp & -> & Hnd & Hjs). split; [done|].
  intros id (j & Hj & ->)%elem_of_ids. destruct (Hjs j Hj) as (r & m & Hin & _ & _).
  destruct (elem_of_selection _ _ _ _ _ _ Hp Hin) as [Hr Hc]. cbn in *. split_and!.
  - exists (claim_row workerID now r). split_and!; [|done|done].
    unfold claim_update. rewrite lookup_update_where, Hr. cbn.
    rewrite Hc, bool_decide_eq_true_2; [done|]. apply list_elem_of_fmap. by exists (ID j, r).
  - intros since (r' & Hr' & E & _). simplify_eq. by rewrite claimable_not_processing in Hc.
  - intros (r' & Hr' & E). simplify_eq. apply claimable_status in Hc. destruct Hc; congruence.
Qed.

Lemma marked_keeps_leases f js t :
  keeps_leases (λ id _, id ∉ ID <$> js) t (marked f js t).
Proof.
  apply keeps_leases_update. intros id r since Hid _ _. by rewrite bool_decide_eq_false_2.
Qed.

(** A marking call touches its own jobs only. *)
Lemma mark_keeps_leases o t r t' :
  is_mark o = true → outcome (run_op o) t r t' →
  keeps_leases (λ id _, id ∉ ID <$> op_jobs o) t t'.
Proof.
  intros Hm Ho. apply (outcome_leases _ _ _ _ _ Ho).
  destruct o; try done; cbn; (eapply ensures_mono; [by apply ensures_mark|]);
    intros [[]|e] t1 ->; try apply marked_keeps_leases; intros ? ? _ Hl; exact Hl.
Qed.

(** A successful [MarkSent] makes its leased jobs sent. *)
Lemma mark_sent_records now js bulk t t' since id :
  outcome (run_op (OpSent now js bulk)) t (Ok tt) t' → id ∈ ID <$> js →
  leased t since id → is_sent t' id.
Proof.
  intros Ho Hid (r & Hr & Hst & _).
  pose proof (outcome_ensures _ _ _ _ _ Ho
    (ensures_mark (sent_row bulk now) js ltac:(done) t)) as ->.
  exists (sent_row bulk now r). split; [|done].
  rewrite (lookup_marked _ _ _ _ _ Hr), !bool_decide_eq_true_2; done.
Qed.

Lemma requeue_keeps_leases now lease t r t' :
  outcome (RequeueStaleProcessing now lease) t r t' →
  keeps_leases (λ _ since, now + wrap64 (- lease) ≤ since) t t'.
Proof.
  intros Ho. apply (outcome_leases _ _ _ _ _ Ho).
  eapply ensures_mono; [apply ensures_update_counted|].
  intros [n|e] t1; [intros [_ ->]|by intros -> ? ? _ ?].
  apply keeps_leases_update. intros id r' since Hle Hst Hsi. unfold stale.
  rewrite Hsi, (proj2 (Z.ltb_ge since _)) by lia. apply andb_false_r.
Qed.

Lemma outside_keeps_leases o t r t' :
  outside o = true → outcome (run_op o) t r t' → keeps_leases (λ _ _, True) t t'.
Proof.
  intros Ho Hout. destruct (op_step_cases _ _ _ (outcome_op_step _ _ _ _ Hout))
    as [(_ & new & Hd & -> & _)|(He & _)].
  { intros id since _ (r' & Hr & ?). exists r'. split; [|done]. by apply lookup_union_Some_r. }
  apply (outcome_leases _ _ _ _ _ Hout). destruct o; try done; cbn.
  - apply ensures_bind. unfold RequeueDLQIDs. case_decide.
    { apply ensures_ret, ensures_ret. by intros ? ? _ ?. }
    eapply ensures_mono; [apply ensures_update_counted|].
    intros [n|e] t1; [intros [_ ->]; apply ensures_ret|by intros -> ? ? _ ?].
    apply keeps_leases_update. intros id r' since _ Hst _. unfold in_dlq. by rewrite Hst.
  - apply ensures_bind. eapply ensures_mono; [apply ensures_update_counted|].
    intros [n|e] t1; [intros [_ ->]; apply ensures_ret|by intros -> ? ? _ ?].
    apply keeps_leases_update. intros id r' since _ Hst _. by rewrite Hst.
Qed.

(** A sent job stays sent. *)
Lemma grows_sent t t' id : grows t t' → is_sent t id → is_sent t' id.
Proof.
  intros Hg (r & Hr & Hst). destruct (Hg id r Hr) as (r' & Hr' & _&_&_&_&_& Hs).
  exists r'. split; [done|by apply Hs].
Qed.
End store_steps.

(** ** The marks of a batch *)

Lemma split_jobs cfg js : retry_jobs cfg js ++ dlq_jobs cfg js ≡ₚ js.
Proof.
  unfold retry_jobs, dlq_jobs. induction js as [|j js IH]; cbn; [done|].
  destruct (exhausted cfg j); cbn; [|by constructor].
  by rewrite <- Permutation_middle, IH.
Qed.

(** Together the marking calls are given the jobs of the batch, each once. *)
Lemma batch_marks_ids cfg rd fma draw answer since js :
  pending (Marking since (batch_marks cfg rd fma draw answer js)) ≡ₚ ID <$> js.
Proof.
  destruct answer as [result [e|]]; cbn; [|by rewrite app_nil_r].
  destruct (_ =? _)%string; cbn; [|by rewrite app_nil_r].
  transitivity (ID <$> retry_jobs cfg js ++ dlq_jobs cfg js); [|by rewrite split_jobs].
  destruct (retry_jobs cfg js), (dlq_jobs cfg js); cbn; by rewrite ?app_nil_r, ?fmap_app.
Qed.

Lemma batch_marks_are_marks cfg rd fma draw answer js :
  Forall is_mark (batch_marks cfg rd fma draw answer js).
Proof.
  destruct answer as [result [e|]]; cbn; [|by repeat constructor].
  destruct (_ =? _)%string; cbn; [|by repeat constructor].
  destruct (retry_jobs cfg js), (dlq_jobs cfg js); by repeat constructor.
Qed.

(** ** The leases are exclusive *)

Lemma exclusive_table keep t t' ph acc acc' :
  exclusive (mkCluster t ph acc) → keeps_leases keep t t' →
  (∀ w since id, phase_since (ph w) = Some since → keep id since) →
  exclusive (mkCluster t' ph acc').
Proof.
  intros [Hl Hn Hd Hm] Hk Hkeep. constructor; try done. cbn in *. intros w since id Hs Hin.
  apply Hk; [by eapply Hkeep|by eapply Hl].
Qed.

(** A worker moves to the phase [p]; the others keep what they hold. *)
Lemma exclusive_move keep t t' ph acc acc' w p :
  exclusive (mkCluster t ph acc) → keeps_leases keep t t' →
  (∀ w' since id, w' ≠ w → id ∈ pending (ph w') → keep id since) →
  (∀ since id, phase_since p = Some since → id ∈ pending p → leased t' since id) →
  NoDup (pending p) →
  (∀ w' id, w' ≠ w → id ∈ pending p → id ∉ pending (ph w')) →
  Forall is_mark (phase_marks p) →
  exclusive (mkCluster t' (<[w := p]> ph) acc').
Proof.
  intros [Hl Hn Hd Hm] Hk Hkeep Hpl Hpn Hpd Hpm. cbn in *. constructor; cbn.
  - intros w' since id. destruct (decide (w = w')) as [<-|Hw].
    + rewrite fn_lookup_insert. apply Hpl.
    + rewrite fn_lookup_insert_ne by done. intros Hs Hin.
      apply Hk; [by eapply (Hkeep w')|by eapply Hl].
  - intros w'. destruct (decide (w = w')) as [<-|Hw];
      [by rewrite fn_lookup_insert|by rewrite fn_lookup_insert_ne].
  - intros w1 w2 id. destruct (decide (w = w1)) as [<-|H1], (decide (w = w2)) as [<-|H2];
      rewrite ?fn_lookup_insert, ?fn_lookup_insert_ne by done; [done| | |by apply Hd].
    + intros Hin Hin'. exfalso. by eapply (Hpd w2).
    + intros Hin Hin'. exfalso. by eapply (Hpd w1).
  - intros w'. destruct (decide (w = w')) as [<-|Hw];
      [by rewrite fn_lookup_insert|by rewrite fn_lookup_insert_ne].
Qed.

(** ** Acceptances are accounted for *)

Definition accepted_known (t : table) (ph : nat → phase) (acc : list string) : Prop :=
  ∀ id, id ∈ acc → is_sent t id ∨ ∃ w, recording (ph w) id.

(** A worker that was not recording moves; no acceptance is forgotten. *)
Lemma known_move t t' ph acc w p :
  accepted_known t ph acc → grows t t' → sent_pending (ph w) = false →
  accepted_known t' (<[w := p]> ph) acc.
Proof.
  intros Hk Hg Hw id Hid. destruct (Hk id Hid) as [Hs|(w' & Hr)];
    [left; by eapply grows_sent|right].
  exists w'. rewrite fn_lookup_insert_ne; [done|]. intros ->.
  destruct Hr as (since & now & js & bulk & Hp & _). by rewrite Hp in Hw.
Qed.

Lemma known_table t t' ph acc :
  accepted_known t ph acc → grows t t' → accepted_known t' ph acc.
Proof.
  intros Hk Hg id Hid. destruct (Hk id Hid) as [Hs|Hr]; [left; by eapply grows_sent|by right].
Qed.

Section invariants.
Context `{UnicodeCase, JSONCodec, SqlEngine, TimeDriver, !SqlEngineLaws}.
Variable cfg : Config.

Lemma exclusive_mark_step t ph acc acc' w since o marks r t' marks' :
  exclusive (mkCluster t ph acc) → ph w = Marking since (o :: marks) →
  outcome (run_op o) t r t' → (marks' = Marking since marks ∨ marks' = Idle) →
  exclusive (mkCluster t' (<[w := marks']> ph) acc').
Proof.
  intros Hex Hw Ho Hm'. pose proof Hex as [Hl Hn Hd Hm]. cbn in *.
  specialize (Hl w). specialize (Hn w). specialize (Hm w). rewrite Hw in Hl, Hn, Hm. cbn in *.
  apply Forall_cons in Hm as [Hmo Hm]. apply NoDup_app in Hn as (Hn1 & Hn2 & Hn3).
  assert (Hsub : ∀ id, id ∈ pending marks' → id ∈ pending (Marking since marks)).
  { destruct Hm' as [->| ->]; [done|]. by intros id ?%elem_of_nil. }
  eapply exclusive_move; [exact Hex|eapply mark_keeps_leases; [|exact Ho]| | | | |].
  - by destruct (is_mark o).
  - cbn. intros w' _ id Hne Hin Hin'. apply Hne. apply (Hd w' w id Hin). rewrite Hw. cbn.
    apply elem_of_app. by left.
  - intros since' id Hs Hin. assert (since' = since) as -> by (destruct Hm' as [->| ->]; by simplify_eq/=).
    apply Hsub in Hin. cbn in Hin.
    eapply mark_keeps_leases; [|exact Ho| |]; [by destruct (is_mark o)| |].
    + cbn. intros Hin'. by eapply Hn2.
    + apply Hl; [done|]. apply elem_of_app. by right.
  - destruct Hm' as [->| ->]; [done|constructor].
  - intros w' id Hne Hin%Hsub Hin'. cbn in Hin. apply Hne, (Hd w' w id Hin'). rewrite Hw. cbn.
    apply elem_of_app. by right.
  - destruct Hm' as [->| ->]; [done|constructor].
Qed.

Lemma exclusive_step c l c' :
  punctual cfg c l → cstep cfg c l c' → exclusive c → exclusive c'.
Proof.
  intros Hp Hs. destruct Hs as
    [t ph acc w wid clock now js t' Hw Ho Hjs|t ph acc w wid clock now r t' Hw Ho Hr
    |t ph acc w since js rd fma draw answer Hw|t ph acc w since o marks t' Hw Ho
    |t ph acc w since o marks e t' Hw Ho|t ph acc w since Hw|t ph acc now r t' Ho
    |t ph acc o r t' Hout Ho|t ph acc]; intros Hex.
  - pose proof Hex as [Hl Hn Hd Hm]. cbn in *. destruct (worker_claim_fresh _ _ _ _ _ _ _ Ho) as [Hnd Hf].
    eapply exclusive_move; [exact Hex|by eapply worker_claim_leases|done| |done| |constructor].
    + intros since id [= <-] Hin. by apply Hf.
    + cbn. intros w' id _ Hin Hin'. destruct (Hf id Hin) as (_ & Hfree & _).
      destruct (phase_since (ph w')) as [since|] eqn:Es; [by eapply Hfree, (Hl w')|].
      destruct (ph w'); try done. by apply elem_of_nil in Hin'.
  - eapply exclusive_table; [exact Hex|by eapply worker_claim_leases|done].
  - pose proof Hex as [Hl Hn Hd Hm]. cbn in *.
    eapply (exclusive_move (λ _ _, True)); [exact Hex|by intros ? ? _ ?|done| | | |apply batch_marks_are_marks].
    + intros since' id [= <-]. rewrite batch_marks_ids. intros Hin. apply (Hl w); by rewrite Hw.
    + rewrite batch_marks_ids. specialize (Hn w). by rewrite Hw in Hn.
    + intros w' id Hne. rewrite batch_marks_ids. intros Hin Hin'.
      apply Hne, (Hd w' w id Hin'). by rewrite Hw.
  - eapply exclusive_mark_step; [exact Hex|exact Hw|exact Ho|by left].
  - eapply exclusive_mark_step; [exact Hex|exact Hw|exact Ho|by right].
  - eapply (exclusive_move (λ _ _, True)); [exact Hex|by intros ? ? _ ?|done|done|constructor| |constructor].
    by intros w' id _ ?%elem_of_nil.
  - eapply exclusive_table; [exact Hex|by eapply requeue_keeps_leases|].
    intros w since id Hs. by apply (Hp w).
  - eapply exclusive_table; [exact Hex|by eapply outside_keeps_leases|done].
  - constructor; cbn; [done|constructor| |constructor]. by intros w w' id ?%elem_of_nil.
Qed.

Lemma outcome_run_op {A} (m : M store A) o t r t' :
  (∀ s, jobs (run_op o s).2 = jobs (m s).2) → outcome m t r t' → op_step o t t'.
Proof. intros Ho ([t0 sc fs] & <- & _ & <-). exists sc, fs. by rewrite Ho. Qed.

Lemma claim_grows wid clock now t r t' :
  outcome (worker_claim cfg wid clock now) t r t' → grows t t'.
Proof.
  intros Ho. eapply (op_step_grows (OpClaimDispatch wid clock now _ _ _)), outcome_run_op, Ho.
  apply jobs_bind_ret.
Qed.

Lemma requeue_grows now lease t r t' :
  outcome (RequeueStaleProcessing now lease) t r t' → grows t t'.
Proof.
  intros Ho. eapply (op_step_grows (OpRequeueStale now lease)), outcome_run_op, Ho.
  apply jobs_bind_ret.
Qed.

Lemma run_op_grows o t r t' : outcome (run_op o) t r t' → grows t t'.
Proof. intros Ho. by eapply op_step_grows, outcome_op_step. Qed.

Lemma recording_pending p id : recording p id → id ∈ pending p ∧ is_Some (phase_since p).
Proof. intros (since & now & js & bulk & -> & Hid). cbn. rewrite app_nil_r. by split. Qed.

(** What a worker holds has not been accepted while it is unsent and unrecorded. *)
Lemma holding_unaccepted t ph acc w since js id :
  exclusive (mkCluster t ph acc) → accepted_known t ph acc → ph w = Holding since js →
  id ∈ ID <$> js → id ∉ acc.
Proof.
  intros [Hl _ Hd _] Hk Hw Hid Hacc. cbn in *.
  assert (Hin : id ∈ pending (ph w)) by by rewrite Hw.
  destruct (Hl w since id ltac:(by rewrite Hw) Hin) as (r & Hr & Hst & _).
  destruct (Hk id Hacc) as [(r' & Hr' & Hst')|(w' & Hrec)]; [rewrite Hr in Hr'; congruence|].
  assert (w' = w) as -> by (apply (Hd w' w id); [by apply recording_pending|done]).
  destruct Hrec as (? & ? & ? & ? & Hp & _). congruence.
Qed.

Lemma accounted_send t ph acc w since js rd fma draw answer :
  exclusive (mkCluster t ph acc) → accounted (mkCluster t ph acc) → ph w = Holding since js →
  accounted (mkCluster t (<[w := Marking since (batch_marks cfg rd fma draw answer js)]> ph)
    (match answer.2 with None => (ID <$> js) ++ acc | Some _ => acc end)).
Proof.
  intros Hex [Hn Hk] Hw. cbn in *.
  assert (Hmove : ∀ p, accepted_known t (<[w := p]> ph) acc).
  { intros p. eapply known_move; [exact Hk|reflexivity|by rewrite Hw]. }
  destruct answer as [result [e|]]; constructor; cbn [c_accepted c_jobs c_phase snd]; [done|apply Hmove| |].
  - apply NoDup_app. split_and!; [|by intros id; eapply holding_unaccepted|done].
    pose proof (ex_nodup _ Hex w) as Hnd. cbn in Hnd. by rewrite Hw in Hnd.
  - intros id [Hid|Hid]%elem_of_app; [|by apply Hmove].
    right. exists w. rewrite fn_lookup_insert. unfold recording. cbn. eauto 10.
Qed.

Lemma accounted_mark t ph acc w since o marks t' :
  exclusive (mkCluster t ph acc) → accounted (mkCluster t ph acc) →
  ph w = Marking since (o :: marks) → outcome (run_op o) t (Ok tt) t' →
  accounted (mkCluster t' (<[w := Marking since marks]> ph) acc).
Proof.
  intros Hex [Hn Hk] Hw Ho. cbn in *. constructor; [done|]. cbn. intros id Hid.
  destruct (Hk id Hid) as [Hs|(w' & Hrec)];
    [left; eapply grows_sent; [by eapply run_op_grows|done]|].
  destruct (decide (w = w')) as [<-|Hne];
    [|right; exists w'; by rewrite fn_lookup_insert_ne].
  left. pose proof (recording_pending _ _ Hrec) as [Hp _].
  pose proof (ex_leased _ Hex w since id) as Hl. cbn in Hl.
  destruct Hrec as (since' & now & js & bulk & Hph & Hin). rewrite Hw in Hph. simplify_eq.
  eapply mark_sent_records; [exact Ho|exact Hin|]. apply Hl; [by rewrite Hw|done].
Qed.

Lemma accounted_step c l c' :
  recorded c l → cstep cfg c l c' → exclusive c → accounted c → accounted c'.
Proof.
  intros Hrec Hs. destruct Hs as
    [t ph acc w wid clock now js t' Hw Ho Hjs|t ph acc w wid clock now r t' Hw Ho Hr
    |t ph acc w since js rd fma draw answer Hw|t ph acc w since o marks t' Hw Ho
    |t ph acc w since o marks e t' Hw Ho|t ph acc w since Hw|t ph acc now r t' Ho
    |t ph acc o r t' Hout Ho|t ph acc]; intros Hex Hac;
    [|  |by eapply accounted_send|by eapply accounted_mark| | | | |];
    destruct Hac as [Hn Hk]; constructor; try done; cbn in *.
  - eapply known_move; [exact Hk|by eapply claim_grows|by rewrite Hw].
  - eapply known_table; [exact Hk|by eapply claim_grows].
  - by eapply known_move; [exact Hk|by eapply run_op_grows|].
  - eapply known_move; [exact Hk|reflexivity|by rewrite Hw].
  - eapply known_table; [exact Hk|by eapply requeue_grows].
  - eapply known_table; [exact Hk|by eapply run_op_grows].
  - intros id Hid. destruct (Hk id Hid) as [Hs|(w & since & now & js & bulk & Hp & _)]; [by left|].
    specialize (Hrec w). by rewrite Hp in Hrec.
Qed.

Lemma started_exclusive c : started c → exclusive c.
Proof.
  intros [Hi _]. constructor; intros w; rewrite (Hi w); cbn; [done|constructor| |constructor].
  by intros w' id ?%elem_of_nil.
Qed.

Lemma csteps_exclusive c c' : csteps cfg (punctual cfg) c c' → exclusive c → exclusive c'.
Proof. induction 1 as [|c c1 c2 (l & Hp & Hs) _ IH]; [done|]. intros Hex. by eapply IH, exclusive_step. Qed.

Lemma csteps_accounted c c' :
  csteps cfg (smooth cfg) c c' → exclusive c ∧ accounted c → exclusive c' ∧ accounted c'.
Proof.
  induction 1 as [|c c1 c2 (l & [Hp Hr] & Hs) _ IH]; [done|]. intros [Hex Hac].
  apply IH. split; [by eapply exclusive_step|by eapply accounted_step].
Qed.
End invariants.
