(* ===== verification/DispatchProps.v ===== *)
(** * The properties of the dispatcher. *)

From S2P Require Import Prelude GoStrings Message SqlTime Queue StoreLogic TableFacts QueueSpec QueueClaim QueueMark Reference QueueProps Metrics Sender Backoff Dispatch DispatchLogic.

(** ** Traces *)

(** The actions of one iteration, the latest first: nothing, a grant and a
    claim, or these followed by one API call within the batch limits. *)
Definition round (cfg : Config) (evs : list event) : Prop :=
  evs = [] ∨ evs = [EvClaim; EvGrant]
  ∨ ∃ msgs, evs = [EvSend msgs; EvClaim; EvGrant] ∧ msgs ≠ []
            ∧ zlen msgs ≤ effective_max default_max_count (BatchMaxCount cfg)
            ∧ zlen msgs ≤ Z.max 0 (QueueClaimLimit cfg).

Definition is_send (e : event) : bool := match e with EvSend _ => true | _ => false end.
Definition is_grant (e : event) : bool := match e with EvGrant => true | _ => false end.
Definition count_events (p : event → bool) (l : list event) : Z := zlen (List.filter p l).

Definition granted (it : iteration) : bool := negb (it_done it) && is_ok (it_wait it).

(** ** Batches *)

Definition jobs_bytes (js : list Job) : Z := sumZ (λ j, job_bytes (PayloadJSON j)) js.

(** A batch within the limits; a single job may be larger than the byte limit. *)
Definition batch_ok (mc mb : Z) (b : list Job) : Prop :=
  b ≠ [] ∧ zlen b ≤ mc ∧ (jobs_bytes b ≤ mb ∨ zlen b ≤ 1).

(** [cs] cannot take the next job [j] any more. *)
Definition batch_closed (mc mb : Z) (b : list Job) (j : Job) : Prop :=
  mc ≤ zlen b ∨ mb < jobs_bytes b + job_bytes (PayloadJSON j).

Lemma split_loop_spec mc mb js : ∀ cur out,
  1 ≤ mc → Forall (batch_ok mc mb) out → (cur = [] ∨ batch_ok mc mb cur) →
  let bs := split_loop mc mb js cur (jobs_bytes cur) out in
  concat bs = concat out ++ cur ++ js ∧ Forall (batch_ok mc mb) bs.
Proof.
  induction js as [|j js IH]; intros cur out Hmc Hout Hcur; cbn.
  - case_decide as Hc; [subst; by rewrite app_nil_r|]. rewrite concat_app. cbn.
    rewrite !app_nil_r. split; [done|]. apply Forall_app. split; [done|].
    constructor; [|done]. by destruct Hcur.
  - assert (batch_ok mc mb [j]) as Hj by (split_and!; [done|exact Hmc|by right]).
    destruct (batch_full mc mb (zlen cur) (jobs_bytes cur) (job_bytes (PayloadJSON j))) eqn:Ef.
    + destruct (IH [j] (out ++ [cur]) Hmc) as [Hc Hb]; [|by right|].
      { apply Forall_app. split; [done|]. constructor; [|done].
        destruct Hcur as [->|]; [|done]. unfold batch_full in Ef. by cbn in Ef. }
      unfold jobs_bytes in Hc, Hb. cbn in Hc, Hb. rewrite Z.add_0_r in Hc, Hb.
      split; [|done]. rewrite Hc, concat_app. cbn. by rewrite app_nil_r, <- app_assoc.
    + assert (jobs_bytes (cur ++ [j]) = jobs_bytes cur + job_bytes (PayloadJSON j)) as Hsum.
      { unfold jobs_bytes. rewrite sumZ_app. cbn. lia. }
      destruct (IH (cur ++ [j]) out Hmc Hout) as [Hc Hb].
      { right. unfold batch_full in Ef. destruct Hcur as [->|(Hne & Hn & _)]; [done|].
        assert (0 < zlen cur) as Hpos.
        { destruct cur; [done|]. rewrite zlen_cons. pose proof (zlen_nonneg cur). lia. }
        rewrite (proj2 (Z.ltb_lt _ _) Hpos) in Ef. cbn in Ef. bool_to_prop.
        split_and!; [by destruct cur| |left; lia]. rewrite zlen_app, zlen_cons, zlen_nil. lia. }
      rewrite Hsum in Hc, Hb. split; [|done]. by rewrite Hc, <- app_assoc.
Qed.

Lemma split_loop_out mc mb js : ∀ cur b out,
  split_loop mc mb js cur b out = out ++ split_loop mc mb js cur b [].
Proof.
  induction js as [|j js IH]; intros cur b out; cbn.
  - case_decide; [by rewrite app_nil_r|done].
  - case_match; [|apply IH]. rewrite IH, (IH _ _ [cur]). by rewrite app_assoc.
Qed.

(** The first batch is what a claim would take of rows with the same payloads. *)
Lemma split_loop_first mc mb (rows : list (string * row)) : ∀ js cur b,
  PayloadJSON <$> js = (λ x, r_payload x.2) <$> rows → cur ≠ [] →
  head (split_loop mc mb js cur b []) =
    Some (cur ++ take (length (claim_prefix (batch_full mc mb) rows (zlen cur) b)) js).
Proof.
  induction rows as [|x rows IH]; intros [|j js] cur b Hp Hcur; try done; cbn.
  - rewrite decide_False by done. by rewrite app_nil_r.
  - cbn in Hp. injection Hp as Hj Hp. rewrite Hj.
    destruct (batch_full mc mb _ _ _) eqn:Ef; cbn.
    + rewrite split_loop_out. by rewrite app_nil_r.
    + rewrite IH by (try done; by destruct cur). rewrite zlen_app, <- app_assoc. done.
Qed.

Section dispatch_properties.
Context {UC : UnicodeCase} {JC : JSONCodec} {SE : SqlEngine} {TD : TimeDriver}
  {SL : SqlEngineLaws}.

(** The world in which an iteration makes its claim. *)
Definition claim_world (it : iteration) (waited : Z) (w : world) : world :=
  mkWorld (wstore w)
    (if 0 <? waited then observe_throttle waited (wmetrics w) else wmetrics w)
    (unix_of (it_beat it)) (EvClaim :: EvGrant :: trace w).

Lemma worker_step_eq cfg wid it w waited js w1 r w2 :
  it_done it = false → it_wait it = Ok waited → js ≠ [] →
  on_store (ClaimDispatchBatch wid (it_clock it) (it_now it) (QueueClaimLimit cfg)
              (BatchMaxCount cfg) (BatchMaxBytes cfg)) (claim_world it waited w) = (Ok js, w1) →
  processBatch cfg (it_rd it) (it_fma it) (it_draw it) (it_send it) js w1 = (r, w2) →
  worker_step cfg wid it w = (Ok true, w2).
Proof.
  intros Hd Hw Hjs Hc Hp. unfold worker_step. rewrite Hd, Hw. unfold claim_world in Hc.
  unfold mbind, M_bind, store_heartbeat, log_event. cbn. destruct (0 <? waited);
    cbn; unfold try at 1; cbn; rewrite Hc; (destruct js; [done|]); unfold try; by rewrite Hp.
Qed.

(** What a fault-free dispatch claim leases and returns. *)
Lemma dispatch_claim_runs w clock now limit mc mb t id r :
  0 < limit → decodable now t → t !! id = Some r → claimable now r = true →
  ∃ js, let t' := claim_update w now (ID <$> js) t in
    runs (ClaimDispatchBatch w clock now limit mc mb) t js t' ∧ js ≠ [] ∧ NoDup (ID <$> js)
    ∧ (∀ i, i ∉ ID <$> js → t' !! i = t !! i)
    ∧ ∀ j, j ∈ js → ∃ r0 m, t !! ID j = Some r0 ∧ claimable now r0 = true
        ∧ unmarshal (r_payload r0) = Ok m ∧ t' !! ID j = Some (claim_row w now r0)
        ∧ j = job_of_row clock (ID j) (claim_row w now r0) (Some m).
Proof.
  intros Hl Hdec Hr Hc.
  destruct (runs_claimJobs w clock now limit (batch_full
    (effective_max default_max_count mc) (effective_max default_max_bytes mb)) t
    Hl Hdec) as (js & Hruns & Hperm). cbn zeta in *. set (sel := claim_prefix _ _ _ _) in *.
  assert (claim_update w now sel.*1 t = claim_update w now (ID <$> js) t) as Heq.
  { apply map_eq. intros i. unfold claim_update. rewrite !lookup_update_where.
    destruct (t !! i); [|done]. cbn. by rewrite (bool_decide_ext _ (i ∈ ID <$> js)) by by rewrite Hperm. }
  rewrite Heq in Hruns. exists js. split; [exact Hruns|].
  pose proof (runs_ensures _ _ _ _ _ Hruns (ensures_claimJobs _ _ _ _ _ _))
    as (sel' & Hp' & _ & Hnd & Hjs). split_and!; [|done| |].
  - intros ->. apply Permutation_nil_l in Hperm.
    assert ((id, r) ∈ order_by r_created (rows_where (λ _ r, claimable now r) t)) as Hin.
    { rewrite order_by_perm. by apply elem_of_rows_where. }
    subst sel. unfold select_claimable in Hperm.
    destruct (order_by _ _) as [|x rows]; [by apply elem_of_nil in Hin|].
    by destruct (Z.to_nat limit) eqn:El; [lia|].
  - intros i Hi. unfold claim_update. rewrite lookup_update_where.
    destruct (t !! i); [|done]. cbn. by rewrite (bool_decide_eq_false_2 _ Hi), andb_false_r.
  - intros j Hj. destruct (Hjs j Hj) as (r0 & m & Hin & Hm & ->).
    destruct (elem_of_selection _ _ _ _ _ _ Hp' Hin) as [Hr0 Hc0]. cbn in Hr0, Hc0.
    exists r0, m. split_and!; [done..| |done]. cbn.
    unfold claim_update. rewrite lookup_update_where, Hr0. cbn.
    rewrite Hc0, bool_decide_eq_true_2; [done|]. apply elem_of_ids. by eexists.
Qed.

(** Splitting jobs into batches loses and reorders nothing, every batch is
    non-empty and within the count and byte limits (a single oversized job
    excepted), and the first batch is exactly what [ClaimDispatchBatch] would
    take of rows with the same payloads. *)
Theorem split_batches_spec js maxCount maxBytes :
  let mc := effective_max 500 maxCount in
  let mb := effective_max (5 * 1024 * 1024) maxBytes in
  let bs := splitBatches js maxCount maxBytes in
  concat bs = js ∧ Forall (batch_ok mc mb) bs
  ∧ ∀ rows, PayloadJSON <$> js = (λ x, r_payload x.2) <$> rows → js ≠ [] →
      head bs = Some (take (length (claim_prefix (batch_full mc mb) rows 0 0)) js).
Proof.
  intros mc mb bs. assert (1 ≤ mc) as Hmc.
  { subst mc. unfold effective_max. destruct (maxCount <=? 0) eqn:E; bool_to_prop; lia. }
  subst bs. unfold splitBatches. case_decide as Hjs; [by subst|].
  fold (effective_max 500 maxCount) (effective_max (5 * 1024 * 1024) maxBytes). fold mc mb.
  destruct (split_loop_spec mc mb js [] [] Hmc) as [Hc Hb]; [constructor|by left|].
  split_and!; [done|done|]. intros rows Hp _. destruct js as [|j js], rows as [|x rows]; try done.
  cbn in Hp. injection Hp as Hj Hp. cbn. rewrite Hj.
  change (batch_full mc mb (zlen (@nil Job)) 0 (job_bytes (r_payload x.2))) with false.
  cbv iota. by rewrite (split_loop_first mc mb rows).
Qed.

Lemma batch_row_done cfg rd next result err j r :
  r_status (batch_row cfg rd next result err j r) ≠ StatusProcessing.
Proof. unfold batch_row. destruct err; [destruct (_ && _)|]; done. Qed.

(** The rows a batch leaves, by the outcome of its API call. *)
Lemma process_batch_rows cfg rd fma draw send js w :
  js ≠ [] → NoDup (ID <$> js) →
  let '(result, err) := send (JobMessage <$> js) in
  let next := batch_next cfg rd fma draw js in
  let '(r, w') := processBatch cfg rd fma draw send js w in
  trace w' = EvSend (JobMessage <$> js) :: trace w
  ∧ (∀ id, id ∉ ID <$> js → wjobs w' !! id = wjobs w !! id)
  ∧ ∀ j r0, j ∈ js → wjobs w !! ID j = Some r0 →
      let r1 := if bool_decide (r_status r0 = StatusProcessing)
                then batch_row cfg rd next result err j r0 else r0 in
      match r with
      | Ok _ => wjobs w' !! ID j = Some r1
      | Err _ => wjobs w' !! ID j = Some r0
                 ∨ (r_status r1 = StatusRetry ∧ wjobs w' !! ID j = Some r1)
      end.
Proof.
  intros Hjs Hnd. pose proof (wensures_processBatch cfg rd fma draw send js w Hjs) as Hw.
  destruct (send (JobMessage <$> js)) as [result err]. cbn zeta in *. unfold wensures in Hw.
  destruct (processBatch _ _ _ _ _ _ w) as [r w']. cbn in Hw. destruct Hw as [Htr Ht].
  split; [done|]. unfold batch_row. split.
  - intros id Hid.
    destruct (lookup_split_other cfg js
      (retry_row (batch_next cfg rd fma draw js) (safeErr err) (batch_status result err) (t_mark rd))
      (dlq_row (safeErr err) (batch_status result err) (t_mark_dlq rd)) (wjobs w) id Hid) as [H1 H2].
    destruct r as [[]|e]; [|by destruct Ht as [->|(_ & _ & ->)]].
    rewrite Ht. destruct err; [destruct (retryable _)|]; [done|by apply lookup_marked_other..].
  - intros j r0 Hj Hr0. cbn zeta.
    destruct (lookup_split_marks cfg js
      (retry_row (batch_next cfg rd fma draw js) (safeErr err) (batch_status result err) (t_mark rd))
      (dlq_row (safeErr err) (batch_status result err) (t_mark_dlq rd)) (wjobs w) j r0 Hnd Hj Hr0)
      as [H1 H2]. cbn zeta in H1, H2.
    destruct r as [[]|e].
    + rewrite Ht. destruct err as [e|]; [|by apply lookup_marked_in].
      destruct (retryable _); cbn [andb]; [|by apply lookup_marked_in].
      rewrite H2. by destruct (exhausted cfg j).
    + destruct Ht as [->|([e' ->] & Hre & ->)]; [by left|]. rewrite H1, Hre. cbn [andb].
      destruct (exhausted cfg j); cbn [andb negb]; [by left|].
      case_bool_decide; [by right|by left].
Qed.

(** C6: a batch has exactly the effect its API outcome calls for. When
    [processBatch] succeeds, the row of each of its jobs that is still
    processing becomes sent (the API accepted), a retry (a retryable failure
    with attempts left) or a dead letter (any other failure), and no other row
    changes; when it fails, nothing changed or only the retried jobs did. The
    API is called exactly once. *)
Theorem process_batch_exact cfg rd fma draw send js w :
  js ≠ [] → NoDup (ID <$> js) →
  let '(result, err) := send (JobMessage <$> js) in
  let next := batch_next cfg rd fma draw js in
  let '(r, w') := processBatch cfg rd fma draw send js w in
  trace w' = EvSend (JobMessage <$> js) :: trace w
  ∧ (∀ id, id ∉ ID <$> js → wjobs w' !! id = wjobs w !! id)
  ∧ ∀ j r0, j ∈ js → wjobs w !! ID j = Some r0 →
      let r1 := if bool_decide (r_status r0 = StatusProcessing)
                then batch_row cfg rd next result err j r0 else r0 in
      match r with
      | Ok _ => wjobs w' !! ID j = Some r1
      | Err _ => wjobs w' !! ID j = Some r0
                 ∨ (r_status r1 = StatusRetry ∧ wjobs w' !! ID j = Some r1)
      end
      ∧ (is_ok r = true → ∀ r', wjobs w' !! ID j = Some r' → r_status r' ≠ StatusProcessing).
Proof.
  intros Hjs Hnd. pose proof (process_batch_rows cfg rd fma draw send js w Hjs Hnd) as Hb.
  destruct (send (JobMessage <$> js)) as [result err].
  destruct (processBatch _ _ _ _ _ _ w) as [r w']. destruct Hb as (Htr & Hoth & Hrows).
  split_and!; [done..|]. intros j r0 Hj Hr0. specialize (Hrows j r0 Hj Hr0). split; [done|].
  intros Hok r' Hr'. destruct r as [[]|e]; [|done]. cbn zeta in Hrows. rewrite Hrows in Hr'.
  injection Hr' as <-. case_bool_decide; [|done]. apply batch_row_done.
Qed.

(** An iteration that meets a due job and no fault: what it claims and what
    becomes of each row. *)
Lemma worker_iteration cfg wid it waited w id r :
  clean w → it_done it = false → it_wait it = Ok waited → 0 < QueueClaimLimit cfg →
  decodable (it_now it) (wjobs w) → wjobs w !! id = Some r → claimable (it_now it) r = true →
  ∃ js w', worker_step cfg wid it w = (Ok true, w') ∧ clean w' ∧ js ≠ []
    ∧ trace w' = EvSend (JobMessage <$> js) :: EvClaim :: EvGrant :: trace w
    ∧ (∀ i, i ∉ ID <$> js → wjobs w' !! i = wjobs w !! i)
    ∧ ∀ j, j ∈ js → ∃ r0, wjobs w !! ID j = Some r0 ∧ claimable (it_now it) r0 = true
        ∧ AttemptCount j = r_attempts r0
        ∧ wjobs w' !! ID j = Some (batch_row cfg (it_rd it)
            (batch_next cfg (it_rd it) (it_fma it) (it_draw it) js)
            (it_send it (JobMessage <$> js)).1 (it_send it (JobMessage <$> js)).2 j
            (claim_row wid (it_now it) r0)).
Proof.
  intros Hcl Hd Hw Hl Hdec Hr Hc.
  destruct (dispatch_claim_runs wid (it_clock it) (it_now it) (QueueClaimLimit cfg)
    (BatchMaxCount cfg) (BatchMaxBytes cfg) (wjobs w) id r Hl Hdec Hr Hc)
    as (js & Hruns & Hne & Hnd & Hother & Hjs). cbn zeta in *.
  exists js. set (t1 := claim_update _ _ _ _) in *.
  pose proof (on_store_runs _ (claim_world it waited w) js t1 Hcl Hruns) as Hclaim.
  set (w1 := mkWorld (mkStore t1 true []) _ _ _) in Hclaim.
  destruct (completes_processBatch cfg (it_rd it) (it_fma it) (it_draw it) (it_send it) js w1)
    as (w2 & Hp & Hcl2); [done|].
  pose proof (process_batch_rows cfg (it_rd it) (it_fma it) (it_draw it) (it_send it) js w1 Hne Hnd)
    as Hb. rewrite Hp in Hb. exists w2.
  destruct (it_send it (JobMessage <$> js)) as [result err]. destruct Hb as (Htr & Hoth & Hrows).
  split_and!; try done.
  - by eapply worker_step_eq.
  - intros i Hi. by rewrite Hoth, <- Hother.
  - intros j Hj. destruct (Hjs j Hj) as (r0 & m & Hr0 & Hc0 & _ & Hr1 & Heq).
    specialize (Hrows j _ Hj Hr1). exists r0. split_and!; [done|done|by rewrite Heq|exact Hrows].
Qed.

(** C7: dispatch makes progress and finishes what it claims. When a job is due,
    the due payloads decode, the limiter grants and the driver calls succeed,
    one iteration of a worker claims at least one job, sends all it claimed in
    one API call, and leaves each of them in the state the API's outcome calls
    for, no longer processing, and every other row as it was. *)
Theorem worker_iteration_delivers cfg wid it waited w id r :
  clean w → it_done it = false → it_wait it = Ok waited → 0 < QueueClaimLimit cfg →
  decodable (it_now it) (wjobs w) → wjobs w !! id = Some r → claimable (it_now it) r = true →
  ∃ js w', let '(result, err) := it_send it (JobMessage <$> js) in
    worker_step cfg wid it w = (Ok true, w') ∧ clean w' ∧ js ≠ []
    ∧ trace w' = EvSend (JobMessage <$> js) :: EvClaim :: EvGrant :: trace w
    ∧ (∀ i, i ∉ ID <$> js → wjobs w' !! i = wjobs w !! i)
    ∧ ∀ j, j ∈ js → ∃ r0 r1, wjobs w !! ID j = Some r0 ∧ wjobs w' !! ID j = Some r1
        ∧ r_status r1 ≠ StatusProcessing
        ∧ r1 = batch_row cfg (it_rd it)
                 (batch_next cfg (it_rd it) (it_fma it) (it_draw it) js) result err j
                 (claim_row wid (it_now it) r0).
Proof.
  intros Hcl Hd Hw Hl Hdec Hr Hc.
  destruct (worker_iteration cfg wid it waited w id r Hcl Hd Hw Hl Hdec Hr Hc)
    as (js & w' & Hs & Hcl' & Hne & Htr & Hoth & Hjs). exists js, w'.
  destruct (it_send it (JobMessage <$> js)) as [result err] eqn:Es. split_and!; try done.
  intros j Hj. destruct (Hjs j Hj) as (r0 & Hr0 & _ & _ & Hr1). cbn in Hr1.
  eexists r0, _. split_and!; [done|exact Hr1| |done]. apply batch_row_done.
Qed.

(** ** The API calls of a worker *)

(** A successful claim returns no more jobs than the limits allow. *)
Lemma claimed_limits w clock now limit mc mb t js t' :
  claimed w clock now limit (batch_full (effective_max default_max_count mc) mb) t js t' →
  zlen js ≤ effective_max default_max_count mc ∧ zlen js ≤ Z.max 0 limit.
Proof.
  intros (sel & Hp & _ & Hnd & Hjs).
  assert (1 ≤ effective_max default_max_count mc) as Hmc.
  { unfold effective_max, default_max_count. destruct (mc <=? 0) eqn:E; bool_to_prop; lia. }
  destruct (claim_prefix_limits _ _ _ _ Hmc Hp) as [Hc _].
  assert (zlen js ≤ zlen sel) as Hle.
  { unfold zlen. rewrite <- (length_fmap ID js), <- (length_fmap fst sel). apply inj_le.
    apply submseteq_length, NoDup_submseteq; [done|].
    intros id (j & Hj & ->)%elem_of_ids. destruct (Hjs j Hj) as (r & m & Hin & _).
    apply list_elem_of_fmap. by exists (ID j, r). }
  assert (sel `prefix_of` select_claimable now limit t) as [k Hk].
  { etransitivity; [exact Hp|]. apply claim_prefix_prefix. }
  assert (zlen (select_claimable now limit t) ≤ Z.max 0 limit) as Hl.
  { unfold select_claimable, zlen. rewrite length_take. lia. }
  rewrite Hk, zlen_app in Hl. pose proof (zlen_nonneg k). lia.
Qed.

Definition round_of (cfg : Config) (it : iteration) (evs : list event) : Prop :=
  round cfg evs ∧ (granted it = false → evs = []).

Lemma processBatch_trace cfg rd fma draw send js w :
  js ≠ [] →
  wensures (processBatch cfg rd fma draw send js)
    (λ _ w', trace w' = EvSend (JobMessage <$> js) :: trace w) w.
Proof.
  intros Hjs. pose proof (wensures_processBatch cfg rd fma draw send js w Hjs) as Hb.
  destruct (send _) as [result err]. apply Hb.
Qed.

Lemma worker_step_round cfg wid it w :
  wensures (worker_step cfg wid it)
    (λ _ w', ∃ evs, round_of cfg it evs ∧ trace w' = evs ++ trace w) w.
Proof.
  unfold worker_step, round_of, granted. destruct (it_done it).
  { wstep. exists []. split; [|done]. split; [by left|done]. }
  do 2 wstep. destruct (it_wait it) as [waited|e].
  2: { wstep. exists []. split; [|done]. split; [by left|done]. }
  do 3 wstep. eapply (wensures_mono _ (λ r w1, r = Ok tt ∧ trace w1 = EvGrant :: trace w)).
  { destruct (0 <? waited); by wstep. }
  intros r w1 [-> Hw1]. do 2 wstep. do 2 wstep. wstep. eapply ensures_mono; [apply ensures_claimJobs|].
  intros [js|e] t' Hcl s' Hs'.
  - destruct js as [|j js].
    + wstep. exists [EvClaim; EvGrant]. cbn. rewrite Hw1. split; [|done].
      split; [by right; left|done].
    + do 2 wstep. eapply wensures_mono; [by apply processBatch_trace|].
      intros r w' Htr. wstep.
      exists [EvSend (JobMessage <$> j :: js); EvClaim; EvGrant]. rewrite Htr. cbn [trace].
      rewrite Hw1. split; [|done]. split; [|done]. right; right. eexists. split; [done|].
      apply claimed_limits in Hcl as [Hc1 Hc2]. unfold zlen in *. rewrite length_fmap.
      by split_and!.
  - wstep. exists [EvClaim; EvGrant]. cbn. rewrite Hw1. split; [|done].
    split; [by right; left|done].
Qed.

Lemma count_events_app p l k : count_events p (l ++ k) = count_events p l + count_events p k.
Proof. unfold count_events. by rewrite List.filter_app, zlen_app. Qed.

Lemma round_counts cfg it evs :
  round_of cfg it evs →
  count_events is_send evs ≤ count_events is_grant evs ≤ (if granted it then 1 else 0).
Proof.
  intros [Hr Hg]. destruct (granted it); [clear Hg|by rewrite Hg].
  by destruct Hr as [->|[->|(msgs & -> & _)]].
Qed.

(** C21: the rate limit holds. Whatever a worker meets, its outward actions come
    in rounds, an API call only after a claim after a grant of the limiter of
    its own, so that it makes at most one call per grant; each call carries at
    least one message and no more than the batch and claim limits. *)
Theorem worker_rate_limited cfg wid its w :
  ∃ rounds,
    trace (workerLoop cfg wid its w).2 = concat rounds ++ trace w
    ∧ Forall (round cfg) rounds
    ∧ count_events is_send (concat rounds) ≤ count_events is_grant (concat rounds)
    ∧ count_events is_grant (concat rounds) ≤ zlen (List.filter granted its).
Proof.
  revert w. induction its as [|it its IH]; intros w.
  { exists []. by split_and!. }
  cbn [workerLoop]. pose proof (worker_step_round cfg wid it w) as (evs & Hr & Htr).
  destruct (round_counts _ _ _ Hr) as [H1 H2]. cbn [List.filter].
  assert (0 ≤ zlen (List.filter granted its)) as Hn by apply zlen_nonneg.
  assert (zlen (if granted it then it :: List.filter granted its else List.filter granted its)
    = (if granted it then 1 else 0) + zlen (List.filter granted its)) as ->.
  { destruct (granted it); by rewrite ?zlen_cons. }
  unfold mbind, M_bind. destruct (worker_step cfg wid it w) as [[[]|e] w1]; cbn in Htr.
  - destruct (IH w1) as (rounds & -> & Hf & Hs & Hg). exists (rounds ++ [evs]).
    rewrite Htr, concat_app. cbn [concat]. rewrite app_nil_r, !count_events_app, <- app_assoc.
    split_and!; [done| |lia|lia]. apply Forall_app. split; [done|]. constructor; [apply Hr|done].
  - exists [evs]. cbn. rewrite Htr, app_nil_r. split_and!; [done| |lia|lia].
    constructor; [apply Hr|done].
  - exists [evs]. cbn. rewrite Htr, app_nil_r. split_and!; [done| |lia|lia].
    constructor; [apply Hr|done].
Qed.
End dispatch_properties.

(** ** Witnesses, on the reference instances *)

#[local] Existing Instances ref_unicode ref_codec ref_engine ref_driver.

Definition demo_config : Config :=
  mkConfig 4 1000 (2 * Minute) 500 (5 * 1024 * 1024) (250 * Millisecond) 8 (30 * Second) (10 * Second).

Definition demo_world (t : table) : world := mkWorld (mkStore t true []) NewMetrics 0 [].

Definition demo_readings : readings := mkReadings 20 25 26 27 28 29.

(** The API fails with 503. *)
Definition failing_send (_ : list (option Message)) : SendResult * option send_error :=
  (mkSendResult empty 503, Some (SenderError 503 "mailersend bulk api error: busy")).

Definition demo_iteration : iteration :=
  mkIteration false 10 (Ok 0) false 10 11 false false demo_readings false 0 failing_send.

Definition demo_job : Job := job_of_row 11 "j1" (claim_row "w" 10 (demo_row StatusQueued 1)) None.

Lemma process_batch_exact_witness :
  let w' := (processBatch demo_config demo_readings false 0 failing_send [demo_job]
               (demo_world leased_table)).2 in
  ∃ r', wjobs w' !! "j1" = Some r' ∧ r_status r' = StatusRetry.
Proof.
  pose proof (process_batch_exact demo_config demo_readings false 0 failing_send [demo_job]
    (demo_world leased_table)) as H. cbn zeta in *.
  destruct (processBatch _ _ _ _ _ _ _) as [r w'] eqn:E.
  assert (r = Ok tt) as -> by (apply (f_equal fst) in E; by vm_compute in E).
  destruct H as (_ & _ & H); [done|by apply NoDup_singleton|].
  destruct (H demo_job (claim_row "w" 10 (demo_row StatusQueued 1))) as [Hr _]; [by left|done|].
  eexists. split; [exact Hr|]. by vm_compute.
Defined.

Lemma demo_decodable now : decodable now demo_table.
Proof.
  intros id r Hr _. exists (ref_message "hello").
  assert (r_payload r = "hello") as ->; [|done]. unfold demo_table in Hr.
  apply lookup_insert_Some in Hr as [[_ <-]|[_ Hr]]; [done|].
  by apply lookup_insert_Some in Hr as [[_ <-]|[_ Hr]].
Qed.

Lemma worker_iteration_delivers_witness :
  ∃ js w', worker_step demo_config "w" demo_iteration (demo_world demo_table) = (Ok true, w')
           ∧ js ≠ [] ∧ trace w' = [EvSend (JobMessage <$> js); EvClaim; EvGrant].
Proof.
  destruct (worker_iteration_delivers demo_config "w" demo_iteration 0 (demo_world demo_table)
    "j1" (demo_row StatusQueued 1)) as (js & w' & H); try done.
  - apply demo_decodable.
  - exists js, w'. cbn in H. destruct H as (? & _ & ? & ? & _). by split_and!.
Defined.

Lemma worker_rate_limited_witness :
  ∃ rounds, trace (workerLoop demo_config "w" [demo_iteration] (demo_world demo_table)).2
              = concat rounds ++ []
    ∧ count_events is_send (concat rounds) ≤ 1.
Proof.
  destruct (worker_rate_limited demo_config "w" [demo_iteration] (demo_world demo_table))
    as (rounds & Ht & _ & Hs & Hg).
  exists rounds. split; [exact Ht|]. etransitivity; [exact Hs|]. etransitivity; [exact Hg|]. done.
Defined.
