(* ===== verification/Loops.v ===== *)
(** * The two periodic loops of the dispatcher: what lease recovery and the
    depth gauge do over all their ticks. *)

From S2P Require Import Prelude GoStrings Message SqlTime Queue StoreLogic TableFacts QueueSpec QueueClaim QueueMark Reference QueueProps Metrics Sender Backoff Dispatch DispatchLogic DispatchProps.

(** ** Specification *)




Section loops.
Context `{UnicodeCase, JSONCodec, SqlEngine, TimeDriver}.
Variable cfg : Config.

(** ** Lease recovery *)







(** ** The depth gauge *)









End loops.

(** ** A witness *)

#[local] Existing Instances ref_unicode ref_codec ref_engine ref_driver.

