(* ===== verification/Readiness.v ===== *)
(** * Readiness: what the probe sees of the heartbeat that the worker loop
    stores, while the worker waits for the rate limiter. *)

From S2P Require Import Prelude GoStrings Message SqlTime Queue StoreLogic TableFacts QueueSpec QueueClaim QueueMark Reference QueueProps Metrics Sender Backoff Dispatch DispatchLogic DispatchProps.

Section heartbeat.
Context `{UnicodeCase, JSONCodec, SqlEngine, TimeDriver}.

(** ** Who stores the heartbeat *)

Definition keeps_beat {A} (m : M world A) : Prop :=
  ∀ w, lastHeartbeat (m w).2 = lastHeartbeat w.

Lemma beat_ret {A} (a : A) : keeps_beat (mret a).
Proof. by intros w. Qed.
Lemma beat_metrics f : keeps_beat (on_metrics f).
Proof. by intros w. Qed.
Lemma beat_log e : keeps_beat (log_event e).
Proof. by intros w. Qed.
Lemma beat_store {A} (m : M store A) : keeps_beat (on_store m).
Proof. intros w. unfold on_store. by destruct (m (wstore w)). Qed.
Lemma beat_try {A} (m : M world A) : keeps_beat m → keeps_beat (try m).
Proof. intros Hm w. specialize (Hm w). unfold try. by destruct (m w). Qed.
Lemma beat_wrapM {A} p (m : M world A) : keeps_beat m → keeps_beat (wrapM p m).
Proof. intros Hm w. specialize (Hm w). unfold wrapM. by destruct (m w). Qed.

Lemma beat_bind {A B} (m : M world A) (f : A → M world B) :
  keeps_beat m → (∀ a, keeps_beat (f a)) → keeps_beat (m ≫= f).
Proof.
  intros Hm Hf w. specialize (Hm w). unfold mbind, M_bind.
  destruct (m w) as [[a|e] w1]; cbn in *; [by rewrite Hf|done].
Qed.

Create HintDb beat.
Hint Resolve beat_ret beat_metrics beat_log beat_store beat_try beat_wrapM beat_bind : beat.

Lemma beat_processBatch cfg rd fma draw send js : keeps_beat (processBatch cfg rd fma draw send js).
Proof.
  unfold processBatch, process_retry. case_decide; [apply beat_ret|].
  apply beat_bind; [auto with beat|]. intros _. destruct (send _) as [result [e|]];
    repeat (apply beat_bind; [auto with beat|intros _]); [|auto with beat].
  repeat case_match; repeat (apply beat_bind; [auto with beat|intros _]); auto with beat.
Qed.

(** An iteration stores its heartbeat first, and nothing else stores one. *)
Lemma worker_step_beat cfg wid it w :
  it_done it = false → lastHeartbeat (worker_step cfg wid it w).2 = unix_of (it_beat it).
Proof.
  intros Hd. unfold worker_step. rewrite Hd. unfold mbind at 1, M_bind, store_heartbeat.
  match goal with |- lastHeartbeat (?m ?w1).2 = _ =>
    assert (keeps_beat m) as Hm; [|by rewrite (Hm w1)] end.
  destruct (it_wait it) as [waited|e]; [|apply beat_ret].
  apply beat_bind; [auto with beat|intros _].
  apply beat_bind; [destruct (0 <? waited); auto with beat|intros _].
  apply beat_bind; [auto with beat|intros _]. apply beat_bind; [auto with beat|].
  intros [[|j js]|e]; [auto with beat| |auto with beat].
  apply beat_bind; [apply beat_try, beat_processBatch|auto with beat].
Qed.

Lemma workerLoop_app cfg wid its its' w :
  workerLoop cfg wid (its ++ its') w
  = match workerLoop cfg wid its w with
    | (Ok true, w1) => workerLoop cfg wid its' w1
    | x => x
    end.
Proof.
  revert w. induction its as [|it its IH]; intros w; [done|]. cbn. unfold mbind, M_bind.
  destruct (worker_step cfg wid it w) as [[[]|e] w1]; [apply IH|done|done].
Qed.

(** The heartbeat of a worker is that of its last iteration. *)
Lemma workerLoop_beat cfg wid its it w :
  (workerLoop cfg wid its w).1 = Ok true → it_done it = false →
  lastHeartbeat (workerLoop cfg wid (its ++ [it]) w).2 = unix_of (it_beat it).
Proof.
  intros Hok Hd. rewrite workerLoop_app. destruct (workerLoop cfg wid its w) as [r w1]. cbn in Hok.
  subst r. cbn. unfold mbind, M_bind. pose proof (worker_step_beat cfg wid it w1 Hd) as Hb.
  by destruct (worker_step cfg wid it w1) as [[[]|e] w2].
Qed.
End heartbeat.

(** ** The age of a heartbeat *)

Lemma ready_short_flush cfg last now :
  0 < BatchFlushInterval cfg ≤ Second → last ≠ 0 →
  Ready cfg last now = true ↔ now ≤ time_Unix last + 5 * Second.
Proof.
  intros Hf Hl. unfold Second in Hf. assert (ready_max_age cfg = 5 * Second) as Hage.
  { unfold ready_max_age. rewrite wrap64_id by (unfold in_int64, min_int64, max_int64; lia).
    unfold Second. destruct (_ <? _) eqn:E; bool_to_prop; lia. }
  unfold Ready. rewrite (proj2 (Z.eqb_neq last 0)), Hage by done. rewrite Z.leb_le. lia.
Qed.

Lemma time_Unix_of t : time_Unix (unix_of t) ≤ t < time_Unix (unix_of t) + Second.
Proof.
  unfold time_Unix, unix_of. pose proof (Z.mod_pos_bound t Second ltac:(by cbn)).
  pose proof (Z.div_mod t Second ltac:(by cbn)). lia.
Qed.

Section readiness.
Context `{UnicodeCase, JSONCodec, SqlEngine, TimeDriver}.

(** When the limiter granted an iteration its call. *)
Definition grant_at (it : iteration) : option Z :=
  match it_wait it with Ok waited => Some (it_beat it + waited) | Err _ => None end.

(** Below 12 requests per minute the grants are more than five seconds apart. *)
Lemma slow_interval perMin interval :
  0 < perMin < 12 → NewRequestLimiter perMin = Some interval → 5 * Second < interval.
Proof.
  intros Hp. unfold NewRequestLimiter. rewrite (proj2 (Z.leb_gt perMin 0)) by lia. intros [= <-].
  assert (Z.quot Minute 11 ≤ Z.quot Minute perMin) as Hq.
  { apply Z.quot_le_compat_l; unfold Minute, Second; lia. }
  change (Z.quot Minute 11) with 5454545454 in Hq. unfold Second. lia.
Qed.

(** C40: readiness flaps at a slow rate. Take the only worker of a relay with a
    flush interval of at most a second and a limit below 12 requests per
    minute (the default is 10), so that its grants are more than five seconds
    apart. It stores a heartbeat at the start of an
    iteration and then waits for its grant, an interval after the previous
    one. When it was back at the limiter less than the interval minus five
    seconds after the previous grant, then during that wait [Ready] holds
    exactly up to five seconds after the heartbeat's second, so it holds when
    the wait begins and no longer holds when it ends. *)
Theorem readiness_flaps cfg wid its it1 it2 w g1 g2 perMin interval :
  0 < BatchFlushInterval cfg ≤ Second →
  0 < perMin < 12 → NewRequestLimiter perMin = Some interval →
  (workerLoop cfg wid (its ++ [it1]) w).1 = Ok true → it_done it2 = false → Second ≤ it_beat it2 →
  grant_at it1 = Some g1 → grant_at it2 = Some g2 → g1 + interval ≤ g2 →
  it_beat it2 < g1 + (interval - 5 * Second) →
  let beat := lastHeartbeat (workerLoop cfg wid (its ++ [it1; it2]) w).2 in
  5 * Second < interval
  ∧ (∀ now, it_beat it2 ≤ now ≤ g2 →
     (Ready cfg beat now = true ↔ now ≤ time_Unix (unix_of (it_beat it2)) + 5 * Second))
  ∧ Ready cfg beat (it_beat it2) = true
  ∧ Ready cfg beat g2 = false.
Proof.
  intros Hf Hp Hlim Hok Hd Hpos Hg1 Hg2 Hspaced Hback beat.
  assert (beat = unix_of (it_beat it2)) as ->.
  { subst beat. replace (its ++ [it1; it2]) with ((its ++ [it1]) ++ [it2]) by by rewrite <- app_assoc.
    by apply workerLoop_beat. }
  pose proof (time_Unix_of (it_beat it2)) as Hfloor.
  assert (unix_of (it_beat it2) ≠ 0) as Hnz.
  { unfold time_Unix in Hfloor. intros Hz. rewrite Hz in Hfloor. lia. }
  assert (0 < Second) as Hs by by cbn.
  split_and!; [by eapply slow_interval| | |].
  - intros now _. by apply ready_short_flush.
  - apply ready_short_flush; [done|done|lia].
  - apply not_true_iff_false. rewrite ready_short_flush by done. lia.
Qed.
End readiness.

(** ** A witness *)

#[local] Existing Instances ref_unicode ref_codec ref_engine ref_driver.

(** At ten requests per minute, granted at 100 s and 106 s, on an empty queue. *)
Definition waiting_iteration (beat waited : Z) : iteration :=
  mkIteration false beat (Ok waited) false beat beat false false demo_readings false 0 failing_send.

Lemma readiness_flaps_witness :
  let it1 := waiting_iteration (94 * Second + 500 * Millisecond) (5 * Second + 500 * Millisecond) in
  let it2 := waiting_iteration (100 * Second + 500 * Millisecond) (5 * Second + 500 * Millisecond) in
  let beat := lastHeartbeat (workerLoop demo_config "w" [it1; it2] (demo_world ∅)).2 in
  Ready demo_config beat (100 * Second + 500 * Millisecond) = true
  ∧ Ready demo_config beat (106 * Second) = false.
Proof.
  intros it1 it2 beat.
  apply (readiness_flaps demo_config "w" [] it1 it2 (demo_world ∅) (100 * Second) (106 * Second)
    10 (6 * Second)); by vm_compute.
Defined.
