(* ===== verification/Drain.v ===== *)
(** * A backlog drains. Whatever the API answers, each call takes attempts from
    the jobs of its batch, and the configuration bounds the attempts of a job:
    a measure on the table falls with every API call. *)

From S2P Require Import Prelude GoStrings Message SqlTime Queue StoreLogic TableFacts QueueSpec QueueClaim QueueMark Reference QueueProps Metrics Sender Backoff Dispatch DispatchLogic DispatchProps.

(** ** Sums over a table *)

Section total.
Context {A : Type} (f : A → Z).

Definition total (m : gmap string A) : Z := sumZ (λ x, f x.2) (map_to_list m).

Lemma total_insert m i x : m !! i = None → total (<[i:=x]> m) = f x + total m.
Proof. intros Hi. unfold total. by rewrite (sumZ_permutation _ _ _ (map_to_list_insert m i x Hi)). Qed.

Lemma total_delete m i x : m !! i = Some x → total m = f x + total (delete i m).
Proof.
  intros Hi. rewrite <- (insert_delete_id m i x Hi) at 1. apply total_insert, lookup_delete_eq.
Qed.

(** Same keys, no larger values. *)
Definition below (m' m : gmap string A) : Prop :=
  ∀ i, match m !! i, m' !! i with
       | Some x, Some y => f y ≤ f x
       | None, None => True
       | _, _ => False
       end.

Lemma below_delete m' m i : below m' m → below (delete i m') (delete i m).
Proof.
  intros Hb k. destruct (decide (i = k)) as [->|Hne]; [by rewrite !lookup_delete_eq|].
  rewrite !lookup_delete_ne by done. apply Hb.
Qed.

Lemma total_below m : ∀ m', below m' m → total m' ≤ total m.
Proof.
  induction m as [|i x m Hi IH] using map_ind; intros m' Hb.
  - assert (m' = ∅) as ->; [|done]. apply map_eq. intros k. specialize (Hb k).
    rewrite lookup_empty in Hb |- *. by destruct (m' !! k).
  - pose proof (Hb i) as Hbi. rewrite lookup_insert_eq in Hbi.
    destruct (m' !! i) as [y|] eqn:Hy; [|done].
    rewrite (total_delete _ _ _ Hy), total_insert by done.
    apply (below_delete _ _ i) in Hb. rewrite delete_insert_id in Hb by done.
    specialize (IH _ Hb). lia.
Qed.

(** A value that falls makes the sum fall. *)
Lemma total_falls m m' i x y :
  below m' m → m !! i = Some x → m' !! i = Some y → f y < f x → total m' < total m.
Proof.
  intros Hb Hx Hy Hlt. rewrite (total_delete _ _ _ Hx), (total_delete _ _ _ Hy).
  pose proof (total_below _ _ (below_delete _ _ i Hb)). lia.
Qed.
End total.

(** ** The measure *)

Definition waiting (r : row) : bool :=
  bool_decide (r_status r = StatusQueued) || bool_decide (r_status r = StatusRetry).

(** The API calls a job can still be part of. *)
Definition budget (cfg : Config) (r : row) : Z :=
  if waiting r then Z.max 1 (RetryMaxAttempts cfg - r_attempts r) else 0.

Definition backlog (cfg : Config) (t : table) : Z := total (budget cfg) t.

Definition nothing_due (now : Z) (t : table) : Prop :=
  ∀ id r, t !! id = Some r → claimable now r = false.

Lemma nothing_due_or now t :
  nothing_due now t ∨ ∃ id r, t !! id = Some r ∧ claimable now r = true.
Proof.
  destruct (rows_where (λ _ r, claimable now r) t) as [|[id r] rest] eqn:E.
  - left. intros id r. apply (count_where_zero (λ _ r, claimable now r) t).
    unfold count_where. by rewrite E.
  - right. exists id, r. apply (elem_of_rows_where (λ _ r, claimable now r) t id r). rewrite E. by left.
Qed.

Lemma claimable_waiting now r : claimable now r = true → waiting r = true.
Proof. unfold claimable. by intros [Hw _]%andb_prop. Qed.

Section drain.
Context `{UnicodeCase, JSONCodec, SqlEngine, TimeDriver, !SqlEngineLaws}.
Variable cfg : Config.

(** The waiting jobs decode and count their attempts within an int. *)
Definition serviceable (t : table) : Prop :=
  ∀ id r, t !! id = Some r → waiting r = true →
    (∃ m, unmarshal (r_payload r) = Ok m) ∧ in_int64 (r_attempts r + 1).

Lemma serviceable_decodable now t : serviceable t → decodable now t.
Proof. intros Hs id r Hr Hc. by apply (Hs id r Hr (claimable_waiting _ _ Hc)). Qed.

(** A row that no longer waits has nothing left. *)
Lemma budget_done r r' :
  waiting r = true → waiting r' = false → r_payload r' = r_payload r →
  budget cfg r' < budget cfg r ∧ (waiting r' = true → in_int64 (r_attempts r' + 1))
  ∧ r_payload r' = r_payload r.
Proof. intros Hw Hw' Hp. unfold budget. rewrite Hw, Hw'. split_and!; [lia|done|done]. Qed.

(** What a call leaves of a claimed job: done with, or one attempt less to go. *)
Lemma batch_row_budget wid now rd next result err j r :
  in_int64 (RetryMaxAttempts cfg) → in_int64 (r_attempts r + 1) → AttemptCount j = r_attempts r →
  waiting r = true →
  let r' := batch_row cfg rd next result err j (claim_row wid now r) in
  budget cfg r' < budget cfg r ∧ (waiting r' = true → in_int64 (r_attempts r' + 1))
  ∧ r_payload r' = r_payload r.
Proof.
  intros Hmax Hatt Hj Hw r'. subst r'. unfold batch_row, exhausted.
  destruct err as [e|]; [|by apply budget_done].
  destruct (retryable _); [|by apply budget_done].
  rewrite Hj, wrap64_id by done. destruct (_ <=? _) eqn:E; bool_to_prop; [by apply budget_done|].
  cbn [andb negb]. unfold budget. rewrite Hw.
  change (waiting (retry_row _ _ _ _ (claim_row wid now r))) with true.
  cbn -[Z.max]. unfold in_int64 in *.
  split_and!; [lia|lia|done].
Qed.

Definition sends (w : world) : Z := count_events is_send (trace w).

(** One iteration that meets a due job. *)
Lemma drain_step wid it waited w id r :
  clean w → in_int64 (RetryMaxAttempts cfg) → 0 < QueueClaimLimit cfg → serviceable (wjobs w) →
  it_done it = false → it_wait it = Ok waited →
  wjobs w !! id = Some r → claimable (it_now it) r = true →
  ∃ w', worker_step cfg wid it w = (Ok true, w') ∧ clean w' ∧ serviceable (wjobs w')
    ∧ backlog cfg (wjobs w') < backlog cfg (wjobs w) ∧ sends w' = sends w + 1
    ∧ ∀ i r', wjobs w' !! i = Some r' → r_status r' = StatusProcessing → wjobs w !! i = Some r'.
Proof.
  intros Hcl Hmax Hl Hs Hd Hw Hr Hc.
  destruct (worker_iteration cfg wid it waited w id r Hcl Hd Hw Hl
    (serviceable_decodable _ _ Hs) Hr Hc) as (js & w' & Hstep & Hcl' & Hne & Htr & Hoth & Hjs).
  exists w'. split; [done|split; [done|]].
  assert (Hin : ∀ i, i ∈ ID <$> js → ∃ r0 r1, wjobs w !! i = Some r0 ∧ wjobs w' !! i = Some r1
    ∧ budget cfg r1 < budget cfg r0 ∧ (waiting r1 = true → in_int64 (r_attempts r1 + 1))
    ∧ r_payload r1 = r_payload r0 ∧ waiting r0 = true ∧ r_status r1 ≠ StatusProcessing).
  { intros i (j & Hj & ->)%elem_of_ids. destruct (Hjs j Hj) as (r0 & Hr0 & Hc0 & Hatt & Hr1).
    apply claimable_waiting in Hc0. eexists r0, _. split; [done|split; [exact Hr1|]].
    destruct (batch_row_budget wid (it_now it) (it_rd it)
      (batch_next cfg (it_rd it) (it_fma it) (it_draw it) js)
      (it_send it (JobMessage <$> js)).1 (it_send it (JobMessage <$> js)).2 j r0)
      as (? & ? & ?); [done|by eapply Hs|done|done|]. split_and!; [done..|apply batch_row_done]. }
  split_and!.
  - intros i r' Hr' Hw'. destruct (decide (i ∈ ID <$> js)) as [Hi|Hi].
    + destruct (Hin i Hi) as (r0 & r1 & Hr0 & Hr1 & _ & Hatt & Hpay & Hw0 & _). simplify_eq.
      rewrite Hpay. destruct (Hs i r0 Hr0 Hw0) as [Hdec _]. split; [done|by apply Hatt].
    + rewrite Hoth in Hr' by done. by eapply Hs.
  - destruct js as [|j js]; [done|]. destruct (Hin (ID j)) as (r0 & r1 & Hr0 & Hr1 & Hlt & _);
      [by left|]. refine (total_falls _ _ _ _ _ _ _ Hr0 Hr1 Hlt). intros i.
    destruct (decide (i ∈ ID <$> j :: js)) as [Hi|Hi].
    + destruct (Hin i Hi) as (r2 & r3 & -> & -> & ? & _). lia.
    + rewrite Hoth by done. by destruct (wjobs w !! i).
  - unfold sends, count_events. rewrite Htr. cbn [List.filter is_send]. rewrite zlen_cons. lia.
  - intros i r' Hr' Hp. destruct (decide (i ∈ ID <$> js)) as [Hi|Hi]; [|by rewrite <- Hoth].
    destruct (Hin i Hi) as (r0 & r1 & _ & Hr1 & _ & _ & _ & _ & Hnp). congruence.
Qed.

Lemma backlog_nonneg t : 0 ≤ backlog cfg t.
Proof. apply sumZ_nonneg. intros x. unfold budget. destruct (waiting _); lia. Qed.

(** An iteration that is neither stopped nor refused by the limiter. *)
Definition granted_iteration (it : iteration) : Prop :=
  it_done it = false ∧ ∃ waited, it_wait it = Ok waited.

(** C8: the worker drains any backlog, whatever the API answers. Let the
    waiting jobs decode, the limiter grant and the driver calls succeed. A job
    can take part in as many calls as it has attempts left, and at least in
    one. After at most the sum of these over the waiting jobs the worker, having made one API
    call per iteration, meets an iteration at which no job is due: every job
    has been sent, is a dead letter or waits for a later attempt, and the
    worker has left none in processing. *)
Theorem backlog_drains wid its w :
  clean w → in_int64 (RetryMaxAttempts cfg) → 0 < QueueClaimLimit cfg → serviceable (wjobs w) →
  Forall granted_iteration its → backlog cfg (wjobs w) < zlen its →
  ∃ k it, its !! k = Some it ∧ Z.of_nat k ≤ backlog cfg (wjobs w) ∧
    let w' := (workerLoop cfg wid (take k its) w).2 in
    nothing_due (it_now it) (wjobs w') ∧ sends w' = sends w + Z.of_nat k
    ∧ ∀ i r, wjobs w' !! i = Some r → r_status r = StatusProcessing → wjobs w !! i = Some r.
Proof.
  intros Hcl Hmax Hl. revert w Hcl. induction its as [|it its IH]; intros w Hcl Hs Hg Hlen.
  - pose proof (backlog_nonneg (wjobs w)). rewrite zlen_nil in Hlen. lia.
  - apply Forall_cons in Hg as [[Hd (waited & Hw)] Hg].
    destruct (nothing_due_or (it_now it) (wjobs w)) as [Hno|(id & r & Hr & Hc)].
    + exists O, it. cbn [take workerLoop snd]. cbn zeta.
      split_and!; [done|apply backlog_nonneg|exact Hno|cbn; lia|done].
    + destruct (drain_step wid it waited w id r Hcl Hmax Hl Hs Hd Hw Hr Hc)
        as (w1 & Hstep & Hcl1 & Hs1 & Hlt & Hsends & Hproc).
      rewrite zlen_cons in Hlen.
      destruct (IH w1 Hcl1 Hs1 Hg) as (k & it' & Hk & Hle & Hno & Hcount & Hproc'); [lia|].
      exists (S k), it'. cbn [take workerLoop]. unfold mbind, M_bind. rewrite Hstep. cbn zeta in *.
      split_and!; [done|lia|done|lia|]. intros i r' Hr' Hp. apply (Hproc i r'); [by apply Hproc'|done].
Qed.
End drain.

(** ** A witness *)

#[local] Existing Instances ref_unicode ref_codec ref_engine ref_driver.

Lemma demo_serviceable : serviceable demo_table.
Proof.
  intros id r Hr _. unfold demo_table in Hr.
  apply lookup_insert_Some in Hr as [[_ <-]|[_ Hr]].
  - split; [by exists (ref_message "hello")|by vm_compute].
  - apply lookup_insert_Some in Hr as [[_ <-]|[_ Hr]]; [|done].
    split; [by exists (ref_message "hello")|by vm_compute].
Qed.

Lemma backlog_drains_witness :
  ∃ k it, replicate 20 demo_iteration !! k = Some it
    ∧ nothing_due 10 (wjobs (workerLoop demo_config "w" (take k (replicate 20 demo_iteration))
                               (demo_world demo_table)).2).
Proof.
  destruct (backlog_drains demo_config "w" (replicate 20 demo_iteration) (demo_world demo_table))
    as (k & it & Hk & _ & Hno & _).
  - done.
  - by vm_compute.
  - done.
  - exact demo_serviceable.
  - apply Forall_replicate. split; [done|by exists 0].
  - by vm_compute.
  - exists k, it. apply lookup_replicate in Hk as Hk'. destruct Hk' as [-> _]. by split.
Defined.
