(* ===== verification/Delivery.v ===== *)
(** * The API client behind the dispatcher: what becomes of a batch whose POST
    is answered with a redirect. *)

From S2P Require Import Prelude GoStrings Message SqlTime Queue StoreLogic TableFacts QueueSpec QueueClaim QueueMark Reference QueueProps Metrics Sender SenderProps Dispatch DispatchLogic DispatchProps.

Section delivery.
Context `{UnicodeCase, JSONCodec, SqlEngine, TimeDriver, HTTPLib, !SqlEngineLaws}.

(** Every job of the batch is being processed. *)
Definition in_processing (js : list Job) (t : table) : Prop :=
  ∀ j, j ∈ js → ∃ r, t !! ID j = Some r ∧ r_status r = StatusProcessing.

(** C37: a redirect loses mail. When the API answers the POST of a batch with
    301, 302 or 303, net/http repeats the request as a GET without the
    payload; when that GET is answered with a 2xx status, [Send] reports success
    and every job of the batch is marked as sent, although no request that
    carried the messages was accepted. *)
Theorem redirect_loses_mail s cfg rd fma draw js w payload url st text loc content readErr u :
  let post := bulk_request s url payload in
  let get := mkRequest "GET" u (redirect_headers post [url] u) empty in
  clean w → js ≠ [] → NoDup (ID <$> js) → in_processing js (wjobs w) →
  marshal_bulk (JobMessage <$> js) = Ok payload →
  url_Parse (baseURL s +:+ "/bulk-email") = Ok url →
  RoundTrip (transportURL s) post = HasResponse st text loc content readErr →
  st ∈ [301; 302; 303] → loc ≠ empty → url_Reference url loc = Ok u →
  accepted_response (RoundTrip (transportURL s) get) = true →
  (Send s (JobMessage <$> js)).2 = None
  ∧ ∃ w', processBatch cfg rd fma draw (Send s) js w = (Ok tt, w')
      ∧ ∀ j, j ∈ js → ∃ r, wjobs w' !! ID j = Some r ∧ r_status r = StatusSent.
Proof.
  intros post get Hcl Hjs Hnd Hproc Hm Hu Hpost Hst Hloc Hr Hacc.
  pose proof (send_redirected s (JobMessage <$> js) payload url st text loc content readErr u
    Hm Hu Hpost Hst Hloc Hr Hacc) as Hsend.
  pose proof (send_outcome_accepted (RoundTrip (transportURL s) get)) as Ho.
  fold post get in Hsend. rewrite <- Hsend in Ho.
  destruct (Send s (JobMessage <$> js)) as [result err] eqn:Es.
  destruct Ho as (_ & Hnone & _). apply Hnone in Hacc as ->. split; [done|].
  destruct (completes_processBatch cfg rd fma draw (Send s) js w Hcl) as (w' & Hp & _).
  exists w'. split; [done|]. intros j Hj. destruct (Hproc j Hj) as (r0 & Hr0 & Hst0).
  pose proof (process_batch_rows cfg rd fma draw (Send s) js w Hjs Hnd) as Hb.
  rewrite Es, Hp in Hb. destruct Hb as (_ & _ & Hrows). specialize (Hrows j r0 Hj Hr0). cbn in Hrows.
  rewrite bool_decide_eq_true_2 in Hrows by done. by eexists.
Qed.
End delivery.

(** ** A witness *)

(** An API that moved: the POST is answered 303, everything else 200. *)
Definition moved_http : HTTPLib := {|
  marshal_bulk := λ _, Ok "[{}]"%string;
  bulk_email_id := λ _, empty;
  url_Parse := λ s, Ok (mkURL "https" "api.example.com" s);
  url_String := λ u, Path u;
  url_Reference := λ u loc, Ok (mkURL (Scheme u) (Host u) loc);
  url_Stripped := λ u, Path u;
  redirect_headers := λ req _ _, rHeaders req;
  round_trip := λ req,
    if (Method req =? "POST")%string then HasResponse 303 "303 See Other" "/status" empty None
    else HasResponse 200 "200 OK" empty "{}" None
|}.

#[local] Existing Instances ref_unicode ref_codec ref_engine ref_driver moved_http.

Definition moved_sender : MailerSendSender :=
  mkSender (mkURL "https" "api.example.com" empty) "key" "https://api.example.com".

Lemma redirect_loses_mail_witness :
  ∃ w' r, processBatch demo_config demo_readings false 0 (Send moved_sender) [demo_job]
            (demo_world leased_table) = (Ok tt, w')
          ∧ wjobs w' !! "j1" = Some r ∧ r_status r = StatusSent.
Proof.
  destruct (redirect_loses_mail moved_sender demo_config demo_readings false 0 [demo_job]
    (demo_world leased_table) "[{}]" (mkURL "https" "api.example.com" "https://api.example.com/bulk-email")
    303 "303 See Other" "/status" empty None (mkURL "https" "api.example.com" "/status"))
    as (_ & w' & Hp & Hsent); try done.
  - by apply NoDup_singleton.
  - intros j Hj%list_elem_of_singleton. subst. by eexists.
  - set_solver.
  - destruct (Hsent demo_job) as (r & Hr & Hst); [by left|]. by exists w', r.
Defined.
