(* ===== verification/WorkersProps.v ===== *)
(** * The properties of the interleaved workers, and their relation to the
    loops of [Dispatch]: [workerLoop] is an execution of the step system in
    which one worker runs alone. *)

From stdpp Require Import functions.
From S2P Require Import Prelude GoStrings Message SqlTime Queue StoreLogic TableFacts QueueSpec QueueClaim QueueMark Reference QueueProps Metrics Sender Backoff Dispatch DispatchLogic DispatchProps Workers.

(** ** A batch is its marking calls *)

Section batches.
Context `{UnicodeCase, JSONCodec, SqlEngine, TimeDriver}.

(** The calls in order, up to the first that fails. *)
Fixpoint run_marks (marks : list op) : M store unit :=
  match marks with
  | [] => mret tt
  | o :: rest => run_op o;; run_marks rest
  end.

(** [m] does to the store what [k] does, and fails when [k] fails. *)
Definition store_sim (m : M world unit) (k : M store unit) : Prop :=
  ∀ w, wstore (m w).2 = (k (wstore w)).2 ∧ is_ok (m w).1 = is_ok (k (wstore w)).1.

Lemma sim_ret : store_sim (mret tt) (mret tt).
Proof. by intros w. Qed.

Lemma sim_on_store m : store_sim (on_store m) m.
Proof. intros w. unfold on_store. by destruct (m (wstore w)). Qed.

Lemma sim_wrapM p m k : store_sim m k → store_sim (wrapM p m) k.
Proof.
  intros Hm w. destruct (Hm w) as [Hs Ho]. unfold wrapM. destruct (m w) as [r w'].
  split; [done|]. by destruct r.
Qed.

Lemma sim_bind m k m' k' : store_sim m k → store_sim m' k' → store_sim (m;; m') (k;; k').
Proof.
  intros Hm Hm' w. destruct (Hm w) as [Hs Ho]. unfold mbind, M_bind.
  destruct (m w) as [r w'], (k (wstore w)) as [r' s']. cbn in *. subst s'.
  destruct r, r'; try done; apply Hm'.
Qed.

(** Metrics and traces do not touch the store. *)
Lemma sim_skip_metrics f m k : store_sim m k → store_sim (on_metrics f;; m) k.
Proof. intros Hm w. apply (Hm (mkWorld _ _ _ _)). Qed.

Lemma sim_skip_log e m k : store_sim m k → store_sim (log_event e;; m) k.
Proof. intros Hm w. apply (Hm (mkWorld _ _ _ _)). Qed.

Lemma sim_then_metrics m f k : store_sim m k → store_sim (m;; on_metrics f) k.
Proof.
  intros Hm w. destruct (Hm w) as [Hs Ho]. unfold mbind, M_bind.
  by destruct (m w) as [[[]|e] w'].
Qed.

Lemma sim_last m k : store_sim m k → store_sim m (k;; mret tt).
Proof.
  intros Hm w. destruct (Hm w) as [Hs Ho]. unfold mbind, M_bind.
  by destruct (k (wstore w)) as [[[]|e] s'].
Qed.

Lemma run_marks_app l l' s : run_marks (l ++ l') s = (run_marks l;; run_marks l') s.
Proof.
  revert s. induction l as [|o l IH]; intros s; [done|]. cbn. unfold mbind, M_bind in *.
  destruct (run_op o s) as [[[]|e] s']; [apply IH|done].
Qed.

Lemma sim_process_retry cfg rd fma draw js msg st :
  store_sim (process_retry cfg rd fma draw js msg st)
    (run_marks (match retry_jobs cfg js with
                | [] => []
                | j0 :: _ => [OpRetry (t_mark rd) (retry_jobs cfg js)
                                (next_attempt fma draw rd j0) msg st]
                end) ;;
     run_marks (match dlq_jobs cfg js with
                | [] => []
                | _ => [OpDLQ (t_mark_dlq rd) (dlq_jobs cfg js) msg st]
                end)).
Proof.
  unfold process_retry. apply sim_bind.
  - destruct (retry_jobs cfg js); [apply sim_ret|].
    apply sim_last, sim_then_metrics, sim_wrapM, sim_on_store.
  - destruct (dlq_jobs cfg js); [apply sim_ret|].
    apply sim_last, sim_then_metrics, sim_wrapM, sim_on_store.
Qed.

Lemma sim_process_batch cfg rd fma draw send js :
  js ≠ [] →
  store_sim (processBatch cfg rd fma draw send js)
    (run_marks (batch_marks cfg rd fma draw (send (JobMessage <$> js)) js)).
Proof.
  intros Hjs. unfold processBatch. rewrite decide_False by done. apply sim_skip_log.
  destruct (send (JobMessage <$> js)) as [result [e|]]; cbn [batch_marks];
    do 2 apply sim_skip_metrics.
  - rewrite classifyFailure_retryable. destruct (retryable _); cbn [String.eqb].
    + intros w. cbn. rewrite run_marks_app. apply sim_process_retry.
    + apply sim_last, sim_then_metrics, sim_wrapM, sim_on_store.
  - apply sim_skip_metrics, sim_last, sim_on_store.
Qed.
End batches.

(** ** The loop of one worker as an execution *)

Section worker_execution.
Context `{UnicodeCase, JSONCodec, SqlEngine, TimeDriver}.
Variable cfg : Config.

Definition any (_ : cluster) (_ : label) : Prop := True.

(** The jobs of an iteration's batch, when the API accepts it. *)
Definition step_accepts (wid : string) (it : iteration) (w : world) : list string :=
  if it_done it then [] else
  if is_ok (it_wait it) then
    match (worker_claim cfg wid (it_clock it) (it_now it) (wstore w)).1 with
    | Ok (j :: js) =>
        match (it_send it (JobMessage <$> j :: js)).2 with
        | None => ID <$> j :: js
        | Some _ => []
        end
    | _ => []
    end
  else [].

(** The acceptances of a loop, the latest first. *)
Fixpoint loop_accepts (wid : string) (its : list iteration) (w : world) : list string :=
  match its with
  | [] => []
  | it :: rest =>
      let '(r, w') := worker_step cfg wid it w in
      match r with Ok true => loop_accepts wid rest w' | _ => [] end ++ step_accepts wid it w
  end.

(** [k] goes from idle to idle while the others stay where they are. *)
Definition executes (k : nat) (ph : nat → phase) (t t' : table) (acc acc' : list string) : Prop :=
  ∃ ph', csteps cfg any (mkCluster t ph acc) (mkCluster t' ph' acc')
         ∧ ph' k = Idle ∧ ∀ i, i ≠ k → ph' i = ph i.

Lemma csteps_once c l c' : cstep cfg c l c' → csteps cfg any c c'.
Proof. intros Hs. apply rtc_once. by exists l. Qed.

Lemma executes_step k ph p t t1 t' acc acc1 acc' l :
  cstep cfg (mkCluster t ph acc) l (mkCluster t1 (<[k := p]> ph) acc1) →
  executes k (<[k := p]> ph) t1 t' acc1 acc' → executes k ph t t' acc acc'.
Proof.
  intros Hs (ph' & Hr & Hk & Ho). exists ph'. split_and!; [|done|].
  - etransitivity; [by eapply csteps_once|exact Hr].
  - intros i Hi. rewrite Ho by done. by rewrite fn_lookup_insert_ne.
Qed.

Lemma executes_marks k since marks : ∀ ph s acc,
  ph k = Marking since marks →
  executes k ph (jobs s) (jobs (run_marks marks s).2) acc acc.
Proof.
  induction marks as [|o marks IH]; intros ph s acc Hk.
  - exists (<[k := Idle]> ph). split_and!; [|by rewrite fn_lookup_insert|].
    + by eapply csteps_once, step_finish.
    + intros i Hi. by rewrite fn_lookup_insert_ne.
  - cbn. unfold mbind, M_bind. destruct (run_op o s) as [[[]|e] s1] eqn:Er.
    + eapply executes_step; [eapply step_mark; [exact Hk|]|apply IH, fn_lookup_insert].
      exists s. by rewrite Er.
    + exists (<[k := Idle]> ph). split_and!; [|by rewrite fn_lookup_insert|].
      * eapply csteps_once, step_mark_failed; [exact Hk|]. exists s. by rewrite Er.
      * intros i Hi. by rewrite fn_lookup_insert_ne.
Qed.

Lemma executes_refl k ph t acc : ph k = Idle → executes k ph t t acc acc.
Proof. intros Hk. exists ph. split_and!; [apply rtc_refl|done|done]. Qed.

(** A claimed batch, from the claim to the last mark. *)
Lemma executes_batch k wid clock now rd fma draw send ph s s1 js w acc :
  ph k = Idle → worker_claim cfg wid clock now s = (Ok js, s1) → js ≠ [] → wstore w = s1 →
  executes k ph (jobs s) (wjobs (processBatch cfg rd fma draw send js w).2) acc
    (match (send (JobMessage <$> js)).2 with None => ID <$> js | Some _ => [] end ++ acc).
Proof.
  intros Hk Hc Hjs Hw.
  destruct (sim_process_batch cfg rd fma draw send js Hjs w) as [Hst _].
  unfold wjobs. rewrite Hst. subst s1. eapply executes_step.
  - eapply (step_claim _ _ _ _ _ wid clock now js); [exact Hk| |exact Hjs].
    exists s. by rewrite Hc.
  - eapply executes_step.
    + eapply (step_send _ _ _ _ _ now js rd fma draw (send (JobMessage <$> js))).
      apply fn_lookup_insert.
    + assert (match (send (JobMessage <$> js)).2 with None => ID <$> js | Some _ => [] end ++ acc
              = match (send (JobMessage <$> js)).2 with None => (ID <$> js) ++ acc | Some _ => acc end)
        as -> by by destruct ((send (JobMessage <$> js)).2).
      eapply executes_marks, fn_lookup_insert.
Qed.

(** A claim that hands out nothing. *)
Lemma executes_no_claim k wid clock now ph s s1 r acc :
  ph k = Idle → worker_claim cfg wid clock now s = (r, s1) → (∀ js, r = Ok js → js = []) →
  executes k ph (jobs s) (jobs s1) acc acc.
Proof.
  intros Hk Hc Hr. exists ph. split_and!; [|done|done].
  eapply csteps_once, step_claim_none; [exact Hk|exists s; by rewrite Hc|exact Hr].
Qed.

Lemma executes_worker_step k wid it ph w acc :
  ph k = Idle →
  executes k ph (wjobs w) (wjobs (worker_step cfg wid it w).2) acc (step_accepts wid it w ++ acc).
Proof.
  intros Hk. unfold worker_step, step_accepts. destruct (it_done it); [by apply executes_refl|].
  unfold mbind, M_bind, store_heartbeat. cbn. destruct (it_wait it) as [waited|e];
    [cbn|by apply executes_refl].
  destruct (worker_claim cfg wid (it_clock it) (it_now it) (wstore w)) as [r s1] eqn:Ec.
  pose proof Ec as Ec'. unfold worker_claim in Ec'.
  destruct (0 <? waited); cbn; unfold try at 1, on_store; cbn; rewrite Ec'; cbn -[processBatch];
    (destruct r as [[|j js]|e];
     [eapply executes_no_claim; [exact Hk|exact Ec|by intros ? [= <-]]|
     |by eapply executes_no_claim; [exact Hk|exact Ec|]]).
  all: unfold try; match goal with |- context [processBatch _ _ _ _ _ _ ?w1] =>
         pose proof (executes_batch k wid (it_clock it) (it_now it) (it_rd it) (it_fma it)
           (it_draw it) (it_send it) ph (wstore w) s1 (j :: js) w1 acc Hk Ec ltac:(done) eq_refl)
           as Hb
       end.
  all: cbn -[processBatch] in Hb |- *; by destruct (processBatch _ _ _ _ _ _ _) as [r w2].
Qed.

Lemma executes_trans k ph ph1 t t1 t2 acc acc1 acc2 :
  csteps cfg any (mkCluster t ph acc) (mkCluster t1 ph1 acc1) →
  (∀ i, i ≠ k → ph1 i = ph i) → executes k ph1 t1 t2 acc1 acc2 →
  executes k ph t t2 acc acc2.
Proof.
  intros Hr Ho (ph2 & Hr2 & Hk & Ho2). exists ph2. split_and!; [by etransitivity|done|].
  intros i Hi. by rewrite Ho2, Ho.
Qed.

Lemma executes_worker_loop k wid its : ∀ ph w acc,
  ph k = Idle →
  executes k ph (wjobs w) (wjobs (workerLoop cfg wid its w).2) acc (loop_accepts wid its w ++ acc).
Proof.
  induction its as [|it its IH]; intros ph w acc Hk; cbn; [by apply executes_refl|].
  pose proof (executes_worker_step k wid it ph w acc Hk) as Hs.
  unfold mbind, M_bind. destruct (worker_step cfg wid it w) as [r w1]. cbn in Hs.
  destruct r as [[]|e]; cbn; [|done|done]. rewrite <- app_assoc.
  destruct Hs as (ph1 & Hr & Hk1 & Ho). by eapply executes_trans; [exact Hr|exact Ho|apply IH].
Qed.
End worker_execution.

(** ** Properties *)

Section workers_properties.
Context `{UnicodeCase, JSONCodec, SqlEngine, TimeDriver, !SqlEngineLaws}.
Variable cfg : Config.

(** C4: no message is delivered twice, short of an ambiguous failure. Workers
    of any number of processes claim, send and mark in any interleaving with
    each other, with lease recovery, with new mail, with operator commands and
    with restarts. As long as no lease expires while its batch is in flight
    and no acceptance of the API is lost before it is recorded, the API
    accepts every job at most once, and each accepted job is sent or about to
    be marked so by the worker that sent it. *)
Theorem accepted_at_most_once c c' :
  started c → csteps cfg (smooth cfg) c c' →
  NoDup (c_accepted c')
  ∧ ∀ id, id ∈ c_accepted c' →
      is_sent (c_jobs c') id ∨ ∃ w, recording (c_phase c' w) id.
Proof.
  intros Hst Hr. destruct (csteps_accounted cfg _ _ Hr) as [_ [Hn Hk]]; [|done].
  split; [by apply started_exclusive|]. destruct Hst as [_ Ha].
  constructor; rewrite Ha; [constructor|by intros id ?%elem_of_nil].
Qed.

(** C10: workers never hold the same job. In every interleaving in which no
    lease expires in flight, whatever marking calls fail and however often the
    process restarts, the jobs of a worker's batch are distinct, leased in the
    table since the worker's claim, and no other worker's. *)
Theorem in_flight_exclusive c c' w since :
  started c → csteps cfg (punctual cfg) c c' →
  phase_since (c_phase c' w) = Some since →
  NoDup (pending (c_phase c' w))
  ∧ ∀ id, id ∈ pending (c_phase c' w) →
      leased (c_jobs c') since id ∧ ∀ w', w' ≠ w → id ∉ pending (c_phase c' w').
Proof.
  intros Hst Hr Hs.
  destruct (csteps_exclusive cfg _ _ Hr (started_exclusive _ Hst)) as [Hl Hn Hd _].
  split; [done|]. intros id Hid. split; [by eapply Hl|]. intros w' Hne Hin. by eapply Hne, Hd.
Qed.

(** C14: the worker loop is an execution of the step system. Whatever its
    iterations meet, there is an execution in which one idle worker makes the
    claims, API calls and marks of the loop while the others stand still; it
    ends with the table the loop leaves, the worker idle again, and the
    acceptances of the loop recorded. *)
Theorem worker_loop_executes k wid its ph w acc :
  ph k = Idle →
  ∃ ph', csteps cfg any (mkCluster (wjobs w) ph acc)
           (mkCluster (wjobs (workerLoop cfg wid its w).2) ph' (loop_accepts cfg wid its w ++ acc))
         ∧ ∀ i, ph' i = ph i.
Proof.
  intros Hk. destruct (executes_worker_loop cfg k wid its ph w acc Hk) as (ph' & Hr & Hk' & Ho).
  exists ph'. split; [exact Hr|]. intros i. destruct (decide (i = k)) as [->|Hi]; [congruence|by apply Ho].
Qed.
End workers_properties.

(** ** Concrete executions *)

(** The fault-free steps of the system, executable. *)
Inductive action :=
| DoClaim (w : nat) (workerID : string) (clock now : Z)
| DoSend (w : nat) (rd : readings) (answer : SendResult * option send_error)
| DoMark (w : nat).

Section execution.
Context `{UnicodeCase, JSONCodec, SqlEngine, TimeDriver}.
Variable cfg : Config.

(** The outcome of a call that meets no fault. *)
Definition after {A} (m : M store A) (t : table) : result error A * table :=
  let '(r, s) := m (mkStore t true []) in (r, jobs s).

Definition act (a : action) (c : cluster) : option (label * cluster) :=
  let '(mkCluster t ph acc) := c in
  match a with
  | DoClaim w wid clock now =>
      match ph w, after (worker_claim cfg wid clock now) t with
      | Idle, (Ok (j :: js), t') =>
          Some (LClaim w now, mkCluster t' (<[w := Holding now (j :: js)]> ph) acc)
      | _, _ => None
      end
  | DoSend w rd answer =>
      match ph w with
      | Holding since js =>
          Some (LSend w (negb (bool_decide (is_Some answer.2))),
            mkCluster t (<[w := Marking since (batch_marks cfg rd false 0 answer js)]> ph)
              (match answer.2 with None => (ID <$> js) ++ acc | Some _ => acc end))
      | _ => None
      end
  | DoMark w =>
      match ph w with
      | Marking since (o :: marks) =>
          match after (run_op o) t with
          | (Ok tt, t') => Some (LMark w, mkCluster t' (<[w := Marking since marks]> ph) acc)
          | _ => None
          end
      | _ => None
      end
  end.

Lemma outcome_after {A} (m : M store A) t : outcome m t (after m t).1 (after m t).2.
Proof. exists (mkStore t true []). unfold after. by destruct (m _). Qed.

Lemma act_sound a c l c' : act a c = Some (l, c') → cstep cfg c l c'.
Proof.
  destruct c as [t ph acc], a as [w wid clock now|w rd answer|w]; cbn [act].
  - pose proof (outcome_after (worker_claim cfg wid clock now) t) as Ho.
    destruct (ph w) eqn:Hw; [|done|done]. destruct (after _ t) as [[[|j js]|e] t'];
      [done| |done]. intros [= <- <-]. by eapply step_claim.
  - destruct (ph w) eqn:Hw; [done| |done]. intros [= <- <-]. by eapply step_send.
  - destruct (ph w) as [| |since [|o marks]] eqn:Hw; try done.
    pose proof (outcome_after (run_op o) t) as Ho.
    destruct (after _ t) as [[[]|e] t']; [|done]. intros [= <- <-]. by eapply step_mark.
Qed.

Fixpoint acts (l : list action) (c : cluster) : option cluster :=
  match l with
  | [] => Some c
  | a :: rest => x ← act a c; acts rest x.2
  end.

Definition meets (P : cluster → label → Prop) (a : action) : Prop :=
  ∀ c l c', act a c = Some (l, c') → P c l.

Lemma acts_sound (P : cluster → label → Prop) l : ∀ c c',
  Forall (meets P) l → acts l c = Some c' → csteps cfg P c c'.
Proof.
  induction l as [|a l IH]; intros c c'; cbn; [intros _ [= <-]; apply rtc_refl|].
  intros [HP Hl]%Forall_cons. destruct (act a c) as [[lb c1]|] eqn:Ea; [|done]. intros Hr.
  eapply rtc_l; [|by apply IH]. exists lb. split; [by eapply HP|by eapply act_sound].
Qed.

(** No lease expires and no mark fails in an action. *)
Lemma act_smooth a : meets (smooth cfg) a.
Proof.
  intros [t ph acc] l c'. destruct a as [w wid clock now|w rd answer|w]; cbn [act];
    intros Ha; case_in Ha; by simplify_eq.
Qed.

Lemma acts_smooth l c c' : acts l c = Some c' → csteps cfg (smooth cfg) c c'.
Proof. apply acts_sound, Forall_true, act_smooth. Qed.

Lemma smooth_punctual c c' : csteps cfg (smooth cfg) c c' → csteps cfg (punctual cfg) c c'.
Proof. apply rtc_subrel. intros c1 c2 (l & [Hp _] & Hs). by exists l. Qed.
End execution.

#[local] Existing Instances ref_unicode ref_codec ref_engine ref_driver.

Definition demo_answer : SendResult * option send_error := (mkSendResult "bulk-1" 202, None).
Definition demo_start : cluster := mkCluster demo_table (λ _, Idle) [].

(** ** Witnesses *)

(** Two workers take one job each; worker 0 finishes while worker 1 waits for the API. *)
Definition single_config : Config :=
  mkConfig 2 1000 (2 * Minute) 1 (5 * 1024 * 1024) (250 * Millisecond) 8 (30 * Second) (10 * Second).
Definition two_workers : list action :=
  [DoClaim 0 "w" 0 10; DoClaim 1 "w" 0 11; DoSend 0 demo_readings demo_answer; DoMark 0].

Lemma accepted_at_most_once_witness :
  ∃ c', acts single_config two_workers demo_start = Some c'
        ∧ c_accepted c' = ["j1"]%string ∧ NoDup (c_accepted c').
Proof.
  assert (c_accepted <$> acts single_config two_workers demo_start = Some ["j1"]%string)
    as Hc by (vm_compute; reflexivity).
  apply fmap_Some in Hc as (c' & Ea & Hacc).
  exists c'. split_and!; [done|done|]. apply (accepted_at_most_once single_config demo_start); [by split|by apply (acts_smooth _ two_workers)].
Defined.

Lemma in_flight_exclusive_witness :
  ∃ c', acts single_config two_workers demo_start = Some c'
        ∧ pending (c_phase c' 1%nat) = ["j2"]%string
        ∧ leased (c_jobs c') 11 "j2" ∧ "j2"%string ∉ pending (c_phase c' 0%nat).
Proof.
  assert ((λ c, (phase_since (c_phase c 1%nat), pending (c_phase c 1%nat)))
            <$> acts single_config two_workers demo_start = Some (Some 11, ["j2"]%string))
    as Hc by (vm_compute; reflexivity).
  apply fmap_Some in Hc as (c' & Ea & [= Hs Hp]).
  exists c'. do 2 (split; [done|]).
  destruct (in_flight_exclusive single_config demo_start c' 1 11) as [_ Hex]; [by split| |done|].
  - by apply smooth_punctual, (acts_smooth _ two_workers).
  - destruct (Hex "j2"%string) as [Hl Hd]; [rewrite <- Hp; by left|]. split; [done|by apply Hd].
Defined.

Lemma worker_loop_executes_witness :
  ∃ ph', csteps demo_config any (mkCluster demo_table (λ _, Idle) [])
    (mkCluster (wjobs (workerLoop demo_config "w" [demo_iteration] (demo_world demo_table)).2)
       ph' (loop_accepts demo_config "w" [demo_iteration] (demo_world demo_table) ++ [])).
Proof.
  destruct (worker_loop_executes demo_config 0 "w" [demo_iteration] (λ _, Idle)
    (demo_world demo_table) []) as (ph' & Hr & _); [done|]. by exists ph'.
Defined.
