(* ===== verification/Expiry.v ===== *)
(** * A lease that expires while its batch waits for the API: the execution of
    the step system in which two workers deliver the same jobs. *)

From stdpp Require Import functions.
From S2P Require Import Prelude GoStrings Message SqlTime Queue StoreLogic TableFacts QueueSpec QueueClaim QueueMark Reference QueueProps Metrics Sender Backoff Dispatch DispatchLogic DispatchProps Workers.

Section expiry.
Context `{UnicodeCase, JSONCodec, SqlEngine, TimeDriver, !SqlEngineLaws}.
Variable cfg : Config.

(** The execution that makes the given steps, in order. *)
Fixpoint execution (ls : list label) (c c' : cluster) : Prop :=
  match ls with
  | [] => c' = c
  | l :: rest => ∃ c1, cstep cfg c l c1 ∧ execution rest c1 c'
  end.

Lemma runs_outcome {A} (m : M store A) t a t' : runs m t a t' → outcome m t (Ok a) t'.
Proof. intros Hm. exists (mkStore t true []). by rewrite Hm. Qed.

(** ** The table along the execution *)

Definition recover (now : Z) (t : table) : table :=
  update_where (λ _ r, stale (now + wrap64 (- QueueLeaseTimeout cfg)) r) (requeue_row now) t.

(** Nothing but the given jobs is waiting or expired. *)
Definition alone (js : list Job) (now now2 : Z) (t : table) : Prop :=
  ∀ id r, id ∉ ID <$> js → t !! id = Some r →
    claimable now2 r = false ∧ stale (now + wrap64 (- QueueLeaseTimeout cfg)) r = false.

(** The payloads of the given jobs decode. *)
Definition readable (js : list Job) (t : table) : Prop :=
  ∀ id r, id ∈ ID <$> js → t !! id = Some r → ∃ m, unmarshal (r_payload r) = Ok m.

Lemma recover_expired now t since id :
  leased t since id → since < now + wrap64 (- QueueLeaseTimeout cfg) →
  ∃ r, t !! id = Some r ∧ recover now t !! id = Some (requeue_row now r).
Proof.
  intros (r & Hr & Hst & Hsi) Hlt. exists r. split; [done|]. unfold recover.
  rewrite lookup_update_where, Hr. cbn. unfold stale. rewrite Hst, Hsi.
  by rewrite (proj2 (Z.ltb_lt since _) Hlt).
Qed.

(** What is due after the recovery is due among the recovered jobs. *)
Lemma recover_due js now now2 t id r :
  alone js now now2 t → recover now t !! id = Some r → claimable now2 r = true → id ∈ ID <$> js.
Proof.
  intros Ha Hr Hc. destruct (decide (id ∈ ID <$> js)) as [|Hid]; [done|]. exfalso.
  unfold recover in Hr. rewrite lookup_update_where in Hr.
  destruct (t !! id) as [r0|] eqn:Hr0; [|done]. destruct (Ha id r0 Hid Hr0) as [Hn Hs].
  cbn in Hr. rewrite Hs in Hr. congruence.
Qed.

Lemma recover_decodable js now now2 t :
  alone js now now2 t → readable js t → decodable now2 (recover now t).
Proof.
  intros Ha Hd id r Hr Hc. pose proof (recover_due js now now2 t id r Ha Hr Hc) as Hid.
  unfold recover in Hr. rewrite lookup_update_where in Hr.
  destruct (t !! id) as [r0|] eqn:Hr0; [|done]. destruct (Hd id r0 Hid Hr0) as [m Hm].
  exists m. cbn in Hr. destruct (stale _ r0); by injection Hr as <-.
Qed.

(** The other worker's claim takes jobs of the waiting batch, and no others. *)
Lemma claim_takes_over w clock js now now2 t since :
  0 < QueueClaimLimit cfg → js ≠ [] → now ≤ now2 →
  since < now + wrap64 (- QueueLeaseTimeout cfg) →
  (∀ id, id ∈ ID <$> js → leased t since id) → alone js now now2 t → readable js t →
  ∃ js2, let t2 := claim_update w now2 (ID <$> js2) (recover now t) in
    runs (worker_claim cfg w clock now2) (recover now t) js2 t2 ∧ js2 ≠ []
    ∧ ∀ id, id ∈ ID <$> js2 → id ∈ ID <$> js
        ∧ ∃ r, t2 !! id = Some r ∧ r_status r = StatusProcessing.
Proof.
  intros Hl Hjs Hle Hlt Hleased Ha Hd. destruct js as [|j0 js']; [done|].
  destruct (recover_expired now t since (ID j0)) as (r0 & Hr0 & Hrec); [apply Hleased; by left|done|].
  destruct (dispatch_claim_runs w clock now2 (QueueClaimLimit cfg) (BatchMaxCount cfg)
    (BatchMaxBytes cfg) (recover now t) (ID j0) (requeue_row now r0) Hl) as (js2 & Hruns & Hne & _ & _ & Hin);
    [by eapply recover_decodable|done|unfold claimable; cbn; by apply Z.leb_le|].
  exists js2. cbn zeta. split_and!; [done|done|]. intros id (j & Hj & ->)%elem_of_ids.
  destruct (Hin j Hj) as (r & m & Hr & Hc & _ & Hr2 & _).
  split; [by eapply recover_due|]. by exists (claim_row w now2 r).
Qed.

(** A worker that holds a batch the API accepts. *)
Lemma step_accepted t ph acc w since js rd result :
  ph w = Holding since js →
  cstep cfg (mkCluster t ph acc) (LSend w true)
    (mkCluster t (<[w := Marking since [OpSent (t_mark rd) js (Sender.BulkEmailID result)]]> ph)
       ((ID <$> js) ++ acc)).
Proof. intros Hw. exact (step_send cfg t ph acc w since js rd false 0 (result, None) Hw). Qed.

Lemma step_marked t ph acc w since now js bulk :
  ph w = Marking since [OpSent now js bulk] →
  cstep cfg (mkCluster t ph acc) (LMark w)
    (mkCluster (marked (sent_row bulk now) js t) (<[w := Marking since []]> ph) acc).
Proof. intros Hw. eapply step_mark; [exact Hw|]. by apply runs_outcome, runs_mark. Qed.

(** The first of two marks of a row in processing is the one that stays. *)
Lemma first_mark_stays bulk now js bulk2 now2 js2 t id r :
  id ∈ ID <$> js → t !! id = Some r → r_status r = StatusProcessing →
  marked (sent_row bulk2 now2) js2 (marked (sent_row bulk now) js t) !! id
  = Some (sent_row bulk now r).
Proof.
  intros Hid Hr Hst.
  rewrite (lookup_marked _ _ _ _ (sent_row bulk now r)).
  - by rewrite (bool_decide_eq_false_2 (r_status (sent_row bulk now r) = _)), andb_false_r.
  - by rewrite (lookup_marked _ _ _ _ _ Hr), !bool_decide_eq_true_2.
Qed.

(** C38: a lease that expires in flight delivers messages twice, although every
    call succeeds. A worker waits for the API with jobs leased longer ago than
    the lease timeout, and no other job is waiting or expired. Then, in order,
    the recovery runs, an idle worker claims, and the API accepts the batches
    of both; the second worker's batch consists of jobs of the first one's, so
    each of its jobs was accepted twice. The marks of both then succeed, and
    each of these jobs is recorded as sent in the first worker's bulk alone. *)
Theorem expired_lease_delivers_twice t ph w1 w2 since js now now2 rd1 rd2 result1 result2 :
  0 < QueueClaimLimit cfg → js ≠ [] → w1 ≠ w2 → now ≤ now2 →
  ph w1 = Holding since js → ph w2 = Idle →
  (∀ id, id ∈ ID <$> js → leased t since id) →
  since < now + wrap64 (- QueueLeaseTimeout cfg) →
  alone js now now2 t → readable js t →
  ∃ c c' js2,
    execution [LRequeue now; LClaim w2 now2; LSend w1 true; LSend w2 true] (mkCluster t ph []) c
    ∧ execution [LMark w1; LMark w2] c c'
    ∧ c_phase c w1 = Marking since [OpSent (t_mark rd1) js (Sender.BulkEmailID result1)]
    ∧ c_phase c w2 = Marking now2 [OpSent (t_mark rd2) js2 (Sender.BulkEmailID result2)]
    ∧ js2 ≠ [] ∧ c_accepted c' = (ID <$> js2) ++ (ID <$> js)
    ∧ ∀ id, id ∈ ID <$> js2 → id ∈ ID <$> js
        ∧ ∃ r, c_jobs c' !! id = Some (sent_row (Sender.BulkEmailID result1) (t_mark rd1) r).
Proof.
  intros Hl Hjs Hw Hle Hp1 Hp2 Hleased Hlt Ha Hd.
  destruct (claim_takes_over empty 0 js now now2 t since) as (js2 & Hruns & Hne & Hin); [done..|].
  cbn zeta in Hruns, Hin. set (t2 := claim_update _ _ _ _) in *. eexists _, _, js2. split_and!.
  - eexists. split; [eapply step_requeue, runs_outcome, runs_update_counted|].
    eexists. split; [eapply step_claim; [exact Hp2|exact (runs_outcome _ _ _ _ Hruns)|exact Hne]|].
    eexists. split; [eapply (step_accepted _ _ _ w1 since js rd1 result1);
                     by rewrite fn_lookup_insert_ne|].
    eexists. split; [eapply (step_accepted _ _ _ w2 now2 js2 rd2 result2);
                     by rewrite fn_lookup_insert_ne, fn_lookup_insert|].
    reflexivity.
  - eexists. split; [eapply step_marked; by rewrite fn_lookup_insert_ne, fn_lookup_insert|].
    eexists. split; [eapply step_marked; by rewrite fn_lookup_insert_ne, fn_lookup_insert|].
    reflexivity.
  - cbn. by rewrite fn_lookup_insert_ne, fn_lookup_insert.
  - cbn. by rewrite fn_lookup_insert.
  - done.
  - cbn. by rewrite app_nil_r.
  - cbn [c_jobs]. intros id Hid. destruct (Hin id Hid) as (Hid1 & r & Hr & Hst). split; [done|].
    exists r. by apply first_mark_stays.
Qed.
End expiry.

(** ** A witness *)

#[local] Existing Instances ref_unicode ref_codec ref_engine ref_driver.

(** Worker 0 claimed a job at 10 and still waits for the API two minutes later. *)
Definition waiting_job : Job := job_of_row 0 "j1" (claim_row "w" 10 (demo_row StatusQueued 1)) (Some (ref_message "m1")).

Lemma expired_lease_delivers_twice_witness :
  ∃ c c' js2,
    execution demo_config [LRequeue (11 + 2 * Minute); LClaim 1 (11 + 2 * Minute);
                           LSend 0 true; LSend 1 true]
      (mkCluster leased_table (<[0%nat := Holding 10 [waiting_job]]> (λ _, Idle)) []) c
    ∧ execution demo_config [LMark 0; LMark 1] c c'
    ∧ js2 ≠ [] ∧ c_accepted c' = (ID <$> js2) ++ ["j1"%string].
Proof.
  destruct (expired_lease_delivers_twice demo_config leased_table
    (<[0%nat := Holding 10 [waiting_job]]> (λ _, Idle)) 0 1 10 [waiting_job] (11 + 2 * Minute)
    (11 + 2 * Minute) demo_readings demo_readings (mkSendResult "bulk-1" 202)
    (mkSendResult "bulk-2" 202)) as (c & c' & js2 & Hex & Hmarks & _ & _ & Hne & Hacc & _); try done.
  - intros id ->%list_elem_of_singleton. by eexists.
  - unfold leased_table. intros id r Hid Hr. apply lookup_insert_Some in Hr as [[<- _]|[_ Hr]]; [|done].
    exfalso. apply Hid. by left.
  - intros id r ->%list_elem_of_singleton Hr. vm_compute in Hr. injection Hr as <-. by eexists.
  - by exists c, c', js2.
Defined.
