(* ===== verification/Config.v ===== *)
(** * Configuration: [internal/config/config.go].

    [os.Getenv] is a function from names to values (the empty string for an
    unset name) and [time.ParseDuration] a parameter. *)

From S2P Require Import Prelude GoStrings SqlTime.

Record MailerSendAccountLimits := mkLimits {
  Plan : string;
  BulkAPISupported : bool;
  CustomHeadersSupported : bool;
  BulkAPIMaxMessagesPerRequest : Z;
  BulkAPIMaxRequestsPerMin : Z
}.

Record Config := mkConfig {
  Env : string;
  LogLevel : string;
  SMTPListenAddr : string;
  SMTPDomain : string;
  SMTPAuthUsername : string;
  SMTPAuthPassword : string;
  SMTPTLSCertFile : string;
  SMTPTLSKeyFile : string;
  SMTPAllowInsecureAuth : bool;
  SMTPRequireSTARTTLS : bool;
  SMTPMaxMessageBytes : Z;
  SMTPMaxRecipients : Z;
  SMTPMaxConnections : Z;
  SMTPMaxConnectionsPerIP : Z;
  SMTPRateLimitPerIPPerMin : Z;
  SMTPAllowedSenderDomains : list string;
  HTTPListenAddr : string;
  DBPath : string;
  DBMaxOpenConns : Z;
  DBMaxIdleConns : Z;
  DispatcherWorkers : Z;
  QueueClaimLimit : Z;
  QueueLeaseTimeout : Z;
  BatchMaxCount : Z;
  BatchMaxBytes : Z;
  BatchFlushInterval : Z;
  RetryMaxAttempts : Z;
  RequeueStaleInterval : Z;
  MailersendAPIKey : string;
  MailersendBaseURL : string;
  MailersendTimeout : Z;
  MailersendEnableCustomHeaders : bool;
  MailersendAccountPlan : string;
  MailersendBulkAPISupported : bool;
  MailersendCustomHeadersSupported : bool;
  MailersendBulkAPIMaxMessagesPerRequest : Z;
  MailersendBulkAPIMaxRequestsPerMin : Z
}.

(** [time.ParseDuration] *)
Class DurationParser := { time_ParseDuration : string → option Z }.

Definition check (bad : bool) (msg : error) : result error unit :=
  if bad then Err msg else Ok tt.

Section config.
Context `{UnicodeCase, DurationParser}.

(** ** Plans *)

Definition MailerSendPlanTrial : string := "trial".
Definition MailerSendPlanFree : string := "free".
Definition MailerSendPlanHobby : string := "hobby".
Definition MailerSendPlanStarter : string := "starter".
Definition MailerSendPlanProfessional : string := "professional".
Definition MailerSendPlanEnterprise : string := "enterprise".

Definition resolveMailerSendAccountLimits (plan : string) : result error MailerSendAccountLimits :=
  if bool_decide (plan ∈ [MailerSendPlanTrial; MailerSendPlanFree])
  then Ok (mkLimits plan false false 500 10)
  else if bool_decide (plan ∈ [MailerSendPlanHobby; MailerSendPlanStarter])
  then Ok (mkLimits plan true false 500 10)
  else if bool_decide (plan ∈ [MailerSendPlanProfessional; MailerSendPlanEnterprise])
  then Ok (mkLimits plan true true 500 10)
  else Err ("MAILERSEND_ACCOUNT_PLAN must be one of " +:+ Quote MailerSendPlanTrial +:+ ", "
            +:+ Quote MailerSendPlanFree +:+ ", " +:+ Quote MailerSendPlanHobby +:+ ", "
            +:+ Quote MailerSendPlanStarter +:+ ", " +:+ Quote MailerSendPlanProfessional +:+ ", "
            +:+ Quote MailerSendPlanEnterprise)%string.

(** ** Reading the environment *)

Section env.
Context (os_Getenv : string → string).

Definition getenv (key def : string) : string :=
  let v := TrimSpace (os_Getenv key) in if is_empty v then def else v.

(** The getters with a default share their shape: a value that does not parse is ignored. *)
Definition getenv_with {A} (parse : string → option A) (key : string) (def : A) : A :=
  let v := TrimSpace (os_Getenv key) in
  if is_empty v then def else default def (parse v).

Definition getenvInt : string → Z → Z := getenv_with Atoi.
Definition getenvInt64 : string → Z → Z := getenv_with ParseInt64.
Definition getenvBool : string → bool → bool := getenv_with ParseBool.
Definition getenvDuration : string → Z → Z := getenv_with time_ParseDuration.

(** [None] when the variable is not set; a value that does not parse is an error. *)
Definition getenv_optional {A} (parse : string → option A) (what key : string)
    : result error (option A) :=
  let v := TrimSpace (os_Getenv key) in
  if is_empty v then Ok None else
  match parse v with
  | Some a => Ok (Some a)
  | None => Err (key +:+ " must be " +:+ what +:+ " value")
  end.

Definition getenvOptionalBool : string → result error (option bool) :=
  getenv_optional ParseBool "a boolean".
Definition getenvOptionalInt : string → result error (option Z) :=
  getenv_optional Atoi "an integer".

Definition loadMailerSendAccountLimitsFromEnv : result error MailerSendAccountLimits :=
  let plan := ToLower (TrimSpace (getenv "MAILERSEND_ACCOUNT_PLAN" MailerSendPlanStarter)) in
  limits ← resolveMailerSendAccountLimits plan;
  bulk ← getenvOptionalBool "MAILERSEND_BULK_API_SUPPORTED";
  headers ← getenvOptionalBool "MAILERSEND_CUSTOM_HEADERS_SUPPORTED";
  messages ← getenvOptionalInt "MAILERSEND_BULK_API_MAX_MESSAGES_PER_REQUEST";
  requests ← getenvOptionalInt "MAILERSEND_BULK_API_MAX_REQUESTS_PER_MIN";
  Ok (mkLimits (Plan limits)
        (default (BulkAPISupported limits) bulk)
        (default (CustomHeadersSupported limits) headers)
        (default (BulkAPIMaxMessagesPerRequest limits) messages)
        (default (BulkAPIMaxRequestsPerMin limits) requests)).

Definition splitCSV (v : string) : list string :=
  if is_empty (TrimSpace v) then [] else
  List.filter (λ p, negb (is_empty p)) ((λ part, ToLower (TrimSpace part)) <$> Split v ","%char).

Definition config_of_env (limits : MailerSendAccountLimits) : Config := {|
  Env := getenv "APP_ENV" "production";
  LogLevel := getenv "LOG_LEVEL" "info";
  SMTPListenAddr := getenv "SMTP_LISTEN_ADDR" ":2525";
  SMTPDomain := getenv "SMTP_DOMAIN" "localhost";
  SMTPAuthUsername := getenv "SMTP_AUTH_USERNAME" empty;
  SMTPAuthPassword := getenv "SMTP_AUTH_PASSWORD" empty;
  SMTPTLSCertFile := getenv "SMTP_TLS_CERT_FILE" empty;
  SMTPTLSKeyFile := getenv "SMTP_TLS_KEY_FILE" empty;
  SMTPAllowInsecureAuth := getenvBool "SMTP_ALLOW_INSECURE_AUTH" false;
  SMTPRequireSTARTTLS := getenvBool "SMTP_REQUIRE_STARTTLS" true;
  SMTPMaxMessageBytes := getenvInt64 "SMTP_MAX_MESSAGE_BYTES" (8 * 1024 * 1024);
  SMTPMaxRecipients := getenvInt "SMTP_MAX_RECIPIENTS" 1000;
  SMTPMaxConnections := getenvInt "SMTP_MAX_CONNECTIONS" 200;
  SMTPMaxConnectionsPerIP := getenvInt "SMTP_MAX_CONNECTIONS_PER_IP" 20;
  SMTPRateLimitPerIPPerMin := getenvInt "SMTP_RATE_LIMIT_PER_IP_PER_MIN" 600;
  SMTPAllowedSenderDomains := splitCSV (getenv "SMTP_ALLOWED_SENDER_DOMAINS" empty);
  HTTPListenAddr := getenv "HTTP_LISTEN_ADDR" ":8080";
  DBPath := getenv "SQLITE_PATH" "./data/relay.db";
  DBMaxOpenConns := getenvInt "SQLITE_MAX_OPEN_CONNS" 1;
  DBMaxIdleConns := getenvInt "SQLITE_MAX_IDLE_CONNS" 1;
  DispatcherWorkers := getenvInt "DISPATCHER_WORKERS" 4;
  QueueClaimLimit := getenvInt "QUEUE_CLAIM_LIMIT" 1000;
  QueueLeaseTimeout := getenvDuration "QUEUE_LEASE_TIMEOUT" (30 * Second);
  BatchMaxCount := getenvInt "BATCH_MAX_COUNT" 500;
  BatchMaxBytes := getenvInt "BATCH_MAX_BYTES" (5 * 1024 * 1024);
  BatchFlushInterval := getenvDuration "BATCH_FLUSH_INTERVAL" (250 * Millisecond);
  RetryMaxAttempts := getenvInt "RETRY_MAX_ATTEMPTS" 8;
  RequeueStaleInterval := getenvDuration "REQUEUE_STALE_INTERVAL" (30 * Second);
  MailersendAPIKey := getenv "MAILERSEND_API_KEY" empty;
  MailersendBaseURL := getenv "MAILERSEND_BASE_URL" "https://api.mailersend.com/v1";
  MailersendTimeout := getenvDuration "MAILERSEND_TIMEOUT" (20 * Second);
  MailersendEnableCustomHeaders := getenvBool "MAILERSEND_ENABLE_CUSTOM_HEADERS" false;
  MailersendAccountPlan := Plan limits;
  MailersendBulkAPISupported := BulkAPISupported limits;
  MailersendCustomHeadersSupported := CustomHeadersSupported limits;
  MailersendBulkAPIMaxMessagesPerRequest := BulkAPIMaxMessagesPerRequest limits;
  MailersendBulkAPIMaxRequestsPerMin := BulkAPIMaxRequestsPerMin limits
|}%string.
End env.

(** ** Validation *)

Definition ValidateCommon (c : Config) : result error unit :=
  check (SMTPMaxMessageBytes c <=? 0) "SMTP_MAX_MESSAGE_BYTES must be > 0";;
  check (SMTPMaxRecipients c <=? 0) "SMTP_MAX_RECIPIENTS must be > 0";;
  check (SMTPMaxConnections c <? 1) "SMTP_MAX_CONNECTIONS must be >= 1";;
  check (SMTPMaxConnectionsPerIP c <? 1) "SMTP_MAX_CONNECTIONS_PER_IP must be >= 1";;
  check (SMTPRateLimitPerIPPerMin c <? 1) "SMTP_RATE_LIMIT_PER_IP_PER_MIN must be >= 1";;
  check (is_empty (DBPath c)) "SQLITE_PATH is required";;
  check (DispatcherWorkers c <? 1) "DISPATCHER_WORKERS must be >= 1";;
  check (QueueClaimLimit c <? 1) "QUEUE_CLAIM_LIMIT must be >= 1";;
  check ((BatchMaxCount c <? 1) || (500 <? BatchMaxCount c))
    "BATCH_MAX_COUNT must be in range [1,500]";;
  check (BatchMaxBytes c <? 1024) "BATCH_MAX_BYTES must be >= 1024";;
  check (BatchFlushInterval c <=? 0) "BATCH_FLUSH_INTERVAL must be > 0";;
  check (RetryMaxAttempts c <? 1) "RETRY_MAX_ATTEMPTS must be >= 1";;
  check (QueueLeaseTimeout c <=? 0) "QUEUE_LEASE_TIMEOUT must be > 0";;
  check (MailersendTimeout c <=? 0) "MAILERSEND_TIMEOUT must be > 0";;
  check ((MailersendBulkAPIMaxMessagesPerRequest c <? 1)
         || (500 <? MailersendBulkAPIMaxMessagesPerRequest c))
    "MAILERSEND_BULK_API_MAX_MESSAGES_PER_REQUEST must be in range [1,500]";;
  check (MailersendBulkAPIMaxRequestsPerMin c <? 1)
    "MAILERSEND_BULK_API_MAX_REQUESTS_PER_MIN must be >= 1".

Definition ValidateServe (c : Config) : result error unit :=
  check (is_empty (SMTPAuthUsername c) || is_empty (SMTPAuthPassword c))
    "SMTP_AUTH_USERNAME and SMTP_AUTH_PASSWORD are required";;
  check (bool_decide (SMTPAllowedSenderDomains c = []))
    "SMTP_ALLOWED_SENDER_DOMAINS must not be empty";;
  check (SMTPRequireSTARTTLS c && (is_empty (SMTPTLSCertFile c) || is_empty (SMTPTLSKeyFile c)))
    "SMTP_TLS_CERT_FILE and SMTP_TLS_KEY_FILE are required when SMTP_REQUIRE_STARTTLS=true";;
  check (is_empty (MailersendAPIKey c)) "MAILERSEND_API_KEY is required";;
  check (negb (MailersendBulkAPISupported c))
    ("configured MAILERSEND_ACCOUNT_PLAN=" +:+ Quote (MailersendAccountPlan c) +:+
     " does not support bulk email; this relay is bulk-only and free/trial plans need a future non-bulk sender");;
  check (MailersendEnableCustomHeaders c && negb (MailersendCustomHeadersSupported c))
    ("MAILERSEND_ENABLE_CUSTOM_HEADERS=true requires a MailerSend plan with custom headers support; effective plan is "
     +:+ Quote (MailersendAccountPlan c)).

Definition LoadFromEnv (os_Getenv : string → string) : result error Config :=
  limits ← loadMailerSendAccountLimitsFromEnv os_Getenv;
  let cfg := config_of_env os_Getenv limits in
  ValidateCommon cfg;;
  Ok cfg.

Definition EffectiveBatchMaxCount (c : Config) : Z :=
  if BatchMaxCount c <? MailersendBulkAPIMaxMessagesPerRequest c
  then BatchMaxCount c else MailersendBulkAPIMaxMessagesPerRequest c.
End config.
