(* ===== verification/ConfigProps.v ===== *)
(** * The properties of the configuration, and the dispatcher's configuration
    that [runServe] of [cmd/relay/main.go] derives from it. *)

From S2P Require Import Prelude GoStrings Message SqlTime Queue Reference Dispatch Config.

(** The [dispatch.Config] of [runServe]. *)
Definition dispatch_config (c : Config.Config) : Dispatch.Config :=
  Dispatch.mkConfig (DispatcherWorkers c) (Config.QueueClaimLimit c) (Config.QueueLeaseTimeout c)
    (EffectiveBatchMaxCount c) (Config.BatchMaxBytes c) (Config.BatchFlushInterval c)
    (Config.RetryMaxAttempts c) (RequeueStaleInterval c) (2 * Second).

(** ** Lemmas *)

Lemma check_ok bad msg u : check bad msg = Ok u → bad = false.
Proof. unfold check. by destruct bad. Qed.

Lemma check_seq {A} bad msg (k : result error A) a :
  (check bad msg;; k) = Ok a → bad = false ∧ k = Ok a.
Proof. unfold check. by destruct bad. Qed.

(** Read the checks of a successful validation. *)
Ltac checks H :=
  repeat match type of H with
         | (check _ _;; _) = Ok _ => let E := fresh "V" in apply check_seq in H as [E H]
         | check _ _ = Ok _ => apply check_ok in H
         end.

Lemma is_empty_bool s : is_empty s = bool_decide (s = empty).
Proof. destruct s; [done|]. by rewrite bool_decide_eq_false_2. Qed.

Section split.
Context (sep : ascii).

Lemma split_chars_app acc l k :
  sep ∉ l → split_chars sep acc (l ++ sep :: k) = rev (rev l ++ acc) :: split_chars sep [] k.
Proof.
  revert acc. induction l as [|c l IH]; intros acc Hl; cbn.
  - by rewrite Ascii.eqb_refl.
  - apply not_elem_of_cons in Hl as [Hc Hl]. rewrite (proj2 (Ascii.eqb_neq c sep)) by done.
    rewrite IH by done. by rewrite <- app_assoc.
Qed.

Lemma split_chars_last acc l : sep ∉ l → split_chars sep acc l = [rev (rev l ++ acc)].
Proof.
  revert acc. induction l as [|c l IH]; intros acc Hl; cbn; [done|].
  apply not_elem_of_cons in Hl as [Hc Hl]. rewrite (proj2 (Ascii.eqb_neq c sep)) by done.
  rewrite IH by done. by rewrite <- app_assoc.
Qed.

(** The pieces joined with the separator. *)
Fixpoint join_chars (ps : list (list ascii)) : list ascii :=
  match ps with
  | [] => []
  | [p] => p
  | p :: ps' => p ++ sep :: join_chars ps'
  end.

Lemma split_join p ps :
  Forall (λ q, sep ∉ q) (p :: ps) → split_chars sep [] (join_chars (p :: ps)) = p :: ps.
Proof.
  revert p. induction ps as [|q ps IH]; intros p [Hp Hps]%Forall_cons.
  - cbn. rewrite split_chars_last by done. by rewrite app_nil_r, rev_involutive.
  - change (join_chars (p :: q :: ps)) with (p ++ sep :: join_chars (q :: ps)).
    rewrite split_chars_app, IH by done. by rewrite app_nil_r, rev_involutive.
Qed.
End split.

Definition comma_list (ds : list string) : string :=
  of_chars (join_chars ","%char (chars <$> ds)).

Section config_properties.
Context {UC : UnicodeCase} {DP : DurationParser}.

(** An entry as [splitCSV] leaves it. *)
Definition csv_entry (d : string) : Prop :=
  d ≠ empty ∧ (","%char ∉ chars d) ∧ ToLower (TrimSpace d) = d.

Lemma ToLower_empty : ToLower empty = empty.
Proof. reflexivity. Qed.

Lemma comma_list_nonempty d ds :
  Forall csv_entry (d :: ds) → TrimSpace (comma_list (d :: ds)) ≠ empty.
Proof.
  intros [(Hne & _ & Hd) _]%Forall_cons. unfold comma_list. destruct ds as [|d' ds].
  - change (join_chars _ _) with (chars d). rewrite of_chars_chars. intros He.
    by rewrite He, ToLower_empty in Hd.
  - apply (TrimSpace_nonempty ","%char); [|done..]. rewrite chars_of_chars.
    change (join_chars _ _) with (chars d ++ (","%char : ascii) :: join_chars ","%char (chars <$> d' :: ds)).
    apply elem_of_app. right. left.
Qed.

(** A comma-separated list of trimmed, lower-case, non-empty entries is read
    back as it was written, and whatever [splitCSV] reads has no empty entry
    and only entries that are lower-case images of trimmed parts. *)
Theorem split_csv_roundtrip ds v :
  Forall csv_entry ds →
  splitCSV (comma_list ds) = ds
  ∧ ∀ d, d ∈ splitCSV v → d ≠ empty ∧ ∃ part, part ∈ Split v ","%char ∧ d = ToLower (TrimSpace part).
Proof.
  intros Hds. split.
  - destruct ds as [|d ds]; [done|]. unfold splitCSV.
    rewrite (proj2 (is_empty_false _)) by by apply comma_list_nonempty.
    unfold Split, comma_list. rewrite chars_of_chars, fmap_cons, split_join.
    2: { rewrite <- fmap_cons. apply Forall_fmap. eapply Forall_impl; [exact Hds|].
         by intros x (_ & ? & _). }
    rewrite <- fmap_cons, <- !list_fmap_compose. rewrite (list_fmap_ext _ id).
    + rewrite list_fmap_id. induction Hds as [|x l (Hx & _) _ IH]; [done|].
      cbn. rewrite (proj2 (is_empty_false x)) by done. cbn. by rewrite IH.
    + intros i x Hx. cbn. rewrite of_chars_chars.
      rewrite Forall_lookup in Hds. by destruct (Hds i x Hx) as (_ & _ & ?).
  - intros d. unfold splitCSV. destruct (is_empty (TrimSpace v)); [by intros ?%elem_of_nil|].
    rewrite list_elem_of_In, filter_In, <- list_elem_of_In, negb_true_iff, is_empty_false.
    intros [(part & -> & Hpart)%list_elem_of_fmap Hd]. split; [done|]. by exists part.
Qed.

(** C35: every configuration that loads is within its bounds, whatever the
    environment: sizes, counts and workers are positive, the batch limits hold
    after the plan's limit is applied, and the dispatcher is configured with
    an effective batch size between 1 and 500 that exceeds neither limit. *)
Theorem load_from_env_bounds env c :
  LoadFromEnv env = Ok c →
  0 < SMTPMaxMessageBytes c ∧ 0 < SMTPMaxRecipients c
  ∧ 1 ≤ SMTPMaxConnections c ∧ 1 ≤ SMTPMaxConnectionsPerIP c ∧ 1 ≤ SMTPRateLimitPerIPPerMin c
  ∧ DBPath c ≠ empty
  ∧ 1 ≤ Workers (dispatch_config c) ∧ 1 ≤ Dispatch.QueueClaimLimit (dispatch_config c)
  ∧ 0 < Dispatch.QueueLeaseTimeout (dispatch_config c) ∧ 0 < Dispatch.BatchFlushInterval (dispatch_config c)
  ∧ 1024 ≤ Dispatch.BatchMaxBytes (dispatch_config c) ∧ 1 ≤ Dispatch.RetryMaxAttempts (dispatch_config c)
  ∧ 1 ≤ Dispatch.BatchMaxCount (dispatch_config c) ≤ 500
  ∧ Dispatch.BatchMaxCount (dispatch_config c)
    = Z.min (Config.BatchMaxCount c) (MailersendBulkAPIMaxMessagesPerRequest c)
  ∧ 0 < MailersendTimeout c
  ∧ 1 ≤ MailersendBulkAPIMaxRequestsPerMin c
  ∧ ∃ interval, NewRequestLimiter (MailersendBulkAPIMaxRequestsPerMin c) = Some interval
                ∧ 0 ≤ interval ≤ Minute.
Proof.
  unfold LoadFromEnv. intros (limits & _ & H)%bind_ok. cbn zeta in H.
  set (cfg := config_of_env env limits) in *. apply bind_ok in H as ([] & H & [= <-]).
  unfold ValidateCommon in H. checks H. bool_to_prop.
  unfold dispatch_config, EffectiveBatchMaxCount. cbn [Workers Dispatch.QueueClaimLimit
    Dispatch.QueueLeaseTimeout Dispatch.BatchFlushInterval Dispatch.BatchMaxBytes
    Dispatch.RetryMaxAttempts Dispatch.BatchMaxCount].
  assert (Heff : (if Config.BatchMaxCount cfg <? MailersendBulkAPIMaxMessagesPerRequest cfg
          then Config.BatchMaxCount cfg else MailersendBulkAPIMaxMessagesPerRequest cfg)
    = Z.min (Config.BatchMaxCount cfg) (MailersendBulkAPIMaxMessagesPerRequest cfg)).
  { destruct (_ <? _) eqn:E; bool_to_prop; lia. }
  rewrite Heff. split_and!; try lia; try done.
  - by apply is_empty_false.
  - unfold NewRequestLimiter. rewrite (proj2 (Z.leb_gt _ 0)) by lia. eexists. split; [done|].
    rewrite Z.quot_div_nonneg by (unfold Minute, Second; lia). split.
    + apply Z.div_pos; unfold Minute, Second; lia.
    + apply Z.div_le_upper_bound; unfold Minute, Second; nia.
Qed.

(** [ValidateServe] accepts exactly the configurations that are safe to
    serve: both credentials set, a sender domain allowed, certificate and key
    present when STARTTLS is required, an API key, a plan with the bulk API,
    and custom headers only on a plan that has them. *)
Theorem validate_serve_iff c :
  ValidateServe c = Ok tt ↔
  SMTPAuthUsername c ≠ empty ∧ SMTPAuthPassword c ≠ empty
  ∧ SMTPAllowedSenderDomains c ≠ []
  ∧ (SMTPRequireSTARTTLS c = true → SMTPTLSCertFile c ≠ empty ∧ SMTPTLSKeyFile c ≠ empty)
  ∧ MailersendAPIKey c ≠ empty ∧ MailersendBulkAPISupported c = true
  ∧ (MailersendEnableCustomHeaders c = true → MailersendCustomHeadersSupported c = true).
Proof.
  unfold ValidateServe. split.
  - intros H. checks H. bool_to_prop.
    repeat match goal with E : is_empty _ = false |- _ => apply is_empty_false in E end.
    split_and!; try done.
    + intros Hs. destruct V1 as [V1|V1]; [congruence|]. bool_to_prop.
      by rewrite <- !is_empty_false.
    + intros Hs. destruct H as [H|H]; [congruence|]. by bool_to_prop.
  - intros (Hu & Hp & Hd & Ht & Hk & Hb & Hc).
    apply is_empty_false in Hu, Hp, Hk. rewrite Hu, Hp, Hk, Hb, bool_decide_eq_false_2 by done.
    cbn. destruct (SMTPRequireSTARTTLS c); cbn.
    + destruct Ht as [H1%is_empty_false H2%is_empty_false]; [done|]. rewrite H1, H2. cbn.
      destruct (MailersendEnableCustomHeaders c); [by rewrite Hc|done].
    + destruct (MailersendEnableCustomHeaders c); [by rewrite Hc|done].
Qed.

Lemma validate_serve_checks c : ValidateServe c = Ok tt → MailersendBulkAPISupported c = true.
Proof. unfold ValidateServe. intros H. checks H. by bool_to_prop. Qed.

(** Without an override of the bulk API the trial and free plans do not serve. *)
Lemma plan_of_limits plan l :
  resolveMailerSendAccountLimits plan = Ok l →
  Plan l = plan ∧ BulkAPISupported l = negb (bool_decide (plan ∈ [MailerSendPlanTrial; MailerSendPlanFree])).
Proof.
  unfold resolveMailerSendAccountLimits. repeat case_bool_decide; intros [= <-]; done.
Qed.

(** The trial and free plans are refused unless MAILERSEND_BULK_API_SUPPORTED
    overrides the plan's table. *)
Theorem unsupported_plans_do_not_serve env c :
  LoadFromEnv env = Ok c → TrimSpace (env "MAILERSEND_BULK_API_SUPPORTED"%string) = empty →
  ToLower (TrimSpace (getenv env "MAILERSEND_ACCOUNT_PLAN" MailerSendPlanStarter))
    ∈ [MailerSendPlanTrial; MailerSendPlanFree] →
  is_ok (ValidateServe c) = false.
Proof.
  unfold LoadFromEnv. intros (limits & Hl & H)%bind_ok Henv Hplan. cbn zeta in H.
  apply bind_ok in H as ([] & _ & [= <-]).
  unfold loadMailerSendAccountLimitsFromEnv in Hl.
  apply bind_ok in Hl as (l & [_ Hb]%plan_of_limits & Hl).
  apply bind_ok in Hl as (bulk & Hbulk & Hl).
  assert (bulk = None) as ->.
  { unfold getenvOptionalBool, getenv_optional in Hbulk. rewrite Henv in Hbulk.
    by injection Hbulk as <-. }
  apply bind_ok in Hl as (? & _ & Hl). apply bind_ok in Hl as (? & _ & Hl).
  apply bind_ok in Hl as (? & _ & [= <-]).
  apply not_true_iff_false. intros Hok. destruct (ValidateServe _) as [[]|e] eqn:E; [|done].
  apply validate_serve_checks in E. cbn in E. rewrite Hb, bool_decide_eq_true_2 in E by done. done.
Qed.
End config_properties.

(** ** A configuration that passes every check and still stops the process *)

(** The environment of a served relay that sets REQUEUE_STALE_INTERVAL to [interval]. *)
Definition demo_env (interval key : string) : string :=
  (if key =? "REQUEUE_STALE_INTERVAL" then interval
   else if key =? "SMTP_AUTH_USERNAME" then "relay"
   else if key =? "SMTP_AUTH_PASSWORD" then "secret"
   else if key =? "SMTP_TLS_CERT_FILE" then "tls.crt"
   else if key =? "SMTP_TLS_KEY_FILE" then "tls.key"
   else if key =? "SMTP_ALLOWED_SENDER_DOMAINS" then " Example.com, ,example.org "
   else if key =? "MAILERSEND_API_KEY" then "key"
   else empty)%string.

(** Validation misses the requeue interval: with REQUEUE_STALE_INTERVAL=0s
    and otherwise proper settings the configuration loads and passes
    [ValidateServe], and the requeue loop it starts panics in
    [time.NewTicker]; the depth loop of every configuration starts. *)
Theorem zero_requeue_interval_panics {UC : UnicodeCase} {JC : JSONCodec} {SE : SqlEngine}
    {TD : TimeDriver} {DP : DurationParser} nows ticks :
  time_ParseDuration "0s" = Some 0 →
  ∃ c, LoadFromEnv (demo_env "0s") = Ok c ∧ ValidateServe c = Ok tt
    ∧ requeueStaleLoop (dispatch_config c) nows = None
    ∧ ∀ c', is_Some (queueDepthLoop (dispatch_config c') ticks).
Proof.
  intros Hd.
  assert (is_ok (LoadFromEnv (demo_env "0s")) = true) as Hok by by vm_compute.
  destruct (LoadFromEnv (demo_env "0s")) as [c|e] eqn:E; [|done].
  exists c. apply bind_ok in E as (l & Hl & E). cbn zeta in E.
  apply bind_ok in E as (u & _ & [= <-]).
  assert (loadMailerSendAccountLimitsFromEnv (demo_env "0s")
    = Ok (mkLimits MailerSendPlanStarter true false 500 10)) as Hl' by by vm_compute.
  rewrite Hl' in Hl. injection Hl as <-. split; [done|]. split; [by vm_compute|]. split.
  - unfold requeueStaleLoop, dispatch_config. cbn [RequeueStaleEvery].
    assert (RequeueStaleInterval (config_of_env (demo_env "0s")
      (mkLimits MailerSendPlanStarter true false 500 10)) = 0) as ->; [|done].
    unfold config_of_env. cbn [RequeueStaleInterval]. unfold getenvDuration, getenv_with.
    change (TrimSpace (demo_env "0s" "REQUEUE_STALE_INTERVAL")) with "0s"%string. cbn. by rewrite Hd.
  - intros c'. by eexists.
Qed.

(** ** Witnesses *)

Definition ref_durations : DurationParser :=
  {| time_ParseDuration := λ s, if (s =? "0s")%string then Some 0 else None |}.

#[local] Existing Instances ref_unicode ref_codec ref_engine ref_driver ref_durations.

Lemma zero_requeue_interval_panics_witness :
  ∃ c, LoadFromEnv (demo_env "0s") = Ok c ∧ requeueStaleLoop (dispatch_config c) [1; 2] = None.
Proof.
  destruct (zero_requeue_interval_panics [1; 2] []) as (c & Hc & _ & Hr & _); [done|].
  by exists c.
Defined.

Lemma load_from_env_bounds_witness :
  ∃ c, LoadFromEnv (demo_env empty) = Ok c ∧ 1 ≤ Dispatch.BatchMaxCount (dispatch_config c) ≤ 500.
Proof.
  destruct (LoadFromEnv (demo_env empty)) as [c|e] eqn:E; [|by vm_compute in E].
  exists c. split; [done|]. by apply (load_from_env_bounds (demo_env empty)).
Defined.

Lemma unsupported_plans_do_not_serve_witness :
  ∃ c, LoadFromEnv (λ key, if (key =? "MAILERSEND_ACCOUNT_PLAN")%string then " Trial" else demo_env empty key)%string = Ok c
       ∧ is_ok (ValidateServe c) = false.
Proof.
  destruct (LoadFromEnv _) as [c|e] eqn:E; [|by vm_compute in E].
  exists c. split; [done|]. eapply unsupported_plans_do_not_serve; [exact E|done|].
  apply (bool_decide_unpack _). by vm_compute.
Defined.

Lemma split_csv_roundtrip_witness :
  splitCSV (comma_list ["example.com"; "example.org"]) = ["example.com"; "example.org"]%string
  ∧ splitCSV " Example.com, ,example.org " = ["example.com"; "example.org"]%string.
Proof.
  split; [|by vm_compute].
  apply (split_csv_roundtrip ["example.com"; "example.org"]%string empty).
  repeat constructor; first [done | by vm_compute | apply (bool_decide_unpack _); by vm_compute].
Defined.
