(* ===== verification/Smtp.v ===== *)
(** * The SMTP front end: [internal/smtpserver/server.go].

    The handlers that the go-smtp server calls on a session are functions on a
    world made of the session, the backend it shares with the others, the
    queue and the metrics; an error is the SMTP reply. Address parsing, the
    rate limiter and the transformer are parameters. *)

From S2P Require Import Prelude GoStrings Message SqlTime Queue Metrics Config.

(** The errors a handler returns: an [*smtp.SMTPError] of its own or one of go-smtp's. *)
Inductive smtp_error :=
| SMTPError (Code : Z) (EnhancedCode : Z * Z * Z) (message : string)
| ErrAuthRequired
| ErrAuthFailed
| ErrAuthUnknownMechanism.

#[export] Instance smtp_error_eq_dec : EqDecision smtp_error.
Proof. solve_decision. Defined.

(** [net/mail.ParseAddress] (a name and an address) and [net.SplitHostPort] (the host). *)
Class NetLib := {
  mail_ParseAddress : string → result error Contact;
  net_SplitHostPort : string → option string
}.

(** A rate limiter of golang.org/x/time/rate: [NewLimiter] from its interval and burst,
    and [Allow] at a clock reading. *)
Class RateLimiter (L : Type) := {
  NewLimiter : Z → Z → L;
  Allow : Z → L → bool * L
}.

(** The [Transformer] interface. *)
Class Transformer := {
  transform : string → list string → string → result error (list (option Message))
}.

Record Backend (L : Type) := mkBackend {
  allowedDomains : gset string;
  connTokens : Z;                (* the tokens in the channel, whose capacity is SMTPMaxConnections *)
  perIPConn : gmap string Z;
  perIPLimiter : gmap string L
}.
Arguments mkBackend {L}.
Arguments allowedDomains {L}.
Arguments connTokens {L}.
Arguments perIPConn {L}.
Arguments perIPLimiter {L}.

Record Session := mkSession {
  ip : string;
  authed : bool;
  envelopeFrom : string;
  recipients : list string;
  releasedToken : bool
}.

Record sworld (L : Type) := mkSworld {
  sw_session : Session;
  sw_backend : Backend L;
  sw_store : store;
  sw_metrics : Metrics
}.
Arguments mkSworld {L}.
Arguments sw_session {L}.
Arguments sw_backend {L}.
Arguments sw_store {L}.
Arguments sw_metrics {L}.

Section smtp.
Context `{UnicodeCase, JSONCodec, NetLib, Transformer}.
Context {L : Type} `{RateLimiter L}.
Context (cfg : Config).

(** A handler: the reply ([None] for success) and the world it leaves. *)
Abbreviation handler := (sworld L → option smtp_error * sworld L).

Definition set_session (s : Session) (w : sworld L) : sworld L :=
  mkSworld s (sw_backend w) (sw_store w) (sw_metrics w).
Definition set_backend (b : Backend L) (w : sworld L) : sworld L :=
  mkSworld (sw_session w) b (sw_store w) (sw_metrics w).
Definition set_metrics (f : Metrics → Metrics) (w : sworld L) : sworld L :=
  mkSworld (sw_session w) (sw_backend w) (sw_store w) (f (sw_metrics w)).

Definition reply (e : smtp_error) : handler := λ w, (Some e, w).

(** [SMTPRejectedMessages.WithLabelValues(reason).Inc()] and the reply. *)
Definition reject (reason : string) (e : smtp_error) : handler :=
  λ w, (Some e, set_metrics (inc_rejected reason) w).

(** ** The backend *)

Definition NewBackend : Backend L :=
  mkBackend (list_to_set ((λ d, ToLower (TrimSpace d)) <$> SMTPAllowedSenderDomains cfg)) 0 ∅ ∅.

Definition with_tokens (n : Z) (b : Backend L) : Backend L :=
  mkBackend (allowedDomains b) n (perIPConn b) (perIPLimiter b).

(** The first [select] of [acquire]: send to the channel, if it has room. *)
Definition take_token (b : Backend L) : option (Backend L) :=
  if connTokens b <? SMTPMaxConnections cfg
  then Some (with_tokens (connTokens b + 1) b) else None.

(** The part of [acquire] under the mutex. *)
Definition acquire_locked (now : Z) (addr : string) (b : Backend L) : bool * Backend L :=
  let limiter := match perIPLimiter b !! addr with
                 | Some l => l
                 | None => NewLimiter (Z.quot Minute (SMTPRateLimitPerIPPerMin cfg))
                             (SMTPRateLimitPerIPPerMin cfg)
                 end in
  let '(allowed, limiter') := Allow now limiter in
  let b := mkBackend (allowedDomains b) (connTokens b) (perIPConn b)
             (<[addr := limiter']> (perIPLimiter b)) in
  if negb allowed then (false, with_tokens (connTokens b - 1) b) else
  let cur := default 0 (perIPConn b !! addr) in
  if SMTPMaxConnectionsPerIP cfg <=? cur then (false, with_tokens (connTokens b - 1) b) else
  (true, mkBackend (allowedDomains b) (connTokens b) (<[addr := cur + 1]> (perIPConn b))
           (perIPLimiter b)).

Definition acquire (now : Z) (addr : string) (b : Backend L) : bool * Backend L :=
  match take_token b with
  | None => (false, b)
  | Some b' => acquire_locked now addr b'
  end.

(** The first [select] of [release]: receive from the channel, if it has a token. *)
Definition return_token (b : Backend L) : Backend L :=
  if 0 <? connTokens b then with_tokens (connTokens b - 1) b else b.

(** The part of [release] under the mutex. *)
Definition release_locked (addr : string) (b : Backend L) : Backend L :=
  let n := default 0 (perIPConn b !! addr) in
  mkBackend (allowedDomains b) (connTokens b)
    (if 1 <? n then <[addr := n - 1]> (perIPConn b) else delete addr (perIPConn b))
    (perIPLimiter b).

Definition release (addr : string) (b : Backend L) : Backend L :=
  release_locked addr (return_token b).

(** [None] is a nil address. *)
Definition remoteIP (addr : option string) : string :=
  match addr with
  | None => "unknown"
  | Some a => match net_SplitHostPort a with Some host => host | None => a end
  end.

Definition NewSession (now : Z) (addr : option string) (b : Backend L)
    : result smtp_error Session * Backend L :=
  let host := remoteIP addr in
  let '(ok, b') := acquire now host b in
  if ok then (Ok (mkSession host false empty [] false), b')
  else (Err (SMTPError 421 (4, 7, 0) "Too busy, try again later"), b').

(** ** The session *)

(** What the server advertises. *)
Definition AuthMechanisms : list string := ["PLAIN"%string].

(** The mechanism check of [Auth]. *)
Definition Auth (mech : string) : result smtp_error unit :=
  if (ToUpper (TrimSpace mech) =? "PLAIN")%string then Ok tt else Err ErrAuthUnknownMechanism.

(** The callback that [Auth] gives to the PLAIN server. *)
Definition auth_plain (username password : string) : handler := λ w,
  if negb (username =? SMTPAuthUsername cfg)%string || negb (password =? SMTPAuthPassword cfg)%string
  then (Some ErrAuthFailed, set_metrics (λ m, inc_rejected "auth_failed" (inc_auth_failures m)) w)
  else
    let s := sw_session w in
    (None, set_session (mkSession (ip s) true (envelopeFrom s) (recipients s) (releasedToken s)) w).

Definition senderDomain (email : string) : string :=
  match after_last "@" email with
  | None => empty
  | Some rest => ToLower (TrimSpace rest)
  end.

(** [tls] tells whether the connection has a TLS state. *)
Definition Mail (tls : bool) (from : string) : handler := λ w,
  let s := sw_session w in
  if SMTPRequireSTARTTLS cfg && negb tls then
    reject "starttls_required" (SMTPError 530 (5, 7, 0) "Must issue STARTTLS first") w
  else if negb (authed s) then
    reject "auth_required" (SMTPError 530 (5, 7, 0) "Authentication required") w
  else match mail_ParseAddress from with
  | Err _ => reject "invalid_sender" (SMTPError 550 (5, 1, 7) "Invalid MAIL FROM address") w
  | Ok addr =>
      if bool_decide (senderDomain (Email addr) ∈ allowedDomains (sw_backend w)) then
        (None, set_session (mkSession (ip s) (authed s) (Email addr) [] (releasedToken s)) w)
      else
        reject "sender_domain_not_allowed" (SMTPError 550 (5, 7, 1) "Sender domain not allowed") w
  end.

Definition Rcpt (to : string) : handler := λ w,
  let s := sw_session w in
  if negb (authed s) then reject "auth_required" ErrAuthRequired w
  else if is_empty (envelopeFrom s) then
    reply (SMTPError 503 (5, 5, 1) "Need MAIL FROM first") w
  else match mail_ParseAddress to with
  | Err _ => reject "invalid_recipient" (SMTPError 550 (5, 1, 3) "Invalid RCPT TO address") w
  | Ok addr =>
      (None, set_session (mkSession (ip s) (authed s) (envelopeFrom s)
                            (recipients s ++ [Email addr]) (releasedToken s)) w)
  end.

(** The reader delivers [content] and then ends, or fails with [readErr]; [now] and
    [ulid] are what the enqueue draws. *)
Definition Data (content : string) (readErr : option error) (now : Z) (ulid : nat → string)
    : handler := λ w,
  let s := sw_session w in
  if negb (authed s) then reject "auth_required" ErrAuthRequired w
  else if is_empty (envelopeFrom s) || bool_decide (recipients s = []) then
    reply (SMTPError 503 (5, 5, 1) "Need MAIL FROM and RCPT TO first") w
  else match ReadAllLimited (wrap64 (SMTPMaxMessageBytes cfg + 1)) content readErr with
  | Err _ => reject "read_error" (SMTPError 451 (4, 3, 0) "Read message failed") w
  | Ok raw =>
      if SMTPMaxMessageBytes cfg <? slen raw then
        reject "message_too_large" (SMTPError 552 (5, 3, 4) "Message too large") w
      else match transform (envelopeFrom s) (recipients s) raw with
      | Err _ => reject "mime_parse_error" (SMTPError 554 (5, 6, 0) "Unable to parse message") w
      | Ok msgs =>
          let '(r, st) := EnqueueTx now ulid (envelopeFrom s) msgs (sw_store w) in
          let w := mkSworld s (sw_backend w) st (sw_metrics w) in
          match r with
          | Err _ => reject "queue_error" (SMTPError 451 (4, 3, 0) "Temporary queue failure") w
          | Ok _ => (None, set_metrics (add_accepted (zlen msgs)) w)
          end
      end
  end.

Definition Reset : handler := λ w,
  let s := sw_session w in
  (None, set_session (mkSession (ip s) (authed s) empty [] (releasedToken s)) w).

Definition Logout : handler := λ w,
  let s := sw_session w in
  if releasedToken s then (None, w) else
  (None, set_session (mkSession (ip s) (authed s) (envelopeFrom s) (recipients s) true)
           (set_backend (release (ip s) (sw_backend w)) w)).

(** ** The commands of a connection, in any order *)

Inductive command :=
| CmdAuth (mech username password : string)
| CmdMail (tls : bool) (from : string)
| CmdRcpt (to : string)
| CmdData (content : string) (readErr : option error) (now : Z) (ulid : nat → string)
| CmdReset
| CmdLogout.

Definition run_command (c : command) : handler := λ w,
  match c with
  | CmdAuth mech u p => match Auth mech with Err e => (Some e, w) | Ok _ => auth_plain u p w end
  | CmdMail tls from => Mail tls from w
  | CmdRcpt to => Rcpt to w
  | CmdData content err now ulid => Data content err now ulid w
  | CmdReset => Reset w
  | CmdLogout => Logout w
  end.

(** The replies of a sequence of commands and the world they leave. *)
Fixpoint run_session (cs : list command) (w : sworld L) : list (option smtp_error) * sworld L :=
  match cs with
  | [] => ([], w)
  | c :: rest =>
      let '(r, w1) := run_command c w in
      let '(rs, w2) := run_session rest w1 in
      (r :: rs, w2)
  end.
End smtp.
