(* ===== verification/Connections.v ===== *)
(** * Connection accounting under interleaving.

    [acquire] and [release] of [internal/smtpserver/server.go] are two steps
    each, one on the token channel and one under the mutex, and the sessions'
    goroutines interleave them in any order. A state records, next to the
    backend, which connections are between the two steps. *)

From S2P Require Import Prelude GoStrings Message SqlTime Queue Reference Config Smtp.
From stdpp Require Import gmultiset.
#[local] Open Scope Z_scope.

Record conn_state (L : Type) := mkConns {
  bk : Backend L;
  acquiring : gmultiset string;   (* hold a token, wait for the mutex of [acquire] *)
  live : gmultiset string;        (* sessions *)
  releasing : gmultiset string    (* have given the token back, wait for the mutex of [release] *)
}.
Arguments mkConns {L}.
Arguments bk {L}.
Arguments acquiring {L}.
Arguments live {L}.
Arguments releasing {L}.

Definition mult (x : string) (X : gmultiset string) : Z := Z.of_nat (multiplicity x X).
Definition msize (X : gmultiset string) : Z := Z.of_nat (size X).

Section connections.
Context `{UnicodeCase} {L : Type} `{RateLimiter L}.
Context (cfg : Config).

Inductive conn_step : conn_state L → conn_state L → Prop :=
| step_full b acq lv rel :
    take_token cfg b = None →
    conn_step (mkConns b acq lv rel) (mkConns b acq lv rel)
| step_token b b' acq lv rel addr :
    take_token cfg b = Some b' →
    conn_step (mkConns b acq lv rel) (mkConns b' (acq ⊎ {[+ addr +]}) lv rel)
| step_admit b b' acq lv rel addr now :
    acquire_locked cfg now addr b = (true, b') →
    conn_step (mkConns b (acq ⊎ {[+ addr +]}) lv rel) (mkConns b' acq (lv ⊎ {[+ addr +]}) rel)
| step_refuse b b' acq lv rel addr now :
    acquire_locked cfg now addr b = (false, b') →
    conn_step (mkConns b (acq ⊎ {[+ addr +]}) lv rel) (mkConns b' acq lv rel)
| step_logout b acq lv rel addr :
    conn_step (mkConns b acq (lv ⊎ {[+ addr +]}) rel)
              (mkConns (return_token b) acq lv (rel ⊎ {[+ addr +]}))
| step_released b acq lv rel addr :
    conn_step (mkConns b acq lv (rel ⊎ {[+ addr +]}))
              (mkConns (release_locked addr b) acq lv rel).

Definition init_conns : conn_state L := mkConns (NewBackend cfg) ∅ ∅ ∅.

(** The connections counted against an address. *)
Definition counted (s : conn_state L) (addr : string) : Z := mult addr (live s ⊎ releasing s).

Record conn_inv (s : conn_state L) : Prop := {
  inv_tokens : connTokens (bk s) = msize (acquiring s) + msize (live s);
  inv_capacity : connTokens (bk s) ≤ SMTPMaxConnections cfg;
  inv_counts : ∀ addr, perIPConn (bk s) !! addr
                 = if decide (counted s addr = 0) then None else Some (counted s addr);
  inv_per_ip : ∀ addr, counted s addr ≤ Z.max 0 (SMTPMaxConnectionsPerIP cfg)
}.

Lemma mult_singleton x y : mult x {[+ y +]} = if decide (x = y) then 1 else 0.
Proof. unfold mult. rewrite multiplicity_singleton. by case_decide. Qed.
Lemma mult_union x X Y : mult x (X ⊎ Y) = mult x X + mult x Y.
Proof. unfold mult. rewrite multiplicity_disj_union. lia. Qed.
Lemma msize_union X Y : msize (X ⊎ Y) = msize X + msize Y.
Proof. unfold msize. rewrite gmultiset_size_disj_union. lia. Qed.
Lemma msize_singleton x : msize {[+ x +]} = 1.
Proof. unfold msize. by rewrite gmultiset_size_singleton. Qed.
Lemma mult_nonneg x X : 0 ≤ mult x X.
Proof. unfold mult. lia. Qed.
Lemma msize_nonneg X : 0 ≤ msize X.
Proof. unfold msize. lia. Qed.

Ltac counting :=
  repeat rewrite ?mult_union, ?msize_union, ?mult_singleton, ?msize_singleton in *.

(** The per-address map after a count changes from [n] to [n']. *)
Lemma count_lookup (m : gmap string Z) addr n :
  m !! addr = (if decide (n = 0) then None else Some n) → default 0 (m !! addr) = n.
Proof. intros ->. by case_decide. Qed.

Lemma acquire_locked_spec now addr b ok b' :
  acquire_locked cfg now addr b = (ok, b') →
  let cur := default 0 (perIPConn b !! addr) in
  if ok then cur < SMTPMaxConnectionsPerIP cfg ∧ connTokens b' = connTokens b
             ∧ perIPConn b' = <[addr := cur + 1]> (perIPConn b)
  else connTokens b' = connTokens b - 1 ∧ perIPConn b' = perIPConn b.
Proof.
  unfold acquire_locked. destruct (Allow now _) as [allowed l]. cbn.
  destruct allowed; cbn; [|by intros [= <- <-]].
  destruct (_ <=? _) eqn:E; intros [= <- <-]; bool_to_prop; cbn; by split_and!.
Qed.

Definition counts (m : gmap string Z) (X : gmultiset string) : Prop :=
  ∀ x, m !! x = if decide (mult x X = 0) then None else Some (mult x X).

(** The mutex part of [release] takes one connection off the counts. *)
Lemma release_locked_counts addr (b : Backend L) lv rel :
  counts (perIPConn b) (lv ⊎ (rel ⊎ {[+ addr +]})) →
  counts (perIPConn (release_locked addr b)) (lv ⊎ rel).
Proof.
  intros Hn x. unfold release_locked. cbn. rewrite (count_lookup _ _ _ (Hn addr)).
  pose proof (mult_nonneg addr lv). pose proof (mult_nonneg addr rel).
  destruct (decide (x = addr)) as [->|Hx]; counting.
  - rewrite !(decide_True (P := addr = addr)) by done.
    destruct (1 <? _) eqn:E; bool_to_prop.
    + rewrite lookup_insert_eq, decide_False by lia. f_equal. lia.
    + rewrite lookup_delete_eq, decide_True by lia. done.
  - specialize (Hn x). counting. rewrite !(decide_False (P := x = addr)), Z.add_0_r in Hn by done.
    rewrite <- Hn. destruct (1 <? _); [by rewrite lookup_insert_ne|by rewrite lookup_delete_ne].
Qed.

Lemma conn_step_inv s s' : conn_inv s → conn_step s s' → conn_inv s'.
Proof.
  intros [Ht Hc Hn Hp] Hs. destruct Hs as
    [b acq lv rel Hf|b b' acq lv rel addr Hf|b b' acq lv rel addr now Ha
    |b b' acq lv rel addr now Ha|b acq lv rel addr|b acq lv rel addr];
    cbn in *; unfold counted in *; cbn in *.
  - done.
  - unfold take_token in Hf. destruct (_ <? _) eqn:E; [|done]. injection Hf as <-. bool_to_prop.
    split; unfold counted; cbn; counting; [lia..|done|done].
  - apply acquire_locked_spec in Ha as (Hcur & Htk & Hper). rewrite (count_lookup _ _ _ (Hn addr)) in *.
    split; unfold counted; cbn; rewrite ?Htk, ?Hper; counting; [lia..| |].
    + intros x. destruct (decide (x = addr)) as [->|Hx].
      * rewrite lookup_insert_eq. specialize (Hn addr). counting.
        pose proof (mult_nonneg addr lv). pose proof (mult_nonneg addr rel).
        rewrite !(decide_True (P := addr = addr)) by done.
        rewrite decide_False by lia. f_equal. lia.
      * rewrite lookup_insert_ne by done. rewrite Hn. counting. rewrite !(decide_False (P := x = addr)) by done.
        by rewrite Z.add_0_r.
    + intros x. specialize (Hp x). counting. case_decide; subst; lia.
  - apply acquire_locked_spec in Ha as [Htk Hper]. split; unfold counted; cbn; rewrite ?Htk, ?Hper; counting; [lia..|done|done].
  - assert (0 < connTokens b) as Hpos.
    { counting. pose proof (msize_nonneg acq). pose proof (msize_nonneg lv). lia. }
    unfold return_token. rewrite (proj2 (Z.ltb_lt _ _) Hpos).
    split; unfold counted; cbn; counting; [lia..| |].
    + intros x. rewrite Hn. counting.
      by replace (mult x lv + (mult x rel + (if decide (x = addr) then 1 else 0)))
        with (mult x lv + (if decide (x = addr) then 1 else 0) + mult x rel) by lia.
    + intros x. specialize (Hp x). counting. lia.
  - split; unfold counted; cbn; [done..| |].
    + by apply release_locked_counts.
    + intros x. specialize (Hp x). counting. destruct (decide (x = addr)); lia.
Qed.

(** The counts of every reachable state. *)
Lemma conn_steps_inv s : 0 ≤ SMTPMaxConnections cfg → rtc conn_step init_conns s → conn_inv s.
Proof.
  intros Hcap Hs. remember init_conns as s0 eqn:E. assert (conn_inv s0) as Hi.
  { assert (∀ addr, counted init_conns addr = 0) as Hz.
    { intros addr. unfold counted, init_conns. cbn [live releasing].
      rewrite mult_union. unfold mult. by rewrite multiplicity_empty. }
    subst. split; [done|done|intros addr; by rewrite Hz|intros addr; rewrite Hz; lia]. }
  clear E. induction Hs as [|s1 s2 s3 H12 _ IH]; [done|]. by eapply IH, conn_step_inv.
Qed.

(** ** The per-address limiters *)

Abbreviation limited s := (dom (perIPLimiter (bk s))).

Lemma acquire_locked_limiters now addr b ok b' :
  acquire_locked cfg now addr b = (ok, b') →
  dom (perIPLimiter b') = {[ addr ]} ∪ dom (perIPLimiter b).
Proof.
  unfold acquire_locked. destruct (Allow now _) as [[] l]; cbn; [|intros [= _ <-]; apply dom_insert_L].
  destruct (_ <=? _); intros [= _ <-]; apply dom_insert_L.
Qed.

Lemma conn_step_limiters s s' : conn_step s s' → limited s ⊆ limited s'.
Proof.
  destruct 1 as [b acq lv rel Hf|b b' acq lv rel addr Hf|b b' acq lv rel addr now Ha
    |b b' acq lv rel addr now Ha|b acq lv rel addr|b acq lv rel addr]; cbn.
  - done.
  - unfold take_token in Hf. by destruct (_ <? _); [injection Hf as <-|].
  - rewrite (acquire_locked_limiters _ _ _ _ _ Ha). set_solver.
  - rewrite (acquire_locked_limiters _ _ _ _ _ Ha). set_solver.
  - unfold return_token. by destruct (_ <? _).
  - done.
Qed.

Lemma conn_steps_limiters s s' : rtc conn_step s s' → limited s ⊆ limited s'.
Proof. induction 1 as [|s1 s2 s3 H12 _ IH]; [done|]. etransitivity; [by apply conn_step_limiters|done]. Qed.

(** Every session's address has a limiter. *)
Lemma conn_step_live s s' :
  (∀ addr, addr ∈ live s → addr ∈ limited s) → conn_step s s' →
  ∀ addr, addr ∈ live s' → addr ∈ limited s'.
Proof.
  intros Hl Hs addr Hin. destruct (decide (addr ∈ live s)) as [Hin0|Hnew].
  { by apply (conn_step_limiters _ _ Hs), Hl. }
  destruct Hs as [| |b b' acq lv rel addr' now Ha| | |]; cbn in *; try done; try multiset_solver.
  rewrite (acquire_locked_limiters _ _ _ _ _ Ha).
  assert (addr = addr') as -> by multiset_solver. set_solver.
Qed.

Lemma conn_steps_live s s' :
  rtc conn_step s s' → (∀ addr, addr ∈ live s → addr ∈ limited s) →
  ∀ addr, addr ∈ live s' → addr ∈ limited s'.
Proof. induction 1 as [|s1 s2 s3 H12 _ IH]; [done|]. intros Hl. apply IH. exact (conn_step_live _ _ Hl H12). Qed.

(** C19: connections are accounted for exactly under any interleaving of opening
    and closing connections: the tokens taken are the connections being
    admitted plus the sessions, at most SMTPMaxConnections; the map counts the
    sessions of each address, at most SMTPMaxConnectionsPerIP; when all have
    left no token is taken and no address is counted. The rate limiters are
    kept: each address that has a session has one, and whatever happens next
    no address ever loses its limiter. *)
Theorem connections_accounted s :
  0 ≤ SMTPMaxConnections cfg → rtc conn_step init_conns s →
  connTokens (bk s) = msize (acquiring s) + msize (live s)
  ∧ msize (live s) ≤ SMTPMaxConnections cfg
  ∧ (∀ addr, mult addr (live s) ≤ Z.max 0 (SMTPMaxConnectionsPerIP cfg))
  ∧ (acquiring s = ∅ → live s = ∅ → releasing s = ∅ →
       connTokens (bk s) = 0 ∧ perIPConn (bk s) = ∅)
  ∧ (∀ addr, addr ∈ live s → is_Some (perIPLimiter (bk s) !! addr))
  ∧ (∀ s' addr, rtc conn_step s s' → is_Some (perIPLimiter (bk s) !! addr) →
       is_Some (perIPLimiter (bk s') !! addr)).
Proof.
  intros Hcap Hs.
  assert (∀ addr, addr ∈ live s → addr ∈ limited s) as Hlim
    by (apply (conn_steps_live _ _ Hs); intros addr Hin; cbn in Hin; multiset_solver).
  assert (conn_inv s) as [Ht Hc Hn Hp] by by apply conn_steps_inv.
  split_and!; [done| | | | |].
  - pose proof (msize_nonneg (acquiring s)). lia.
  - intros addr. specialize (Hp addr). unfold counted in Hp. rewrite mult_union in Hp.
    pose proof (mult_nonneg addr (releasing s)). lia.
  - intros Ea El Er. rewrite Ht, Ea, El. split; [done|]. apply map_empty. intros addr.
    rewrite Hn. unfold counted. rewrite El, Er, mult_union. done.
  - intros addr Hin. by apply elem_of_dom, Hlim.
  - intros s' addr Hs' Hin%elem_of_dom. apply elem_of_dom. by apply (conn_steps_limiters _ _ Hs').
Qed.

(** Logging out twice releases once: whatever happened to the backend since,
    a second [Logout] of a session changes nothing. *)
Theorem logout_releases_once (w : sworld L) b' :
  let w1 := (Logout w).2 in
  releasedToken (sw_session w1) = true
  ∧ Logout (set_backend b' w1) = (None, set_backend b' w1)
  ∧ (releasedToken (sw_session w) = false →
       sw_backend w1 = release (ip (sw_session w)) (sw_backend w)).
Proof.
  unfold Logout. destruct (releasedToken (sw_session w)) eqn:E; cbn; by rewrite ?E.
Qed.
End connections.

(** ** Witnesses *)

(** A limiter that always allows. *)
Definition ref_limiter : RateLimiter unit :=
  {| NewLimiter := λ _ _, tt; Allow := λ _ _, (true, tt) |}.

Section witnesses.
#[local] Existing Instances ref_unicode ref_limiter.

Definition conn_config : Config := {|
  Env := GoStrings.empty; LogLevel := GoStrings.empty; SMTPListenAddr := GoStrings.empty; SMTPDomain := GoStrings.empty;
  SMTPAuthUsername := "relay"; SMTPAuthPassword := "secret";
  SMTPTLSCertFile := "tls.crt"; SMTPTLSKeyFile := "tls.key";
  SMTPAllowInsecureAuth := false; SMTPRequireSTARTTLS := true;
  SMTPMaxMessageBytes := 1024; SMTPMaxRecipients := 10; SMTPMaxConnections := 2;
  SMTPMaxConnectionsPerIP := 1; SMTPRateLimitPerIPPerMin := 600;
  SMTPAllowedSenderDomains := ["example.com"]; HTTPListenAddr := GoStrings.empty; DBPath := "relay.db";
  DBMaxOpenConns := 1; DBMaxIdleConns := 1; DispatcherWorkers := 1; QueueClaimLimit := 10;
  QueueLeaseTimeout := 30 * Second; BatchMaxCount := 10; BatchMaxBytes := 1024;
  BatchFlushInterval := Second; RetryMaxAttempts := 3; RequeueStaleInterval := Second;
  MailersendAPIKey := "key"; MailersendBaseURL := GoStrings.empty; MailersendTimeout := Second;
  MailersendEnableCustomHeaders := false; MailersendAccountPlan := "starter";
  MailersendBulkAPISupported := true; MailersendCustomHeadersSupported := false;
  MailersendBulkAPIMaxMessagesPerRequest := 500; MailersendBulkAPIMaxRequestsPerMin := 10
|}%string.

(** One connection opens and closes. *)
Lemma one_connection :
  ∃ b1 b2, rtc (conn_step conn_config) (init_conns conn_config) (mkConns b1 ∅ {[+ "ip"%string +]} ∅)
    ∧ rtc (conn_step conn_config) (mkConns b1 ∅ {[+ "ip"%string +]} ∅) (mkConns b2 ∅ ∅ ∅).
Proof.
  set (b0 := NewBackend conn_config : Backend unit).
  destruct (take_token conn_config b0) as [b1|] eqn:E1; [|done].
  destruct (acquire_locked conn_config 0 "ip"%string b1) as [[] b2] eqn:E2.
  2: { exfalso. injection E1 as <-. by apply (f_equal fst) in E2; vm_compute in E2. }
  exists b2, (release_locked "ip"%string (return_token b2)).
  rewrite <- (left_id_L ∅ (⊎) {[+ "ip"%string +]}). split.
  - eapply rtc_l; [by apply step_token|]. eapply rtc_l; [by eapply step_admit|]. apply rtc_refl.
  - eapply rtc_l; [apply step_logout|]. eapply rtc_l; [apply step_released|]. apply rtc_refl.
Qed.

(** When the connection is gone the state is reachable, empty but for its limiter. *)
Lemma connections_accounted_witness :
  ∃ b : Backend unit, rtc (conn_step conn_config) (init_conns conn_config) (mkConns b ∅ ∅ ∅)
    ∧ connTokens b = 0 ∧ perIPConn b = ∅ ∧ is_Some (perIPLimiter b !! "ip"%string).
Proof.
  destruct one_connection as (b1 & b2 & Hs1 & Hs2).
  assert (rtc (conn_step conn_config) (init_conns conn_config) (mkConns b2 ∅ ∅ ∅)) as Hs
    by by etransitivity.
  destruct (connections_accounted conn_config _ ltac:(by cbn) Hs1) as (_ & _ & _ & _ & Hlive & Hkeep).
  destruct (connections_accounted conn_config _ ltac:(by cbn) Hs) as (_ & _ & _ & Hempty & _).
  exists b2. destruct (Hempty eq_refl eq_refl eq_refl) as [Htk Hct]. split_and!; [done..|].
  apply (Hkeep _ "ip"%string Hs2), Hlive. cbn. multiset_solver.
Defined.
End witnesses.
