(* ===== verification/SmtpProps.v ===== *)
(** * The properties of the SMTP front end. *)

From S2P Require Import Prelude GoStrings Message SqlTime Queue StoreLogic QueueClaim Reference Metrics Config Smtp Connections SenderProps.

(** ** Reading a message under the size limit *)

Lemma slen_cut n s : (n ≤ String.length s)%nat → slen (cut n s) = Z.of_nat n.
Proof.
  unfold cut, slen. revert s. induction n as [|n IH]; intros [|c s] Hn; cbn in *; try lia.
  specialize (IH s ltac:(lia)). lia.
Qed.

(** With room for one more byte, what is read and not too large is the whole message. *)
Lemma read_whole (lim : Z) content err raw :
  0 ≤ lim < max_int64 →
  ReadAllLimited (wrap64 (lim + 1)) content err = Ok raw → slen raw ≤ lim →
  raw = content ∧ err = None ∧ slen content ≤ lim.
Proof.
  intros Hm. rewrite wrap64_id by (unfold in_int64, min_int64, max_int64 in *; lia).
  unfold ReadAllLimited. destruct (slen content <? lim + 1) eqn:E; bool_to_prop.
  - destruct err; [done|]. intros [= <-] _. split_and!; [done..|lia].
  - intros [= <-] Hl. exfalso. revert Hl. rewrite slen_cut; [lia|]. unfold slen in E. lia.
Qed.

Lemma read_ok (lim : Z) content :
  0 ≤ lim < max_int64 → slen content ≤ lim →
  ReadAllLimited (wrap64 (lim + 1)) content None = Ok content.
Proof.
  intros Hm Hl. rewrite wrap64_id by (unfold in_int64, min_int64, max_int64 in *; lia).
  unfold ReadAllLimited. by rewrite (proj2 (Z.ltb_lt _ _)) by lia.
Qed.

Section smtp_properties.
Context {UC : UnicodeCase} {JC : JSONCodec} {NL : NetLib} {TR : Transformer}.
Context {L : Type} {RL : RateLimiter L}.
Context (cfg : Config).

(** The mechanisms accepted are those advertised, in any case and spacing. *)
Lemma Auth_advertised mech :
  Auth mech = Ok tt ↔ ToUpper (TrimSpace mech) ∈ AuthMechanisms.
Proof.
  unfold Auth, AuthMechanisms. rewrite list_elem_of_singleton.
  destruct (_ =? _)%string eqn:E; bool_to_prop; naive_solver.
Qed.

(** ** What a session may have become *)

(** A command that authenticates with the configured credentials. *)
Definition good_auth (c : command) : Prop :=
  ∃ mech, c = CmdAuth mech (SMTPAuthUsername cfg) (SMTPAuthPassword cfg)
          ∧ ToUpper (TrimSpace mech) = "PLAIN"%string.

(** A MAIL command for the sender [from] that the policy admits. *)
Definition good_mail (allowed : gset string) (from : string) (c : command) : Prop :=
  ∃ tls arg addr, c = CmdMail tls arg ∧ mail_ParseAddress arg = Ok addr ∧ Email addr = from
    ∧ senderDomain from ∈ allowed ∧ (SMTPRequireSTARTTLS cfg = true → tls = true).

(** The session is backed by the commands run so far. *)
Definition backed (hist : list command) (w : sworld L) : Prop :=
  let s := sw_session w in
  (authed s = true → ∃ c, c ∈ hist ∧ good_auth c)
  ∧ (envelopeFrom s ≠ empty →
       authed s = true
       ∧ ∃ c, c ∈ hist ∧ good_mail (allowedDomains (sw_backend w)) (envelopeFrom s) c).

Lemma backed_weaken hist c w : backed hist w → backed (hist ++ [c]) w.
Proof.
  intros [Ha Hm]. split.
  - intros H. destruct (Ha H) as (d & ? & ?). exists d. split; [|done]. apply elem_of_app. by left.
  - intros H. destruct (Hm H) as (? & d & ? & ?). split; [done|]. exists d.
    split; [|done]. apply elem_of_app. by left.
Qed.

Lemma Data_session content err now ulid (w : sworld L) :
  let '(_, w') := Data cfg content err now ulid w in
  sw_session w' = sw_session w ∧ sw_backend w' = sw_backend w.
Proof.
  unfold Data, reject, reply. repeat case_match; simplify_eq; done.
Qed.

Lemma run_command_backed hist c (w : sworld L) :
  backed hist w → backed (hist ++ [c]) (run_command cfg c w).2
                  ∧ allowedDomains (sw_backend (run_command cfg c w).2)
                    = allowedDomains (sw_backend w).
Proof.
  intros Hb. assert (Hin : c ∈ hist ++ [c]) by (apply elem_of_app; right; by left).
  pose proof (backed_weaken hist c w Hb) as Hw. destruct c; cbn.
  - unfold Auth. destruct (_ =? _)%string eqn:Em; cbn; [|by split]. unfold auth_plain.
    destruct (_ || _) eqn:Ec; cbn; [by split|]. split; [|done]. bool_to_prop. subst.
    destruct Hw as [_ Hm]. split; cbn; [|naive_solver]. intros _.
    exists (CmdAuth mech (SMTPAuthUsername cfg) (SMTPAuthPassword cfg)). split; [done|by eexists].
  - unfold Mail. destruct (_ && _) eqn:Et; [by split|]. destruct (authed (sw_session w)) eqn:Ea; cbn; [|by split].
    destruct (mail_ParseAddress from) as [addr|e] eqn:Ep; [|by split].
    case_bool_decide as Hd; [|by split]. cbn. split; [|done]. bool_to_prop.
    split; cbn; [intros _; by apply (proj1 Hw)|]. intros _. split; [done|]. exists (CmdMail tls from). split; [done|].
    exists tls, from, addr. split_and!; try done. intros Hr. rewrite Hr in Et.
    by destruct tls, Et.
  - unfold Rcpt. repeat (case_match; try by split).
  - pose proof (Data_session content readErr now ulid w) as Hs.
    destruct (Data _ _ _ _ _ _) as [r w']. cbn. destruct Hs as [Hs Hbk].
    unfold backed. rewrite Hs, Hbk. by split.
  - split; [|done]. destruct Hw as [Ha _]. split; cbn; [done|]. by intros ?.
  - unfold Logout. destruct (releasedToken _); [by split|].
    assert (allowedDomains (release (ip (sw_session w)) (sw_backend w)) = allowedDomains (sw_backend w))
      as Ha by (unfold release, release_locked, return_token; cbn; by case_match).
    unfold backed, set_session, set_backend. cbn [snd sw_session sw_backend authed envelopeFrom].
    by rewrite Ha.
Qed.

Lemma run_session_backed cs : ∀ hist (w : sworld L) i content err now ulid,
  backed hist w →
  cs !! i = Some (CmdData content err now ulid) →
  (run_session cfg cs w).1 !! i = Some None →
  ∃ w1, backed (hist ++ take i cs) w1
        ∧ allowedDomains (sw_backend w1) = allowedDomains (sw_backend w)
        ∧ (Data cfg content err now ulid w1).1 = None.
Proof.
  induction cs as [|c cs IH]; intros hist w [|i] content err now ulid Hb Hc Hr; try done; cbn in *.
  - injection Hc as ->. cbn in Hr. exists w. rewrite app_nil_r. split_and!; [done|done|].
    destruct (Data _ _ _ _ _ _) as [r w1]. destruct (run_session _ _ _). by injection Hr as ->.
  - destruct (run_command_backed hist c w Hb) as [Hb' Ha].
    destruct (run_command cfg c w) as [r w1]. cbn in *.
    destruct (run_session cfg cs w1) as [rs w2] eqn:E. cbn in Hr.
    destruct (IH (hist ++ [c]) w1 i content err now ulid) as (w3 & H1 & H2 & H3); [done|done|by rewrite E|].
    exists w3. rewrite <- app_assoc in H1. split_and!; [done|congruence|done].
Qed.
(** A session is run one command at a time. *)
Lemma run_session_at cs : ∀ (w : sworld L) i c r,
  cs !! i = Some c → (run_session cfg cs w).1 !! i = Some r →
  (run_command cfg c (run_session cfg (take i cs) w).2).1 = r.
Proof.
  induction cs as [|c0 cs IH]; intros w [|i] c r Hc Hr; try done; cbn in *.
  - injection Hc as ->. destruct (run_command cfg c w) as [r0 w1].
    destruct (run_session _ _ _). by injection Hr.
  - destruct (run_command cfg c0 w) as [r0 w1]. specialize (IH w1 i c r Hc).
    destruct (run_session cfg cs w1) as [rs w2]. destruct (run_session cfg (take i cs) w1).
    by apply IH.
Qed.

Lemma run_session_all_backed cs : ∀ hist (w : sworld L),
  backed hist w →
  backed (hist ++ cs) (run_session cfg cs w).2
  ∧ allowedDomains (sw_backend (run_session cfg cs w).2) = allowedDomains (sw_backend w).
Proof.
  induction cs as [|c cs IH]; intros hist w Hb; cbn; [by rewrite app_nil_r|].
  destruct (run_command_backed hist c w Hb) as [Hb' Ha].
  destruct (run_command cfg c w) as [r w1]. cbn in *.
  destruct (IH _ _ Hb') as [Hb2 Ha2]. destruct (run_session cfg cs w1) as [rs w2]. cbn in *.
  rewrite <- app_assoc in Hb2. split; [done|congruence].
Qed.

(** A session as [NewSession] makes it. *)
Definition fresh_session (s : Session) : Prop :=
  authed s = false ∧ envelopeFrom s = empty ∧ recipients s = [] ∧ releasedToken s = false.

(** [Data] accepted: what its guards saw. *)
Lemma Data_accepts_guards content err now ulid (w : sworld L) :
  (Data cfg content err now ulid w).1 = None →
  authed (sw_session w) = true ∧ envelopeFrom (sw_session w) ≠ empty ∧ recipients (sw_session w) ≠ [].
Proof.
  unfold Data. destruct (authed (sw_session w)); [|done].
  destruct (is_empty (envelopeFrom (sw_session w))) eqn:Ee; [done|].
  case_bool_decide; [done|]. intros _. by rewrite <- is_empty_false.
Qed.

(** C3: no open relay. In any sequence of commands on a fresh session, a message
    is accepted only if an earlier command authenticated with the configured
    credentials by PLAIN, and an earlier MAIL named, over TLS when STARTTLS is
    required, a well-formed sender whose domain is allowed. *)
Theorem accepted_only_if_authorised cs (w : sworld L) i content err now ulid :
  fresh_session (sw_session w) →
  cs !! i = Some (CmdData content err now ulid) →
  (run_session cfg cs w).1 !! i = Some None →
  (∃ c, c ∈ take i cs ∧ good_auth c)
  ∧ ∃ c from, c ∈ take i cs ∧ good_mail (allowedDomains (sw_backend w)) from c.
Proof.
  intros (Ha & He & _ & _) Hc Hr.
  destruct (run_session_backed cs [] w i content err now ulid) as (w1 & [Hauth Hmail] & Hal & Hd);
    [split; [by rewrite Ha|by rewrite He]|done..|].
  destruct (Data_accepts_guards _ _ _ _ _ Hd) as (H1 & H2 & _). split; [by apply Hauth|].
  destruct (Hmail H2) as (_ & c & Hin & Hg). rewrite Hal in Hg. by exists c, (envelopeFrom (sw_session w1)).
Qed.

(** An accepted message was read whole, transformed and stored. *)
Lemma Data_stored content err now ulid (w : sworld L) :
  0 ≤ SMTPMaxMessageBytes cfg < max_int64 →
  (Data cfg content err now ulid w).1 = None →
  let w' := (Data cfg content err now ulid w).2 in
  let s := sw_session w in
  err = None ∧ slen content ≤ SMTPMaxMessageBytes cfg
  ∧ ∃ msgs ids, transform (envelopeFrom s) (recipients s) content = Ok msgs
      ∧ enqueued (envelopeFrom s) now ulid 0 msgs ids (jobs (sw_store w)) (jobs (sw_store w'))
      ∧ SMTPAcceptedRecipients (sw_metrics w') = SMTPAcceptedRecipients (sw_metrics w) + zlen msgs.
Proof.
  intros Hlim Hd. destruct (Data_accepts_guards _ _ _ _ _ Hd) as (Ha & He%is_empty_false & Hr).
  revert Hd. unfold Data. rewrite Ha, He, bool_decide_eq_false_2 by done. cbn [negb orb].
  destruct (ReadAllLimited _ content err) as [raw|e] eqn:Er; [|done].
  destruct (_ <? slen raw) eqn:El; [done|]. bool_to_prop.
  destruct (read_whole _ _ _ _ Hlim Er El) as (-> & -> & Hsz).
  destruct (transform _ _ content) as [msgs|e] eqn:Et; [|done].
  pose proof (ensures_EnqueueTx now ulid (envelopeFrom (sw_session w)) msgs
    (jobs (sw_store w)) (sw_store w) eq_refl) as Hq.
  destruct (EnqueueTx _ _ _ _ _) as [[ids|e] st]; [|done]. cbn in *. intros _.
  split_and!; [done..|]. by exists msgs, ids.
Qed.

(** A refused message leaves no trace. *)
Lemma Data_refused content err now ulid (w : sworld L) e :
  (Data cfg content err now ulid w).1 = Some e →
  let w' := (Data cfg content err now ulid w).2 in
  jobs (sw_store w') = jobs (sw_store w)
  ∧ SMTPAcceptedRecipients (sw_metrics w') = SMTPAcceptedRecipients (sw_metrics w)
  ∧ (sw_store w' = sw_store w ∨ e = SMTPError 451 (4, 3, 0) "Temporary queue failure").
Proof.
  unfold Data. destruct (authed (sw_session w)); cbn [negb]; [|intros _; by split_and!; [..|left]].
  destruct (_ || _); [intros _; by split_and!; [..|left]|].
  destruct (ReadAllLimited _ content err) as [raw|e1]; [|intros _; by split_and!; [..|left]].
  destruct (_ <? slen raw); [intros _; by split_and!; [..|left]|].
  destruct (transform _ _ raw) as [msgs|e1]; [|intros _; by split_and!; [..|left]].
  pose proof (ensures_EnqueueTx now ulid (envelopeFrom (sw_session w)) msgs
    (jobs (sw_store w)) (sw_store w) eq_refl) as Hq.
  destruct (EnqueueTx _ _ _ _ _) as [[ids|e1] st]; [done|]. cbn in *. intros [= <-].
  split_and!; [done..|by right].
Qed.

(** C5: an accepted message is durably queued, whole and for every recipient,
    and a refused one leaves no trace. When [Data] replies 250 the message was
    read to its end within the size limit, it was transformed, and the queue
    has gained exactly one row per message of the transformation, whatever
    the database did; on any other reply the jobs are unchanged, and only a
    451 reply (to be tried again) follows an attempt to store. *)
Theorem data_durable content err now ulid (w : sworld L) :
  0 ≤ SMTPMaxMessageBytes cfg < max_int64 →
  let '(reply, w') := Data cfg content err now ulid w in
  let s := sw_session w in
  match reply with
  | None => err = None ∧ slen content ≤ SMTPMaxMessageBytes cfg
      ∧ ∃ msgs ids, transform (envelopeFrom s) (recipients s) content = Ok msgs
          ∧ enqueued (envelopeFrom s) now ulid 0 msgs ids (jobs (sw_store w)) (jobs (sw_store w'))
          ∧ SMTPAcceptedRecipients (sw_metrics w') = SMTPAcceptedRecipients (sw_metrics w) + zlen msgs
  | Some e => jobs (sw_store w') = jobs (sw_store w)
      ∧ SMTPAcceptedRecipients (sw_metrics w') = SMTPAcceptedRecipients (sw_metrics w)
      ∧ (sw_store w' = sw_store w ∨ e = SMTPError 451 (4, 3, 0) "Temporary queue failure")
  end.
Proof.
  intros Hlim. pose proof (Data_stored content err now ulid w Hlim) as Hs.
  pose proof (Data_refused content err now ulid w) as Hr.
  destruct (Data cfg content err now ulid w) as [[e|] w']; cbn in *; [by apply Hr|by apply Hs].
Qed.

(** Good messages are accepted: from an authenticated session with a sender
    and recipients, a message within the size limit that transforms into
    storable messages gets the reply 250 when the driver calls succeed. *)
Theorem data_accepts content now ulid msgs (w : sworld L) :
  0 ≤ SMTPMaxMessageBytes cfg < max_int64 →
  let s := sw_session w in
  authed s = true → envelopeFrom s ≠ empty → recipients s ≠ [] →
  slen content ≤ SMTPMaxMessageBytes cfg →
  transform (envelopeFrom s) (recipients s) content = Ok msgs →
  schema (sw_store w) = true → faults (sw_store w) = [] →
  enqueueable ulid msgs (jobs (sw_store w)) →
  (Data cfg content None now ulid w).1 = None.
Proof.
  intros Hlim s Ha He Hr Hsz Ht Hsc Hf Hq. subst s. unfold Data. rewrite Ha. cbn [negb].
  rewrite (proj2 (is_empty_false _) He), bool_decide_eq_false_2 by done. cbn [orb].
  rewrite (read_ok _ _ Hlim Hsz), (proj2 (Z.ltb_ge _ _)), Ht by done.
  destruct (runs_EnqueueTx now ulid (envelopeFrom (sw_session w)) msgs _ Hq) as (t' & Hruns & _).
  by rewrite (Hruns (sw_store w)).
Qed.

(** The largest size limit refuses every message. With
    SMTP_MAX_MESSAGE_BYTES=9223372036854775807, which validation accepts, the
    limit plus one wraps to a negative number, nothing is read, and the reply
    to a message is the reply to the empty one. *)
Theorem max_int64_limit_reads_nothing content err now ulid (w : sworld L) :
  SMTPMaxMessageBytes cfg = max_int64 →
  Data cfg content err now ulid w = Data cfg empty None now ulid w.
Proof.
  intros Hlim. unfold Data. rewrite Hlim.
  assert (∀ c e, ReadAllLimited (wrap64 (max_int64 + 1)) c e = Ok empty) as Hr; [|by rewrite !Hr].
  intros c e. change (wrap64 (max_int64 + 1)) with min_int64. unfold ReadAllLimited.
  rewrite (proj2 (Z.ltb_ge _ _)); [by destruct c|].
  pose proof (slen_nonneg c). unfold min_int64. lia.
Qed.
End smtp_properties.

(** ** Witnesses *)

(** Addresses are taken as they are when they hold an at sign. *)
Definition ref_net : NetLib := {|
  mail_ParseAddress := λ s, match after_last "@" s with
                            | Some _ => Ok (mkContact empty s)
                            | None => Err "mail: missing '@' or angle-addr"%string
                            end;
  net_SplitHostPort := λ s, Some s
|}.

Definition ref_transformer : Transformer := {|
  transform := λ _ rcpts raw,
    if is_empty raw then Err "parse rfc822 message: EOF"%string
    else Ok ((λ _, Some (ref_message raw)) <$> rcpts)
|}.

#[local] Existing Instances ref_unicode ref_codec ref_net ref_transformer ref_limiter.

Definition demo_sworld : sworld unit :=
  mkSworld (mkSession "203.0.113.1" false empty [] false) (NewBackend conn_config)
    (mkStore ∅ true []) NewMetrics.

Definition demo_commands : list command :=
  [CmdAuth "plain" "relay" "secret"; CmdMail true "news@Example.com"; CmdRcpt "a@example.net";
   CmdData "hi" None 7 (λ i, pretty i)].

Lemma accepted_only_if_authorised_witness :
  ∃ c, c ∈ take 3 demo_commands ∧ good_auth conn_config c.
Proof.
  destruct (accepted_only_if_authorised conn_config demo_commands demo_sworld 3 "hi" None 7
    (λ i, pretty i)) as [H _]; [done|done|by vm_compute|done].
Defined.

(** The session after the first three of these commands. *)
Definition ready_sworld : sworld unit :=
  mkSworld (mkSession "203.0.113.1" true "news@Example.com" ["a@example.net"]%string false)
    (NewBackend conn_config) (mkStore ∅ true []) NewMetrics.

Lemma data_durable_witness :
  let '(reply, w') := Data conn_config "hi" None 7 (λ i, pretty i) ready_sworld in
  reply = None ∧ ∃ ids, enqueued "news@Example.com" 7 (λ i, pretty i) 0 [Some (ref_message "hi")]
                          ids ∅ (jobs (sw_store w')).
Proof.
  pose proof (data_durable conn_config "hi" None 7 (λ i, pretty i) ready_sworld
    ltac:(by cbn)) as Hd.
  destruct (Data _ _ _ _ _ _) as [reply w'] eqn:E.
  assert (reply = None) as -> by (apply (f_equal fst) in E; by vm_compute in E). split; [done|].
  destruct Hd as (_ & _ & msgs & ids & [= <-] & Hq & _). by exists ids.
Defined.

Lemma data_accepts_witness :
  (Data conn_config "hi" None 7 (λ i, pretty i) ready_sworld).1 = None.
Proof.
  apply (data_accepts conn_config "hi" 7 (λ i, pretty i) [Some (ref_message "hi")]); try done.
  split_and!; [|by apply NoDup_singleton|done].
  constructor; [|done]. by eexists _, _.
Defined.

Definition no_durations : DurationParser := {| time_ParseDuration := λ _, None |}.
#[local] Existing Instance no_durations.

Definition unlimited_config : Config :=
  config_of_env (λ key, if (key =? "SMTP_MAX_MESSAGE_BYTES")%string then "9223372036854775807"%string
                        else empty)
    (mkLimits MailerSendPlanStarter true false 500 10).

Lemma max_int64_limit_reads_nothing_witness :
  (Data unlimited_config "hi" None 7 (λ i, pretty i) ready_sworld).1
  = Some (SMTPError 554 (5, 6, 0) "Unable to parse message")
  ∧ ValidateCommon unlimited_config = Ok tt.
Proof.
  split; [|by vm_compute].
  by rewrite (max_int64_limit_reads_nothing unlimited_config "hi" None 7 _ ready_sworld).
Defined.
