(* ===== verification/SmtpServer.v ===== *)
(** * The life of the SMTP server: [New], [Start] and [Shutdown] of
    [internal/smtpserver/server.go]; the sessions are in [Smtp].

    go-smtp's server is a library: what the code sets on it is a record, and
    its [ListenAndServe] and [Shutdown] are arguments. *)

From S2P Require Import Prelude GoStrings SqlTime Message Metrics Config Smtp.

(** [tls.VersionTLS12] *)
Definition VersionTLS12 : Z := 771.

Section server.
Context {Cert : Type}.

Record tls_config := mkTLS { MinVersion : Z; Certificates : list Cert }.

(** The fields of [smtp.Server] the code sets. *)
Record smtp_settings := mkSettings {
  Addr : string;
  Domain : string;
  MaxMessageBytes : Z;
  MaxRecipients : Z;
  AllowInsecureAuth : bool;
  ReadTimeout : Z;
  WriteTimeout : Z;
  TLSConfig : option tls_config
}.

Definition base_settings (cfg : Config) : smtp_settings :=
  mkSettings (SMTPListenAddr cfg) (SMTPDomain cfg) (SMTPMaxMessageBytes cfg)
    (SMTPMaxRecipients cfg) (SMTPAllowInsecureAuth cfg) (60 * Second) (60 * Second) None.

Definition with_tls (t : tls_config) (s : smtp_settings) : smtp_settings :=
  mkSettings (Addr s) (Domain s) (MaxMessageBytes s) (MaxRecipients s) (AllowInsecureAuth s)
    (ReadTimeout s) (WriteTimeout s) (Some t).

(** A server: its settings, its backend, and whether [stopOnce] has run. *)
Record Server (L : Type) := mkServer {
  smtpSrv : smtp_settings;
  backend : Backend L;
  stopped : bool
}.
Arguments mkServer {L} _ _ _.
Arguments smtpSrv {L} _.
Arguments backend {L} _.
Arguments stopped {L} _.

(** [load cert key] is [tls.LoadX509KeyPair]. *)
Definition New `{UnicodeCase, RateLimiter L} (load : string → string → result error Cert)
    (cfg : Config) : result error (Server L) :=
  if SMTPRequireSTARTTLS cfg then
    cert ← wrapf "load smtp tls cert/key" (load (SMTPTLSCertFile cfg) (SMTPTLSKeyFile cfg));
    Ok (mkServer (with_tls (mkTLS VersionTLS12 [cert]) (base_settings cfg)) (NewBackend cfg) false)
  else Ok (mkServer (base_settings cfg) (NewBackend cfg) false).

(** [stopOnce.Do]: [lib] is the outcome of go-smtp's [Shutdown], which only
    the first call makes; the result is the error and whether it was made. *)
Definition Shutdown {L} (lib : option error) (s : Server L) : option error * bool * Server L :=
  if stopped s then (None, false, s)
  else (lib, true, mkServer (smtpSrv s) (backend s) true).

(** Repeated shutdowns: the results, and how often go-smtp was asked to stop. *)
Fixpoint shutdowns {L} (libs : list (option error)) (s : Server L)
    : list (option error) * nat * Server L :=
  match libs with
  | [] => ([], O, s)
  | lib :: rest =>
      let '(r, called, s1) := Shutdown lib s in
      let '(rs, n, s2) := shutdowns rest s1 in
      (r :: rs, ((if called : bool then 1 else 0) + n)%nat, s2)
  end.

Lemma shutdowns_stopped {L} libs : ∀ s : Server L,
  stopped s = true → shutdowns libs s = (replicate (length libs) None, O, s).
Proof.
  induction libs as [|lib libs IH]; intros s Hs; [done|]. cbn [shutdowns]. unfold Shutdown.
  rewrite Hs. by rewrite IH.
Qed.

(** go-smtp is told to stop once; the first caller gets its error, the others none. *)
Lemma shutdowns_once {L} lib libs (s : Server L) :
  stopped s = false →
  shutdowns (lib :: libs) s
  = (lib :: replicate (length libs) None, 1%nat, mkServer (smtpSrv s) (backend s) true).
Proof.
  intros Hs. cbn [shutdowns]. unfold Shutdown. rewrite Hs. by rewrite shutdowns_stopped.
Qed.
End server.
Arguments tls_config : clear implicits.
Arguments smtp_settings : clear implicits.
Arguments Server : clear implicits.
Arguments mkServer {Cert L} _ _ _.
Arguments smtpSrv {Cert L} _.
Arguments backend {Cert L} _.
Arguments stopped {Cert L} _.
