(* ===== verification/Domains.v ===== *)
(** * Sender domains and case: [senderDomain] of [internal/smtpserver/server.go]
    does not distinguish addresses that [strings.EqualFold] identifies, as long
    as both are ASCII; and the addresses that parse to themselves. *)

From S2P Require Import Prelude GoStrings Message Queue Metrics Config Smtp.

(** ** Lowering a byte *)

Lemma byte_val_inj c d : byte_val c = byte_val d → c = d.
Proof.
  unfold byte_val. intros Hv. apply (f_equal Z.to_nat) in Hv. rewrite !Nat2Z.id in Hv.
  rewrite <- (ascii_nat_embedding c), <- (ascii_nat_embedding d). by rewrite Hv.
Qed.

Lemma lower_char_val c :
  byte_val (lower_char c) = (if byte_in 65 90 c then byte_val c + 32 else byte_val c).
Proof.
  unfold lower_char. destruct (byte_in 65 90 c) eqn:E; [|done].
  unfold byte_in in E. bool_to_prop. apply byte_val_byte_of. lia.
Qed.

Lemma lower_char_cases c :
  (65 ≤ byte_val c ≤ 90 ∧ byte_val (lower_char c) = byte_val c + 32)
  ∨ (¬ 65 ≤ byte_val c ≤ 90 ∧ lower_char c = c).
Proof.
  pose proof (lower_char_val c) as Hv. unfold lower_char in *.
  unfold byte_in in *. destruct ((65 <=? byte_val c) && (byte_val c <=? 90)) eqn:E; bool_to_prop.
  - left. split; [lia|done].
  - right. split; [|done]. destruct E; bool_to_prop; lia.
Qed.

Lemma lower_char_idemp c : lower_char (lower_char c) = lower_char c.
Proof.
  destruct (lower_char_cases (lower_char c)) as [[Hl _]|[_ E]]; [|done].
  destruct (lower_char_cases c) as [[Hc Hv]|[Hc E]]; [lia|by rewrite E in Hl].
Qed.

Lemma lower_char_at c : Ascii.eqb (lower_char c) "@" = Ascii.eqb c "@".
Proof.
  destruct (lower_char_cases c) as [[Hc Hv]|[_ ->]]; [|done].
  assert (byte_val "@" = 64) as Hat by done.
  destruct (Ascii.eqb_spec (lower_char c) "@") as [E|_]; [rewrite E in Hv; lia|].
  destruct (Ascii.eqb_spec c "@") as [->|_]; [lia|done].
Qed.

Lemma space1_lower c : space1 (lower_char c) = space1 c.
Proof.
  destruct (lower_char_cases c) as [[Hc Hv]|[_ ->]]; [|done].
  unfold space1, byte_in. rewrite Hv.
  rewrite !(proj2 (Z.leb_gt _ 13)), !(proj2 (Z.eqb_neq _ 32)) by lia. by rewrite !andb_false_r.
Qed.

Lemma ascii_char_lower c : ascii_char c = true → ascii_char (lower_char c) = true.
Proof.
  unfold ascii_char. intros Hc. bool_to_prop. apply Z.ltb_lt.
  destruct (lower_char_cases c) as [[Hl Hv]|[_ ->]]; lia.
Qed.

(** ** ASCII texts *)

Definition ascii_list (l : list ascii) : Prop := Forall (λ c, ascii_char c = true) l.

Lemma ascii_only_list s : ascii_only s = true ↔ ascii_list (chars s).
Proof. unfold ascii_only, ascii_list. by rewrite forallb_forall, Forall_forall; setoid_rewrite list_elem_of_In. Qed.

(** Predicates on runes of several bytes, none of which starts with an ASCII byte. *)
Class WideOnly (p2 : ascii → ascii → bool) (p3 : ascii → ascii → ascii → bool) : Prop := {
  wide2 : ∀ c d, ascii_char c = true → ascii_char d = true → p2 c d = false;
  wide3 : ∀ c d e, ascii_char c = true → ascii_char d = true → ascii_char e = true → p3 c d e = false
}.

Lemma ascii_not_byte c k : ascii_char c = true → 128 ≤ k → (byte_val c =? k) = false.
Proof. unfold ascii_char. intros Hc Hk. bool_to_prop. apply Z.eqb_neq. lia. Qed.

#[export] Instance space_wide : WideOnly space2 space3.
Proof.
  split; intros; unfold space2, space3;
    by rewrite ?(ascii_not_byte c), ?(ascii_not_byte d) by (done || lia).
Qed.

#[export] Instance space_rev_wide : WideOnly space2_rev space3_rev.
Proof. split; intros; unfold space2_rev, space3_rev; [by apply space_wide|by apply space_wide]. Qed.

Lemma skip_space_ascii p2 p3 `{!WideOnly p2 p3} l :
  ascii_list l → skip_space p2 p3 l = drop_while space1 l.
Proof.
  induction l as [|c l IH]; [done|]. intros [Hc Hl]%Forall_cons. cbn.
  destruct (space1 c); [by apply IH|]. destruct l as [|d l]; [done|].
  apply Forall_cons in Hl as [Hd Hl]. rewrite wide2 by done.
  destruct l as [|e l]; [done|]. apply Forall_cons in Hl as [He _]. by rewrite wide3.
Qed.

Lemma drop_while_lower l :
  drop_while space1 (lower_char <$> l) = lower_char <$> drop_while space1 l.
Proof.
  induction l as [|c l IH]; [done|]. cbn. rewrite space1_lower. by destruct (space1 c).
Qed.

Lemma ascii_list_drop_while p l : ascii_list l → ascii_list (drop_while p l).
Proof. induction l as [|c l IH]; [done|]. intros [? ?]%Forall_cons. cbn. case_match; [by apply IH|by constructor]. Qed.

Lemma ascii_list_lower l : ascii_list l → ascii_list (lower_char <$> l).
Proof. intros Hl. apply Forall_fmap. eapply Forall_impl; [exact Hl|]. intros c. apply ascii_char_lower. Qed.

Lemma ascii_list_rev l : ascii_list l → ascii_list (rev l).
Proof. unfold ascii_list. rewrite !Forall_forall. intros Hl c Hc. apply Hl. by rewrite list_elem_of_In, in_rev, <- list_elem_of_In. Qed.

(** ** Trimming and domains commute with lowering *)

Lemma trim_ascii l : ascii_list l →
  trim_right (trim_left l) = rev (drop_while space1 (rev (drop_while space1 l))).
Proof.
  intros Hl. unfold trim_left, trim_right.
  rewrite (skip_space_ascii space2 space3) by done.
  rewrite (skip_space_ascii space2_rev space3_rev); [done|].
  by apply ascii_list_rev, ascii_list_drop_while.
Qed.

Lemma fmap_rev {A B} (f : A → B) l : f <$> rev l = rev (f <$> l).
Proof. induction l as [|x l IH]; [done|]. cbn. by rewrite fmap_app, IH. Qed.

Lemma TrimSpace_lower s :
  ascii_only s = true → TrimSpace (map_chars lower_char s) = map_chars lower_char (TrimSpace s).
Proof.
  intros Hs%ascii_only_list. unfold TrimSpace, map_chars. rewrite !chars_of_chars. f_equal.
  rewrite !trim_ascii by (done || by apply ascii_list_lower).
  rewrite drop_while_lower, <- !fmap_rev, drop_while_lower. by rewrite <- fmap_rev.
Qed.

Lemma TrimSpace_ascii s : ascii_only s = true → ascii_only (TrimSpace s) = true.
Proof.
  rewrite !ascii_only_list. intros Hs. unfold TrimSpace. rewrite chars_of_chars, trim_ascii by done.
  by apply ascii_list_rev, ascii_list_drop_while, ascii_list_rev, ascii_list_drop_while.
Qed.

Lemma map_chars_String f c s : map_chars f (String c s) = String (f c) (map_chars f s).
Proof. done. Qed.

Lemma after_last_lower s :
  after_last "@" (map_chars lower_char s) = map_chars lower_char <$> after_last "@" s.
Proof.
  induction s as [|c s IH]; [done|]. rewrite map_chars_String. cbn [after_last]. rewrite IH.
  destruct (after_last "@" s) as [r|]; cbn; [done|]. rewrite lower_char_at.
  by destruct (Ascii.eqb c "@").
Qed.

Lemma after_last_ascii s r :
  after_last "@" s = Some r → ascii_only s = true → ascii_only r = true.
Proof.
  unfold ascii_only. revert r. induction s as [|c s IH]; intros r; [done|].
  cbn [after_last]. change (chars (String c s)) with (c :: chars s). cbn [forallb].
  destruct (after_last "@" s) as [r'|].
  - intros [= <-] [_ Hs]%andb_prop. by apply IH.
  - destruct (Ascii.eqb c "@"); [|done]. by intros [= <-] [_ Hs]%andb_prop.
Qed.

Lemma map_lower_idemp s : map_chars lower_char (map_chars lower_char s) = map_chars lower_char s.
Proof.
  unfold map_chars. rewrite chars_of_chars, <- list_fmap_compose. f_equal.
  apply list_fmap_ext. intros i c _. apply lower_char_idemp.
Qed.

Section domains.
Context `{UnicodeCase}.

(** The domain of an ASCII address is that of the address in lower case. *)
Lemma senderDomain_lower s : ascii_only s = true →
  senderDomain s = match after_last "@" (map_chars lower_char s) with
                   | None => empty
                   | Some r => TrimSpace r
                   end.
Proof.
  intros Hs. unfold senderDomain. rewrite after_last_lower.
  destruct (after_last "@" s) as [r|] eqn:Er; [|done]. cbn.
  pose proof (after_last_ascii _ _ Er Hs) as Hr.
  unfold ToLower. by rewrite TrimSpace_ascii, TrimSpace_lower.
Qed.

Lemma senderDomain_fold s t :
  ascii_only s = true → ascii_only t = true → EqualFold s t = true →
  senderDomain s = senderDomain t.
Proof.
  intros Hs Ht. unfold EqualFold. rewrite Hs, Ht. cbn. intros Heq%String.eqb_eq.
  by rewrite !senderDomain_lower, Heq.
Qed.
End domains.

(** ** Plain addresses *)

(** The characters of an atom in RFC 5322. *)
Definition atext (c : ascii) : bool :=
  byte_in 48 57 c || byte_in 65 90 c || byte_in 97 122 c
  || bool_decide (c ∈ chars "!#$%&'*+-/=?^_`{|}~").

Definition dot_atom (s : string) : bool :=
  forallb (λ a, negb (is_empty a) && forallb atext (chars a)) (Split s ".").

(** An address made of two dot-atoms: no quoting, comment or display name. *)
Definition plain_address (s : string) : bool :=
  ascii_only s
  && match Split s "@" with [local; domain] => dot_atom local && dot_atom domain | _ => false end.

(** What RFC 5322 says of [mail.ParseAddress]: a plain address is itself. *)
Class NetLibLaws `{NetLib} : Prop := {
  plain_parses : ∀ s, plain_address s = true → mail_ParseAddress s = Ok (mkContact empty s)
}.

Lemma plain_ascii s : plain_address s = true → ascii_only s = true.
Proof. unfold plain_address. by intros [? _]%andb_prop. Qed.

Lemma split_chars_sep sep acc l :
  (1 < length (split_chars sep acc l))%nat → sep ∈ l.
Proof.
  revert acc. induction l as [|c l IH]; intros acc; cbn; [lia|].
  destruct (Ascii.eqb_spec c sep) as [->|_]; [by left|]. intros Hl. right. by eapply IH.
Qed.

Lemma after_last_some sep s : sep ∈ chars s → is_Some (after_last sep s).
Proof.
  induction s as [|c s IH]; [by intros ?%elem_of_nil|]. change (chars (String c s)) with (c :: chars s).
  rewrite elem_of_cons. cbn. intros [->|Hin].
  - destruct (after_last c s); [done|]. by rewrite Ascii.eqb_refl.
  - by destruct (IH Hin) as [r ->].
Qed.

(** A plain address has an at sign. *)
Lemma plain_at s : plain_address s = true → is_Some (after_last "@" s).
Proof.
  unfold plain_address, Split. intros [_ Hs]%andb_prop. apply after_last_some.
  apply (split_chars_sep _ []). destruct (split_chars "@" [] (chars s)) as [|? [|? [|]]]; cbn in *; lia || done.
Qed.
