(* ===== verification/Mime.v ===== *)
(** * From an RFC 822 message to API messages: [internal/mimeparse/transformer.go].

    The parsers of the standard library (message reader, media types,
    multipart reader, addresses, transfer decoders) are parameters; which of
    them is applied to what, and what is made of their results and errors, is
    the code's. The recursion over nested multiparts has fuel; [None] is a
    run out of fuel, and [MimeProps] shows that the length of the body is
    enough. *)

From S2P Require Import Prelude GoStrings Message Smtp.

(** ** Headers: [textproto.MIMEHeader], and [mail.Header] *)

Abbreviation MIMEHeader := (gmap string (list string)).

(** [textproto.CanonicalMIMEHeaderKey] on a key of letters, digits and hyphens. *)
Fixpoint canonical_chars (up : bool) (l : list ascii) : list ascii :=
  match l with
  | [] => []
  | c :: l' => (if up then upper_char c else lower_char c)
               :: canonical_chars (Ascii.eqb c "-") l'
  end.
Definition CanonicalMIMEHeaderKey (key : string) : string :=
  of_chars (canonical_chars true (chars key)).

(** [header.Get(key)]: the first value, empty when there is none. *)
Definition header_get (h : MIMEHeader) (key : string) : string :=
  match h !! CanonicalMIMEHeaderKey key with
  | Some (v :: _) => v
  | _ => empty
  end.

(** [mime.ParseMediaType]: the type, its parameters (of a nil map on an error: none) and the error. *)
Record media := mkMedia {
  m_type : string;
  m_params : gmap string string;
  m_err : option error
}.

(** The parts a multipart reader delivers: each a header and what reading its
    body gives, and at the end EOF ([None]) or the error of [NextPart]. *)
Record multipart := mkMultipart {
  mp_parts : list (MIMEHeader * result error string);
  mp_end : option error
}.

Class MimeLib := {
  mail_ReadMessage : string → result error (MIMEHeader * result error string);
  mime_ParseMediaType : string → media;
  multipart_read : string → string → multipart;
  quotedprintable_decode : string → result error string;
  base64_decode_std : string → result error string;
  base64_decode_raw : string → result error string;
  header_order : list (string * list string) → list (string * list string)
}.

Definition param (ps : gmap string string) (key : string) : string := default empty (ps !! key).

(** ** [base64.StdEncoding.EncodeToString] *)

Definition b64_char (z : Z) : ascii :=
  byte_of (if z <? 26 then 65 + z
           else if z <? 52 then 71 + z
           else if z <? 62 then z - 4
           else if z =? 62 then 43 else 47).

Definition pad : ascii := "="%char.

Fixpoint b64_encode (l : list ascii) : list ascii :=
  match l with
  | [] => []
  | [a] => let n := byte_val a * 16 in [b64_char (n / 64); b64_char (n mod 64); pad; pad]
  | [a; b] =>
      let n := byte_val a * 1024 + byte_val b * 4 in
      [b64_char (n / 4096); b64_char (n / 64 mod 64); b64_char (n mod 64); pad]
  | a :: b :: c :: rest =>
      let n := byte_val a * 65536 + byte_val b * 256 + byte_val c in
      b64_char (n / 262144) :: b64_char (n / 4096 mod 64) :: b64_char (n / 64 mod 64)
        :: b64_char (n mod 64) :: b64_encode rest
  end.

Definition EncodeToString (s : string) : string := of_chars (b64_encode (chars s)).

(** ** Content *)

Record parsedContent := mkContent {
  c_text : string;
  c_html : string;
  c_attachments : list Attachment
}.

Definition no_content : parsedContent := mkContent empty empty [].

Definition newline : string := of_chars [byte_of 10].

Definition append_text (dst src : string) : string :=
  if is_empty dst then src
  else if negb (is_empty src) && negb (src =? dst)%string then dst +:+ newline +:+ src
  else dst.

Definition appendParsed (dst src : parsedContent) : parsedContent :=
  mkContent (append_text (c_text dst) (c_text src)) (append_text (c_html dst) (c_html src))
    (c_attachments dst ++ c_attachments src).

Definition compact_byte (c : ascii) : bool :=
  negb ((byte_val c =? 13) || (byte_val c =? 10) || (byte_val c =? 9) || (byte_val c =? 32)).
Definition compactBase64 (b : string) : string := of_chars (List.filter compact_byte (chars b)).

Section mime.
Context `{UnicodeCase, NetLib, MimeLib}.

Definition decodeTransferEncoding (header : MIMEHeader) (body : string) : result error string :=
  let enc := ToLower (TrimSpace (header_get header "Content-Transfer-Encoding")) in
  if bool_decide (enc ∈ [empty; "7bit"; "8bit"; "binary"]%string) then Ok body
  else if (enc =? "quoted-printable")%string then quotedprintable_decode body
  else if (enc =? "base64")%string then
    match base64_decode_std body with
    | Ok decoded => Ok decoded
    | Err e =>
        match base64_decode_raw (compactBase64 body) with
        | Ok decoded => Ok decoded
        | Err _ => Err ("base64 decode failed: " +:+ e)
        end
    end
  else Ok body.

Definition buildAttachment (header : MIMEHeader) (body filename disposition : string) : Attachment :=
  let filename := if is_empty filename then "attachment.bin"%string else filename in
  let disposition := if is_empty disposition then "attachment"%string else disposition in
  let contentID := TrimSpace (header_get header "Content-ID") in
  let contentID := TrimPrefix contentID "<" in
  let contentID := TrimSuffix contentID ">" in
  mkAttachment (EncodeToString body) filename disposition contentID.

Definition detectFilename (header : MIMEHeader) (dispParams : gmap string string) : string :=
  let fn := TrimSpace (param dispParams "filename") in
  if negb (is_empty fn) then fn else
  let fn := TrimSpace (param (m_params (mime_ParseMediaType (header_get header "Content-Type"))) "name") in
  if negb (is_empty fn) then fn else empty.

(** The loop over the parts of a multipart; [rec] parses a part. *)
Fixpoint parse_parts (rec : MIMEHeader → string → option (result error parsedContent))
    (parts : list (MIMEHeader * result error string)) (final : option error)
    (out : parsedContent) : option (result error parsedContent) :=
  match parts with
  | [] => Some (match final with None => Ok out | Some e => Err e end)
  | (_, Err e) :: _ => Some (Err e)
  | (h, Ok bytes) :: rest =>
      match rec h bytes with
      | None => None
      | Some (Err e) => Some (Err e)
      | Some (Ok c) => parse_parts rec rest final (appendParsed out c)
      end
  end.

Definition default_content_type : string := "text/plain; charset=utf-8".

(** The media type that [parseContent] goes by, and its parameters. *)
Definition media_type (header : MIMEHeader) : string * gmap string string :=
  let contentType := header_get header "Content-Type" in
  let contentType := if is_empty (TrimSpace contentType) then default_content_type else contentType in
  let m := mime_ParseMediaType contentType in
  (ToLower (match m_err m with None => m_type m | Some _ => "text/plain"%string end), m_params m).

(** A part that is not a multipart. *)
Definition parse_leaf (header : MIMEHeader) (body mediaType : string) : parsedContent :=
  let disp := mime_ParseMediaType (header_get header "Content-Disposition") in
  let filename := detectFilename header (m_params disp) in
  if negb (is_empty filename) || EqualFold (m_type disp) "attachment" then
    mkContent empty empty [buildAttachment header body filename (m_type disp)]
  else if (mediaType =? "text/plain")%string then mkContent (TrimSpace body) empty []
  else if (mediaType =? "text/html")%string then mkContent empty (TrimSpace body) []
  else if negb (is_empty filename) then
    mkContent empty empty [buildAttachment header body filename (m_type disp)]
  else no_content.

Fixpoint parseContent (fuel : nat) (header : MIMEHeader) (body : string)
    : option (result error parsedContent) :=
  match fuel with
  | O => None
  | S fuel' =>
      match decodeTransferEncoding header body with
      | Err e => Some (Err ("decode transfer-encoding: " +:+ e))
      | Ok body =>
          let '(mediaType, params) := media_type header in
          if HasPrefix mediaType "multipart/" then
            let boundary := param params "boundary" in
            if is_empty boundary then Some (Err "multipart part missing boundary"%string) else
            let mp := multipart_read boundary body in
            parse_parts (parseContent fuel') (mp_parts mp) (mp_end mp) no_content
          else Some (Ok (parse_leaf header body mediaType))
      end
  end.

(** ** Addresses, references and headers *)

Definition selectFromAddress (envelopeFrom fromHeader : string) : result error (string * string) :=
  match mail_ParseAddress envelopeFrom with
  | Err e => Err ("invalid envelope sender: " +:+ e)
  | Ok envAddr =>
      let env := Ok (Name envAddr, Email envAddr) in
      if is_empty (TrimSpace fromHeader) then env else
      match mail_ParseAddress fromHeader with
      | Err _ => env
      | Ok hdrAddr => if EqualFold (Email hdrAddr) (Email envAddr)
                      then Ok (Name hdrAddr, Email hdrAddr) else env
      end
  end.

Definition parseOptionalAddress (v : string) : option Contact :=
  if is_empty (TrimSpace v) then None else
  match mail_ParseAddress v with Ok addr => Some addr | Err _ => None end.

Definition parseReferences (v : string) : list string :=
  if is_empty (TrimSpace v) then [] else
  List.filter (λ part, negb (is_empty part)) (TrimSpace <$> Fields v).

Definition skipped_headers : list string :=
  ["from"; "to"; "cc"; "bcc"; "subject"; "reply-to"; "content-type"; "content-transfer-encoding";
   "mime-version"; "date"]%string.

Definition skip_header (k : string) : bool := bool_decide (ToLower k ∈ skipped_headers).

(** The range over the header map takes its entries in the order [header_order] gives. *)
Definition collectHeaders (h : MIMEHeader) : list Header :=
  concat ((λ kv : string * list string, mkHeader kv.1 <$> kv.2)
            <$> List.filter (λ kv, negb (skip_header kv.1)) (header_order (map_to_list h))).

(** Copies of slices are the values themselves. *)
Definition copyHeaders (l : list Header) : list Header := l.
Definition copyAttachments (l : list Attachment) : list Attachment := l.
Definition copyStrings (l : list string) : list string := l.

(** ** [Transform] *)

Definition build_message (includeCustomHeaders : bool) (fromName fromEmail subject : string)
    (content : parsedContent) (references : list string) (headers : list Header)
    (replyTo : option Contact) (inReplyTo : string) (rcpt : Contact) : Message := {|
  From := mkContact fromName fromEmail;
  Recipients := [rcpt];
  Subject := subject;
  Text := c_text content;
  HTML := c_html content;
  References := copyStrings references;
  Headers := if includeCustomHeaders then copyHeaders headers else [];
  ReplyTo := match replyTo with Some a => a | None => no_contact end;
  InReplyTo := inReplyTo;
  Attachments := copyAttachments (c_attachments content)
|}.

(** The loop over the recipients. *)
Fixpoint build_messages (build : Contact → Message) (recipients : list string)
    : result error (list (option Message)) :=
  match recipients with
  | [] => Ok []
  | rcpt :: rest =>
      match mail_ParseAddress rcpt with
      | Err e => Err ("invalid rcpt address " +:+ Quote rcpt +:+ ": " +:+ e)
      | Ok addr => msgs ← build_messages build rest; Ok (Some (build addr) :: msgs)
      end
  end.

Definition Transform (includeCustomHeaders : bool) (envelopeFrom : string)
    (recipients : list string) (raw : string) : option (result error (list (option Message))) :=
  if bool_decide (recipients = []) then Some (Err "missing recipients"%string) else
  match mail_ReadMessage raw with
  | Err e => Some (Err ("parse rfc822 message: " +:+ e))
  | Ok (header, bodyRead) =>
      match selectFromAddress envelopeFrom (header_get header "From") with
      | Err e => Some (Err e)
      | Ok (fromName, fromEmail) =>
          let replyTo := parseOptionalAddress (header_get header "Reply-To") in
          let subject := header_get header "Subject" in
          let inReplyTo := TrimSpace (header_get header "In-Reply-To") in
          let references := parseReferences (header_get header "References") in
          let headers := collectHeaders header in
          match bodyRead with
          | Err e => Some (Err ("read message body: " +:+ e))
          | Ok bodyBytes =>
              match parseContent (S (String.length bodyBytes)) header bodyBytes with
              | None => None
              | Some (Err e) => Some (Err ("parse mime content: " +:+ e))
              | Some (Ok content) =>
                  Some (build_messages
                    (build_message includeCustomHeaders fromName fromEmail subject content
                       references headers replyTo inReplyTo) recipients)
              end
          end
      end
  end.
End mime.
