(* ===== verification/MimeProps.v ===== *)
(** * The properties of the transformation of messages. *)

From S2P Require Import Prelude GoStrings Message Smtp SmtpProps SenderProps Reference Mime.

(** What the transformation relies on: a part of a multipart is shorter than the
    body it was cut from (the boundary lines are not part of it), decoding a
    transfer encoding never lengthens a body, and a range over a map meets
    each entry once. *)
Class MimeLaws `{MimeLib} : Prop := {
  parts_shorter : ∀ boundary body h bytes,
    boundary ≠ empty → (h, Ok bytes) ∈ mp_parts (multipart_read boundary body) →
    (String.length bytes < String.length body)%nat;
  quotedprintable_shorter : ∀ s t,
    quotedprintable_decode s = Ok t → (String.length t ≤ String.length s)%nat;
  base64_std_shorter : ∀ s t,
    base64_decode_std s = Ok t → (String.length t ≤ String.length s)%nat;
  base64_raw_shorter : ∀ s t,
    base64_decode_raw s = Ok t → (String.length t ≤ String.length s)%nat;
  header_order_perm : ∀ l, header_order l ≡ₚ l
}.

(** ** A reference decoder for base64 *)

Definition b64_value (c : ascii) : option Z :=
  let v := byte_val c in
  if byte_in 65 90 c then Some (v - 65)
  else if byte_in 97 122 c then Some (v - 71)
  else if byte_in 48 57 c then Some (v + 4)
  else if v =? 43 then Some 62
  else if v =? 47 then Some 63 else None.

(** RFC 4648: groups of four characters, the last padded. *)
Fixpoint b64_decode (l : list ascii) : option (list ascii) :=
  match l with
  | [] => Some []
  | a :: b :: c :: d :: rest =>
      x ← b64_value a; y ← b64_value b;
      let first := byte_of (x * 4 + y / 16) in
      if bool_decide (c = pad) then
        if bool_decide (d = pad ∧ rest = []) then Some [first] else None
      else
        z ← b64_value c;
        let second := byte_of (y mod 16 * 16 + z / 4) in
        if bool_decide (d = pad) then
          if bool_decide (rest = []) then Some [first; second] else None
        else
          w ← b64_value d;
          tl ← b64_decode rest;
          Some (first :: second :: byte_of (z mod 4 * 64 + w) :: tl)
  | _ => None
  end.

Lemma byte_of_val c : byte_of (byte_val c) = c.
Proof. unfold byte_of, byte_val. by rewrite Nat2Z.id, ascii_nat_embedding. Qed.

Lemma byte_of_eq c z : z = byte_val c → byte_of z = c.
Proof. intros ->. apply byte_of_val. Qed.

(** The sixty-four characters decode to their index and are not the padding. *)
Lemma b64_value_char z : 0 ≤ z < 64 → b64_value (b64_char z) = Some z ∧ b64_char z ≠ pad.
Proof.
  intros Hz.
  assert (forallb (λ n, bool_decide (b64_value (b64_char (Z.of_nat n)) = Some (Z.of_nat n)
            ∧ b64_char (Z.of_nat n) ≠ pad)) (seq 0 64) = true) as Hall by by vm_compute.
  rewrite forallb_forall in Hall. specialize (Hall (Z.to_nat z)).
  rewrite Z2Nat.id in Hall by lia. apply (bool_decide_eq_true_1 _), Hall, in_seq. lia.
Qed.

(** Decoding the three shapes of a group. *)
Lemma b64_decode_group x y z w rest :
  0 ≤ x < 64 → 0 ≤ y < 64 → 0 ≤ z < 64 → 0 ≤ w < 64 →
  b64_decode (b64_char x :: b64_char y :: b64_char z :: b64_char w :: rest)
  = (λ tl, byte_of (x * 4 + y / 16) :: byte_of (y mod 16 * 16 + z / 4)
             :: byte_of (z mod 4 * 64 + w) :: tl) <$> b64_decode rest.
Proof.
  intros Hx Hy Hz Hw.
  cbn [b64_decode].
  rewrite (proj1 (b64_value_char x Hx)), (proj1 (b64_value_char y Hy)),
    (proj1 (b64_value_char z Hz)), (proj1 (b64_value_char w Hw)).
  cbn [mbind option_bind].
  rewrite (bool_decide_eq_false_2 (b64_char z = pad)) by by apply b64_value_char.
  rewrite (bool_decide_eq_false_2 (b64_char w = pad)) by by apply b64_value_char.
  by destruct (b64_decode rest).
Qed.

Lemma b64_decode_pad1 x y z :
  0 ≤ x < 64 → 0 ≤ y < 64 → 0 ≤ z < 64 →
  b64_decode [b64_char x; b64_char y; b64_char z; pad]
  = Some [byte_of (x * 4 + y / 16); byte_of (y mod 16 * 16 + z / 4)].
Proof.
  intros Hx Hy Hz. cbn [b64_decode].
  rewrite (proj1 (b64_value_char x Hx)), (proj1 (b64_value_char y Hy)), (proj1 (b64_value_char z Hz)).
  cbn [mbind option_bind].
  by rewrite (bool_decide_eq_false_2 (b64_char z = pad)) by by apply b64_value_char.
Qed.

Lemma b64_decode_pad2 x y :
  0 ≤ x < 64 → 0 ≤ y < 64 →
  b64_decode [b64_char x; b64_char y; pad; pad] = Some [byte_of (x * 4 + y / 16)].
Proof.
  intros Hx Hy. cbn [b64_decode].
  by rewrite (proj1 (b64_value_char x Hx)), (proj1 (b64_value_char y Hy)).
Qed.

(** Base 64 digits recompose the bytes they were taken from. *)
Ltac digits := Z.to_euclidean_division_equations; lia.
Ltac recompose := apply byte_of_eq; digits.

Lemma b64_decode_encode l : b64_decode (b64_encode l) = Some l.
Proof.
  remember (length l) as n eqn:Hn. revert l Hn.
  induction n as [n IH] using lt_wf_ind. intros [|a [|b [|c rest]]] ->; [done|..];
    pose proof (byte_val_range a) as Ha; cbn [b64_encode].
  - rewrite b64_decode_pad2 by digits. do 2 f_equal. recompose.
  - pose proof (byte_val_range b) as Hb. rewrite b64_decode_pad1 by digits.
    do 2 f_equal; [recompose|]. f_equal. recompose.
  - pose proof (byte_val_range b) as Hb. pose proof (byte_val_range c) as Hc.
    rewrite b64_decode_group by digits. rewrite (IH (length rest)) by (cbn; lia || done).
    cbn. do 2 f_equal; [recompose|]. f_equal; [recompose|]. f_equal. recompose.
Qed.

Lemma length_b64_encode l : (length (b64_encode l) = 4 * ((length l + 2) / 3))%nat.
Proof.
  remember (length l) as n eqn:Hn. revert l Hn.
  induction n as [n IH] using lt_wf_ind. intros [|a [|b [|c rest]]] ->; [done..|].
  cbn [b64_encode]. cbn [length List.length]. rewrite (IH (length rest)) by (cbn; lia || done).
  cbn [length List.length].
  replace (S (S (S (length rest))) + 2)%nat with (1 * 3 + (length rest + 2))%nat by lia.
  rewrite Nat.div_add_l by lia. lia.
Qed.

(** ** Parts and recursion *)

(** [s] occurs in [t]. *)
Definition occurs_in (s t : string) : Prop := ∃ a b, t = a +:+ s +:+ b.

Lemma occurs_refl s : occurs_in s s.
Proof.
  exists empty, empty. rewrite <- (of_chars_chars s) at 1.
  rewrite <- (of_chars_chars (empty +:+ s +:+ empty)), !chars_app. by rewrite app_nil_r.
Qed.

Lemma occurs_trans s t u : occurs_in s t → occurs_in t u → occurs_in s u.
Proof.
  intros (a & b & ->) (c & d & ->). exists (c +:+ a), (b +:+ d).
  by rewrite !string_app_assoc.
Qed.

Lemma occurs_empty s : occurs_in empty s.
Proof. by exists empty, s. Qed.

Lemma append_text_keeps dst src :
  occurs_in dst (append_text dst src) ∧ occurs_in src (append_text dst src).
Proof.
  unfold append_text. destruct (is_empty dst) eqn:Ed.
  { apply is_empty_true in Ed as ->. split; [apply occurs_empty|apply occurs_refl]. }
  destruct (is_empty src) eqn:Es; cbn.
  { apply is_empty_true in Es as ->. split; [apply occurs_refl|apply occurs_empty]. }
  destruct (src =? dst)%string eqn:E; cbn.
  { apply String.eqb_eq in E as ->. split; apply occurs_refl. }
  split; [by exists empty, (newline +:+ src)|].
  exists (dst +:+ newline), empty. rewrite !string_app_assoc. do 2 f_equal.
  rewrite <- (of_chars_chars (src +:+ empty)), chars_app, app_nil_r. by rewrite of_chars_chars.
Qed.

(** All of [c] is in [out]. *)
Definition content_in (c out : parsedContent) : Prop :=
  occurs_in (c_text c) (c_text out) ∧ occurs_in (c_html c) (c_html out).

#[export] Instance content_in_trans : Transitive content_in.
Proof. intros a b c [] []. split; by eapply occurs_trans. Qed.
#[export] Instance content_in_refl : Reflexive content_in.
Proof. intros a. split; apply occurs_refl. Qed.

Lemma appendParsed_keeps dst src :
  content_in dst (appendParsed dst src) ∧ content_in src (appendParsed dst src).
Proof.
  pose proof (append_text_keeps (c_text dst) (c_text src)) as [].
  pose proof (append_text_keeps (c_html dst) (c_html src)) as []. by repeat split.
Qed.

(** A part and what parsing it gave. *)
Definition parsed_as (rec : MIMEHeader → string → option (result error parsedContent))
    (p : MIMEHeader * result error string) (c : parsedContent) : Prop :=
  ∃ bytes, p.2 = Ok bytes ∧ rec p.1 bytes = Some (Ok c).

Lemma parse_parts_ok rec parts final : ∀ out c,
  parse_parts rec parts final out = Some (Ok c) →
  final = None ∧ ∃ cs, Forall2 (parsed_as rec) parts cs
    ∧ c_attachments c = c_attachments out ++ concat (c_attachments <$> cs)
    ∧ content_in out c ∧ Forall (λ x, content_in x c) cs.
Proof.
  induction parts as [|[h [bytes|e]] parts IH]; intros out c; cbn; [|..|done].
  - destruct final; [done|]. intros [= <-]. split; [done|]. exists [].
    rewrite app_nil_r. split_and!; [constructor|done|done|constructor].
  - destruct (rec h bytes) as [[x|]|] eqn:Er; [|done..].
    intros (-> & cs & Hf & Ha & Hin & Hcs)%IH. split; [done|]. exists (x :: cs).
    pose proof (appendParsed_keeps out x) as [Ho Hx]. split_and!.
    + constructor; [by exists bytes|done].
    + rewrite Ha. cbn. by rewrite <- app_assoc.
    + by etransitivity.
    + constructor; [by etransitivity|done].
Qed.

Lemma parse_parts_total rec parts final : ∀ out,
  (∀ h bytes, (h, Ok bytes) ∈ parts → is_Some (rec h bytes)) →
  is_Some (parse_parts rec parts final out).
Proof.
  induction parts as [|[h [bytes|e]] parts IH]; intros out Hr; cbn; [by eexists|..|by eexists].
  destruct (Hr h bytes) as [[x|e] ->]; [by left| |by eexists].
  apply IH. intros h' b' Hin. apply Hr. by right.
Qed.

Section mime_properties.
Context {UC : UnicodeCase} {NL : NetLib} {ML : MimeLib} {MLaws : MimeLaws}.

Lemma filter_length {A} (p : A → bool) (l : list A) : (length (List.filter p l) ≤ length l)%nat.
Proof. unfold length. induction l as [|x l IH]; cbn; [lia|]. destruct (p x); cbn; lia. Qed.

Lemma decode_shorter h body body' :
  decodeTransferEncoding h body = Ok body' → (String.length body' ≤ String.length body)%nat.
Proof.
  unfold decodeTransferEncoding. case_bool_decide; [by intros [= <-]|].
  destruct (_ =? _)%string; [apply quotedprintable_shorter|].
  destruct (_ =? _)%string; [|by intros [= <-]].
  destruct (base64_decode_std body) as [d|e] eqn:E; [intros [= <-]; by eapply base64_std_shorter|].
  destruct (base64_decode_raw _) as [d|e'] eqn:E'; [|done]. intros [= <-].
  apply base64_raw_shorter in E'. etransitivity; [exact E'|].
  rewrite <- !length_chars. unfold compactBase64. rewrite chars_of_chars. apply filter_length.
Qed.

Lemma parseContent_total fuel : ∀ h body,
  (String.length body < fuel)%nat → is_Some (parseContent fuel h body).
Proof.
  induction fuel as [|fuel IH]; intros h body Hf; [lia|]. cbn [parseContent].
  destruct (decodeTransferEncoding h body) as [body'|e] eqn:Ed; [|by eexists].
  apply decode_shorter in Ed. destruct (media_type h) as [mt params].
  destruct (HasPrefix mt "multipart/"); [|by eexists].
  destruct (is_empty (param params "boundary")) eqn:Eb; [by eexists|].
  apply is_empty_false in Eb. apply parse_parts_total. intros h' bytes Hin.
  apply IH. pose proof (parts_shorter _ _ _ _ Eb Hin). lia.
Qed.

(** C31: the transformation terminates: nesting of multiparts is bounded by the
    length of the body, so the recursion never runs out of fuel and
    [Transform] returns messages or an error on every input. *)
Theorem transform_total inc envelopeFrom recipients raw :
  ∃ r, Transform inc envelopeFrom recipients raw = Some r.
Proof.
  unfold Transform. case_bool_decide; [by eexists|].
  destruct (mail_ReadMessage raw) as [[h [body|e]]|e]; [| |by eexists].
  - destruct (selectFromAddress _ _) as [[n f]|e]; [|by eexists].
    destruct (parseContent_total (S (String.length body)) h body ltac:(lia)) as [[c|e2] ->];
      by eexists.
  - destruct (selectFromAddress _ _) as [[n f]|e']; by eexists.
Qed.

Lemma build_messages_ok build rcpts : ∀ msgs,
  build_messages build rcpts = Ok msgs →
  Forall2 (λ rcpt om, ∃ addr, mail_ParseAddress rcpt = Ok addr ∧ om = Some (build addr)) rcpts msgs.
Proof.
  induction rcpts as [|rcpt rcpts IH]; intros msgs; cbn; [intros [= <-]; constructor|].
  destruct (mail_ParseAddress rcpt) as [addr|e] eqn:Ep; [|done].
  intros (l & Hl & [= <-])%bind_ok. constructor; [by exists addr|by apply IH].
Qed.

Lemma selectFromAddress_ok envelopeFrom fromHeader n f :
  selectFromAddress envelopeFrom fromHeader = Ok (n, f) →
  ∃ env, mail_ParseAddress envelopeFrom = Ok env
    ∧ ((n, f) = (Name env, Email env)
       ∨ ∃ hdr, mail_ParseAddress fromHeader = Ok hdr ∧ (n, f) = (Name hdr, Email hdr)
                ∧ EqualFold (Email hdr) (Email env) = true).
Proof.
  unfold selectFromAddress. destruct (mail_ParseAddress envelopeFrom) as [env|e]; [|done].
  intros Hs. exists env. split; [done|]. destruct (is_empty _); [left; congruence|].
  destruct (mail_ParseAddress fromHeader) as [hdr|e] eqn:Eh; [|left; congruence].
  destruct (EqualFold _ _) eqn:Ef; [|left; congruence]. right. exists hdr.
  split_and!; [done|congruence|done].
Qed.

(** What a successful transformation built. *)
Lemma Transform_messages inc envelopeFrom recipients raw msgs :
  Transform inc envelopeFrom recipients raw = Some (Ok msgs) →
  ∃ h n f build, selectFromAddress envelopeFrom (header_get h "From") = Ok (n, f)
    ∧ (∃ subject content references replyTo inReplyTo,
         build = build_message inc n f subject content references (collectHeaders h) replyTo inReplyTo)
    ∧ Forall2 (λ rcpt om, ∃ addr, mail_ParseAddress rcpt = Ok addr ∧ om = Some (build addr))
        recipients msgs.
Proof.
  unfold Transform. case_bool_decide; [done|].
  destruct (mail_ReadMessage raw) as [[h [body|e]]|e];
    [|by destruct (selectFromAddress _ _) as [[? ?]|]|done].
  destruct (selectFromAddress _ _) as [[n f]|e] eqn:Es; [|done].
  destruct (parseContent _ h body) as [[c|e]|]; [|done..]. intros [= Hb%build_messages_ok].
  eexists h, n, f, _. split_and!; [done|by eexists _, _, _, _, _|exact Hb].
Qed.

(** C20: one message per recipient and no forged sender. A transformation that
    succeeds yields, in the order of the recipients, one message each, to
    that recipient alone and otherwise the same; its sender is the
    envelope's, or the From header's when that is the envelope's address up
    to case; custom headers appear only when they are enabled. *)
Theorem transform_recipients inc envelopeFrom recipients raw msgs :
  Transform inc envelopeFrom recipients raw = Some (Ok msgs) →
  ∃ env template,
    mail_ParseAddress envelopeFrom = Ok env
    ∧ Forall2 (λ rcpt om, ∃ addr m, om = Some m ∧ mail_ParseAddress rcpt = Ok addr
         ∧ m = mkMessage (From template) [addr] (Subject template) (Text template) (HTML template)
                 (References template) (Headers template) (ReplyTo template)
                 (InReplyTo template) (Attachments template)) recipients msgs
    ∧ (From template = env ∨ EqualFold (Email (From template)) (Email env) = true)
    ∧ (inc = false → Headers template = []).
Proof.
  intros (h & n & f & build & Es & (subj & c & refs & rt & irt & ->) & Hb)%Transform_messages.
  apply selectFromAddress_ok in Es as (env & Henv & Hfrom).
  set (build := build_message _ _ _ _ _ _ _ _ _) in Hb.
  exists env, (build no_contact). split_and!; [done| | |].
  - eapply Forall2_impl; [exact Hb|].
    intros rcpt om (addr & Hp & ->). by exists addr, (build addr).
  - cbn. destruct Hfrom as [[= -> ->]|(hdr & _ & [= -> ->] & Hf)]; [left; by destruct env|by right].
  - by intros ->.
Qed.

(** C33: an attachment survives: the standard base 64 decoding of an attachment's
    content is the part's body, whose encoding is four bytes for every three
    begun; a part with a file name keeps it, trimmed. *)
Theorem attachment_roundtrip header body filename disposition :
  let a := buildAttachment header body filename disposition in
  of_chars <$> b64_decode (chars (Content a)) = Some body
  ∧ slen (Content a) = 4 * ((slen body + 2) / 3)
  ∧ (filename ≠ empty → Filename a = filename)
  ∧ Filename a ≠ empty ∧ Disposition a ≠ empty.
Proof.
  cbn. unfold EncodeToString. rewrite chars_of_chars, b64_decode_encode. cbn.
  rewrite of_chars_chars. split_and!; [done| | | |].
  - unfold slen. rewrite <- !length_chars, chars_of_chars, length_b64_encode.
    rewrite Nat2Z.inj_mul, Nat2Z.inj_div, Nat2Z.inj_add. done.
  - intros Hf%is_empty_false. by rewrite Hf.
  - destruct (is_empty filename) eqn:E; [done|]. by apply is_empty_false.
  - destruct (is_empty disposition) eqn:E; [done|]. by apply is_empty_false.
Qed.

(** C32: nothing in a multipart is lost. When parsing a multipart succeeds every
    part was read and parsed, the attachments are those of the parts, in
    order, and the text and HTML of each part occur in the result's. *)
Theorem multipart_keeps_parts fuel header body body' mediaType params c :
  decodeTransferEncoding header body = Ok body' →
  media_type header = (mediaType, params) → HasPrefix mediaType "multipart/" = true →
  parseContent (S fuel) header body = Some (Ok c) →
  let mp := multipart_read (param params "boundary") body' in
  mp_end mp = None ∧ ∃ cs, Forall2 (parsed_as (parseContent fuel)) (mp_parts mp) cs
    ∧ c_attachments c = concat (c_attachments <$> cs)
    ∧ Forall (λ x, content_in x c) cs.
Proof.
  intros Hd Hm Hp. cbn [parseContent]. rewrite Hd, Hm, Hp.
  destruct (is_empty _); [done|]. intros (He & cs & Hf & Ha & _ & Hcs)%parse_parts_ok.
  split; [done|]. by exists cs.
Qed.

(** A part can vanish: content that is neither text nor a multipart and has
    neither a file name nor the disposition "attachment" parses to nothing
    and is dropped without an error (the branch that would attach it tests
    for the file name it does not have). *)
Theorem nameless_content_dropped fuel header body body' mediaType params :
  decodeTransferEncoding header body = Ok body' →
  media_type header = (mediaType, params) →
  HasPrefix mediaType "multipart/" = false →
  mediaType ≠ "text/plain"%string → mediaType ≠ "text/html"%string →
  let disp := mime_ParseMediaType (header_get header "Content-Disposition") in
  detectFilename header (m_params disp) = empty →
  EqualFold (m_type disp) "attachment" = false →
  parseContent (S fuel) header body = Some (Ok no_content).
Proof.
  intros Hd Hm Hp H1%String.eqb_neq H2%String.eqb_neq disp Hf Ha. cbn [parseContent].
  rewrite Hd, Hm, Hp. unfold parse_leaf. fold disp. by rewrite Hf, Ha, H1, H2.
Qed.

Definition header_values (kv : string * list string) : list Header := mkHeader kv.1 <$> kv.2.

Lemma filter_header_values k k' vs :
  List.filter (λ x, bool_decide (HName x = k)) (mkHeader k' <$> vs)
  = if decide (k' = k) then mkHeader k <$> vs else [].
Proof.
  case_decide as Hk.
  - subst. induction vs as [|v vs IH]; cbn; [done|]. by rewrite bool_decide_eq_true_2, IH.
  - induction vs as [|v vs IH]; cbn; [done|]. by rewrite bool_decide_eq_false_2.
Qed.

Lemma collect_from_list k (l : list (string * list string)) :
  NoDup l.*1 →
  List.filter (λ x, bool_decide (HName x = k))
    (concat (header_values <$> List.filter (λ kv, negb (skip_header kv.1)) l))
  = if skip_header k then [] else mkHeader k <$> default [] ((list_to_map l : MIMEHeader) !! k).
Proof.
  induction l as [|[k' vs] l IH]; cbn; [by case_match|]. intros [Hk Hnd]%NoDup_cons.
  specialize (IH Hnd). destruct (decide (k' = k)) as [->|Hne].
  - rewrite lookup_insert_eq. rewrite not_elem_of_list_to_map_1 in IH by done. cbn in IH.
    destruct (skip_header k) eqn:Es; cbn; [exact IH|].
    rewrite List.filter_app, filter_header_values, decide_True, IH by done.
    by rewrite app_nil_r.
  - rewrite lookup_insert_ne by done. destruct (skip_header k'); cbn; [exact IH|].
    by rewrite List.filter_app, filter_header_values, decide_False.
Qed.

(** C34: the custom headers are exact. For a header name that is not set by other
    means the values are carried over, all of them and in order, whatever the
    order of the range over the map; for the ten names that are, in any
    letter case, none is. *)
Theorem collect_headers_exact h k :
  List.filter (λ x, bool_decide (HName x = k)) (collectHeaders h)
  = if skip_header k then [] else mkHeader k <$> default [] (h !! k).
Proof.
  unfold collectHeaders. change (λ kv : string * list string, mkHeader kv.1 <$> kv.2) with header_values.
  assert (NoDup (header_order (map_to_list h)).*1) as Hnd.
  { rewrite header_order_perm. apply NoDup_fst_map_to_list. }
  rewrite collect_from_list by done.
  rewrite (list_to_map_proper _ (map_to_list h) Hnd (header_order_perm _)).
  by rewrite list_to_map_to_list.
Qed.
End mime_properties.

(** ** Witnesses *)

(** Parsers for small inputs: a message is its body under two headers, a part of
    a multipart the rest of the body after its first byte. *)
Definition ref_headers : MIMEHeader :=
  {[ "From" := ["News@example.com"]%string; "X-Tag" := ["a"; "b"]%string ]}.

Definition ref_mime : MimeLib := {|
  mail_ReadMessage := λ raw, if is_empty raw then Err "EOF"%string else Ok (ref_headers, Ok raw);
  mime_ParseMediaType := λ s,
    if (s =? "multipart/mixed")%string then mkMedia s {[ "boundary"%string := "b"%string ]} None
    else if is_empty s then mkMedia empty ∅ (Some "mime: no media type"%string)
    else if (s =? default_content_type)%string then mkMedia "text/plain" ∅ None
    else mkMedia s ∅ None;
  multipart_read := λ _ body,
    mkMultipart (match body with EmptyString => [] | String _ rest => [(∅, Ok rest)] end) None;
  quotedprintable_decode := Ok;
  base64_decode_std := Ok;
  base64_decode_raw := Ok;
  header_order := id
|}.

#[local] Existing Instances ref_unicode ref_net ref_mime.

Lemma ref_mime_laws : @MimeLaws ref_mime.
Proof.
  split; cbn; try by (intros ? ? [= <-]). 2: done.
  intros _ [|c body] h bytes _; cbn; [by intros ?%elem_of_nil|].
  rewrite list_elem_of_singleton. intros [= -> ->]. lia.
Qed.
#[local] Existing Instance ref_mime_laws.

Lemma transform_total_witness :
  ∃ r, Transform false "news@example.com" ["a@example.net"]%string "hi" = Some r.
Proof. apply transform_total. Defined.

Lemma transform_recipients_witness :
  ∃ m1 m2, Transform false "news@example.com" ["a@example.net"; "b@example.net"]%string "hi"
             = Some (Ok [Some m1; Some m2])
    ∧ Recipients m2 = [mkContact empty "b@example.net"] ∧ Headers m1 = [].
Proof.
  destruct (Transform false "news@example.com" ["a@example.net"; "b@example.net"]%string "hi")
    as [[[|[m1|] [|[m2|] [|]]]|e]|] eqn:E; try by vm_compute in E.
  exists m1, m2. split; [done|].
  destruct (transform_recipients _ _ _ _ _ E) as (env & tmpl & _ & Hf & _ & Hh).
  apply Forall2_cons_1 in Hf as [(a1 & x1 & [= <-] & _ & ->) Hf].
  apply Forall2_cons_1 in Hf as [(a2 & x2 & [= <-] & [= <-] & ->) _].
  split; [done|]. by apply Hh.
Defined.

Definition mixed_header : MIMEHeader := {[ "Content-Type"%string := ["multipart/mixed"]%string ]}.

Lemma multipart_keeps_parts_witness :
  ∃ c, parseContent 3 mixed_header "-hello" = Some (Ok c) ∧ occurs_in "hello" (c_text c).
Proof.
  destruct (parseContent 3 mixed_header "-hello") as [[c|e]|] eqn:E; try by vm_compute in E.
  exists c. split; [done|].
  destruct (multipart_keeps_parts 2 mixed_header "-hello" "-hello" "multipart/mixed"
    {[ "boundary"%string := "b"%string ]} c) as (_ & cs & Hf & _ & Hin);
    [by vm_compute|by vm_compute|done|exact E|].
  apply Forall2_cons_inv_l in Hf as (x & ? & (b & [= <-] & Hx) & Hnil & ->).
  apply Forall2_nil_inv_l in Hnil as ->. apply Forall_cons in Hin as [[Ht _] _].
  vm_compute in Hx. injection Hx as <-. exact Ht.
Defined.

Definition image_header : MIMEHeader := {[ "Content-Type"%string := ["image/png"]%string ]}.

Lemma nameless_content_dropped_witness :
  parseContent 1 image_header "PNG" = Some (Ok no_content).
Proof.
  apply (nameless_content_dropped 0 image_header "PNG" "PNG" "image/png" ∅);
    first [done | by vm_compute].
Defined.

Lemma collect_headers_exact_witness :
  List.filter (λ x, bool_decide (HName x = "X-Tag"%string)) (collectHeaders ref_headers)
  = [mkHeader "X-Tag" "a"; mkHeader "X-Tag" "b"].
Proof. rewrite collect_headers_exact. by vm_compute. Defined.
