(* ===== verification/Dlq.v ===== *)
(** * Dead letters: [internal/dlq/dlq.go].

    The export file is written through a [bufio.Writer] of 4096 bytes and read
    back by a [bufio.Scanner] of at most 65536; both are modelled, with every
    write of the file a possible fault. The JSON encoding of a record is a
    parameter. *)

From S2P Require Import Prelude GoStrings Message SqlTime Queue.

Record ExportRecord := mkRecord {
  x_id : string;
  x_envelope_from : string;
  x_recipient_email : string;
  x_attempt_count : Z;
  x_last_error : string;
  x_last_http_status : Z;
  x_updated_at : Z;
  x_payload_json : string
}.

(** [json.Marshal] of a record, and the [id] that [json.Unmarshal] reads from a line
    ([None] when the line does not decode). *)
Class RecordCodec := {
  marshal_record : ExportRecord → result error string;
  unmarshal_id : string → option string
}.

Definition record_of_job (j : Job) : ExportRecord :=
  mkRecord (ID j) (EnvelopeFrom j) (RecipientEmail j) (AttemptCount j) (LastError j)
    (LastHTTPStatus j) (UpdatedAt j) (PayloadJSON j).

(** ** A file behind a buffered writer *)

(** The outcome of a write to the file: all written, or some bytes and an error. *)
Abbreviation write_outcome := (option (nat * error)).

Record file := mkFile {
  disk : string;
  buffered : string;
  werr : option error;
  wfaults : list write_outcome
}.

Definition buffer_size : Z := 4096.
Definition new_file (fs : list write_outcome) : file := mkFile empty empty None fs.

(** [f.Write(p)] under the writer: the bytes not written. *)
Definition file_write (p : string) (f : file) : string * file :=
  match wfaults f with
  | [] => (empty, mkFile (disk f +:+ p) (buffered f) (werr f) [])
  | None :: fs => (empty, mkFile (disk f +:+ p) (buffered f) (werr f) fs)
  | Some (n, e) :: fs => (drop n p, mkFile (disk f +:+ cut n p) (buffered f) (Some e) fs)
  end.

Definition set_buffer (b : string) (f : file) : file := mkFile (disk f) b (werr f) (wfaults f).

(** [w.Flush()] *)
Definition Flush (f : file) : file :=
  match werr f with
  | Some _ => f
  | None =>
      if is_empty (buffered f) then f else
      let '(rest, f') := file_write (buffered f) f in set_buffer rest f'
  end.

Definition available (f : file) : Z := buffer_size - slen (buffered f).

(** The loop of [w.Write]: three rounds are enough, the buffer being empty after
    the first and the data written after the second. *)
Fixpoint write_loop (fuel : nat) (p : string) (f : file) : string * file :=
  match fuel with
  | O => (p, f)
  | S fuel' =>
      if (available f <? slen p) && bool_decide (werr f = None) then
        if is_empty (buffered f) then
          let '(rest, f') := file_write p f in write_loop fuel' rest f'
        else
          let n := Z.to_nat (available f) in
          write_loop fuel' (drop n p) (Flush (set_buffer (buffered f +:+ cut n p) f))
      else (p, f)
  end.

Definition Write (p : string) (f : file) : result error unit * file :=
  let '(rest, f') := write_loop 3 p f in
  match werr f' with
  | Some e => (Err e, f')
  | None => (Ok tt, set_buffer (buffered f' +:+ rest) f')
  end.

Definition newline : string := of_chars [byte_of 10].

Section dlq.
Context `{UnicodeCase, JSONCodec, SqlEngine, TimeDriver, RecordCodec}.

(** The loop over the rows. *)
Fixpoint write_records (js : list Job) (f : file) : result error unit * file :=
  match js with
  | [] => (Ok tt, f)
  | j :: rest =>
      match marshal_record (record_of_job j) with
      | Err e => (Err e, f)
      | Ok b =>
          match Write (b +:+ newline) f with
          | (Err e, f') => (Err e, f')
          | (Ok _, f') => write_records rest f'
          end
      end
  end.

(** [created] is the outcome of [os.Create]; the deferred [Flush] runs last and
    its error is dropped. The file is [None] when it was not created. *)
Definition ExportJSONL (clock limit : Z) (created : option error) (fs : list write_outcome)
    (s : store) : result error Z * option file * store :=
  match ListDLQ clock limit s with
  | (Err e, s') => (Err e, None, s')
  | (Ok rows, s') =>
      match created with
      | Some e => (Err ("create export file: " +:+ e), None, s')
      | None =>
          let '(r, f) := write_records rows (new_file fs) in
          (match r with Err e => Err e | Ok _ => Ok (zlen rows) end, Some (Flush f), s')
      end
  end.

Definition ReplayIDs (ids : list string) (now : Z) : M store Z :=
  if decide (ids = []) then mret 0 else RequeueDLQIDs ids now.

(** ** [ReadIDsFromFile] *)

Definition max_token : Z := 65536.

(** [bufio.ScanLines]: the lines without their ends; text after the last newline
    is a line unless it is empty. *)
Fixpoint lines_from (acc : list ascii) (l : list ascii) : list (list ascii) :=
  match l with
  | [] => match acc with [] => [] | _ => [rev acc] end
  | c :: l' => if byte_val c =? 10 then rev acc :: lines_from [] l' else lines_from (c :: acc) l'
  end.

Definition drop_cr (l : list ascii) : list ascii :=
  match rev l with
  | c :: r => if byte_val c =? 13 then rev r else l
  | [] => l
  end.

(** What a line of the file names. *)
Definition line_id (text : string) : option string :=
  let line := TrimSpace text in
  if is_empty line then None
  else if HasPrefix line "{" then
    match unmarshal_id line with
    | Some i => if is_empty (TrimSpace i) then Some line else Some (TrimSpace i)
    | None => Some line
    end
  else Some line.

(** The scan: a line that fills the buffer is an error, and so is a failed read
    after the content. *)
Fixpoint scan_ids (lines : list (list ascii)) (readErr : option error) : result error (list string) :=
  match lines with
  | [] => match readErr with Some e => Err e | None => Ok [] end
  | l :: rest =>
      if max_token <=? zlen l then Err "bufio.Scanner: token too long"%string else
      ids ← scan_ids rest readErr;
      Ok (match line_id (of_chars (drop_cr l)) with Some i => i :: ids | None => ids end)
  end.

(** [opened] is the outcome of [os.Open]. *)
Definition ReadIDsFromFile (opened : result error string) (readErr : option error)
    : result error (list string) :=
  content ← opened;
  scan_ids (lines_from [] (chars content)) readErr.
End dlq.
