(* ===== verification/DlqProps.v ===== *)
(** * The properties of the dead-letter export and replay. *)

From S2P Require Import Prelude GoStrings Message SqlTime Queue Reference QueueProps SenderProps Dlq.

(** What replay relies on: a record encodes to one JSON object on one line,
    without white space around it, and an ASCII identifier decodes to itself.
    (A string that is not valid UTF-8 does not: Marshal replaces the bytes.) *)
Class RecordLaws `{RecordCodec} : Prop := {
  marshal_line : ∀ r b, marshal_record r = Ok b →
    HasPrefix b "{" = true ∧ trimmed b ∧ Forall (λ c, byte_val c ≠ 10) (chars b)
    ∧ drop_cr (chars b) = chars b;
  unmarshal_marshal : ∀ r b,
    ascii_only (x_id r) = true → marshal_record r = Ok b → unmarshal_id b = Some (x_id r)
}.

(** An identifier that replay reads back: ASCII, not empty, no space around it;
    the ULIDs of the store are such. *)
Definition plain_id (i : string) : Prop := ascii_only i = true ∧ trimmed i ∧ i ≠ empty.

(** ** The buffered writer without faults *)

(** All that was written, on disk or in the buffer. *)
Definition contents (f : file) : string := disk f +:+ buffered f.

Definition sound (f : file) : Prop :=
  werr f = None ∧ wfaults f = [] ∧ slen (buffered f) ≤ buffer_size.

Lemma string_app_empty s : s +:+ empty = s.
Proof. rewrite <- (of_chars_chars (s +:+ empty)), chars_app, app_nil_r. apply of_chars_chars. Qed.

Lemma cut_drop n s : cut n s +:+ drop n s = s.
Proof.
  unfold cut. revert s. induction n as [|n IH]; intros [|c s]; cbn; try done.
  change (String c (String.substring 0 n s +:+ drop n s) = String c s). by rewrite IH.
Qed.

Lemma slen_drop n s : slen (drop n s) = Z.max 0 (slen s - Z.of_nat n).
Proof.
  unfold slen. revert s. induction n as [|n IH]; intros [|c s]; cbn [drop String.length]; try lia.
  rewrite IH. lia.
Qed.

Lemma file_write_ok p f :
  wfaults f = [] →
  file_write p f = (empty, mkFile (disk f +:+ p) (buffered f) (werr f) []).
Proof. unfold file_write. by intros ->. Qed.

Lemma Flush_ok f :
  sound f → Flush f = mkFile (contents f) empty None [].
Proof.
  destruct f as [d b e fs]. intros (He & Hf & _). cbn in *. subst. unfold Flush, contents. cbn.
  destruct b as [|c b]; cbn; [by rewrite string_app_empty|done].
Qed.

Lemma write_loop_done fuel p f : slen p ≤ available f → write_loop fuel p f = (p, f).
Proof. intros Hp. destruct fuel; cbn; [done|]. by rewrite (proj2 (Z.ltb_ge _ _) Hp). Qed.

Lemma write_loop_step fuel p f :
  (available f <? slen p) = true → werr f = None →
  write_loop (S fuel) p f =
    if is_empty (buffered f) then
      let '(rest, f') := file_write p f in write_loop fuel rest f'
    else
      let n := Z.to_nat (available f) in
      write_loop fuel (drop n p) (Flush (set_buffer (buffered f +:+ cut n p) f)).
Proof. intros Ha He. cbn. by rewrite Ha, bool_decide_eq_true_2. Qed.

(** What a successful loop leaves: nothing is lost, and the rest fits. *)
Definition loop_ok (fuel : nat) (p : string) (f : file) : Prop :=
  let '(rest, f') := write_loop fuel p f in
  werr f' = None ∧ wfaults f' = [] ∧ slen (buffered f' +:+ rest) ≤ buffer_size
  ∧ contents f' +:+ rest = contents f +:+ p.

(** An empty buffer takes what fits, or the file all of it. *)
Lemma loop_ok_empty p d : loop_ok 2 p (mkFile d empty None []).
Proof.
  unfold loop_ok. destruct (buffer_size <? slen p) eqn:E.
  - rewrite write_loop_step by done. cbn [buffered is_empty].
    rewrite file_write_ok by done. cbn [disk buffered werr].
    rewrite write_loop_done by done. unfold contents. cbn [disk buffered werr wfaults].
    split_and!; [done..|]. by rewrite !string_app_empty.
  - bool_to_prop. rewrite write_loop_done by done. by split_and!.
Qed.

Lemma loop_ok_full p f : sound f → loop_ok 3 p f.
Proof.
  destruct f as [d b e fs]. intros (He & Hf & Hb). cbn in He, Hf, Hb. subst.
  destruct (available (mkFile d b None []) <? slen p) eqn:E.
  2: { bool_to_prop. unfold loop_ok. rewrite write_loop_done by done.
       unfold available in E. cbn [buffered] in E. split_and!; [done..| |done].
       cbn [buffered]. rewrite slen_app. lia. }
  unfold loop_ok. rewrite write_loop_step by done. cbn [buffered].
  destruct (is_empty b) eqn:Eb.
  - apply is_empty_true in Eb as ->. rewrite file_write_ok by done. cbn [disk buffered werr].
    rewrite write_loop_done by done. unfold contents. cbn [disk buffered werr wfaults].
    split_and!; [done..|]. by rewrite !string_app_empty.
  - set (n := Z.to_nat (available (mkFile d b None []))).
    assert (slen (b +:+ cut n p) ≤ buffer_size) as Hfull.
    { rewrite slen_app. pose proof (cut_length n p). subst n. unfold available in *.
      cbn [buffered] in *. lia. }
    cbn zeta. fold n. rewrite Flush_ok by by split_and!.
    pose proof (loop_ok_empty (drop n p) (contents (set_buffer (b +:+ cut n p) (mkFile d b None [])))) as Hl.
    unfold loop_ok in Hl. destruct (write_loop 2 _ _) as [rest f']. destruct Hl as (H1 & H2 & H3 & ->).
    split_and!; [done..|]. unfold contents. cbn [disk buffered set_buffer].
    by rewrite string_app_empty, !string_app_assoc, cut_drop.
Qed.

Lemma Write_ok p f :
  sound f → ∃ f', Write p f = (Ok tt, f') ∧ sound f' ∧ contents f' = contents f +:+ p.
Proof.
  intros Hs%(loop_ok_full p). unfold loop_ok, Write in *. destruct (write_loop 3 p f) as [rest f'].
  destruct Hs as (He & Hf & Hb & Hc). rewrite He. eexists. split; [done|].
  split; [by split_and!|]. unfold contents in *. cbn. by rewrite <- Hc, string_app_assoc.
Qed.

(** ** Lines *)

Definition nl : ascii := byte_of 10.

Lemma lines_from_app acc l rest :
  Forall (λ c, byte_val c ≠ 10) l →
  lines_from acc (l ++ nl :: rest) = (rev acc ++ l) :: lines_from [] rest.
Proof.
  intros Hl. revert acc. induction Hl as [|c l Hc _ IH]; intros acc.
  - rewrite app_nil_r. done.
  - cbn [app lines_from]. rewrite (proj2 (Z.eqb_neq _ _) Hc), IH. cbn.
    by rewrite <- app_assoc.
Qed.

(** The text of lines [bs], each ended by a newline. *)
Definition lines_text (bs : list string) : string := foldr (λ b s, (b +:+ newline) +:+ s) empty bs.

Lemma lines_of_text bs :
  Forall (λ b, Forall (λ c, byte_val c ≠ 10) (chars b)) bs →
  lines_from [] (chars (lines_text bs)) = chars <$> bs.
Proof.
  induction 1 as [|b bs Hb _ IH]; [done|]. cbn [lines_text foldr].
  rewrite !chars_app, <- app_assoc. change (chars newline) with [nl]. cbn [app].
  rewrite lines_from_app by done. cbn [rev app fmap list_fmap]. f_equal. exact IH.
Qed.

Section dlq_properties.
Context {UC : UnicodeCase} {JC : JSONCodec} {SE : SqlEngine} {TD : TimeDriver} {RC : RecordCodec}.

Lemma write_records_ok js : ∀ f f',
  sound f → write_records js f = (Ok tt, f') →
  sound f' ∧ ∃ bs, Forall2 (λ j b, marshal_record (record_of_job j) = Ok b) js bs
                   ∧ contents f' = contents f +:+ lines_text bs.
Proof.
  induction js as [|j js IH]; intros f f' Hs; cbn [write_records].
  - intros [= <-]. split; [done|]. exists []. split; [constructor|]. cbn. by rewrite string_app_empty.
  - destruct (marshal_record (record_of_job j)) as [b|e] eqn:Em; [|done].
    destruct (Write_ok (b +:+ newline) f Hs) as (f1 & -> & Hs1 & Hc1).
    intros (Hs' & bs & Hf & Hc)%IH; [|done]. split; [done|]. exists (b :: bs).
    split; [by constructor|]. rewrite Hc, Hc1. by rewrite string_app_assoc.
Qed.

Lemma scan_ids_lines {RL : RecordLaws} (js : list Job) bs :
  Forall2 (λ j b, marshal_record (record_of_job j) = Ok b) js bs →
  Forall (λ b, slen b < max_token) bs → Forall (λ j, plain_id (ID j)) js →
  scan_ids (chars <$> bs) None = Ok (ID <$> js).
Proof.
  induction 1 as [|j b js bs Hm _ IH]; [done|].
  intros [Hb Hbs]%Forall_cons [(Ha & Ht & Hne) Hjs]%Forall_cons. cbn [fmap list_fmap scan_ids].
  assert (zlen (chars b) = slen b) as ->.
  { unfold zlen, slen. by rewrite length_chars. }
  rewrite (proj2 (Z.leb_gt _ _) Hb), IH by done. cbn [mbind result_bind].
  destruct (marshal_line _ _ Hm) as (Hp & Htr & _ & Hcr).
  rewrite Hcr, of_chars_chars. unfold line_id. rewrite (TrimSpace_id b) by done.
  destruct (is_empty b) eqn:Eb; [by apply is_empty_true in Eb as ->|].
  rewrite Hp, (unmarshal_marshal (record_of_job j) b Ha Hm). cbn [record_of_job x_id].
  rewrite TrimSpace_id by done. by rewrite (proj2 (is_empty_false _) Hne).
Qed.

(** C36: an export that meets no write fault is complete, and replaying its file
    names exactly the exported jobs. The result is the number of dead letters
    listed; the file holds one record per job, and reading it back gives their
    identifiers in order, as long as these are ASCII, not empty and without
    space around them and every record is shorter than the line limit; a
    longer record makes the reading fail. *)
Theorem export_replay_roundtrip {RL : RecordLaws} clock limit s n f s' :
  ExportJSONL clock limit None [] s = (Ok n, Some f, s') →
  ∃ js bs, ListDLQ clock limit s = (Ok js, s') ∧ n = zlen js
    ∧ Forall2 (λ j b, marshal_record (record_of_job j) = Ok b) js bs
    ∧ disk f = lines_text bs
    ∧ (Forall (λ b, slen b < max_token) bs → Forall (λ j, plain_id (ID j)) js →
         ReadIDsFromFile (Ok (disk f)) None = Ok (ID <$> js))
    ∧ (Exists (λ b, max_token ≤ slen b) bs → is_ok (ReadIDsFromFile (Ok (disk f)) None) = false).
Proof.
  unfold ExportJSONL. destruct (ListDLQ clock limit s) as [[js|e] s1] eqn:El; [|done].
  destruct (write_records js (new_file [])) as [[[]|e] f1] eqn:Ew; [|done]. intros [= <- <- <-].
  assert (sound (new_file [])) as Hs by by split_and!.
  destruct (write_records_ok _ _ _ Hs Ew) as (Hs1 & bs & Hf & Hc).
  rewrite Flush_ok by done. cbn [disk]. change (contents f1 = lines_text bs) in Hc. rewrite Hc.
  assert (lines_from [] (chars (lines_text bs)) = chars <$> bs) as Hlines.
  { apply lines_of_text. clear -Hf RL. induction Hf as [|j b js bs Hm _ IH]; [done|].
    constructor; [|done]. by apply marshal_line in Hm as (_ & _ & ? & _). }
  exists js, bs. unfold ReadIDsFromFile. cbn [mbind result_bind]. rewrite Hlines.
  split_and!; [done..| |].
  - by apply scan_ids_lines.
  - clear. induction 1 as [b bs Hb|b bs _ IH]; cbn [fmap list_fmap scan_ids].
    + assert (zlen (chars b) = slen b) as -> by (unfold zlen, slen; by rewrite length_chars).
      by rewrite (proj2 (Z.leb_le _ _) Hb).
    + destruct (_ <=? _); [done|]. change (chars <$> bs) with (list_fmap _ _ chars bs) in IH.
      by destruct (scan_ids _ None).
Qed.

(** An export hides a failed write. When the records fit the writer's buffer
    the only write of the file is the deferred flush, whose error is dropped:
    the export reports success and its number of records, and the file is
    empty. *)
Theorem export_hides_write_failure clock limit s js s' bs e :
  ListDLQ clock limit s = (Ok js, s') →
  Forall2 (λ j b, marshal_record (record_of_job j) = Ok b) js bs →
  slen (lines_text bs) ≤ buffer_size → js ≠ [] →
  ∃ f, ExportJSONL clock limit None [Some (0%nat, e)] s = (Ok (zlen js), Some f, s') ∧ disk f = empty.
Proof.
  intros Hl Hf Hsz Hne. unfold ExportJSONL. rewrite Hl.
  assert (Hw : ∀ pre, slen (pre +:+ lines_text bs) ≤ buffer_size →
    write_records js (mkFile empty pre None [Some (0%nat, e)])
    = (Ok tt, mkFile empty (pre +:+ lines_text bs) None [Some (0%nat, e)])).
  { clear Hl Hne Hsz. induction Hf as [|j b js bs Hm _ IH]; intros pre Hp; cbn [write_records].
    - cbn. by rewrite string_app_empty.
    - rewrite Hm. cbn [lines_text foldr] in *. fold (lines_text bs) in *. unfold Write.
      rewrite write_loop_done.
      2: { unfold available. cbn [buffered]. rewrite !slen_app in *. pose proof (slen_nonneg (lines_text bs)). lia. }
      cbn [werr buffered].
      replace (pre +:+ ((b +:+ newline) +:+ lines_text bs))
        with ((pre +:+ (b +:+ newline)) +:+ lines_text bs) in * by apply string_app_assoc.
      exact (IH (pre +:+ (b +:+ newline)) Hp). }
  unfold new_file. rewrite (Hw empty Hsz). eexists. split; [done|].
  unfold Flush. cbn [werr buffered]. destruct (is_empty (empty +:+ lines_text bs)) eqn:E; [done|].
  unfold file_write, cut. cbn [wfaults disk]. by destruct (empty +:+ lines_text bs).
Qed.
End dlq_properties.

(** ** Witnesses *)

(** A record encodes to its identifier in braces. *)
Definition ref_records : RecordCodec := {|
  marshal_record := λ r,
    if bool_decide (Forall (λ c, byte_val c ≠ 10 ∧ byte_val c ≠ 13) (chars (x_id r)))
    then Ok ("{" +:+ x_id r +:+ "}") else Err "unsupported value"%string;
  unmarshal_id := λ s, Some (cut (String.length s - 2) (drop 1 s))
|}.

#[local] Existing Instances ref_unicode ref_codec ref_engine ref_driver ref_records.

Lemma starts_space_plain p2 p3 c l : never_space p2 p3 c → starts_space p2 p3 (c :: l) = false.
Proof.
  intros (H1 & H2 & H3). unfold starts_space. rewrite H1. destruct l as [|d [|e l]]; [done|..]; cbn.
  - by rewrite (proj1 (H2 d)).
  - by rewrite (proj1 (H2 d)), (proj1 (H3 d e)).
Qed.

Lemma ref_records_laws : @RecordLaws ref_records.
Proof.
  split; cbn; intros r b; [|intros _]; (case_bool_decide as Hid; [|done]); intros [= <-].
  - change (String "{" (x_id r +:+ "}")) with ("{" +:+ x_id r +:+ "}").
    split; [by destruct (x_id r)|]. rewrite !chars_app. cbn [chars list_ascii_of_string app].
    assert (Hrev : rev ("{"%char :: chars (x_id r) ++ ["}"%char])
      = "}"%char :: rev (chars (x_id r)) ++ ["{"%char]).
    { cbn. by rewrite rev_app_distr. }
    split_and!.
    + unfold trimmed. rewrite !chars_app. cbn [chars list_ascii_of_string app]. split.
      * change (list_ascii_of_string (x_id r)) with (chars (x_id r)).
        by apply starts_space_plain, never_space_plain.
      * change (list_ascii_of_string (x_id r)) with (chars (x_id r)). rewrite Hrev.
        by apply starts_space_plain, never_space_plain.
    + constructor; [done|]. apply Forall_app. split; [|by repeat constructor].
      eapply Forall_impl; [exact Hid|]. by intros c [].
    + unfold drop_cr. change (list_ascii_of_string (x_id r)) with (chars (x_id r)). by rewrite Hrev.
  - f_equal. assert (String.length ("{" +:+ x_id r +:+ "}") - 2 = String.length (x_id r))%nat as ->.
    { pose proof (slen_app "{" (x_id r +:+ "}")) as H1. rewrite (slen_app (x_id r) "}") in H1.
      change (slen "{") with 1 in H1. change (slen "}") with 1 in H1. unfold slen in H1. lia. }
    change (cut (String.length (x_id r)) (x_id r +:+ "}") = x_id r).
    apply cut_app.
Qed.
#[local] Existing Instance ref_records_laws.

Lemma export_replay_roundtrip_witness :
  ∃ f s', ExportJSONL 0 10 None [] (mkStore dead_table true []) = (Ok 1, Some f, s')
          ∧ ReadIDsFromFile (Ok (disk f)) None = Ok ["d"]%string.
Proof.
  destruct (ExportJSONL 0 10 None [] (mkStore dead_table true [])) as [[r [f|]] s'] eqn:E;
    [|by vm_compute in E].
  assert (r = Ok 1) as -> by (apply (f_equal (λ x, x.1.1)) in E; by vm_compute in E).
  exists f, s'. split; [done|].
  destruct (export_replay_roundtrip _ _ _ _ _ _ E) as (js & bs & Hl & _ & Hf & _ & Hr & _).
  vm_compute in Hl. injection Hl as <- _. apply Forall2_cons_inv_l in Hf as (b & ? & Hb & Hn & ->).
  apply Forall2_nil_inv_l in Hn as ->. vm_compute in Hb. injection Hb as <-. apply Hr.
  - by repeat constructor.
  - by repeat constructor.
Defined.

Lemma export_hides_write_failure_witness :
  ∃ f s', ExportJSONL 0 10 None [Some (0%nat, "no space left on device"%string)]
            (mkStore dead_table true []) = (Ok 1, Some f, s') ∧ disk f = empty.
Proof.
  destruct (ListDLQ 0 10 (mkStore dead_table true [])) as [[js|e] s'] eqn:El; [|by vm_compute in El].
  assert (∃ j, js = [j]) as [j ->].
  { apply (f_equal fst) in El. vm_compute in El. injection El as <-. by eexists. }
  destruct (marshal_record (record_of_job j)) as [b|e] eqn:Em.
  2: { apply (f_equal fst) in El. vm_compute in El. injection El as <-. by vm_compute in Em. }
  destruct (export_hides_write_failure 0 10 _ [j] s' [b] "no space left on device"%string El)
    as (f & Hf & Hd); [by repeat constructor| |done|by exists f, s'].
  apply (f_equal fst) in El. vm_compute in El. injection El as <-.
  vm_compute in Em. injection Em as <-. by vm_compute.
Defined.
