(* ===== verification/Httpops.v ===== *)
(** * The operations server of [internal/httpops/server.go]: its routes, its
    probes and its settings. The metrics handler is Prometheus', the server
    net/http's. *)

From S2P Require Import Prelude GoStrings SqlTime Queue Metrics.

(** ** The probes: a status code and a body *)

Definition json_status (s : string) : string :=
  of_chars (["{"%char; dquote] ++ chars "status" ++ [dquote; ":"%char; dquote] ++ chars s
            ++ [dquote; "}"%char; byte_of 10]).

Definition healthz : Z * string := (200, json_status "ok").

(** [http.Error] ends the body with a newline, as the JSON encoder does. *)
Definition readyz (dispatcher_ready : bool) : store → (Z * string) * store := λ s,
  match PingContext s with
  | (Err _, s') => ((503, json_status "db_unavailable"), s')
  | (Ok _, s') =>
      if negb dispatcher_ready then ((503, json_status "dispatcher_not_ready"), s')
      else ((200, json_status "ready"), s')
  end.

(** ** The server *)

Record http_settings := mkHTTPSettings { Addr : string; ReadHeaderTimeout : Z }.

Definition New_settings (addr : string) : http_settings := mkHTTPSettings addr (5 * Second).

(** What the mux serves at a path; its three patterns match exactly. *)
Inductive route := RouteMetrics | RouteHealthz | RouteReadyz.

Definition mux (path : string) : option route :=
  if (path =? "/metrics")%string then Some RouteMetrics
  else if (path =? "/healthz")%string then Some RouteHealthz
  else if (path =? "/readyz")%string then Some RouteReadyz
  else None.

(** [http.NotFound] *)
Definition not_found : Z * string := (404, "404 page not found" +:+ String (byte_of 10) EmptyString).

(** A request to a clean path: [exposition] is the text the registry's handler
    makes of the instruments. *)
Definition serve_path (exposition : Metrics → string) (m : Metrics) (dispatcher_ready : bool)
    (path : string) : store → (Z * string) * store := λ s,
  match mux path with
  | Some RouteMetrics => ((200, exposition m), s)
  | Some RouteHealthz => (healthz, s)
  | Some RouteReadyz => readyz dispatcher_ready s
  | None => (not_found, s)
  end.

(** A request never changes the jobs, and only [/readyz] asks the database. *)
Lemma serve_path_jobs exposition m ready path s :
  jobs (serve_path exposition m ready path s).2 = jobs s
  ∧ (path ≠ "/readyz"%string → (serve_path exposition m ready path s).2 = s).
Proof.
  unfold serve_path, mux.
  destruct (path =? "/metrics")%string; [done|]. destruct (path =? "/healthz")%string; [done|].
  destruct (path =? "/readyz")%string eqn:E; [|done]. apply String.eqb_eq in E. subst.
  split; [|done]. unfold readyz, PingContext, call. destruct (faults s) as [|[e|] fs]; [| |].
  all: by destruct ready.
Qed.
