(* ===== verification/Cli.v ===== *)
(** * The commands of [cmd/relay/main.go], from their parsed flags on; [Serve]
    parses the flags and runs them. [opened] is the outcome of opening the
    database. *)

From S2P Require Import Prelude GoStrings Message SqlTime Queue Metrics Config Dispatch Dlq.

(** ** Commands *)

Inductive subcommand := CmdServe | CmdMigrate | CmdDLQExport | CmdDLQReplay | CmdRetryNow.

Section cli.
Context `{UnicodeCase, JSONCodec, SqlEngine, TimeDriver, DurationParser, RecordCodec}.

Definition runDLQ (args : list string) : result error (subcommand * list string) :=
  match args with
  | [] => Err "usage: relay dlq export|replay"%string
  | a :: rest =>
      if (a =? "export")%string then Ok (CmdDLQExport, rest)
      else if (a =? "replay")%string then Ok (CmdDLQReplay, rest)
      else Err ("unknown dlq subcommand " +:+ Quote a +:+ " (expected: export|replay)")
  end.

Definition runQueue (args : list string) : result error (subcommand * list string) :=
  match args with
  | [] => Err "usage: relay queue retry-now"%string
  | a :: rest =>
      if (a =? "retry-now")%string then Ok (CmdRetryNow, rest)
      else Err ("unknown queue subcommand " +:+ Quote a +:+ " (expected: retry-now)")
  end.

(** The command that [run] dispatches to, with the arguments left to its flags. *)
Definition run (args : list string) : result error (subcommand * list string) :=
  match args with
  | [] => Ok (CmdServe, [])
  | a :: rest =>
      if (a =? "serve")%string then Ok (CmdServe, rest)
      else if (a =? "migrate")%string then Ok (CmdMigrate, rest)
      else if (a =? "dlq")%string then runDLQ rest
      else if (a =? "queue")%string then runQueue rest
      else Err ("unknown command " +:+ Quote a +:+ " (expected: serve|migrate|dlq|queue)")
  end.

(** The loop of [uniqueIDs] over the identifiers seen so far. *)
Fixpoint unique_loop (seen : gset string) (ids : list string) : list string :=
  match ids with
  | [] => []
  | i :: rest =>
      if bool_decide (i ∈ seen) then unique_loop seen rest
      else i :: unique_loop ({[ i ]} ∪ seen) rest
  end.
Definition uniqueIDs (ids : list string) : list string := unique_loop ∅ ids.

(** The identifiers [runDLQReplay] collects: those of [--ids] and those of the
    file, each once; the file is read only when one is named. *)
Definition replay_ids (idsCSV fromFile : string) (file : result error string)
    (readErr : option error) : result error (list string) :=
  if is_empty (TrimSpace idsCSV) && is_empty (TrimSpace fromFile)
  then Err "at least one of --ids or --from-file is required"%string else
  let ids := if negb (is_empty (TrimSpace idsCSV))
             then List.filter (λ p, negb (is_empty p)) (TrimSpace <$> Split idsCSV ",")
             else [] in
  fromIDs ← (if negb (is_empty (TrimSpace fromFile)) then ReadIDsFromFile file readErr else Ok []);
  let ids := uniqueIDs (ids ++ fromIDs) in
  if bool_decide (ids = []) then Err "no valid ids provided"%string else Ok ids.

Definition load_and_open (env : string → string) (opened : option error) : M store unit :=
  lift (LoadFromEnv env);;
  lift (match opened with Some e => Err e | None => Ok tt end).

Definition runMigrate (env : string → string) (opened : option error) : M store unit :=
  load_and_open env opened;; Migrate.

(** The number of records requeued. *)
Definition runDLQReplay (idsCSV fromFile : string) (file : result error string)
    (readErr : option error) (env : string → string) (opened : option error) (now : Z) : M store Z :=
  ids ← lift (replay_ids idsCSV fromFile file readErr);
  load_and_open env opened;;
  ReplayIDs ids now.

(** The number of records exported, and the file. *)
Definition runDLQExport (format : string) (limit : Z) (env : string → string)
    (opened created : option error) (fs : list write_outcome) (clock : Z) (s : store)
    : result error Z * option file * store :=
  if negb (ToLower (TrimSpace format) =? "jsonl")%string
  then (Err ("unsupported format " +:+ Quote format), None, s) else
  match load_and_open env opened s with
  | (Err e, s') => (Err e, None, s')
  | (Ok _, s') => ExportJSONL clock limit created fs s'
  end.

Definition runQueueRetryNow (env : string → string) (opened : option error) (now : Z) : M store Z :=
  load_and_open env opened;; RetryNow now.

(** [runServe] recovers stale leases before the dispatcher starts; a failure is logged. *)
Definition startup_requeue (leaseTimeout now : Z) : M world unit :=
  r ← try (on_store (RequeueStaleProcessing now leaseTimeout));
  match r with
  | Err _ => mret tt
  | Ok n => if 0 <? n then on_metrics (add_recoveries n) else mret tt
  end.
End cli.

(** [hostnameOr]; [None] when the name cannot be read. *)
Definition hostnameOr (hostname : option string) (def : string) : string :=
  match hostname with
  | Some h => if is_empty (TrimSpace h) then def else h
  | None => def
  end.
