(* ===== verification/System.v ===== *)
(** * The relay as a whole: what a 250 reply is worth, and what the operator's
    commands do to the queue. *)

From S2P Require Import Prelude GoStrings Message SqlTime Queue StoreLogic TableFacts QueueSpec QueueClaim QueueMark Reference QueueProps Metrics Dispatch DispatchLogic Config Smtp Connections SmtpProps Domains Mime MimeProps Dlq Httpops Cli.

(** [runServe] gives the SMTP server the transformer of [mimeparse]. *)
Definition mime_transformer `{UnicodeCase, NetLib, MimeLib} (includeCustomHeaders : bool)
    : Transformer := {|
  transform := λ from rcpts raw, match Transform includeCustomHeaders from rcpts raw with
                                 | Some r => r
                                 | None => Err empty
                                 end
|}.

Lemma queue_steps_grow `{UnicodeCase, JSONCodec, SqlEngine, TimeDriver} t t' :
  rtc queue_step t t' → grows t t'.
Proof.
  induction 1 as [|t1 t2 t3 [o Ho] _ IH]; [reflexivity|].
  etransitivity; [by eapply op_step_grows|done].
Qed.

(** A stored message has a row under its identifier. *)
Lemma enqueued_row `{UnicodeCase, JSONCodec} from now ulid msgs ids t t' i m :
  enqueued from now ulid 0 msgs ids t t' → msgs !! i = Some (Some m) →
  ∃ c cs p, Recipients m = c :: cs ∧ marshal m = Ok p
            ∧ t' !! ulid i = Some (job_row from now c p).
Proof.
  intros (rows & Hst & -> & Hu & Hnd & _ & ->) Hi.
  destruct (Forall2_lookup_l _ _ _ _ _ Hst Hi) as (x & Hx & (m0 & c & cs & p & [= <-] & Hc & Hp & Hrow)).
  exists c, cs, p. split_and!; [done..|]. apply lookup_union_Some_l.
  assert (x.1 = ulid i) as Hid.
  { assert (rows.*1 !! i = Some x.1) as Hi1 by by rewrite list_lookup_fmap, Hx.
    rewrite Hu, list_lookup_fmap in Hi1.
    apply lookup_lt_Some in Hi as Hlt. rewrite lookup_seq_lt in Hi1 by done. by injection Hi1 as <-. }
  rewrite <- Hid, <- Hrow. apply elem_of_list_to_map_1; [done|]. destruct x. by eapply list_elem_of_lookup_2.
Qed.

Section system.
Context {UC : UnicodeCase} {JC : JSONCodec} {SE : SqlEngine} {TD : TimeDriver} {NL : NetLib}
  {ML : MimeLib} {DP : DurationParser} {RC : RecordCodec} {L : Type} {RL : RateLimiter L}.

(** C1: an accepted message is never lost. Once a session's [Data] has replied
    250, then after any sequence of queue operations by the dispatcher, other
    sessions and the operator, under any database faults, every recipient of
    the session still has a row, under the identifier drawn for it, whose
    payload is the encoding of a message to that recipient alone and which
    keeps the normalised envelope sender and recipient. *)
Theorem accepted_message_never_lost inc cfg content err now ulid (w w' : sworld L) t :
  0 ≤ SMTPMaxMessageBytes cfg < max_int64 →
  Data (H2 := mime_transformer inc) cfg content err now ulid w = (None, w') →
  rtc queue_step (jobs (sw_store w')) t →
  ∀ i rcpt, recipients (sw_session w) !! i = Some rcpt →
  ∃ addr m p r, mail_ParseAddress rcpt = Ok addr ∧ Recipients m = [addr] ∧ marshal m = Ok p
    ∧ t !! ulid i = Some r ∧ r_payload r = p
    ∧ r_from r = ToLower (TrimSpace (envelopeFrom (sw_session w)))
    ∧ r_rcpt r = ToLower (TrimSpace (Email addr)).
Proof.
  intros Hlim Hd Hs i rcpt Hi.
  pose proof (Data_stored (TR := mime_transformer inc) cfg content err now ulid w Hlim) as Hdur.
  rewrite Hd in Hdur. destruct (Hdur eq_refl) as (_ & _ & msgs & ids & Ht & Hq & _).
  cbn in Ht. destruct (Transform _ _ _ _) as [res|] eqn:ET; [|done]. subst res.
  apply Transform_messages in ET
    as (h & n & f & build & _ & (subj & c & refs & rt & irt & ->) & Hf).
  destruct (Forall2_lookup_l _ _ _ _ _ Hf Hi) as (om & Hom & addr & Haddr & ->).
  destruct (enqueued_row _ _ _ _ _ _ _ i _ Hq Hom) as (c' & cs & p & [= <- <-] & Hp & Hrow).
  destruct (queue_steps_grow _ _ Hs _ _ Hrow) as (r & Hr & Hpay & Hfrom & Hrcpt & _).
  exists addr, (build_message inc n f subj c refs (collectHeaders h) rt irt addr), p, r.
  rewrite Hpay, Hfrom, Hrcpt. by split_and!.
Qed.

(** ** The sender of what is stored *)

(** What [Data] stored for a recipient, with the sender it chose. *)
Lemma Data_stored_message inc cfg content err now ulid (w : sworld L) i rcpt :
  0 ≤ SMTPMaxMessageBytes cfg < max_int64 →
  (Data (H2 := mime_transformer inc) cfg content err now ulid w).1 = None →
  recipients (sw_session w) !! i = Some rcpt →
  ∃ m p r env, marshal m = Ok p
    ∧ jobs (sw_store (Data (H2 := mime_transformer inc) cfg content err now ulid w).2) !! ulid i = Some r
    ∧ r_payload r = p
    ∧ mail_ParseAddress (envelopeFrom (sw_session w)) = Ok env
    ∧ (Email (From m) = Email env ∨ EqualFold (Email (From m)) (Email env) = true).
Proof.
  intros Hlim Hd Hi.
  destruct (Data_stored (TR := mime_transformer inc) cfg content err now ulid w Hlim Hd)
    as (_ & _ & msgs & ids & Ht & Hq & _).
  cbn in Ht. destruct (Transform _ _ _ _) as [res|] eqn:ET; [|done]. subst res.
  apply Transform_messages in ET
    as (h & n & f & build & Hs & (subj & c & refs & rt & irt & ->) & Hf).
  destruct (Forall2_lookup_l _ _ _ _ _ Hf Hi) as (om & Hom & addr & Haddr & ->).
  destruct (enqueued_row _ _ _ _ _ _ _ i _ Hq Hom) as (c' & cs & p & [= <- <-] & Hp & Hrow).
  apply selectFromAddress_ok in Hs as (env & Henv & Hfrom).
  eexists _, p, _, env. split_and!; [exact Hp|exact Hrow|done|exact Henv|]. cbn.
  destruct Hfrom as [[= -> ->]|(hdr & _ & [= -> ->] & Hfold)]; [by left|by right].
Qed.

(** C9: an accepted message does not name a foreign domain, for ASCII
    addresses. Whatever commands a session has seen, let it accept a message
    while its envelope sender is a plain ASCII address (two dot-atoms, no
    quoting). Each stored message then names a From address that is the
    envelope sender or equal to it under Unicode case folding; when that From
    address is ASCII too, its domain is one of the allowed ones. (A From
    address outside ASCII may escape: the fold identifies letters of different
    domains.) *)
Theorem no_forged_domain `{!NetLibLaws} inc cfg cs (w : sworld L) i content err now ulid :
  fresh_session (sw_session w) →
  0 ≤ SMTPMaxMessageBytes cfg < max_int64 →
  cs !! i = Some (CmdData content err now ulid) →
  (run_session (H2 := mime_transformer inc) cfg cs w).1 !! i = Some None →
  let w1 := (run_session (H2 := mime_transformer inc) cfg (take i cs) w).2 in
  let w2 := (Data (H2 := mime_transformer inc) cfg content err now ulid w1).2 in
  let sender := envelopeFrom (sw_session w1) in
  plain_address sender = true →
  ∀ j rcpt, recipients (sw_session w1) !! j = Some rcpt →
  ∃ m p r, marshal m = Ok p ∧ jobs (sw_store w2) !! ulid j = Some r ∧ r_payload r = p
    ∧ (Email (From m) = sender ∨ EqualFold (Email (From m)) sender = true)
    ∧ (ascii_only (Email (From m)) = true →
       senderDomain (Email (From m)) ∈ allowedDomains (sw_backend w)).
Proof.
  intros (Ha & He & _ & _) Hlim Hc Hr w1 w2 sender Hplain j rcpt Hj.
  destruct (run_session_all_backed (TR := mime_transformer inc) cfg (take i cs) [] w)
    as [[_ Hmail] Hal]; [split; [by rewrite Ha|by rewrite He]|]. fold w1 in Hmail, Hal.
  pose proof (run_session_at (TR := mime_transformer inc) cfg cs w i _ _ Hc Hr) as Hd.
  fold w1 in Hd. cbn in Hd.
  destruct (Data_accepts_guards (TR := mime_transformer inc) cfg _ _ _ _ w1 Hd) as (_ & Hne & _).
  destruct (Hmail Hne) as (_ & c & _ & tls & arg & addr & _ & Hp & Hemail & Hdom & _).
  destruct (Data_stored_message inc cfg content err now ulid w1 j rcpt Hlim Hd Hj)
    as (m & p & r & env & Hm & Hrow & Hpay & Henv & Hfrom).
  rewrite (plain_parses _ Hplain) in Henv. injection Henv as <-. cbn in Hfrom.
  exists m, p, r. split_and!; [done..|]. intros Hascm. rewrite Hal in Hdom.
  destruct Hfrom as [->|Hfold]; [done|].
  rewrite (senderDomain_fold _ (envelopeFrom (sw_session w1))); [done|done|by apply plain_ascii|done].
Qed.

(** ** The replay command *)

Lemma unique_loop_spec ids : ∀ seen,
  NoDup (unique_loop seen ids) ∧ (∀ i, i ∈ unique_loop seen ids ↔ i ∈ ids ∧ i ∉ seen)
  ∧ unique_loop seen ids `sublist_of` ids.
Proof.
  induction ids as [|x ids IH]; intros seen; cbn; [split_and!; [constructor|set_solver|done]|].
  case_bool_decide as Hx.
  - destruct (IH seen) as (H1 & H2 & H3). split_and!; [done| |by constructor].
    intros i. rewrite H2. set_solver.
  - destruct (IH ({[ x ]} ∪ seen)) as (H1 & H2 & H3). split_and!.
    + constructor; [|done]. rewrite H2. set_solver.
    + intros i. rewrite !elem_of_cons, H2. destruct (decide (i = x)) as [->|]; set_solver.
    + by constructor.
Qed.

(** The identifiers named by a non-blank [--ids] flag. *)
Definition csv_ids (idsCSV : string) : list string :=
  if is_empty (TrimSpace idsCSV) then []
  else List.filter (λ p, negb (is_empty p)) (TrimSpace <$> Split idsCSV ",").

Lemma replay_ids_ok idsCSV fromFile file readErr ids :
  replay_ids idsCSV fromFile file readErr = Ok ids →
  NoDup ids ∧ ids ≠ [] ∧ ∃ fromIDs,
    (if is_empty (TrimSpace fromFile) then fromIDs = [] else ReadIDsFromFile file readErr = Ok fromIDs)
    ∧ ids `sublist_of` csv_ids idsCSV ++ fromIDs
    ∧ ∀ i, i ∈ ids ↔ i ∈ csv_ids idsCSV ∨ i ∈ fromIDs.
Proof.
  unfold replay_ids. destruct (_ && _); [done|]. intros (fromIDs & Hfile & Hids)%bind_ok.
  assert ((if negb (is_empty (TrimSpace idsCSV)) then List.filter (λ p, negb (is_empty p))
    (TrimSpace <$> Split idsCSV ",") else []) = csv_ids idsCSV) as Hcsv
    by (unfold csv_ids; by destruct (is_empty (TrimSpace idsCSV))).
  rewrite Hcsv in Hids. revert Hids. case_bool_decide as Hne; [done|]. intros [= <-].
  destruct (unique_loop_spec (csv_ids idsCSV ++ fromIDs) ∅) as (H1 & H2 & H3).
  split_and!; [exact H1|exact Hne|]. exists fromIDs. split_and!; [|exact H3|].
  - destruct (is_empty (TrimSpace fromFile)); cbn in Hfile; [congruence|done].
  - intros i. unfold uniqueIDs. rewrite H2, elem_of_app. set_solver.
Qed.

(** The replay command does what it was told, once. Under any database
    faults [relay dlq replay] fails and changes nothing, or requeues exactly
    the dead letters among the identifiers given by the flag and the file,
    each considered once, clears their error, and prints their number. *)
Theorem replay_command_exact idsCSV fromFile file readErr env opened now t :
  ensures (runDLQReplay idsCSV fromFile file readErr env opened now)
    (λ r t', match r with
      | Err _ => t' = t
      | Ok n => ∃ ids fromIDs,
          (if is_empty (TrimSpace fromFile) then fromIDs = [] else ReadIDsFromFile file readErr = Ok fromIDs)
          ∧ NoDup ids ∧ (∀ i, i ∈ ids ↔ i ∈ csv_ids idsCSV ∨ i ∈ fromIDs)
          ∧ n = count_where (in_dlq ids) t ∧ n ≤ zlen ids
          ∧ t' = update_where (in_dlq ids) (replay_row now) t
      end) t.
Proof.
  unfold runDLQReplay. do 2 ensures_step.
  destruct (replay_ids _ _ _ _) as [ids|e] eqn:Ei; [|done].
  apply replay_ids_ok in Ei as (Hnd & Hne & fromIDs & Hfile & _ & Hin).
  unfold load_and_open. do 3 ensures_step. destruct (LoadFromEnv env); [|done]. ensures_step.
  destruct opened; [done|]. unfold ReplayIDs, RequeueDLQIDs. rewrite !decide_False by done.
  eapply ensures_mono; [apply ensures_update_counted|]. intros [n|e] t'; [|done].
  intros [-> ->]. exists ids, fromIDs. split_and!; [done..| |done].
  etransitivity; [apply (count_where_keys _ (TrimSpace <$> ids))|].
  - intros id r [_ Hid]%andb_prop. by apply bool_decide_eq_true in Hid.
  - unfold zlen. rewrite <- (length_fmap TrimSpace ids). apply inj_le.
    apply submseteq_length, NoDup_submseteq; [apply NoDup_remove_dups|].
    intros i. by rewrite elem_of_remove_dups.
Qed.

(** [/readyz] replies 200 exactly when the database answers the ping and the
    dispatcher is ready; it touches no job. *)
Lemma readyz_exact ready s :
  let '((code, _), s') := readyz ready s in
  jobs s' = jobs s ∧ (code = 200 ↔ is_ok (PingContext s).1 = true ∧ ready = true)
  ∧ (code = 200 ∨ code = 503).
Proof.
  unfold readyz. pose proof (call_jobs s) as Hj. unfold PingContext in *.
  destruct (call s) as [[[]|e] s']; destruct ready; cbn in *;
    (split; [done|split; [split; [done|by intros []]|by (left + right)]]).
Qed.
End system.

(** ** Witnesses, on the reference instances *)

#[local] Existing Instances ref_unicode ref_codec ref_engine ref_driver ref_net ref_mime ref_limiter.

Lemma accepted_message_never_lost_witness :
  ∃ w' r, Data (H2 := mime_transformer false) conn_config "hi" None 7 (λ i, pretty i) ready_sworld
            = (None, w')
    ∧ jobs (run_op (OpRetryNow 9) (sw_store w')).2 !! pretty 0%nat = Some r
    ∧ r_rcpt r = "a@example.net"%string.
Proof.
  destruct (Data (H2 := mime_transformer false) conn_config "hi" None 7 (λ i, pretty i) ready_sworld)
    as [[e|] w'] eqn:E; [by apply (f_equal fst) in E; vm_compute in E|].
  destruct (accepted_message_never_lost false conn_config "hi" None 7
    (λ i, pretty i) ready_sworld w' (jobs (run_op (OpRetryNow 9) (sw_store w')).2)
    ltac:(by cbn) E) with (i := 0%nat) (rcpt := "a@example.net"%string)
    as (addr & m & p & r & [= <-] & _ & _ & Hr & _ & _ & Hrcpt).
  - apply rtc_once. exists (OpRetryNow 9), (schema (sw_store w')), (faults (sw_store w')).
    by destruct (sw_store w').
  - done.
  - exists w', r. by split_and!.
Defined.

Lemma ref_net_laws : @NetLibLaws ref_net.
Proof. constructor. intros s Hs. cbn. by destruct (plain_at s Hs) as [r ->]. Qed.
#[local] Existing Instance ref_net_laws.

Lemma no_forged_domain_witness :
  let w1 := (run_session (H2 := mime_transformer false) conn_config (take 3 demo_commands) demo_sworld).2 in
  let w2 := (Data (H2 := mime_transformer false) conn_config "hi" None 7 (λ i, pretty i) w1).2 in
  ∃ m r, jobs (sw_store w2) !! pretty 0%nat = Some r ∧ marshal m = Ok (r_payload r)
    ∧ (ascii_only (Email (From m)) = true →
       senderDomain (Email (From m)) ∈ allowedDomains (sw_backend demo_sworld)).
Proof.
  destruct (no_forged_domain false conn_config demo_commands demo_sworld 3 "hi" None 7 (λ i, pretty i)) with (j := 0%nat) (rcpt := "a@example.net"%string)
    as (m & p & r & Hm & Hr & <- & _ & Hdom).
  - done.
  - by cbn.
  - done.
  - by vm_compute.
  - by vm_compute.
  - by vm_compute.
  - exists m, r. by split_and!.
Defined.
