(* ===== verification/Serve.v ===== *)
(** * The program: [main], [run], [runServe] and the commands of
    [cmd/relay/main.go], from the command line to the exit status, with the
    opening of the database ([OpenSQLite]) and the start of the dispatcher
    ([New], [Start]).

    What the outside world answers is a record. The actions that leave the
    process are logged in order; [defer] runs its action when the body
    returns, whatever it returns. *)

From S2P Require Import Prelude GoStrings Flags Logging Message SqlTime Queue Metrics Sender Dispatch Config ConfigProps Smtp SmtpServer Httpops Dlq Cli.

(** ** [OpenSQLite] *)

(** Its calls to the file system and the driver: [filepath.Dir] of the path,
    the errors of [os.MkdirAll] and of [sql.Open]. *)
Record open_calls := mkOpenCalls {
  oc_dir : string;
  oc_mkdir : option error;
  oc_open : option error
}.

Definition sqlite_dsn (path : string) : string :=
  "file:" +:+ path +:+ "?_pragma=journal_mode(WAL)&_pragma=busy_timeout(5000)".

(** The settings of the pool and the identity of the store. *)
Record SQLiteStore := mkSQLiteStore {
  st_dsn : string;
  st_maxOpenConns : Z;
  st_maxIdleConns : Z;
  st_workerID : string
}.

Definition OpenSQLite (oc : open_calls) (path : string) (maxOpenConns maxIdleConns : Z)
    (workerID : string) : result error SQLiteStore :=
  match oc_mkdir oc with
  | Some e => if negb (oc_dir oc =? ".")%string
              then Err ("create sqlite directory: " +:+ e) else Ok tt
  | None => Ok tt
  end;;
  match oc_open oc with
  | Some e => Err ("open sqlite: " +:+ e)
  | None => Ok (mkSQLiteStore (sqlite_dsn path) maxOpenConns maxIdleConns workerID)
  end.

Definition open_error (oc : open_calls) (cfg : Config.Config) (workerID : string) : option error :=
  match OpenSQLite oc (DBPath cfg) (DBMaxOpenConns cfg) (DBMaxIdleConns cfg) workerID with
  | Err e => Some e
  | Ok _ => None
  end.

(** ** The dispatcher's goroutines *)

(** [New]: a nil limiter becomes the one that never waits. *)
Inductive limiter := NoopLimiter | RateEvery (interval : Z).

Definition request_limiter (requestsPerMin : Z) : limiter :=
  match NewRequestLimiter requestsPerMin with
  | None => NoopLimiter
  | Some i => RateEvery i
  end.

Definition dispatcher_New (l : option limiter) : limiter := default NoopLimiter l.

Inductive goroutine := WorkerLoop (workerIdx : nat) | RequeueStaleLoop | QueueDepthLoop.

(** [Start]; the wait group counts one for each. *)
Definition Start (cfg : Dispatch.Config) : list goroutine :=
  (WorkerLoop <$> seq 0 (Z.to_nat (Workers cfg))) ++ [RequeueStaleLoop; QueueDepthLoop].

(** [Wait] returns when the wait group is back at zero after [done] calls of [wg.Done]. *)
Definition Wait (cfg : Dispatch.Config) (done : Z) : bool := zlen (Start cfg) - done =? 0.

(** ** The process *)

(** What leaves the process, in the order it happens; a goroutine counts when
    its [go] statement runs. *)
Inductive proc_action :=
| ActOpenDB (st : SQLiteStore)
| ActMigrate
| ActRecover
| ActStartDispatcher (gs : list goroutine) (l : limiter)
| ActListenHTTP (s : http_settings)
| ActListenSMTP (addr : string) (tls : bool)
| ActStopContext                       (* [cancel()] of the root context *)
| ActShutdownSMTP (timeout : Z)
| ActShutdownHTTP (timeout : Z)
| ActWaitDispatcher
| ActReleaseTimeout                    (* [shutdownCancel()] *)
| ActCloseDB
| ActSyncLogger.

Record process := mkProcess { p_world : world; p_log : list proc_action }.

Definition log_act (a : proc_action) : M process unit :=
  λ p, (Ok tt, mkProcess (p_world p) (p_log p ++ [a])).

Definition on_world {A} (m : M world A) : M process A := λ p,
  let '(r, w) := m (p_world p) in (r, mkProcess w (p_log p)).

Definition evolve (f : world → world) : M process unit :=
  λ p, (Ok tt, mkProcess (f (p_world p)) (p_log p)).

(** [defer cleanup()] before [body]. *)
Definition with_defer {A} (cleanup : M process unit) (body : M process A) : M process A := λ p,
  let '(r, p1) := body p in (r, (cleanup p1).2).

(** What ends a listener: [ListenAndServe] returns nil, the error it returns
    after a shutdown, or another error. *)
Inductive listener_result := ListenerNil | ListenerClosed | ListenerFailed (e : error).

Inductive service := HTTPOps | SMTPFront.

Definition service_prefix (s : service) : string :=
  match s with HTTPOps => "http ops server" | SMTPFront => "smtp server" end.

(** What the goroutine of a service posts on [errCh]. *)
Definition posted (s : service) (r : listener_result) : option error :=
  match r with
  | ListenerFailed e => Some (service_prefix s +:+ ": " +:+ e)
  | _ => None
  end.

(** What can happen while the relay serves, and which branch the select takes:
    [None] while it blocks. *)
Inductive happening := Signal | ListenerEnds (s : service) (r : listener_result).

Inductive stop_cause := StopSignal | StopService (e : error).

Fixpoint await (hs : list happening) : option stop_cause :=
  match hs with
  | [] => None
  | Signal :: _ => Some StopSignal
  | ListenerEnds s r :: rest =>
      match posted s r with Some e => Some (StopService e) | None => await rest end
  end.

(** What a command meets outside of the process. *)
Record host (Cert : Type) := mkHost {
  h_env : string → string;
  h_hostname : option string;
  h_pid : Z;
  h_open : open_calls;
  h_load : string → string → result error Cert;
  h_now : Z;                          (* the clock reading of the command *)
  h_smtp_stop : option error;         (* the outcome of go-smtp's Shutdown *)
  h_life : world → world;             (* what sessions and goroutines do until the select *)
  h_drain : world → world             (* and during the shutdown *)
}.
Arguments h_env {Cert} _ _.
Arguments h_hostname {Cert} _.
Arguments h_pid {Cert} _.
Arguments h_open {Cert} _.
Arguments h_load {Cert} _ _ _.
Arguments h_now {Cert} _.
Arguments h_smtp_stop {Cert} _.
Arguments h_life {Cert} _ _.
Arguments h_drain {Cert} _ _.

Section serve.
Context `{UnicodeCase, JSONCodec, SqlEngine, TimeDriver, DurationParser, ZapLib, HTTPLib}.
Context {Cert : Type} {L : Type} `{RateLimiter L}.

(** ** [runServe] *)

Definition worker_id (h : host Cert) : string :=
  hostnameOr (h_hostname h) "relay" +:+ "-" +:+ Itoa (h_pid h).

Definition open_store (h : host Cert) (cfg : Config.Config) (workerID : string)
    : M process SQLiteStore :=
  st ← lift (OpenSQLite (h_open h) (DBPath cfg) (DBMaxOpenConns cfg) (DBMaxIdleConns cfg) workerID);
  log_act (ActOpenDB st);; mret st.

(** From the configured services to the listeners. *)
Definition start_services (h : host Cert) (cfg : Config.Config)
    : M process (SmtpServer.Server Cert L) :=
  wrapM "db migration failed" (on_world (on_store Migrate));; log_act ActMigrate;;
  lift (NewMailerSendSender (MailersendAPIKey cfg) (MailersendBaseURL cfg));;
  let l := dispatcher_New (Some (request_limiter (MailersendBulkAPIMaxRequestsPerMin cfg))) in
  on_world (startup_requeue (Config.QueueLeaseTimeout cfg) (h_now h));; log_act ActRecover;;
  srv ← lift (SmtpServer.New (h_load h) cfg);
  log_act (ActStartDispatcher (Start (dispatch_config cfg)) l);;
  log_act (ActListenHTTP (New_settings (HTTPListenAddr cfg)));;
  log_act (ActListenSMTP (SmtpServer.Addr (smtpSrv srv))
             (bool_decide (is_Some (TLSConfig (smtpSrv srv)))));;
  mret srv.

Definition shutdown_timeout : Z := 20 * Second.

(** After the select: the listeners stop, then the dispatcher is waited for.
    The results of the two shutdowns are dropped. *)
Definition stop_services (h : host Cert) (srv : SmtpServer.Server Cert L) : M process unit :=
  with_defer (log_act ActReleaseTimeout)
    (let '(_, called, _) := Shutdown (h_smtp_stop h) srv in
     (if called : bool then log_act (ActShutdownSMTP shutdown_timeout) else mret tt);;
     log_act (ActShutdownHTTP shutdown_timeout);;
     evolve (h_drain h);;
     log_act ActWaitDispatcher).

(** [cause] is what the select received. *)
Definition runServe (args : list string) (h : host Cert) (cause : stop_cause) : M process unit :=
  lift (ParseFlags args ∅);;
  cfg ← lift (LoadFromEnv (h_env h));
  lift (ValidateServe cfg);;
  lift (Logging.New (LogLevel cfg));;
  with_defer (log_act ActSyncLogger)
    (open_store h cfg (worker_id h);;
     with_defer (log_act ActCloseDB)
       (srv ← start_services h cfg;
        with_defer (log_act ActStopContext)
          (evolve (h_life h);;
           match cause with
           | StopSignal => mret tt
           | StopService _ => log_act ActStopContext
           end;;
           stop_services h srv))).

(** [runServe] as a command of [run]: it prints nothing. *)
Definition serve_command (h : host Cert) (cause : stop_cause) (args : list string) (s : store)
    : result error string * option file * store :=
  let '(r, p) := runServe args h cause (mkProcess (mkWorld s NewMetrics 0 []) []) in
  ((_ ← r; Ok empty), None, wstore (p_world p)).
End serve.

(** ** The commands, from their arguments *)

(** What a one-shot command meets outside of the process. *)
Record cli_host := mkCliHost {
  c_env : string → string;
  c_open : open_calls;
  c_now : Z;
  c_clock : Z;
  c_created : option error;                    (* os.Create *)
  c_writes : list write_outcome;
  c_file : string → result error string;       (* the content of a file *)
  c_readErr : option error
}.

Definition newline : string := String (byte_of 10) EmptyString.

Definition export_flags : FlagSet :=
  <["out" := FString "./dlq-export.jsonl"]> (<["format" := FString "jsonl"]>
  (<["limit" := FInt 100000]> ∅)).
Definition replay_flags : FlagSet :=
  <["ids" := FString empty]> (<["from-file" := FString empty]> ∅).

Section commands.
Context `{UnicodeCase, JSONCodec, SqlEngine, TimeDriver, DurationParser, RecordCodec}.

(** What a command prints, or its error; the file it wrote; the store. *)
Abbreviation command_result := (result error string * option file * store)%type.

(** The error of opening the database with the configuration of the environment. *)
Definition opened (ch : cli_host) (workerID : string) : option error :=
  match LoadFromEnv (c_env ch) with
  | Ok cfg => open_error (c_open ch) cfg workerID
  | Err _ => None
  end.

Definition cmdMigrate (args : list string) (ch : cli_host) (s : store) : command_result :=
  let '(r, s') := (lift (ParseFlags args ∅);; runMigrate (c_env ch) (opened ch "migration")) s in
  ((_ ← r; Ok ("migration complete" +:+ newline)), None, s').

Definition cmdRetryNow (args : list string) (ch : cli_host) (s : store) : command_result :=
  let '(r, s') := (lift (ParseFlags args ∅);;
                   runQueueRetryNow (c_env ch) (opened ch "queue-retry-now") (c_now ch)) s in
  ((n ← r; Ok ("made " +:+ Itoa n +:+ " retry records eligible now" +:+ newline)), None, s').

Definition cmdDLQReplay (args : list string) (ch : cli_host) (s : store) : command_result :=
  let '(r, s') := (fs ← lift (ParseFlags args replay_flags);
                   runDLQReplay (string_flag "ids" fs) (string_flag "from-file" fs)
                     (c_file ch (string_flag "from-file" fs)) (c_readErr ch)
                     (c_env ch) (opened ch "dlq-replay") (c_now ch)) s in
  ((n ← r; Ok ("requeued " +:+ Itoa n +:+ " records" +:+ newline)), None, s').

Definition cmdDLQExport (args : list string) (ch : cli_host) (s : store) : command_result :=
  match ParseFlags args export_flags with
  | Err e => (Err e, None, s)
  | Ok fs =>
      let '(r, f, s') := runDLQExport (string_flag "format" fs) (int_flag "limit" fs) (c_env ch)
                           (opened ch "dlq-export") (c_created ch) (c_writes ch) (c_clock ch) s in
      ((n ← r; Ok ("exported " +:+ Itoa n +:+ " records to " +:+ string_flag "out" fs +:+ newline)),
       f, s')
  end.

(** [run]: [serve] is [runServe] with the world it meets. *)
Definition run_args (serve : list string → store → command_result) (args : list string)
    (ch : cli_host) (s : store) : command_result :=
  match run args with
  | Err e => (Err e, None, s)
  | Ok (CmdServe, rest) => serve rest s
  | Ok (CmdMigrate, rest) => cmdMigrate rest ch s
  | Ok (CmdDLQExport, rest) => cmdDLQExport rest ch s
  | Ok (CmdDLQReplay, rest) => cmdDLQReplay rest ch s
  | Ok (CmdRetryNow, rest) => cmdRetryNow rest ch s
  end.

(** [main]: the exit status and what the program itself prints on standard
    output and standard error. The logger and the usage text of [flag] also go
    to standard error and are not part of it. *)
Definition main (r : result error string) : Z * string * string :=
  match r with
  | Ok out => (0, out, empty)
  | Err e => (1, empty, "error: " +:+ e +:+ newline)
  end.
End commands.
