(* ===== verification/ServeProps.v ===== *)
(** * The properties of the program: its life from the command line to the
    exit status, and its flags. *)

From S2P Require Import Prelude GoStrings Flags Logging Message SqlTime Queue StoreLogic TableFacts QueueSpec QueueClaim QueueMark Reference QueueProps Metrics Sender SenderProps Dispatch DispatchLogic DispatchProps Config ConfigProps Smtp SmtpProps SmtpServer Httpops Dlq DlqProps Cli Serve System.

(** ** Specification *)

Section spec.
Context {Cert L : Type}.

(** The actions of a startup that succeeds. *)
Definition startup_log (cfg : Config.Config) (srv : SmtpServer.Server Cert L) : list proc_action :=
  [ActMigrate; ActRecover;
   ActStartDispatcher (Start (dispatch_config cfg))
     (request_limiter (MailersendBulkAPIMaxRequestsPerMin cfg));
   ActListenHTTP (New_settings (HTTPListenAddr cfg));
   ActListenSMTP (SmtpServer.Addr (smtpSrv srv)) (SMTPRequireSTARTTLS cfg)].

(** The actions from the select to the exit. *)
Definition shutdown_log (cause : stop_cause) : list proc_action :=
  match cause with StopSignal => [] | StopService _ => [ActStopContext] end ++
  [ActShutdownSMTP (20 * Second); ActShutdownHTTP (20 * Second); ActWaitDispatcher;
   ActReleaseTimeout; ActStopContext; ActCloseDB; ActSyncLogger].
End spec.

(** ** Lemmas *)

Section lemmas.
Context `{UnicodeCase, JSONCodec, SqlEngine, TimeDriver, DurationParser, ZapLib, HTTPLib}.
Context {Cert : Type} {L : Type} `{RateLimiter L}.

Lemma startup_requeue_ok lease now w : (startup_requeue lease now w).1 = Ok tt.
Proof.
  unfold startup_requeue, try, mbind, M_bind, on_store.
  destruct (RequeueStaleProcessing now lease (wstore w)) as [[n|e] s']; cbn; [|done].
  by destruct (0 <? n).
Qed.

Lemma operates_startup_requeue lease now : operates (startup_requeue lease now).
Proof.
  unfold startup_requeue. apply operates_bind.
  - apply operates_try, (operates_store _ (OpRequeueStale now lease)). apply jobs_bind_ret.
  - intros [n|e]; [|apply operates_ret]. case_match; [apply operates_metrics|apply operates_ret].
Qed.

(** A migration that succeeds leaves the jobs and a schema. *)
Lemma migrate_world w r w' :
  on_store Migrate w = (r, w') →
  wjobs w' = wjobs w ∧ (r = Ok tt → schema (wstore w') = true).
Proof.
  unfold on_store, wjobs. pose proof (Migrate_spec (wstore w)) as [Hj Hs].
  destruct (Migrate (wstore w)) as [r1 s1]. by intros [= <- <-].
Qed.

(** The server has TLS exactly when STARTTLS is required. *)
Lemma New_tls (load : string → string → result error Cert) cfg (srv : SmtpServer.Server Cert L) :
  SmtpServer.New load cfg = Ok srv →
  bool_decide (is_Some (TLSConfig (smtpSrv srv))) = SMTPRequireSTARTTLS cfg.
Proof.
  unfold SmtpServer.New. destruct (SMTPRequireSTARTTLS cfg); [|by intros [= <-]].
  intros (cert & _ & [= <-])%bind_ok. by apply bool_decide_eq_true_2.
Qed.

(** What a startup does, whether or not it succeeds. *)
Lemma start_services_cases (h : host Cert) cfg p :
  let '(r, p') := start_services (L := L) h cfg p in
  rtc queue_step (wjobs (p_world p)) (wjobs (p_world p'))
  ∧ match r with
    | Ok srv => SmtpServer.New (h_load h) cfg = Ok srv
                ∧ p_log p' = p_log p ++ startup_log cfg srv
    | Err _ => ∃ mid, p_log p' = p_log p ++ mid ∧ mid `prefix_of` [ActMigrate; ActRecover]
    end.
Proof.
  unfold start_services, wrapM, on_world, mbind, M_bind.
  destruct (on_store Migrate (p_world p)) as [r w1] eqn:Em. cbn.
  destruct (migrate_world _ _ _ Em) as [Hj _].
  destruct r as [[]|e]; cbn; rewrite <- Hj.
  2: { split; [apply rtc_refl|]. exists []. rewrite app_nil_r. split; [done|apply prefix_nil]. }
  destruct (NewMailerSendSender _ _) as [snd|e]; cbn.
  2: { split; [apply rtc_refl|]. exists [ActMigrate]. split; [done|by eexists]. }
  pose proof (startup_requeue_ok (Config.QueueLeaseTimeout cfg) (h_now h) w1) as Hok.
  pose proof (operates_startup_requeue (Config.QueueLeaseTimeout cfg) (h_now h) w1) as Hop.
  destruct (startup_requeue _ _ w1) as [r2 w2]. cbn in Hok, Hop. subst r2. cbn.
  destruct (SmtpServer.New (h_load h) cfg) as [srv|e] eqn:En; cbn; (split; [done|]).
  - split; [done|]. unfold startup_log. rewrite (New_tls _ _ _ En). by rewrite <- !app_assoc.
  - exists [ActMigrate; ActRecover]. by rewrite <- !app_assoc.
Qed.

Lemma stop_services_log (h : host Cert) (srv : SmtpServer.Server Cert L) p :
  stopped srv = false →
  stop_services h srv p = (Ok tt, mkProcess (h_drain h (p_world p))
    (p_log p ++ [ActShutdownSMTP (20 * Second); ActShutdownHTTP (20 * Second);
                 ActWaitDispatcher; ActReleaseTimeout])).
Proof.
  intros Hs. unfold stop_services, Shutdown. rewrite Hs. unfold with_defer, mbind, M_bind. cbn.
  by rewrite <- !app_assoc.
Qed.

Lemma New_not_stopped (load : string → string → result error Cert) cfg (srv : SmtpServer.Server Cert L) :
  SmtpServer.New load cfg = Ok srv → stopped srv = false.
Proof.
  unfold SmtpServer.New. destruct (SMTPRequireSTARTTLS cfg); [|by intros [= <-]].
  by intros (cert & _ & [= <-])%bind_ok.
Qed.
End lemmas.

(** ** The life of [relay serve] *)

Section serve_properties.
Context `{UnicodeCase, JSONCodec, SqlEngine, TimeDriver, DurationParser, ZapLib, HTTPLib}.
Context {Cert : Type} {L : Type} `{RateLimiter L}.

(** The stages before the database is opened. *)
Definition configured (args : list string) (h : host Cert) : result error Config.Config :=
  ParseFlags args ∅;;
  cfg ← LoadFromEnv (h_env h);
  ValidateServe cfg;;
  Logging.New (LogLevel cfg);;
  Ok cfg.

Definition opened_as (h : host Cert) (cfg : Config.Config) : result error SQLiteStore :=
  OpenSQLite (h_open h) (DBPath cfg) (DBMaxOpenConns cfg) (DBMaxIdleConns cfg) (worker_id h).

(** Before the logger is built nothing is deferred. *)
Lemma runServe_configured args (h : host Cert) cause p :
  runServe (L := L) args h cause p =
  match configured args h with
  | Err e => (Err e, p)
  | Ok cfg => with_defer (log_act ActSyncLogger)
      (open_store h cfg (worker_id h);;
       with_defer (log_act ActCloseDB)
         (srv ← start_services (L := L) h cfg;
          with_defer (log_act ActStopContext)
            (evolve (h_life h);;
             match cause with StopSignal => mret tt | StopService _ => log_act ActStopContext end;;
             stop_services h srv))) p
  end.
Proof.
  unfold runServe, configured, mbind, M_bind, result_bind, lift.
  destruct (ParseFlags args ∅); [|done]. destruct (LoadFromEnv (h_env h)) as [cfg|]; [|done].
  destruct (ValidateServe cfg); [|done]. by destruct (Logging.New (LogLevel cfg)).
Qed.

(** What [runServe] does to the log and the jobs, by the stage it reaches. *)
Definition lifecycle (args : list string) (h : host Cert) (cause : stop_cause) (w : world)
    (r : result error unit) (p : process) : Prop :=
  match r with
  | Ok _ => ∃ cfg st (srv : SmtpServer.Server Cert L) w1,
      configured args h = Ok cfg ∧ opened_as h cfg = Ok st
      ∧ SmtpServer.New (h_load h) cfg = Ok srv
      ∧ p_log p = ActOpenDB st :: startup_log cfg srv ++ shutdown_log cause
      ∧ rtc queue_step (wjobs w) (wjobs w1) ∧ p_world p = h_drain h (h_life h w1)
  | Err _ =>
      rtc queue_step (wjobs w) (wjobs (p_world p))
      ∧ (p_log p = [] ∨ p_log p = [ActSyncLogger]
         ∨ ∃ st mid, p_log p = ActOpenDB st :: mid ++ [ActCloseDB; ActSyncLogger]
                     ∧ mid `prefix_of` [ActMigrate; ActRecover])
  end.

Lemma runServe_lifecycle args (h : host Cert) cause w :
  let '(r, p) := runServe (L := L) args h cause (mkProcess w []) in lifecycle args h cause w r p.
Proof.
  rewrite runServe_configured. unfold lifecycle.
  destruct (configured args h) as [cfg|e] eqn:Ec; [|split; [apply rtc_refl|by left]].
  unfold with_defer, open_store, mbind, M_bind, lift, log_act, evolve. cbn.
  destruct (OpenSQLite _ _ _ _ _) as [st|e] eqn:Eo; cbn;
    [|split; [apply rtc_refl|by right; left]].
  pose proof (start_services_cases (L := L) h cfg (mkProcess w [ActOpenDB st])) as Hs.
  destruct (start_services h cfg _) as [[srv|e] p1]; cbn in Hs; destruct Hs as [Hq Hs]; cbn.
  2: { destruct Hs as (mid & Hl & Hp). split; [done|]. right; right. exists st, mid.
       split; [|done]. rewrite Hl. cbn. by rewrite <- app_assoc. }
  destruct Hs as [Hn Hl].
  destruct cause as [|e]; cbn;
    rewrite (stop_services_log h srv _ (New_not_stopped _ _ _ Hn)); cbn;
    exists cfg, st, srv, (p_world p1); split_and!; try done; rewrite Hl; cbn;
    by rewrite <- ?app_assoc.
Qed.

(** C13: [relay serve] starts nothing it has not prepared and stops everything it
    started, in order. When it returns without an error, the flags, the
    configuration, its validation and the logger succeeded; the database was
    opened, migrated and its stale leases recovered before the dispatcher and
    then the two listeners started (the SMTP listener with TLS exactly when
    STARTTLS is required); after the select the SMTP listener, the HTTP
    listener and the dispatcher stopped, in that order, before the database
    was closed. When it returns an error no listener and no goroutine was
    started, and the database was closed if it had been opened. *)
Theorem serve_lifecycle args (h : host Cert) cause w :
  let '(r, p) := runServe (L := L) args h cause (mkProcess w []) in
  match r with
  | Ok _ => ∃ cfg st (srv : SmtpServer.Server Cert L) w1,
      configured args h = Ok cfg ∧ opened_as h cfg = Ok st
      ∧ SmtpServer.New (h_load h) cfg = Ok srv
      ∧ p_log p = ActOpenDB st :: startup_log cfg srv ++ shutdown_log cause
      ∧ rtc queue_step (wjobs w) (wjobs w1) ∧ p_world p = h_drain h (h_life h w1)
  | Err _ =>
      rtc queue_step (wjobs w) (wjobs (p_world p))
      ∧ (p_log p = [] ∨ p_log p = [ActSyncLogger]
         ∨ ∃ st mid, p_log p = ActOpenDB st :: mid ++ [ActCloseDB; ActSyncLogger]
                     ∧ mid `prefix_of` [ActMigrate; ActRecover])
  end.
Proof. exact (runServe_lifecycle args h cause w). Qed.

(** ** What the process reports *)

Lemma await_failed hs e :
  await hs = Some (StopService e) →
  ∃ s msg, ListenerEnds s (ListenerFailed msg) ∈ hs ∧ e = service_prefix s +:+ ": " +:+ msg.
Proof.
  induction hs as [|[|s r] hs IH]; cbn; try done.
  destruct r as [| |msg]; cbn.
  1, 2: intros Ha; destruct (IH Ha) as (s' & msg & Hin & ->); exists s', msg; split; [by right|done].
  intros [= <-]. exists s, msg. split; [by left|done].
Qed.

(** The result does not depend on what ended the service. *)
Lemma runServe_result args (h : host Cert) cause cause' p :
  (runServe (L := L) args h cause p).1 = (runServe (L := L) args h cause' p).1.
Proof.
  rewrite !runServe_configured. destruct (configured args h) as [cfg|e]; [|done].
  unfold with_defer, mbind, M_bind.
  destruct (open_store h cfg (worker_id h) p) as [[st|e] p1]; [|done]. cbn.
  pose proof (start_services_cases (L := L) h cfg p1) as Hs.
  destruct (start_services h cfg p1) as [[srv|e] p2]; cbn; [|done].
  destruct Hs as (_ & Hn & _).
  destruct cause, cause'; cbn; by rewrite !(stop_services_log h srv _ (New_not_stopped _ _ _ Hn)).
Qed.

(** A relay that dies of a failed listener exits with status 0. When a
    listener cannot be opened or fails later, the select receives its error,
    the relay logs it and shuts down, and [main] exits as after a signal:
    status 0 and no error message. *)
Theorem listener_failure_exits_zero args (h : host Cert) hs e p :
  await hs = Some (StopService e) →
  (runServe (L := L) args h StopSignal p).1 = Ok tt →
  main (_ ← (runServe (L := L) args h (StopService e) p).1; Ok empty) = (0, empty, empty)
  ∧ ∃ s msg, ListenerEnds s (ListenerFailed msg) ∈ hs ∧ e = service_prefix s +:+ ": " +:+ msg.
Proof.
  intros Ha Hs. rewrite (runServe_result _ _ _ StopSignal), Hs. split; [done|by apply await_failed].
Qed.
End serve_properties.

(** ** Commands from the command line *)

Section command_properties.
Context `{UnicodeCase, JSONCodec, SqlEngine, TimeDriver, DurationParser, RecordCodec}.

(** The spellings of one flag and its value. *)
Definition spelled (name value : string) (args : list string) : Prop :=
  ∃ d, dashes d ∧ (args = [d +:+ name +:+ "=" +:+ value] ∨ args = [d +:+ name; value]).

Lemma spelled_parses name value args fs old :
  spelled name value args → flag_name name = true → fs !! name = Some old →
  ParseFlags args fs = set_named name value old fs.
Proof.
  intros (d & Hd & Hargs) Hn Ho.
  destruct (ParseFlags_spelling d name value [] fs old Hd Hn Ho) as [Heq Hnext]. cbn zeta in *.
  assert (∀ r : result error FlagSet, (fs' ← r; ParseFlags [] fs') = r) as Hr by by intros [].
  rewrite Hr in Heq, Hnext. by destruct Hargs as [-> | ->].
Qed.

Lemma replay_ids_flags csv args :
  spelled "ids" csv args →
  ParseFlags args replay_flags = Ok (<["ids" := FString csv]> replay_flags).
Proof. intros Hs. by rewrite (spelled_parses _ _ _ _ (FString empty) Hs). Qed.

Lemma cmdDLQReplay_ids csv args ch s :
  spelled "ids" csv args →
  cmdDLQReplay args ch s =
  let '(r, s') := runDLQReplay csv empty (c_file ch empty) (c_readErr ch) (c_env ch)
                    (opened ch "dlq-replay") (c_now ch) s in
  ((n ← r; Ok ("requeued " +:+ Itoa n +:+ " records" +:+ newline)), None, s').
Proof.
  intros Hs. unfold cmdDLQReplay. unfold mbind at 1, M_bind, lift.
  by rewrite (replay_ids_flags csv args Hs).
Qed.

(** C22: [relay dlq replay --ids=...], from the arguments to the table. However
    the flag is spelled, the process exits with status 1 and leaves the jobs
    alone, or exits with status 0 after it requeued exactly the dead letters
    among the identifiers of the list, once each and due now, and printed
    their number. Nothing else is touched and no file is written. *)
Theorem replay_from_argv serve csv args ch s :
  spelled "ids" csv args →
  let '(r, f, s') := run_args serve ("dlq" :: "replay" :: args) ch s in
  let '(code, out, _) := main r in
  f = None ∧
  (code = 1 ∧ out = empty ∧ jobs s' = jobs s
   ∨ ∃ ids, code = 0 ∧ NoDup ids ∧ (∀ i, i ∈ ids ↔ i ∈ csv_ids csv)
       ∧ out = "requeued " +:+ Itoa (count_where (in_dlq ids) (jobs s)) +:+ " records" +:+ newline
       ∧ jobs s' = update_where (in_dlq ids) (replay_row (c_now ch)) (jobs s)).
Proof.
  intros Hs. cbn [run_args run String.eqb Ascii.eqb Bool.eqb runDLQ].
  rewrite (cmdDLQReplay_ids csv args ch s Hs).
  pose proof (replay_command_exact csv empty (c_file ch empty) (c_readErr ch) (c_env ch)
    (opened ch "dlq-replay") (c_now ch) (jobs s) s eq_refl) as He.
  destruct (runDLQReplay _ _ _ _ _ _ _ s) as [[n|e] s']; cbn in *; (split; [done|]); [right|by left].
  destruct He as (ids & fromIDs & -> & Hnd & Hids & -> & _ & Ht). exists ids.
  split_and!; [done|done| |done|done]. intros i. rewrite Hids.
  split; [intros [Hi|Hi%elem_of_nil]; done|by left].
Qed.

(** ** What the other commands do *)








End command_properties.

(** ** Witnesses, on the reference instances *)

Definition ref_zap : ZapLib := {|
  level_UnmarshalText := λ s, if (s =? "debug")%string then Some (-1) else None;
  zap_Build := λ _, None
|}.

Definition ref_http : HTTPLib := {|
  marshal_bulk := λ _, Ok "[]"%string;
  bulk_email_id := λ _, empty;
  url_Parse := λ s, Ok (mkURL "https" s empty);
  url_String := λ u, Host u;
  url_Reference := λ _ _, Err "no reference"%string;
  url_Stripped := λ u, Host u;
  redirect_headers := λ req _ _, rHeaders req;
  round_trip := λ _, NoResponse "unreachable"
|}.

#[local] Existing Instances ref_unicode ref_codec ref_engine ref_driver ref_durations ref_zap ref_http ref_records.
#[local] Existing Instance Connections.ref_limiter.

Definition demo_host : host unit :=
  mkHost unit (demo_env empty) (Some "mail"%string) 42 (mkOpenCalls "data" None None)
    (λ _ _, Ok tt) 100 None id id.

Definition demo_process : process := mkProcess (demo_world demo_table) [].

Definition port_in_use : list happening :=
  [ListenerEnds HTTPOps ListenerNil; ListenerEnds SMTPFront (ListenerFailed "listen tcp :2525: bind: address already in use")].

Lemma listener_failure_exits_zero_witness :
  let e := "smtp server: listen tcp :2525: bind: address already in use"%string in
  await port_in_use = Some (StopService e)
  ∧ main (_ ← (runServe (L := unit) [] demo_host (StopService e) demo_process).1; Ok empty)
    = (0, empty, empty).
Proof.
  intros e. split; [by vm_compute|].
  apply (listener_failure_exits_zero (L := unit) [] demo_host port_in_use); by vm_compute.
Defined.

Definition demo_serve := serve_command (L := unit) demo_host StopSignal.

Definition demo_cli : cli_host :=
  mkCliHost (demo_env empty) (mkOpenCalls "data" None None) 100 100 None []
    (λ _, Err "no such file"%string) None.

(** A dead letter beside the jobs of [demo_table]. *)
Definition dlq_store : store :=
  mkStore (<["d1"%string := dlq_row "gone" 422 5 (claim_row "w" 4 (demo_row StatusQueued 1))]> demo_table) true [].

Lemma replay_from_argv_witness :
  ∃ s', run_args demo_serve ["dlq"; "replay"; "--ids=d1,d1,x"]%string demo_cli dlq_store
        = (Ok ("requeued 1 records" +:+ newline), None, s')
        ∧ ∃ ids, jobs s' = update_where (in_dlq ids) (replay_row 100) (jobs dlq_store).
Proof.
  pose proof (replay_from_argv demo_serve "d1,d1,x" ["--ids=d1,d1,x"%string] demo_cli dlq_store) as Hr.
  destruct (run_args _ _ _ _) as [[r f] s'] eqn:E. exists s'.
  assert (r = Ok ("requeued 1 records" +:+ newline) ∧ f = None) as [-> ->].
  { split; [apply (f_equal (λ x, x.1.1)) in E|apply (f_equal (λ x, x.1.2)) in E];
      vm_compute in E; by rewrite <- E. }
  split; [done|]. destruct Hr as [_ [(Hcode & _)|(ids & _ & _ & _ & _ & Ht)]].
  - exists "--"%string. split; [by right|by left].
  - done.
  - by exists ids.
Defined.


(** A registry that accepts valid descriptors under fresh names only. *)
Definition ref_registry : PromRegistry := {|
  prom_DefBuckets := [5; 10; 25; 50; 100; 250; 500; 1000; 2500; 5000; 10000];
  prom_Register := λ reg d,
    if valid_desc d && bool_decide (d_name d ∉ d_name <$> reg) then None
    else Some "duplicate metrics collector registration attempted"%string
|}.

Lemma ref_registry_laws : @PromRegistryLaws ref_registry.
Proof.
  constructor; [by vm_compute|]. intros reg d Hv Hd. cbn. by rewrite Hv, bool_decide_eq_true_2.
Qed.

Lemma metrics_register_ref : @Metrics.New ref_registry = Some (@descs ref_registry, NewMetrics).
Proof. exact (@New_registers ref_registry ref_registry_laws). Qed.
